(** * GibberWalletWeb: the sound-based wallet message transport

    A shallow embedding of the message layer of the repository
    (message-protocol.ts, audio-protocol.ts, eip-audio-protocol.ts,
    eip-config.ts, audio-config.ts, eip-message-handler.ts) and the
    properties of its envelope codec, chunker, reassembler, version policy
    and expectation handling.

    Layout:
    - [JS]      : the JavaScript values the code manipulates and the
                  platform operations it calls (typeof, ===, truthiness,
                  property access, JSON.stringify, JSON.parse, substring,
                  Array.prototype.sort/join);
    - [Msg]     : class Message and class MessageProtocol;
    - [Config]  : audio-config.ts;
    - [Eip]     : eip-config.ts (createEIPMessage, validateEIPMessage);
    - [Audio]   : class AudioProtocol;
    - [EipAudio]: class EIPAudioProtocol (the chunking variant);
    - [Handler] : class EIPMessageHandler. *)

From Stdlib Require Import String Ascii List ZArith NArith PeanoNat Lia Bool.
From Stdlib Require Import Decimal DecimalFacts DecimalPos DecimalN DecimalString.
From Stdlib Require Import Permutation Sorted.
From Stdlib Require Hexadecimal HexadecimalString HexadecimalN.
From Stdlib Require QArith Qround.
Import ListNotations.

Local Open Scope list_scope.
Local Open Scope string_scope.

(* ================================================================== *)
(** * JavaScript values and platform operations                         *)
(* ================================================================== *)

Module JS.

(** The values that travel through the message layer.  Numbers are the
    integers (chunk counters, chain ids); a string is a sequence of code
    units, each an [ascii] (code units 0..255).  An object is its list of
    own properties in enumeration order; objects built by the program or
    by [JSON_parse] never repeat a key. *)
#[local] Unset Elimination Schemes.
Inductive value : Type :=
| VUndefined
| VNull
| VBool (b : bool)
| VNum (n : Z)
| VStr (s : string)
| VArr (elems : list value)
| VObj (props : list (string * value)).
#[local] Set Elimination Schemes.

(** Induction over the nested lists. *)
Fixpoint value_nested_ind (P : value -> Prop)
    (Hundef : P VUndefined) (Hnull : P VNull)
    (Hbool : forall b, P (VBool b)) (Hnum : forall n, P (VNum n))
    (Hstr : forall s, P (VStr s))
    (Harr : forall l, Forall P l -> P (VArr l))
    (Hobj : forall ps, Forall (fun kv => P (snd kv)) ps -> P (VObj ps))
    (v : value) {struct v} : P v :=
  let rec := value_nested_ind P Hundef Hnull Hbool Hnum Hstr Harr Hobj in
  match v with
  | VUndefined => Hundef
  | VNull => Hnull
  | VBool b => Hbool b
  | VNum n => Hnum n
  | VStr s => Hstr s
  | VArr l =>
      Harr l ((fix go (l : list value) : Forall P l :=
                 match l with
                 | [] => Forall_nil P
                 | x :: t => Forall_cons x (rec x) (go t)
                 end) l)
  | VObj ps =>
      Hobj ps ((fix go (ps : list (string * value))
                  : Forall (fun kv => P (snd kv)) ps :=
                  match ps with
                  | [] => Forall_nil _
                  | kv :: t =>
                      @Forall_cons _ (fun kv => P (snd kv)) kv t
                                   (rec (snd kv)) (go t)
                  end) ps)
  end.

(** A thrown exception aborts the computation. *)
Inductive result (A : Type) : Type :=
| Ok (a : A)
| Throw (what : string).
Arguments Ok {A} a.
Arguments Throw {A} what.

Definition bind {A B} (r : result A) (k : A -> result B) : result B :=
  match r with
  | Ok a => k a
  | Throw e => Throw e
  end.

Notation "'do' x <- r ; k" := (bind r (fun x => k))
  (at level 10, x name, r at level 100, k at level 200).

(** ** typeof, truthiness, strict equality *)

Definition typeof (v : value) : string :=
  match v with
  | VUndefined => "undefined"
  | VNull => "object"
  | VBool _ => "boolean"
  | VNum _ => "number"
  | VStr _ => "string"
  | VArr _ => "object"
  | VObj _ => "object"
  end.

(** [ToBoolean]: undefined, null, false, 0 and the empty string are falsy. *)
Definition truthy (v : value) : bool :=
  match v with
  | VUndefined => false
  | VNull => false
  | VBool b => b
  | VNum n => negb (n =? 0)%Z
  | VStr s => negb (s =? "")
  | VArr _ => true
  | VObj _ => true
  end.

(** [a === b] on primitives.  Arrays and objects are compared by
    reference; two values decoded from different texts are never the same
    reference, so the comparison is [false] for them. *)
Definition strict_eq (a b : value) : bool :=
  match a, b with
  | VUndefined, VUndefined => true
  | VNull, VNull => true
  | VBool x, VBool y => Bool.eqb x y
  | VNum x, VNum y => (x =? y)%Z
  | VStr x, VStr y => (x =? y)
  | _, _ => false
  end.

(** [a || b] *)
Definition or_else (a b : value) : value := if truthy a then a else b.

(** ** Property access *)

Fixpoint lookup (k : string) (ps : list (string * value)) : option value :=
  match ps with
  | [] => None
  | (k', v) :: t => if k' =? k then Some v else lookup k t
  end.

(** [o.k]: a TypeError on undefined and null, [undefined] when the
    property is missing (no property of the prototypes is ever read by the
    code). *)
Definition get (o : value) (k : string) : result value :=
  match o with
  | VUndefined => Throw "TypeError"
  | VNull => Throw "TypeError"
  | VObj ps => Ok (match lookup k ps with Some v => v | None => VUndefined end)
  | _ => Ok VUndefined
  end.

(** [o[k] = v]: an existing property keeps its position, a new one is
    appended. *)
Fixpoint set_prop (k : string) (v : value) (ps : list (string * value))
  : list (string * value) :=
  match ps with
  | [] => [(k, v)]
  | (k', v') :: t => if k' =? k then (k, v) :: t else (k', v') :: set_prop k v t
  end.

(** ** Strings *)

Definition dquote : ascii := "034"%char.
Definition backslash : ascii := "\"%char.

(** [Array.prototype.join] on strings. *)
Fixpoint join (sep : string) (l : list string) : string :=
  match l with
  | [] => ""
  | [x] => x
  | x :: t => x ++ sep ++ join sep t
  end.

Definition hex_digit (n : nat) : ascii :=
  nth n ["0"; "1"; "2"; "3"; "4"; "5"; "6"; "7"; "8"; "9";
         "a"; "b"; "c"; "d"; "e"; "f"]%char "0"%char.

(** [QuoteJSONString], one code unit. *)
Definition quote_char (c : ascii) : string :=
  if (c =? dquote)%char then String backslash (String dquote "")
  else if (c =? backslash)%char then String backslash (String backslash "")
  else if (c =? "008")%char then String backslash "b"
  else if (c =? "012")%char then String backslash "f"
  else if (c =? "010")%char then String backslash "n"
  else if (c =? "013")%char then String backslash "r"
  else if (c =? "009")%char then String backslash "t"
  else if (nat_of_ascii c <? 32)%nat then
    String backslash
      (String "u" (String "0" (String "0"
         (String (hex_digit (nat_of_ascii c / 16))
            (String (hex_digit (nat_of_ascii c mod 16)) "")))))
  else String c "".

Fixpoint quote_body (s : string) : string :=
  match s with
  | EmptyString => ""
  | String c r => quote_char c ++ quote_body r
  end.

Definition quote (s : string) : string :=
  String dquote (quote_body s ++ String dquote "").

(** [Number::toString] of an integer. *)
Definition number_to_string (n : Z) : string :=
  match n with
  | Z0 => "0"
  | Zpos p => NilEmpty.string_of_uint (Pos.to_uint p)
  | Zneg p => String "-" (NilEmpty.string_of_uint (Pos.to_uint p))
  end.

(** ** JSON.stringify

    [SerializeJSONProperty] without indentation.  An undefined array
    element is written [null]; an undefined property is left out. *)
Fixpoint stringify (v : value) : string :=
  match v with
  | VUndefined => "null"
  | VNull => "null"
  | VBool true => "true"
  | VBool false => "false"
  | VNum n => number_to_string n
  | VStr s => quote s
  | VArr l => "[" ++ join "," (map stringify l) ++ "]"
  | VObj ps =>
      "{" ++ join ","
               (flat_map (fun kv : string * value =>
                            let (k, x) := kv in
                            match x with
                            | VUndefined => @nil string
                            | _ => [quote k ++ ":" ++ stringify x]
                            end) ps) ++ "}"
  end.

(** [JSON.stringify(v)]: [undefined] (here [None]) for [undefined]. *)
Definition JSON_stringify (v : value) : option string :=
  match v with
  | VUndefined => None
  | _ => Some (stringify v)
  end.

(** ** JSON.parse

    A recursive-descent reader of the JSON grammar.  [None] is the
    SyntaxError that [JSON.parse] throws.  Numbers are read as integers: a
    fraction or an exponent is outside the modelled values and is
    refused, as is a [\u] escape above code unit 255. *)

Definition is_ws (c : ascii) : bool :=
  ((c =? " ") || (c =? "009") || (c =? "010") || (c =? "013"))%char.

Fixpoint skip_ws (s : string) : string :=
  match s with
  | String c r => if is_ws c then skip_ws r else s
  | EmptyString => s
  end.

Definition hex_value (c : ascii) : option nat :=
  let n := nat_of_ascii c in
  if ((48 <=? n) && (n <=? 57))%nat then Some (n - 48)
  else if ((97 <=? n) && (n <=? 102))%nat then Some (n - 87)
  else if ((65 <=? n) && (n <=? 70))%nat then Some (n - 55)
  else None.

Definition unicode_escape (h1 h2 h3 h4 : ascii) : option ascii :=
  match hex_value h1, hex_value h2, hex_value h3, hex_value h4 with
  | Some a, Some b, Some c, Some d =>
      let n := ((a * 16 + b) * 16 + c) * 16 + d in
      if (n <? 256)%nat then Some (ascii_of_nat n) else None
  | _, _, _, _ => None
  end.

Definition simple_escape (c : ascii) : option ascii :=
  if (c =? dquote)%char then Some dquote
  else if (c =? backslash)%char then Some backslash
  else if (c =? "/")%char then Some "/"%char
  else if (c =? "b")%char then Some "008"%char
  else if (c =? "f")%char then Some "012"%char
  else if (c =? "n")%char then Some "010"%char
  else if (c =? "r")%char then Some "013"%char
  else if (c =? "t")%char then Some "009"%char
  else None.

(** The characters of a string literal after its opening quote, up to and
    including the closing quote. *)
Fixpoint parse_string_body (s : string) : option (string * string) :=
  match s with
  | EmptyString => None
  | String c r =>
      if (c =? dquote)%char then Some ("", r)
      else if (c =? backslash)%char then
        match r with
        | String "u" (String h1 (String h2 (String h3 (String h4 r')))) =>
            match unicode_escape h1 h2 h3 h4, parse_string_body r' with
            | Some x, Some (body, rest) => Some (String x body, rest)
            | _, _ => None
            end
        | String e r' =>
            match simple_escape e, parse_string_body r' with
            | Some x, Some (body, rest) => Some (String x body, rest)
            | _, _ => None
            end
        | EmptyString => None
        end
      else if (nat_of_ascii c <? 32)%nat then None
      else
        match parse_string_body r with
        | Some (body, rest) => Some (String c body, rest)
        | None => None
        end
  end.

Definition digit_of (c : ascii) : option (uint -> uint) :=
  if (c =? "0")%char then Some D0
  else if (c =? "1")%char then Some D1
  else if (c =? "2")%char then Some D2
  else if (c =? "3")%char then Some D3
  else if (c =? "4")%char then Some D4
  else if (c =? "5")%char then Some D5
  else if (c =? "6")%char then Some D6
  else if (c =? "7")%char then Some D7
  else if (c =? "8")%char then Some D8
  else if (c =? "9")%char then Some D9
  else None.

(** The longest prefix of decimal digits. *)
Fixpoint read_digits (s : string) : uint * string :=
  match s with
  | EmptyString => (Nil, s)
  | String c r =>
      match digit_of c with
      | Some d => let (u, rest) := read_digits r in (d u, rest)
      | None => (Nil, s)
      end
  end.

(** JSON's integer part: [0] or a digit sequence without a leading zero. *)
Definition int_part_ok (u : uint) : bool :=
  match u with
  | Nil => false
  | D0 Nil => true
  | D0 _ => false
  | _ => true
  end.

Definition starts_fraction (s : string) : bool :=
  match s with
  | String c _ => ((c =? ".") || (c =? "e") || (c =? "E"))%char
  | EmptyString => false
  end.

(** A number, after its optional minus sign. *)
Definition parse_number (negative : bool) (s : string)
  : option (value * string) :=
  let (u, rest) := read_digits s in
  if int_part_ok u && negb (starts_fraction rest) then
    let n := Z.of_N (N.of_uint u) in
    Some (VNum (if negative then (- n)%Z else n), rest)
  else None.

Fixpoint expect (word s : string) : option string :=
  match word, s with
  | EmptyString, _ => Some s
  | String a w, String b r => if (a =? b)%char then expect w r else None
  | String _ _, EmptyString => None
  end.

(** [value], [elements] (after the first element is known to exist) and
    [members] of the grammar.  Every call consumes a unit of [fuel]; the
    length of the text is always enough (see [parse_value_stringify]).
    A repeated key overwrites the earlier property in place, as
    [JSON.parse] does. *)
Fixpoint parse_value (fuel : nat) (s : string) {struct fuel}
  : option (value * string) :=
  match fuel with
  | O => None
  | S fuel' =>
      match skip_ws s with
      | EmptyString => None
      | String c r =>
          if (c =? "{")%char then
            match skip_ws r with
            | EmptyString => None
            | String c' r' =>
                if (c' =? "}")%char then Some (VObj [], r')
                else
                  match parse_members fuel' (String c' r') [] with
                  | Some (ps, rest) => Some (VObj ps, rest)
                  | None => None
                  end
            end
          else if (c =? "[")%char then
            match skip_ws r with
            | EmptyString => None
            | String c' r' =>
                if (c' =? "]")%char then Some (VArr [], r')
                else
                  match parse_elements fuel' (String c' r') with
                  | Some (l, rest) => Some (VArr l, rest)
                  | None => None
                  end
            end
          else if (c =? dquote)%char then
            match parse_string_body r with
            | Some (str, rest) => Some (VStr str, rest)
            | None => None
            end
          else if (c =? "n")%char then
            match expect "ull" r with
            | Some rest => Some (VNull, rest)
            | None => None
            end
          else if (c =? "t")%char then
            match expect "rue" r with
            | Some rest => Some (VBool true, rest)
            | None => None
            end
          else if (c =? "f")%char then
            match expect "alse" r with
            | Some rest => Some (VBool false, rest)
            | None => None
            end
          else if (c =? "-")%char then parse_number true r
          else parse_number false (String c r)
      end
  end

with parse_elements (fuel : nat) (s : string) {struct fuel}
  : option (list value * string) :=
  match fuel with
  | O => None
  | S fuel' =>
      match parse_value fuel' s with
      | None => None
      | Some (v, rest) =>
          match skip_ws rest with
          | EmptyString => None
          | String c r =>
              if (c =? ",")%char then
                match parse_elements fuel' r with
                | Some (l, rest') => Some (v :: l, rest')
                | None => None
                end
              else if (c =? "]")%char then Some ([v], r)
              else None
          end
      end
  end

with parse_members (fuel : nat) (s : string) (acc : list (string * value))
  {struct fuel} : option (list (string * value) * string) :=
  match fuel with
  | O => None
  | S fuel' =>
      match skip_ws s with
      | EmptyString => None
      | String c r =>
          if (c =? dquote)%char then
            match parse_string_body r with
            | None => None
            | Some (k, rest) =>
                match skip_ws rest with
                | EmptyString => None
                | String c1 r1 =>
                    if (c1 =? ":")%char then
                      match parse_value fuel' r1 with
                      | None => None
                      | Some (v, rest1) =>
                          match skip_ws rest1 with
                          | EmptyString => None
                          | String c2 r2 =>
                              if (c2 =? ",")%char then
                                parse_members fuel' r2 (set_prop k v acc)
                              else if (c2 =? "}")%char then
                                Some (set_prop k v acc, r2)
                              else None
                          end
                      end
                    else None
                end
            end
          else None
      end
  end.

(** [JSON.parse(text)] *)
Definition JSON_parse (text : string) : option value :=
  match parse_value (S (String.length text)) text with
  | Some (v, rest) =>
      match skip_ws rest with
      | EmptyString => Some v
      | _ => None
      end
  | None => None
  end.

(** The text from index [n] on: [s.substring(n)]. *)
Fixpoint suffix (n : nat) (s : string) : string :=
  match n, s with
  | O, _ => s
  | S n', String _ r => suffix n' r
  | S _, EmptyString => ""
  end.

(** ** Conversions *)

(** [ToString].  An array is its elements joined by commas, with
    [undefined] and [null] written as nothing. *)
Fixpoint to_string (v : value) : string :=
  match v with
  | VUndefined => "undefined"
  | VNull => "null"
  | VBool true => "true"
  | VBool false => "false"
  | VNum n => number_to_string n
  | VStr s => s
  | VArr l =>
      join "," (map (fun x => match x with
                              | VUndefined => ""
                              | VNull => ""
                              | _ => to_string x
                              end) l)
  | VObj _ => "[object Object]"
  end.

(** [Array.prototype.join] *)
Definition array_join (sep : string) (l : list value) : string :=
  join sep (map (fun x => match x with
                          | VUndefined => ""
                          | VNull => ""
                          | _ => to_string x
                          end) l).

(** [StringToNumber] on the spellings of integers: optional white space,
    an optional sign, decimal digits; the empty string is 0.  [None] is
    NaN (also returned for the hexadecimal, fractional and exponent
    spellings, which denote numbers outside the model). *)
Definition string_to_number (s : string) : option Z :=
  match skip_ws s with
  | EmptyString => Some 0%Z
  | String c r =>
      let negative := (c =? "-")%char in
      let body := if ((c =? "-") || (c =? "+"))%char then r else String c r in
      let (u, rest) := read_digits body in
      match u, skip_ws rest with
      | Nil, _ => None
      | _, EmptyString =>
          let n := Z.of_N (N.of_uint u) in
          Some (if negative then (- n)%Z else n)
      | _, _ => None
      end
  end.

(** [ToNumber]; [None] is NaN. *)
Definition to_number (v : value) : option Z :=
  match v with
  | VUndefined => None
  | VNull => Some 0%Z
  | VBool b => Some (if b then 1 else 0)%Z
  | VNum n => Some n
  | VStr s => string_to_number s
  | VArr _ => string_to_number (to_string v)
  | VObj _ => None
  end.

(** [a - b]; [None] is NaN. *)
Definition minus (a b : value) : option Z :=
  match to_number a, to_number b with
  | Some x, Some y => Some (x - y)%Z
  | _, _ => None
  end.

(** [s.substring(start, end)]: the code units from [min start end] up to
    [max start end], clipped to the string. *)
Definition substring (s : string) (start stop : nat) : string :=
  String.substring (Nat.min start stop)
                   (Nat.max start stop - Nat.min start stop) s.

(** [Array.prototype.sort(compare)], a stable sort: an element is moved
    in front of another only when [compare] is positive on them (NaN
    counts as 0).  For a comparator that does not order the elements
    consistently the result of [sort] is implementation-defined; this is
    the result of inserting from the right. *)
Section Sort.
Context {A : Type} (compare : A -> A -> option Z).

Definition in_order (a b : A) : bool :=
  match compare a b with
  | Some d => (d <=? 0)%Z
  | None => true
  end.

Fixpoint insert (a : A) (l : list A) : list A :=
  match l with
  | [] => [a]
  | b :: t => if in_order a b then a :: l else b :: insert a t
  end.

Fixpoint sort (l : list A) : list A :=
  match l with
  | [] => []
  | a :: t => insert a (sort t)
  end.

(** On the elements of [l] the comparator is the difference of the keys. *)
Definition keyed (key : A -> Z) (l : list A) : Prop :=
  forall a b, In a l -> In b l -> compare a b = Some (key a - key b)%Z.

End Sort.

Definition le_key {A : Type} (key : A -> Z) (a b : A) : Prop :=
  (key a <= key b)%Z.

(** ** Map

    A [Map] is its entries in insertion order.  Keys are compared with
    SameValueZero, which is [strict_eq] on the modelled values. *)
Section Map.
Context {V : Type}.

Fixpoint map_get (k : value) (m : list (value * V)) : option V :=
  match m with
  | [] => None
  | (k', v) :: t => if strict_eq k' k then Some v else map_get k t
  end.

Definition map_has (k : value) (m : list (value * V)) : bool :=
  match map_get k m with Some _ => true | None => false end.

Fixpoint map_set (k : value) (v : V) (m : list (value * V))
  : list (value * V) :=
  match m with
  | [] => [(k, v)]
  | (k', v') :: t =>
      if strict_eq k' k then (k', v) :: t else (k', v') :: map_set k v t
  end.

Fixpoint map_delete (k : value) (m : list (value * V)) : list (value * V) :=
  match m with
  | [] => []
  | (k', v') :: t =>
      if strict_eq k' k then t else (k', v') :: map_delete k t
  end.

End Map.

(** ** JSON-representable values

    The values that [JSON.stringify] writes without loss: no [undefined]
    anywhere (it is dropped from objects and becomes [null] in arrays) and
    no object with a repeated key. *)

Fixpoint no_dup_keys (ks : list string) : bool :=
  match ks with
  | [] => true
  | k :: t => negb (existsb (String.eqb k) t) && no_dup_keys t
  end.

Fixpoint json_clean (v : value) : bool :=
  match v with
  | VUndefined => false
  | VArr l => forallb json_clean l
  | VObj ps =>
      forallb (fun kv : string * value => let (_, x) := kv in json_clean x) ps
      && no_dup_keys (map fst ps)
  | _ => true
  end.

(** Number of nodes, counting each list cell: the fuel [parse_value]
    needs on [stringify v]. *)
Fixpoint size (v : value) : nat :=
  match v with
  | VArr l => S (list_sum (map (fun x => S (size x)) l))
  | VObj ps =>
      S (list_sum (map (fun kv : string * value =>
                          let (_, x) := kv in S (size x)) ps))
  | _ => 1
  end.

(** What may follow a value inside a text written by [stringify]. *)
Definition delimited (rest : string) : bool :=
  match rest with
  | EmptyString => true
  | String c _ => ((c =? ",") || (c =? "]") || (c =? "}"))%char
  end.

(** One member of an object, as [stringify] writes it. *)
Definition member (kv : string * value) : string :=
  quote (fst kv) ++ ":" ++ stringify (snd kv).

Definition props_clean (ps : list (string * value)) : bool :=
  forallb (fun kv : string * value => let (_, x) := kv in json_clean x) ps.

(** [parse_value] reads [x] back from its text, whatever follows it. *)
Definition parses (x : value) : Prop :=
  json_clean x = true ->
  forall fuel rest, size x <= fuel -> delimited rest = true ->
  parse_value fuel (stringify x ++ rest) = Some (x, rest).

(** ** Radix conversions and white space *)

(** [WhiteSpace] and [LineTerminator], among the code units up to 255:
    tab, line feed, vertical tab, form feed, carriage return, space and
    no-break space. *)
Definition is_space (c : ascii) : bool :=
  let n := nat_of_ascii c in
  ((9 <=? n) && (n <=? 13) || (n =? 32) || (n =? 160))%nat.

Fixpoint trim_start (s : string) : string :=
  match s with
  | String c r => if is_space c then trim_start r else s
  | EmptyString => s
  end.

(** The string without its white space at the end. *)
Fixpoint trim_end (s : string) : string :=
  match s with
  | EmptyString => ""
  | String c r =>
      match trim_end r with
      | EmptyString => if is_space c then "" else String c ""
      | r' => String c r'
      end
  end.

(** [s.trim()] *)
Definition trim (s : string) : string := trim_end (trim_start s).

(** [s.startsWith(prefix)] *)
Definition startsWith (s prefix : string) : bool := String.prefix prefix s.

(** [n.toString(16)] of an integer: lower-case digits, a minus sign in
    front of a negative number. *)
Definition number_to_string_16 (n : Z) : string :=
  match n with
  | Z0 => "0"
  | Zpos p =>
      HexadecimalString.NilEmpty.string_of_uint (Pos.to_hex_uint p)
  | Zneg p =>
      String "-"
        (HexadecimalString.NilEmpty.string_of_uint (Pos.to_hex_uint p))
  end.

Definition hex_digit_of (c : ascii)
  : option (Hexadecimal.uint -> Hexadecimal.uint) :=
  if (c =? "0")%char then Some Hexadecimal.D0
  else if (c =? "1")%char then Some Hexadecimal.D1
  else if (c =? "2")%char then Some Hexadecimal.D2
  else if (c =? "3")%char then Some Hexadecimal.D3
  else if (c =? "4")%char then Some Hexadecimal.D4
  else if (c =? "5")%char then Some Hexadecimal.D5
  else if (c =? "6")%char then Some Hexadecimal.D6
  else if (c =? "7")%char then Some Hexadecimal.D7
  else if (c =? "8")%char then Some Hexadecimal.D8
  else if (c =? "9")%char then Some Hexadecimal.D9
  else if ((c =? "a") || (c =? "A"))%char then Some Hexadecimal.Da
  else if ((c =? "b") || (c =? "B"))%char then Some Hexadecimal.Db
  else if ((c =? "c") || (c =? "C"))%char then Some Hexadecimal.Dc
  else if ((c =? "d") || (c =? "D"))%char then Some Hexadecimal.Dd
  else if ((c =? "e") || (c =? "E"))%char then Some Hexadecimal.De
  else if ((c =? "f") || (c =? "F"))%char then Some Hexadecimal.Df
  else None.

(** The longest prefix of hexadecimal digits. *)
Fixpoint read_hex_digits (s : string) : Hexadecimal.uint * string :=
  match s with
  | EmptyString => (Hexadecimal.Nil, s)
  | String c r =>
      match hex_digit_of c with
      | Some d => let (u, rest) := read_hex_digits r in (d u, rest)
      | None => (Hexadecimal.Nil, s)
      end
  end.

(** The sign that [parseInt] reads after the white space. *)
Definition strip_sign (s : string) : bool * string :=
  match s with
  | String c r =>
      if (c =? "-")%char then (true, r)
      else if (c =? "+")%char then (false, r)
      else (false, s)
  | EmptyString => (false, s)
  end.

(** The prefix [0x] or [0X] that [parseInt] skips when the radix is 16. *)
Definition strip_0x (s : string) : string :=
  match s with
  | String c0 (String c1 r) =>
      if ((c0 =? "0") && ((c1 =? "x") || (c1 =? "X")))%char then r else s
  | _ => s
  end.

(** [parseInt(s, 16)]; [None] is NaN. *)
Definition parseInt_16 (s : string) : option Z :=
  let (negative, body) := strip_sign (trim_start s) in
  let (u, _) := read_hex_digits (strip_0x body) in
  match u with
  | Hexadecimal.Nil => None
  | _ =>
      let n := Z.of_N (N.of_hex_uint u) in
      Some (if negative then (- n)%Z else n)
  end.

(** [parseInt(s, 10)]; [None] is NaN. *)
Definition parseInt_10 (s : string) : option Z :=
  let (negative, body) := strip_sign (trim_start s) in
  let (u, _) := read_digits body in
  match u with
  | Nil => None
  | _ =>
      let n := Z.of_N (N.of_uint u) in
      Some (if negative then (- n)%Z else n)
  end.

(** The keys of a [Map] are pairwise different; every [Map] satisfies
    this. *)
Fixpoint map_unique {V : Type} (m : list (value * V)) : bool :=
  match m with
  | [] => true
  | (k, _) :: t =>
      negb (existsb (fun kv : value * V => strict_eq (fst kv) k) t)
      && map_unique t
  end.

(** [s.toLowerCase()] on code units up to 255: the letters A-Z and the
    capital letters of Latin-1 (192-214, 216-222). *)
Definition lower_char (c : ascii) : ascii :=
  let n := nat_of_ascii c in
  if ((65 <=? n) && (n <=? 90)
      || (192 <=? n) && (n <=? 222) && negb (n =? 215))%nat
  then ascii_of_nat (n + 32) else c.

Fixpoint toLowerCase (s : string) : string :=
  match s with
  | EmptyString => ""
  | String c r => String (lower_char c) (toLowerCase r)
  end.

(** ** setTimeout *)

(** The delay that [setTimeout(callback, ms)] arms: the browser converts
    the argument to a signed 32-bit integer (it wraps around) and takes a
    negative result as 0. *)
Definition to_int32 (n : Z) : Z :=
  ((n + 2147483648) mod 4294967296 - 2147483648)%Z.

Definition setTimeout_delay (ms : Z) : Z := Z.max 0 (to_int32 ms).

End JS.

(* ================================================================== *)
(** * message-protocol.ts                                               *)
(* ================================================================== *)

Module Msg.
Import JS.

(** [MessageType] *)
Module MessageType.
Definition CONNECT := "connect".
Definition CONNECT_RESPONSE := "connect_response".
Definition TX_REQUEST := "tx_request".
Definition TX_RESPONSE := "tx_response".
Definition ACK := "ack".
Definition ERROR := "error".
Definition CHUNK := "chunk".
Definition CHUNK_ACK := "chunk_ack".
End MessageType.

(** [class Message].  The fields are declared [string],
    [MessageTypeValues], [any] and [string]; [fromJSON] stores whatever the
    text holds, so each field is a value. *)
Record Message : Type := mkMessage {
  version : value;
  type : value;
  payload : value;
  id : value
}.

(** [new Message(version, type, payload, id)]; [uuid] is what [uuidv4()]
    returns when it is called. *)
Definition new_Message (uuid : string) (version type payload id : value)
  : Message :=
  {| version := version;
     type := type;
     payload := payload;
     id := or_else id (VStr uuid) |}.

(** [message.toJSON()] *)
Definition toJSON (m : Message) : string :=
  stringify (VObj [("version", version m);
                   ("type", type m);
                   ("payload", payload m);
                   ("id", id m)]).

(** [Message.fromJSON(jsonStr)] *)
Definition fromJSON (uuid : string) (jsonStr : string) : result Message :=
  match JSON_parse jsonStr with
  | None => Throw "SyntaxError"
  | Some data =>
      do v <- get data "version";
      do t <- get data "type";
      do p <- get data "payload";
      do i <- get data "id";
      Ok (new_Message uuid v t p i)
  end.

(** The messages of the declared field types: [version], [type] and
    [id] are strings, [id] is not empty (the constructor replaces an
    empty one), and [payload] is JSON data. *)
Definition is_string (v : value) : bool :=
  match v with
  | VStr _ => true
  | _ => false
  end.

Definition well_formed (m : Message) : bool :=
  is_string (version m) && is_string (type m)
  && is_string (id m) && truthy (id m)
  && json_clean (payload m).

(** [class MessageProtocol] *)

Definition PROTOCOL_VERSION := "1.0".

Definition createConnect (uuid : string) : Message :=
  new_Message uuid (VStr PROTOCOL_VERSION) (VStr MessageType.CONNECT)
              (VObj []) VUndefined.

Definition createConnectResponse (uuid : string) (address connectId : value)
  : Message :=
  new_Message uuid (VStr PROTOCOL_VERSION) (VStr MessageType.CONNECT_RESPONSE)
              (VObj [("address", address); ("received_id", connectId)])
              VUndefined.

Definition createAck (uuid : string) (receivedId : value) : Message :=
  new_Message uuid (VStr PROTOCOL_VERSION) (VStr MessageType.ACK)
              (VObj [("received_id", receivedId)]) VUndefined.

Definition createError (uuid : string) (message receivedId : value)
  : Message :=
  new_Message uuid (VStr PROTOCOL_VERSION) (VStr MessageType.ERROR)
              (VObj (if truthy receivedId
                     then [("message", message); ("received_id", receivedId)]
                     else [("message", message)]))
              VUndefined.

Definition validateVersion (message : Message) : bool :=
  strict_eq (version message) (VStr PROTOCOL_VERSION).

Definition createChunk (uuid : string)
    (originalMessageId : value) (chunkIndex totalChunks : Z)
    (chunkData : string) (originalType : value) : Message :=
  new_Message uuid (VStr PROTOCOL_VERSION) (VStr MessageType.CHUNK)
              (VObj [("originalMessageId", originalMessageId);
                     ("chunkIndex", VNum chunkIndex);
                     ("totalChunks", VNum totalChunks);
                     ("chunkData", VStr chunkData);
                     ("originalType", originalType)])
              VUndefined.

(** The loop [for (let i = 0; i < messageJson.length; i += chunkSize)
    chunks.push(messageJson.substring(i, i + chunkSize))].  Each turn
    takes a unit of [fuel]; [None] is a loop that is still running when
    the fuel is spent. *)
Fixpoint chunk_loop (fuel : nat) (messageJson : string) (chunkSize i : nat)
  : option (list string) :=
  if (i <? String.length messageJson)%nat then
    match fuel with
    | O => None
    | S fuel' =>
        match chunk_loop fuel' messageJson chunkSize (i + chunkSize) with
        | Some chunks =>
            Some (substring messageJson i (i + chunkSize) :: chunks)
        | None => None
        end
    end
  else Some [].

(** [chunks.map((chunkData, index) => createChunk(...))]; the i-th chunk
    takes its id from the i-th call of [uuidv4()]. *)
Fixpoint wrap_chunks (uuidv4 : nat -> string) (message : Message)
    (total : nat) (index : nat) (chunks : list string) : list Message :=
  match chunks with
  | [] => []
  | chunkData :: rest =>
      createChunk (uuidv4 index) (id message) (Z.of_nat index)
                  (Z.of_nat total) chunkData (type message)
      :: wrap_chunks uuidv4 message total (S index) rest
  end.

(** [MessageProtocol.chunkMessage(message, chunkSize)]; [None] when the
    loop does not end by itself (a chunk size of 0, or less, on a
    non-empty text): each turn pushes a piece, and the call ends when
    [push] throws a [RangeError].  With a positive chunk size the loop
    ends within [length] turns. *)
Definition chunkMessage (uuidv4 : nat -> string) (message : Message)
    (chunkSize : nat) : option (list Message) :=
  let messageJson := toJSON message in
  match chunk_loop (String.length messageJson) messageJson chunkSize 0 with
  | Some chunks =>
      Some (wrap_chunks uuidv4 message (List.length chunks) 0 chunks)
  | None => None
  end.

(** [chunk.payload.k] *)
Definition payload_get (k : string) (chunk : Message) : result value :=
  get (payload chunk) k.

Fixpoint map_result {A B} (f : A -> result B) (l : list A) : result (list B) :=
  match l with
  | [] => Ok []
  | a :: t =>
      do b <- f a;
      do bs <- map_result f t;
      Ok (b :: bs)
  end.

(** The comparator [(a, b) => a.payload.chunkIndex - b.payload.chunkIndex]
    on chunks whose payload can be read. *)
Definition by_chunkIndex (a b : Message) : option Z :=
  match payload_get "chunkIndex" a, payload_get "chunkIndex" b with
  | Ok x, Ok y => minus x y
  | _, _ => None
  end.

(** The number under [chunkIndex] in the payload of a chunk (0 when there
    is none). *)
Definition chunk_key (chunk : Message) : Z :=
  match payload_get "chunkIndex" chunk with
  | Ok (VNum n) => n
  | _ => 0%Z
  end.

(** [chunk] is a chunk of [E] in a split into [total] pieces. *)
Definition is_chunk_of (E : Message) (total : nat) (chunk : Message) : Prop :=
  exists uuid index chunkData,
    chunk = createChunk uuid (id E) index (Z.of_nat total) chunkData (type E).

(** [MessageProtocol.reassembleChunks(chunks)]; [Ok None] is [null].
    Reading a property of an undefined or null payload throws; every
    path through the function reads each payload when there are two
    chunks or more (the comparator), and the first one otherwise. *)
Definition reassembleChunks (uuid : string) (chunks : list Message)
  : result (option Message) :=
  match chunks with
  | [] => Ok None
  | _ :: _ =>
      do _ <- map_result (payload_get "chunkIndex") chunks;
      match sort by_chunkIndex chunks with
      | [] => Ok None
      | first :: rest =>
          do totalChunks <- payload_get "totalChunks" first;
          if negb (strict_eq (VNum (Z.of_nat (List.length chunks))) totalChunks)
          then Ok None
          else
            do originalMessageId <- payload_get "originalMessageId" first;
            do ids <- map_result (payload_get "originalMessageId") rest;
            if negb (forallb (fun i => strict_eq i originalMessageId) ids)
            then Ok None
            else
              do datas <- map_result (payload_get "chunkData") (first :: rest);
              match fromJSON uuid (array_join "" datas) with
              | Ok m => Ok (Some m)
              | Throw _ => Ok None
              end
      end
  end.

(** ** The remaining factories *)

(** An argument declared [string | bigint]: [toString(16)] returns a
    string as it is and writes an integer in hexadecimal. *)
Inductive quantity : Type :=
| Text (s : string)
| Integer (n : Z).

Definition toString_16 (q : quantity) : string :=
  match q with
  | Text s => s
  | Integer n => number_to_string_16 n
  end.

Definition createTxRequest (uuid : string) (chainId : Z) (to : string)
    (value : quantity) (data : string) (nonce : Z)
    (gasPrice gasLimit : quantity) : Message :=
  new_Message uuid (VStr PROTOCOL_VERSION) (VStr MessageType.TX_REQUEST)
    (VObj [("transaction",
            VObj [("chainId", VNum chainId);
                  ("nonce", VStr ("0x" ++ number_to_string_16 nonce));
                  ("gasPrice", VStr ("0x" ++ toString_16 gasPrice));
                  ("gasLimit", VStr ("0x" ++ toString_16 gasLimit));
                  ("to", VStr to);
                  ("value", VStr ("0x" ++ toString_16 value));
                  ("data", VStr data)])])
    VUndefined.

Definition createTxResponse (uuid : string) (signedTx txHash : value)
  : Message :=
  new_Message uuid (VStr PROTOCOL_VERSION) (VStr MessageType.TX_RESPONSE)
    (VObj [("signedTransaction",
            VObj [("raw", signedTx); ("hash", txHash)])])
    VUndefined.

Definition createChunkAck (uuid : string) (originalMessageId : value)
    (chunkIndex : Z) : Message :=
  new_Message uuid (VStr PROTOCOL_VERSION) (VStr MessageType.CHUNK_ACK)
    (VObj [("originalMessageId", originalMessageId);
           ("chunkIndex", VNum chunkIndex)])
    VUndefined.

(** The text that [chunkMessage] cuts at index [i], and the chunk it
    wraps around it. *)
Definition piece (messageJson : string) (chunkSize i : nat) : string :=
  substring messageJson (i * chunkSize) (i * chunkSize + chunkSize).

Definition number_of_chunks (messageJson : string) (chunkSize : nat) : nat :=
  (String.length messageJson + chunkSize - 1) / chunkSize.

(** The chunk carries the number [i] under [chunkIndex]. *)
Definition has_index (chunk : Message) (i : Z) : Prop :=
  payload_get "chunkIndex" chunk = Ok (VNum i).

End Msg.

(* ================================================================== *)
(** * audio-config.ts                                                   *)
(* ================================================================== *)

Module Config.
Local Open Scope Z_scope.

(** The numbers of the configuration are integers. *)

Record Timeouts : Type := {
  messageWait : Z;
  connectResponse : Z;
  transactionResponse : Z;
  transactionConfirmation : Z;
  cryptoUtilsTransaction : Z
}.

Record Buffers : Type := {
  scriptProcessorSize : Z;
  fftSize : Z;
  sampleRate : Z
}.

Record GGWave : Type := {
  soundMarkerThreshold : Z;
  volumeLevel : Z;
  protocol : Z
}.

Record Chunking : Type := {
  maxMessageSize : Z;
  chunkSize : Z;
  enabled : bool
}.

Record AudioConfig : Type := {
  timeouts : Timeouts;
  buffers : Buffers;
  ggwave : GGWave;
  chunking : Chunking
}.

Definition DEFAULT_AUDIO_CONFIG : AudioConfig :=
  {| timeouts := {| messageWait := 60000;
                    connectResponse := 45000;
                    transactionResponse := 120000;
                    transactionConfirmation := 60000;
                    cryptoUtilsTransaction := 300000 |};
     buffers := {| scriptProcessorSize := 4096;
                   fftSize := 4096;
                   sampleRate := 48000 |};
     ggwave := {| soundMarkerThreshold := 4;
                  volumeLevel := 15;
                  protocol := 1 |};
     chunking := {| maxMessageSize := 8192;
                    chunkSize := 2048;
                    enabled := true |} |}.

Definition EIP_AUDIO_CONFIG : AudioConfig :=
  {| timeouts := {| messageWait := 10000;
                    connectResponse := 10000;
                    transactionResponse := 30000;
                    transactionConfirmation := 60000;
                    cryptoUtilsTransaction := 300000 |};
     buffers := {| scriptProcessorSize := 4096;
                   fftSize := 4096;
                   sampleRate := 44100 |};
     ggwave := {| soundMarkerThreshold := 4;
                  volumeLevel := 15;
                  protocol := 1 |};
     chunking := {| maxMessageSize := 4096;
                    chunkSize := 1024;
                    enabled := true |} |}.

(** [shouldChunkMessage(messageLength, config)] *)
Definition shouldChunkMessage (messageLength : nat) (config : AudioConfig)
  : bool :=
  enabled (chunking config)
  && (maxMessageSize (chunking config) <? Z.of_nat messageLength)%Z.

(** [estimateTransmissionTime(messageLength)], on exact rationals:
    [Math.ceil(Math.max(messageLength / 100, 5000) * 1.5)]. *)
Definition estimateTransmissionTime (messageLength : Z) : Z :=
  let baseTime :=
    QArith_base.Qmake messageLength 100 in
  let baseTime :=
    if QArith_base.Qle_bool baseTime (QArith_base.inject_Z 5000)
    then QArith_base.inject_Z 5000 else baseTime in
  let safetyMargin := QArith_base.Qmake 3 2 in
  Qround.Qceiling (QArith_base.Qmult baseTime safetyMargin).

(** [getDynamicTimeout(messageLength, baseTimeout)] *)
Definition getDynamicTimeout (messageLength baseTimeout : Z) : Z :=
  let estimatedTime := estimateTransmissionTime messageLength in
  Z.max baseTimeout estimatedTime.

End Config.

(* ================================================================== *)
(** * eip-config.ts (the variant with optional ids)                     *)
(* ================================================================== *)

Module Eip.
Import JS.

Definition EIP_PROTOCOL_VERSION := "1.0".

(** [createEIPMessage(type, payload, id)].  [id] is [undefined] when the
    argument is left out; [fresh] is what [translator.new()] returns when
    it is called. *)
Definition createEIPMessage (fresh : string) (type payload id : value)
  : value :=
  let message := [("version", VStr EIP_PROTOCOL_VERSION);
                  ("type", type);
                  ("payload", payload)] in
  if negb (strict_eq id VNull)
     && (truthy id || negb (strict_eq type (VStr "connect")))
  then VObj (set_prop "id" (or_else id (VStr fresh)) message)
  else VObj message.

Definition message_types : list string :=
  ["connect"; "connect_response"; "tx_request"; "tx_response";
   "ack"; "error"; "chunk"].

(** [Array.prototype.includes] on the list of type names. *)
Definition includes (l : list string) (v : value) : bool :=
  existsb (fun s => strict_eq (VStr s) v) l.

(** [validateEIPMessage(message)]; reading a property of [null] throws. *)
Definition validateEIPMessage (message : value) : result bool :=
  if negb (typeof message =? "object") then Ok false
  else
    do version <- get message "version";
    if negb (typeof version =? "string") then Ok false
    else
      do type <- get message "type";
      if negb (typeof type =? "string") then Ok false
      else if negb (includes message_types type) then Ok false
      else
        do payload <- get message "payload";
        if negb (typeof payload =? "object") then Ok false
        else
          do id <- get message "id";
          Ok (strict_eq id VUndefined || (typeof id =? "string")).

(** [isVersionSupported(version)] *)
Definition isVersionSupported (version : value) : bool :=
  strict_eq version (VStr EIP_PROTOCOL_VERSION).

(** The two shapes of a message that [createEIPMessage] returns. *)
Definition without_id (type : string) (payload : value) : value :=
  VObj [("version", VStr EIP_PROTOCOL_VERSION);
        ("type", VStr type);
        ("payload", payload)].

Definition with_id (type : string) (payload : value) (id : string) : value :=
  VObj [("version", VStr EIP_PROTOCOL_VERSION);
        ("type", VStr type);
        ("payload", payload);
        ("id", VStr id)].

End Eip.

(* ================================================================== *)
(** * audio-protocol.ts: class AudioProtocol                            *)
(* ================================================================== *)

Module Audio.
Import JS Msg Config.

(** The fields of the class that the message layer reads and writes.  The
    processor node, which carries the [onaudioprocess] handler, is
    connected by [startListening] and disconnected by [stopListening],
    together with [isListening]. *)
Record AudioProtocol : Type := {
  config : AudioConfig;
  isListening : bool;
  isTransmitting : bool;
  chunkStorage : list (value * list Message)
}.

Definition new_AudioProtocol (config : AudioConfig) : AudioProtocol :=
  {| config := config;
     isListening := false;
     isTransmitting := false;
     chunkStorage := [] |}.

Definition set_isListening (b : bool) (st : AudioProtocol) : AudioProtocol :=
  {| config := config st; isListening := b;
     isTransmitting := isTransmitting st; chunkStorage := chunkStorage st |}.

Definition set_isTransmitting (b : bool) (st : AudioProtocol) : AudioProtocol :=
  {| config := config st; isListening := isListening st;
     isTransmitting := b; chunkStorage := chunkStorage st |}.

Definition set_chunkStorage (m : list (value * list Message))
    (st : AudioProtocol) : AudioProtocol :=
  {| config := config st; isListening := isListening st;
     isTransmitting := isTransmitting st; chunkStorage := m |}.

(** What the surroundings decide: whether [initialize()] and the
    microphone succeed, whether a text can be encoded and played, and
    whether a listener for ['error'] is registered on the instance (and
    returns). *)
Record Env : Type := {
  initialize_ok : bool;
  microphone_ok : bool;
  play_ok : string -> bool;
  error_listener : bool
}.

(** What a method does to the outside, in order.  (The ['audioLevel']
    events carry a sample level and are left out.) *)
Inductive effect : Type :=
| Emit_message (m : Message)
| Emit_listening (b : bool)
| Emit_transmitting (b : bool)
| Emit_error (what : string)
| Play (text : string)
| Delay (ms : Z).

(** [handleChunk(chunk)].  [reassembleChunks] cannot throw here: every
    stored chunk went through the destructuring of its payload. *)
Definition handleChunk (uuid : string) (st : AudioProtocol) (chunk : Message)
  : result (AudioProtocol * list effect) :=
  do originalMessageId <- payload_get "originalMessageId" chunk;
  do chunkIndex <- payload_get "chunkIndex" chunk;
  do totalChunks <- payload_get "totalChunks" chunk;
  let stored := match map_get originalMessageId (chunkStorage st) with
                | Some l => l
                | None => []
                end in
  let chunks := (stored ++ [chunk])%list in
  if strict_eq (VNum (Z.of_nat (List.length chunks))) totalChunks then
    do reassembled <- reassembleChunks uuid chunks;
    let st' := set_chunkStorage
                 (map_delete originalMessageId (chunkStorage st)) st in
    match reassembled with
    | Some originalMessage => Ok (st', [Emit_message originalMessage])
    | None => Ok (st', [])
    end
  else
    Ok (set_chunkStorage
          (map_set originalMessageId chunks (chunkStorage st)) st, []).

(** [handleReceivedMessage(message)] *)
Definition handleReceivedMessage (uuid : string) (st : AudioProtocol)
    (message : Message) : result (AudioProtocol * list effect) :=
  if strict_eq (type message) (VStr MessageType.CHUNK)
  then handleChunk uuid st message
  else Ok (st, [Emit_message message]).

(** The [onaudioprocess] handler on one buffer; [decoded] is the result of
    [ggwave.decode].  Whatever is thrown is caught and logged.  [uuids]
    are the results of the two possible calls of [uuidv4()]: for the
    decoded message and for a reassembled one. *)
Definition onaudioprocess (uuids : string * string) (st : AudioProtocol)
    (decoded : option string) : AudioProtocol * list effect :=
  match decoded with
  | None => (st, [])
  | Some text =>
      if (0 <? String.length text)%nat then
        match fromJSON (fst uuids) text with
        | Throw _ => (st, [])
        | Ok message =>
            match handleReceivedMessage (snd uuids) st message with
            | Ok r => r
            | Throw _ => (st, [])
            end
        end
      else (st, [])
  end.

(** The end of a [catch] block: [this.emit('error', error); return
    false].  An [EventEmitter] without a listener for ['error'] throws
    the error instead, and the promise of the method is rejected
    ([Throw]). *)
Definition fail (env : Env) (st : AudioProtocol) (effects : list effect)
    (what : string) : AudioProtocol * list effect * result bool :=
  if error_listener env
  then (st, (effects ++ [Emit_error what])%list, Ok false)
  else (st, effects, Throw what).

(** [startListening()]; [initialize()] fails by throwing into its own
    [catch]. *)
Definition startListening (env : Env) (st : AudioProtocol)
  : AudioProtocol * list effect * result bool :=
  if isListening st then (st, [], Ok false)
  else if negb (initialize_ok env) then fail env st [] "initialize"
  else if negb (microphone_ok env) then fail env st [] "microphone"
  else (set_isListening true st, [Emit_listening true], Ok true).

(** [stopListening()] *)
Definition stopListening (st : AudioProtocol) : AudioProtocol * list effect :=
  if negb (isListening st) then (st, [])
  else (set_isListening false st, [Emit_listening false]).

(** [sendSingleMessage(message)]: returns as soon as playback has
    started. *)
Definition sendSingleMessage (env : Env) (st : AudioProtocol)
    (message : Message) : AudioProtocol * list effect * result bool :=
  let messageText := toJSON message in
  if play_ok env messageText then
    (set_isTransmitting true st,
     [Emit_transmitting true; Play messageText], Ok true)
  else
    fail env (set_isTransmitting false st)
         [Emit_transmitting true; Emit_transmitting false] "send".

(** The [onended] callback of a playback. *)
Definition onended (st : AudioProtocol) : AudioProtocol * list effect :=
  (set_isTransmitting false st, [Emit_transmitting false]).

(** The loop of [sendChunkedMessage] over the chunks that remain; it
    stops at the first chunk that could not be sent ([Ok false]: the call
    returned [false]; [Throw]: its promise was rejected). *)
Fixpoint send_chunks (env : Env) (st : AudioProtocol) (chunks : list Message)
  : AudioProtocol * list effect * result bool :=
  match chunks with
  | [] => (st, [], Ok true)
  | chunk :: rest =>
      match sendSingleMessage env st chunk with
      | (st1, effects1, Ok true) =>
          match send_chunks env st1 rest with
          | (st2, effects2, r) =>
              (st2, (effects1 ++ Delay 1000 :: effects2)%list, r)
          end
      | r => r
      end
  end.

(** [sendChunkedMessage(message)].  When the loop of [chunkMessage] does
    not end (a chunk size of 0 or less), its array grows until [push]
    throws a [RangeError]; that, like a chunk that could not be sent, ends
    in the [catch]. *)
Definition sendChunkedMessage (uuidv4 : nat -> string) (env : Env)
    (st : AudioProtocol) (message : Message)
  : AudioProtocol * list effect * result bool :=
  match chunkMessage uuidv4 message
          (Z.to_nat (chunkSize (chunking (config st)))) with
  | None => fail env st [] "RangeError"
  | Some chunks =>
      match send_chunks env st chunks with
      | (st', effects, Ok true) => (st', effects, Ok true)
      | (st', effects, Ok false) => fail env st' effects "chunk"
      | (st', effects, Throw e) => fail env st' effects e
      end
  end.

(** [sendMessage(message)] *)
Definition sendMessage (uuidv4 : nat -> string) (env : Env)
    (st : AudioProtocol) (message : Message)
  : AudioProtocol * list effect * result bool :=
  if negb (initialize_ok env) then fail env st [] "initialize"
  else
    let messageText := toJSON message in
    if shouldChunkMessage (String.length messageText) (config st)
    then sendChunkedMessage uuidv4 env st message
    else sendSingleMessage env st message.

(** [destroy()]: the one place besides [handleChunk] that touches the
    chunk storage. *)
Definition destroy (st : AudioProtocol) : AudioProtocol * list effect :=
  let (st1, effects) := stopListening st in
  (set_chunkStorage [] st1, effects).

(** The texts played by a sequence of effects, in order. *)
Fixpoint played (effects : list effect) : list string :=
  match effects with
  | [] => []
  | Play text :: rest => text :: played rest
  | _ :: rest => played rest
  end.

(** The messages emitted by a sequence of effects, in order. *)
Fixpoint emitted (effects : list effect) : list Message :=
  match effects with
  | [] => []
  | Emit_message m :: rest => m :: emitted rest
  | _ :: rest => emitted rest
  end.

(** The chunks stored under an id ([[]] when there is no entry). *)
Definition buffer (originalMessageId : value) (st : AudioProtocol)
  : list Message :=
  match map_get originalMessageId (chunkStorage st) with
  | Some l => l
  | None => []
  end.

(** [handleChunk] on successive chunks. *)
Fixpoint handleChunks (uuid : string) (st : AudioProtocol)
    (chunks : list Message) : result (AudioProtocol * list effect) :=
  match chunks with
  | [] => Ok (st, [])
  | chunk :: rest =>
      do r1 <- handleChunk uuid st chunk;
      do r2 <- handleChunks uuid (fst r1) rest;
      Ok (fst r2, (snd r1 ++ snd r2)%list)
  end.

(** What reaches the instance from outside between two method calls: the
    browser calls the [onaudioprocess] handler with an audio buffer, a
    playback ends, time passes.  The class arms no timer on its chunk
    storage. *)
Inductive input : Type :=
| Buffer (decoded : option string)
| Ended
| Elapse (ms : Z).

Definition step (uuids : string * string) (st : AudioProtocol) (i : input)
  : AudioProtocol * list effect :=
  match i with
  | Buffer decoded => onaudioprocess uuids st decoded
  | Ended => onended st
  | Elapse _ => (st, [])
  end.

(** A run over successive inputs, with the effects in order; the k-th
    input draws its ids from [uuidv4 k]. *)
Fixpoint run (uuidv4 : nat -> string * string) (k : nat)
    (st : AudioProtocol) (inputs : list input)
  : AudioProtocol * list effect :=
  match inputs with
  | [] => (st, [])
  | i :: rest =>
      let (st1, effects1) := step (uuidv4 k) st i in
      let (st2, effects2) := run uuidv4 (S k) st1 rest in
      (st2, (effects1 ++ effects2)%list)
  end.

(** The buffers in which a listener decodes the given texts, one after
    the other. *)
Definition heard (texts : list string) : list input :=
  map (fun text => Buffer (Some text)) texts.

(** [chunk] is a well-formed chunk of [E] in a split into [total]
    pieces. *)
Definition arrives (E : Message) (total : nat) (chunk : Message) : Prop :=
  well_formed chunk = true
  /\ type chunk = VStr MessageType.CHUNK
  /\ payload_get "originalMessageId" chunk = Ok (id E)
  /\ payload_get "totalChunks" chunk = Ok (VNum (Z.of_nat total)).

End Audio.

(* ================================================================== *)
(** * eip-audio-protocol.ts: class EIPAudioProtocol                     *)
(* ================================================================== *)

Module EipAudio.
Import JS Config Eip.

(** An EIP message is a plain object, hence a [value]. *)
Record EIPAudioProtocol : Type := {
  isListening : bool;
  isTransmitting : bool;
  chunkStorage : list (value * list value)
}.

Definition new_EIPAudioProtocol : EIPAudioProtocol :=
  {| isListening := false; isTransmitting := false; chunkStorage := [] |}.

Definition set_isListening (b : bool) (st : EIPAudioProtocol)
  : EIPAudioProtocol :=
  {| isListening := b; isTransmitting := isTransmitting st;
     chunkStorage := chunkStorage st |}.

Definition set_isTransmitting (b : bool) (st : EIPAudioProtocol)
  : EIPAudioProtocol :=
  {| isListening := isListening st; isTransmitting := b;
     chunkStorage := chunkStorage st |}.

Definition set_chunkStorage (m : list (value * list value))
    (st : EIPAudioProtocol) : EIPAudioProtocol :=
  {| isListening := isListening st; isTransmitting := isTransmitting st;
     chunkStorage := m |}.

(** What the surroundings decide: whether [initialize()] and the
    microphone succeed, whether a text can be encoded and its playback
    started, and whether a listener for ['error'] is registered on the
    instance (and returns). *)
Record Env : Type := {
  initialize_ok : bool;
  microphone_ok : bool;
  encode_ok : string -> bool;
  start_ok : string -> bool;
  error_listener : bool
}.

(** [Call_sendEIPMessage m] is the call [this.sendEIPMessage(m)] whose
    promise is not awaited. *)
Inductive effect : Type :=
| Emit_eip_message (m : value)
| Emit_version_mismatch (received supported : value)
| Emit_listening (b : bool)
| Emit_transmitting (b : bool)
| Emit_error (what : string)
| Call_sendEIPMessage (m : value)
| Play (text : string)
| Delay (ms : Z).

(** The literals of [sendEIPMessage] and [sendChunkedEIPMessage]. *)
Definition chunking_threshold : nat := 120.
Definition chunk_size : nat := 80.

(** [chunk.payload.k] *)
Definition payload_get (k : string) (chunk : value) : result value :=
  do payload <- get chunk "payload";
  get payload k.

Definition by_chunkIndex (a b : value) : option Z :=
  match payload_get "chunkIndex" a, payload_get "chunkIndex" b with
  | Ok x, Ok y => minus x y
  | _, _ => None
  end.

(** [handleChunk(chunk)].  The payloads of the stored chunks can all be
    read: each went through the destructuring.  The log line reads
    [originalMessage.type] before the emit: on [null] that throws into
    the [catch], which emits nothing. *)
Definition handleChunk (st : EIPAudioProtocol) (chunk : value)
  : result (EIPAudioProtocol * list effect) :=
  do originalMessageId <- payload_get "originalMessageId" chunk;
  do chunkIndex <- payload_get "chunkIndex" chunk;
  do totalChunks <- payload_get "totalChunks" chunk;
  do chunkData <- payload_get "chunkData" chunk;
  do originalType <- payload_get "originalType" chunk;
  let stored := match map_get originalMessageId (chunkStorage st) with
                | Some l => l
                | None => []
                end in
  let chunks := (stored ++ [chunk])%list in
  if strict_eq (VNum (Z.of_nat (List.length chunks))) totalChunks then
    do _ <- Msg.map_result (payload_get "chunkIndex") chunks;
    let sorted := sort by_chunkIndex chunks in
    do datas <- Msg.map_result (payload_get "chunkData") sorted;
    let reassembledData := array_join "" datas in
    let st' := set_chunkStorage
                 (map_delete originalMessageId (chunkStorage st)) st in
    match JSON_parse reassembledData with
    | Some originalMessage =>
        match get originalMessage "type" with
        | Ok _ => Ok (st', [Emit_eip_message originalMessage])
        | Throw _ => Ok (st', [])
        end
    | None => Ok (st', [])
    end
  else
    Ok (set_chunkStorage
          (map_set originalMessageId chunks (chunkStorage st)) st, []).

(** [handleEIPMessage(message)] *)
Definition handleEIPMessage (fresh : string) (st : EIPAudioProtocol)
    (message : value) : result (EIPAudioProtocol * list effect) :=
  do version <- get message "version";
  if negb (isVersionSupported version) then
    do id <- get message "id";
    let errorMessage :=
      createEIPMessage fresh (VStr "error")
        (VObj [("message",
                VStr ("Unsupported protocol version: " ++ to_string version));
               ("received_id", id)])
        VUndefined in
    Ok (st, [Emit_version_mismatch version (VStr EIP_PROTOCOL_VERSION);
             Call_sendEIPMessage errorMessage])
  else
    do type <- get message "type";
    if strict_eq type (VStr "chunk") then handleChunk st message
    else Ok (st, [Emit_eip_message message]).

(** The [onaudioprocess] handler on one buffer.  Whatever is thrown is
    caught and logged. *)
Definition onaudioprocess (fresh : string) (st : EIPAudioProtocol)
    (decoded : option string) : EIPAudioProtocol * list effect :=
  match decoded with
  | None => (st, [])
  | Some text =>
      if (0 <? String.length text)%nat then
        match JSON_parse text with
        | None => (st, [])
        | Some messageData =>
            match validateEIPMessage messageData with
            | Ok true =>
                match handleEIPMessage fresh st messageData with
                | Ok r => r
                | Throw _ => (st, [])
                end
            | _ => (st, [])
            end
        end
      else (st, [])
  end.

(** The end of a [catch] block: [this.emit('error', error); return
    false].  An [EventEmitter] without a listener for ['error'] throws
    the error instead, and the promise of the method is rejected
    ([Throw]). *)
Definition fail (env : Env) (st : EIPAudioProtocol) (effects : list effect)
    (what : string) : EIPAudioProtocol * list effect * result bool :=
  if error_listener env
  then (st, (effects ++ [Emit_error what])%list, Ok false)
  else (st, effects, Throw what).

(** [startListening()]; [initialize()] fails by throwing into its own
    [catch]. *)
Definition startListening (env : Env) (st : EIPAudioProtocol)
  : EIPAudioProtocol * list effect * result bool :=
  if isListening st then (st, [], Ok false)
  else if negb (initialize_ok env) then fail env st [] "initialize"
  else if negb (microphone_ok env) then fail env st [] "microphone"
  else (set_isListening true st, [Emit_listening true], Ok true).

(** [stopListening()] *)
Definition stopListening (st : EIPAudioProtocol)
  : EIPAudioProtocol * list effect :=
  if negb (isListening st) then (st, [])
  else (set_isListening false st, [Emit_listening false]).

(** [destroy()]: the one place besides [handleChunk] that touches the
    chunk storage. *)
Definition destroy (st : EIPAudioProtocol) : EIPAudioProtocol * list effect :=
  let (st1, effects) := stopListening st in
  (set_chunkStorage [] st1, effects).

(** [sendSingleEIPMessage(messageText)] up to the start of the playback:
    [Ok true] when the sound is playing; when encoding threw, the outer
    [catch]; [Throw] when [source.start] threw (the promise is
    rejected). *)
Definition transmit_begin (env : Env) (st : EIPAudioProtocol)
    (messageText : string) : EIPAudioProtocol * list effect * result bool :=
  if negb (encode_ok env messageText) then
    fail env (set_isTransmitting false st)
         [Emit_transmitting true; Emit_transmitting false] "encode"
  else if negb (start_ok env messageText) then
    (set_isTransmitting false st,
     [Emit_transmitting true; Emit_transmitting false],
     Throw "start")
  else
    (set_isTransmitting true st,
     [Emit_transmitting true; Play messageText], Ok true).

(** The end of the playback: [source.onended], or the fallback timer
    after 10 seconds. *)
Definition transmit_end (st : EIPAudioProtocol)
  : EIPAudioProtocol * list effect :=
  (set_isTransmitting false st, [Emit_transmitting false]).

(** [await sendSingleEIPMessage(messageText)] *)
Definition sendSingleEIPMessage (env : Env) (st : EIPAudioProtocol)
    (messageText : string) : EIPAudioProtocol * list effect * result bool :=
  match transmit_begin env st messageText with
  | (st1, effects1, Ok true) =>
      let (st2, effects2) := transmit_end st1 in
      (st2, (effects1 ++ effects2)%list, Ok true)
  | r => r
  end.

(** The chunk object that the loop of [sendChunkedEIPMessage] builds at
    index [i]. *)
Definition chunk_object (fresh : string) (message : value) (i total : nat)
    (chunkData : string) : result value :=
  do version <- get message "version";
  do id <- get message "id";
  do type <- get message "type";
  Ok (VObj [("version", version);
            ("type", VStr "chunk");
            ("payload", VObj [("originalMessageId", id);
                              ("originalType", type);
                              ("chunkIndex", VNum (Z.of_nat i));
                              ("totalChunks", VNum (Z.of_nat total));
                              ("chunkData", VStr chunkData)]);
            ("id", VStr fresh)]).

(** The loop over the chunks from index [i] on. *)
Fixpoint send_chunks (fresh : nat -> string) (env : Env)
    (st : EIPAudioProtocol) (message : value) (total i : nat)
    (chunks : list string) : EIPAudioProtocol * list effect * result bool :=
  match chunks with
  | [] => (st, [], Ok true)
  | chunkData :: rest =>
      match chunk_object (fresh i) message i total chunkData with
      | Throw e => (st, [], Throw e)
      | Ok chunkMessage =>
          match sendSingleEIPMessage env st (stringify chunkMessage) with
          | (st1, effects1, Ok true) =>
              let pause := match rest with
                           | [] => []
                           | _ :: _ => [Delay 1000]
                           end in
              match send_chunks fresh env st1 message total (S i) rest with
              | (st2, effects2, r) =>
                  (st2, (effects1 ++ pause ++ effects2)%list, r)
              end
          | (st1, effects1, Ok false) => (st1, effects1, Throw "chunk")
          | (st1, effects1, Throw e) => (st1, effects1, Throw e)
          end
      end
  end.

(** [sendChunkedEIPMessage(message)], for a message that
    [JSON.stringify] writes as [messageText].  The log line after the
    split reads [message.id], before the listening is stopped.  The
    [finally] block restarts the listening when it was on; what is thrown
    in the loop or by the restart ends in the [catch]. *)
Definition sendChunkedEIPMessage (fresh : nat -> string) (env : Env)
    (st : EIPAudioProtocol) (message : value) (messageText : string)
  : EIPAudioProtocol * list effect * result bool :=
  match Msg.chunk_loop (String.length messageText) messageText chunk_size 0 with
  | None => fail env st [] "RangeError"
  | Some chunks =>
      match get message "id" with
      | Throw e => fail env st [] e
      | Ok _ =>
          let wasListening := isListening st in
          let (st1, effects1) :=
            if wasListening then stopListening st else (st, []) in
          match send_chunks fresh env st1 message (List.length chunks) 0
                            chunks with
          | (st2, effects2, sent) =>
              let '(st3, effects3, restarted) :=
                if wasListening then
                  let '(st', e, r) := startListening env st2 in
                  (st', Delay 2000 :: e, r)
                else (st2, [], Ok true) in
              let effects := (effects1 ++ effects2 ++ effects3)%list in
              match (match restarted with
                     | Ok _ => sent
                     | Throw e => Throw e
                     end) with
              | Ok _ => (st3, effects, Ok true)
              | Throw e => fail env st3 effects e
              end
          end
      end
  end.

(** [sendEIPMessage(message)]; a rejected promise is [Throw]. *)
Definition sendEIPMessage (fresh : nat -> string) (env : Env)
    (st : EIPAudioProtocol) (message : value)
  : EIPAudioProtocol * list effect * result bool :=
  if negb (initialize_ok env) then fail env st [] "initialize"
  else
    match JSON_stringify message with
    | None => (st, [], Throw "TypeError")
    | Some messageText =>
        if (chunking_threshold <? String.length messageText)%nat then
          sendChunkedEIPMessage fresh env st message messageText
        else sendSingleEIPMessage env st messageText
    end.

(** The texts played by a sequence of effects, in order. *)
Fixpoint played (effects : list effect) : list string :=
  match effects with
  | [] => []
  | Play text :: rest => text :: played rest
  | _ :: rest => played rest
  end.

(** The messages emitted on ['eip-message'], in order. *)
Fixpoint emitted (effects : list effect) : list value :=
  match effects with
  | [] => []
  | Emit_eip_message m :: rest => m :: emitted rest
  | _ :: rest => emitted rest
  end.

(** The played text [text] is a chunk message that carries [chunkData]. *)
Definition chunk_carries (text chunkData : string) : Prop :=
  exists chunkMessage,
    text = stringify chunkMessage /\
    get chunkMessage "type" = Ok (VStr "chunk") /\
    payload_get "chunkData" chunkMessage = Ok (VStr chunkData).

(** The chunks stored under an id ([[]] when there is no entry). *)
Definition buffer (originalMessageId : value) (st : EIPAudioProtocol)
  : list value :=
  match map_get originalMessageId (chunkStorage st) with
  | Some l => l
  | None => []
  end.

(** [handleChunk] on successive chunks. *)
Fixpoint handleChunks (st : EIPAudioProtocol) (chunks : list value)
  : result (EIPAudioProtocol * list effect) :=
  match chunks with
  | [] => Ok (st, [])
  | chunk :: rest =>
      do r1 <- handleChunk st chunk;
      do r2 <- handleChunks (fst r1) rest;
      Ok (fst r2, (snd r1 ++ snd r2)%list)
  end.

(** What reaches the instance from outside between two method calls: the
    browser calls the [onaudioprocess] handler with an audio buffer, a
    playback ends, time passes.  The class arms no timer on its chunk
    storage. *)
Inductive input : Type :=
| Buffer (decoded : option string)
| Ended
| Elapse (ms : Z).

Definition step (fresh : string) (st : EIPAudioProtocol) (i : input)
  : EIPAudioProtocol * list effect :=
  match i with
  | Buffer decoded => onaudioprocess fresh st decoded
  | Ended => transmit_end st
  | Elapse _ => (st, [])
  end.

(** The calls that the handler started without awaiting them, run once
    the handler has returned: [this.sendEIPMessage(m)].  Nobody looks at
    what their promises settle to. *)
Fixpoint perform_calls (fresh : nat -> string) (env : Env)
    (st : EIPAudioProtocol) (effects : list effect)
  : EIPAudioProtocol * list effect :=
  match effects with
  | [] => (st, [])
  | Call_sendEIPMessage m :: rest =>
      let '(st1, effects1, _) := sendEIPMessage fresh env st m in
      let (st2, effects2) := perform_calls fresh env st1 rest in
      (st2, (Call_sendEIPMessage m :: effects1 ++ effects2)%list)
  | e :: rest =>
      let (st2, effects2) := perform_calls fresh env st rest in
      (st2, e :: effects2)
  end.

(** One audio buffer, from the handler to the end of the calls it
    started; the handler draws its id from [fresh 0], the calls draw
    theirs from the ids that follow. *)
Definition receive (fresh : nat -> string) (env : Env)
    (st : EIPAudioProtocol) (decoded : option string)
  : EIPAudioProtocol * list effect :=
  let (st1, effects1) := onaudioprocess (fresh 0) st decoded in
  perform_calls (fun i => fresh (S i)) env st1 effects1.

Fixpoint run (fresh : nat -> string) (k : nat) (st : EIPAudioProtocol)
    (inputs : list input) : EIPAudioProtocol * list effect :=
  match inputs with
  | [] => (st, [])
  | i :: rest =>
      let (st1, effects1) := step (fresh k) st i in
      let (st2, effects2) := run fresh (S k) st1 rest in
      (st2, (effects1 ++ effects2)%list)
  end.

(** The buffers in which a listener decodes the given texts, one after
    the other. *)
Definition heard (texts : list string) : list input :=
  map (fun text => Buffer (Some text)) texts.

(** The number under [chunkIndex] in the payload of a chunk (0 when there
    is none). *)
Definition chunk_key (chunk : value) : Z :=
  match payload_get "chunkIndex" chunk with
  | Ok (VNum n) => n
  | _ => 0%Z
  end.

(** The chunk objects that the loop of [sendChunkedEIPMessage] builds
    from index [i] on, for a message with the given fields. *)
Fixpoint chunk_objects (fresh : nat -> string) (version id type : value)
    (total i : nat) (chunks : list string) : list value :=
  match chunks with
  | [] => []
  | chunkData :: rest =>
      VObj [("version", version);
            ("type", VStr "chunk");
            ("payload", VObj [("originalMessageId", id);
                              ("originalType", type);
                              ("chunkIndex", VNum (Z.of_nat i));
                              ("totalChunks", VNum (Z.of_nat total));
                              ("chunkData", VStr chunkData)]);
            ("id", VStr (fresh i))]
      :: chunk_objects fresh version id type total (S i) rest
  end.

(** Whether every [Play] in a sequence of effects happens while the
    instance is not listening; [listening] is the state before the first
    effect, and the ['listening'] events update it. *)
Fixpoint plays_unheard (listening : bool) (effects : list effect) : bool :=
  match effects with
  | [] => true
  | Emit_listening b :: rest => plays_unheard b rest
  | Play _ :: rest => negb listening && plays_unheard listening rest
  | _ :: rest => plays_unheard listening rest
  end.

(** The listening state after a sequence of effects. *)
Fixpoint listening_after (listening : bool) (effects : list effect) : bool :=
  match effects with
  | [] => listening
  | Emit_listening b :: rest => listening_after b rest
  | _ :: rest => listening_after listening rest
  end.

(** [chunk] is a chunk message of protocol version 1.0 for the message
    with id [originalMessageId], split into [total] pieces, as it arrives
    through [JSON.parse]. *)
Definition arrives (originalMessageId : value) (total : nat) (chunk : value)
  : Prop :=
  json_clean chunk = true
  /\ validateEIPMessage chunk = Ok true
  /\ get chunk "version" = Ok (VStr EIP_PROTOCOL_VERSION)
  /\ get chunk "type" = Ok (VStr "chunk")
  /\ payload_get "originalMessageId" chunk = Ok originalMessageId
  /\ payload_get "totalChunks" chunk = Ok (VNum (Z.of_nat total))
  /\ (exists text, stringify chunk = String "{" text).

End EipAudio.

(* ================================================================== *)
(** * eip-message-handler.ts: class EIPMessageHandler                   *)
(* ================================================================== *)

Module Handler.
Import JS Eip.

Inductive effect : Type :=
| Emit_connect_request (message : value)
| Delay (ms : Z)
| Call_sendEIPMessage (message : value)
| Emit_connection_established (address : value).

(** The message that [handleConnectRequest] answers with: the payload
    carries the wallet address and [message.id]. *)
Definition connect_response (address fresh : string) (message : value)
  : result value :=
  do id <- get message "id";
  let responsePayload := VObj [("address", VStr address);
                               ("received_id", id)] in
  Ok (createEIPMessage fresh (VStr "connect_response") responsePayload
                       VUndefined).

(** [handleConnectRequest(message)]; [send_ok] is what
    [audioProtocol.sendEIPMessage] resolves to. *)
Definition handleConnectRequest (address fresh : string) (send_ok : bool)
    (message : value) : list effect * result unit :=
  match connect_response address fresh message with
  | Throw e => ([Emit_connect_request message], Throw e)
  | Ok response =>
      if send_ok then
        ([Emit_connect_request message; Delay 200;
          Call_sendEIPMessage response;
          Emit_connection_established (VStr address)], Ok tt)
      else
        ([Emit_connect_request message; Delay 200;
          Call_sendEIPMessage response],
         Throw "Failed to send connect response")
  end.

End Handler.

(* ================================================================== *)
(** * test-wallet.ts: the chains of class TestWallet                    *)
(* ================================================================== *)

Module Wallet.

(** [TestWallet.getSupportedChainIds()] *)
Definition getSupportedChainIds : list Z := [1; 5; 11155111]%Z.

End Wallet.

(* ================================================================== *)
(** * eip-message-handler.ts: the transaction side of EIPMessageHandler *)
(* ================================================================== *)

Module MessageHandler.
Import JS Eip.

Record PendingTransaction : Type := {
  message : value;
  details : value;
  timestamp : Z
}.

(** The field of the class that the message handling reads and writes. *)
Record EIPMessageHandler : Type := {
  pendingTransactions : list (value * PendingTransaction)
}.

Definition new_EIPMessageHandler : EIPMessageHandler :=
  {| pendingTransactions := [] |}.

(** What a method does to the outside, in order: the events it emits,
    the calls of [audioProtocol.sendEIPMessage], the pauses. *)
Inductive event : Type :=
| Connect_request (message : value)
| Connection_established (address : value)
| Transaction_request (message details : value)
| Transaction_approved (txHash : value)
| Transaction_rejected (reason : string)
| Error (what : string)
| Sent (message : value)
| Waited (ms : Z).

Definition lift (e : Handler.effect) : event :=
  match e with
  | Handler.Emit_connect_request m => Connect_request m
  | Handler.Delay ms => Waited ms
  | Handler.Call_sendEIPMessage m => Sent m
  | Handler.Emit_connection_established a => Connection_established a
  end.

Definition required : list string :=
  ["chainId"; "nonce"; "gasPrice"; "gasLimit"; "to"; "value"; "data"].

(** The loop over the required fields. *)
Fixpoint check_required (transaction : value) (fields : list string)
  : result unit :=
  match fields with
  | [] => Ok tt
  | field :: rest =>
      do v <- get transaction field;
      if strict_eq v VUndefined || strict_eq v VNull
      then Throw ("Missing required transaction field: " ++ field)
      else check_required transaction rest
  end.

(** [supportedChains.includes(chainId)] *)
Definition includes_chain (chains : list Z) (chainId : value) : bool :=
  existsb (fun c => strict_eq (VNum c) chainId) chains.

(** [validateTransactionRequest(txRequest)]: returns, or throws an error
    with the given message. *)
Definition validateTransactionRequest (txRequest : value) : result unit :=
  do transaction <- get txRequest "transaction";
  if negb (truthy transaction) then Throw "Missing transaction data in request"
  else
    do _ <- check_required transaction required;
    do chainId <- get transaction "chainId";
    if includes_chain Wallet.getSupportedChainIds chainId then Ok tt
    else Throw ("Unsupported chain ID: " ++ to_string chainId).

(** [new Error(x).message] *)
Definition error_text (x : value) : string :=
  match x with
  | VUndefined => ""
  | _ => to_string x
  end.

Definition not_found : string :=
  "Transaction not found or already processed".

(** The wallet, the audio protocol, the id generator and the clock.
    [signTransaction] returns the raw transaction and its hash;
    [sendEIPMessage] is what the promise of
    [audioProtocol.sendEIPMessage] settles to; the n-th message that a
    method creates takes its id from [fresh n] when it needs one.  A
    thrown error is its message (the text of a TypeError is the
    engine's). *)
Section Handler.
Context (address : string)
        (getTransactionDetails : value -> result value)
        (signTransaction : value -> result (value * value))
        (sendEIPMessage : value -> result bool)
        (fresh : nat -> string)
        (now : Z).

(** The message that [sendErrorResponse] sends. *)
Definition error_response (id : string) (originalMessageId : value)
    (errorMessage : string) : value :=
  createEIPMessage id (VStr "error")
    (VObj [("message", VStr errorMessage);
           ("received_id", originalMessageId)])
    VUndefined.

(** [sendErrorResponse(originalMessageId, errorMessage)] *)
Definition sendErrorResponse (n : nat) (originalMessageId : value)
    (errorMessage : string) : list event * result unit :=
  let errorResponse :=
    error_response (fresh n) originalMessageId errorMessage in
  ([Sent errorResponse],
   do _ <- sendEIPMessage errorResponse; Ok tt).

(** [handleConnectRequest(message)] with the audio protocol of the
    handler. *)
Definition handleConnectRequest (n : nat) (message : value)
  : list event * result unit :=
  match Handler.connect_response address (fresh n) message with
  | Throw e => ([Connect_request message], Throw e)
  | Ok response =>
      match sendEIPMessage response with
      | Ok success =>
          let (effects, r) :=
            Handler.handleConnectRequest address (fresh n) success message in
          (map lift effects, r)
      | Throw e =>
          ([Connect_request message; Waited 200; Sent response], Throw e)
      end
  end.

(** [handleTransactionRequest(message)] *)
Definition handleTransactionRequest (st : EIPMessageHandler) (message : value)
  : EIPMessageHandler * list event * result unit :=
  match (do txRequest <- get message "payload";
         do _ <- validateTransactionRequest txRequest;
         do details <- getTransactionDetails txRequest;
         do id <- get message "id";
         Ok (id, details)) with
  | Throw e => (st, [], Throw e)
  | Ok (id, details) =>
      let pendingTx := {| message := message;
                          details := details;
                          timestamp := now |} in
      ({| pendingTransactions :=
            map_set id pendingTx (pendingTransactions st) |},
       [Transaction_request message details], Ok tt)
  end.

(** The [switch] of [handleEIPMessage]. *)
Definition dispatch (st : EIPMessageHandler) (message type : value)
  : EIPMessageHandler * list event * result unit :=
  if strict_eq type (VStr "connect") then
    let (events, r) := handleConnectRequest 0 message in (st, events, r)
  else if strict_eq type (VStr "tx_request") then
    handleTransactionRequest st message
  else if strict_eq type (VStr "ack") then
    (st, [], do payload <- get message "payload";
             do _ <- get payload "received_id"; Ok tt)
  else if strict_eq type (VStr "error") then
    match (do payload <- get message "payload"; get payload "message") with
    | Ok text => (st, [Error (error_text text)], Ok tt)
    | Throw e => (st, [], Throw e)
    end
  else
    match get message "id" with
    | Ok id =>
        let (events, r) :=
          sendErrorResponse 0 id
            ("Unknown message type: " ++ to_string type) in
        (st, events, r)
    | Throw e => (st, [], Throw e)
    end.

(** [handleEIPMessage(message)]: what the [switch] throws is answered
    with an error response. *)
Definition handleEIPMessage (st : EIPMessageHandler) (message : value)
  : EIPMessageHandler * list event * result unit :=
  match get message "type" with
  | Throw e => (st, [], Throw e)
  | Ok type =>
      match dispatch st message type with
      | (st', events, Ok _) => (st', events, Ok tt)
      | (st', events, Throw e) =>
          match get message "id" with
          | Throw e' => (st', events, Throw e')
          | Ok id =>
              let (events', r) := sendErrorResponse 1 id e in
              (st', (events ++ events')%list, r)
          end
      end
  end.

Definition delete_pending (messageId : value) (st : EIPMessageHandler)
  : EIPMessageHandler :=
  {| pendingTransactions := map_delete messageId (pendingTransactions st) |}.

(** The [try] block of [approveTransaction]: the hash of the signed
    transaction when the response has been sent. *)
Definition sign_and_send (pendingTx : PendingTransaction)
  : list event * result value :=
  match (do txRequest <- get (message pendingTx) "payload";
         do signed <- signTransaction txRequest;
         do id <- get (message pendingTx) "id";
         Ok (signed, id)) with
  | Throw e => ([], Throw e)
  | Ok ((raw, hash), id) =>
      let response :=
        createEIPMessage (fresh 0) (VStr "tx_response")
          (VObj [("signedTransaction",
                  VObj [("raw", raw); ("hash", hash)])])
          id in
      match sendEIPMessage response with
      | Ok true => ([Sent response], Ok hash)
      | Ok false => ([Sent response], Throw "Failed to send signed transaction")
      | Throw e => ([Sent response], Throw e)
      end
  end.

(** [approveTransaction(messageId)] *)
Definition approveTransaction (st : EIPMessageHandler) (messageId : value)
  : EIPMessageHandler * list event * result bool :=
  match map_get messageId (pendingTransactions st) with
  | None => (st, [], Throw not_found)
  | Some pendingTx =>
      match sign_and_send pendingTx with
      | (events, Ok hash) =>
          (delete_pending messageId st,
           (events ++ [Transaction_approved hash])%list, Ok true)
      | (events, Throw e) =>
          match get (message pendingTx) "id" with
          | Throw e' => (st, events, Throw e')
          | Ok id =>
              match sendErrorResponse 1 id e with
              | (events', Throw e') => (st, (events ++ events')%list, Throw e')
              | (events', Ok _) =>
                  (delete_pending messageId st,
                   (events ++ events' ++ [Error e])%list, Ok false)
              end
          end
      end
  end.

(** [rejectTransaction(messageId, reason)]; [reason] is ['User rejected']
    when the argument is left out. *)
Definition rejectTransaction (st : EIPMessageHandler) (messageId : value)
    (reason : option string)
  : EIPMessageHandler * list event * result bool :=
  let reason := match reason with
                | Some r => r
                | None => "User rejected"
                end in
  match map_get messageId (pendingTransactions st) with
  | None => (st, [], Throw not_found)
  | Some pendingTx =>
      match get (message pendingTx) "id" with
      | Throw e => (st, [Error e], Ok false)
      | Ok id =>
          match sendErrorResponse 0 id ("Transaction rejected: " ++ reason) with
          | (events, Ok _) =>
              (delete_pending messageId st,
               (events ++ [Transaction_rejected reason])%list, Ok true)
          | (events, Throw e) => (st, (events ++ [Error e])%list, Ok false)
          end
      end
  end.

(** [getPendingTransactions()] *)
Definition getPendingTransactions (st : EIPMessageHandler)
  : list PendingTransaction :=
  map snd (pendingTransactions st).

End Handler.

(** The calls of [sendEIPMessage] among the events, in order. *)
Fixpoint sent (events : list event) : list value :=
  match events with
  | [] => []
  | Sent m :: rest => m :: sent rest
  | _ :: rest => sent rest
  end.

(** The ['transaction-request'] events among the events, in order. *)
Fixpoint requests (events : list event) : list (value * value) :=
  match events with
  | [] => []
  | Transaction_request m d :: rest => (m, d) :: requests rest
  | _ :: rest => requests rest
  end.

(** Every required field of [transaction] is there. *)
Definition has_required (transaction : value) : Prop :=
  forall field, In field required ->
    exists v, get transaction field = Ok v
              /\ strict_eq v VUndefined = false
              /\ strict_eq v VNull = false.

End MessageHandler.

(* ================================================================== *)
(** * network-storage.ts: the preset and the custom networks            *)
(* ================================================================== *)

Module Networks.
Import JS.

(** What the browser decides about [localStorage]: whether it can be
    read, and whether an item can be written.  The state of the module
    is the item stored under [STORAGE_KEY], [None] when there is none. *)
Record Env : Type := {
  getItem_ok : bool;
  setItem_ok : bool;
  removeItem_ok : bool
}.

Definition preset (name rpcUrl : string) (chainId : Z) : value :=
  VObj [("name", VStr name);
        ("rpcUrl", VStr rpcUrl);
        ("chainId", VNum chainId);
        ("isCustom", VBool false)].

Definition PRESET_NETWORKS : list value :=
  [preset "Ethereum" "https://eth.llamarpc.com" 1;
   preset "Base" "https://base.llamarpc.com" 8453;
   preset "Binance Smart Chain" "https://binance.llamarpc.com" 56].

(** [getCustomNetworks()]: whatever is thrown is caught. *)
Definition getCustomNetworks (env : Env) (storage : option string)
  : list value :=
  if negb (getItem_ok env) then []
  else
    match storage with
    | None => []
    | Some stored =>
        if stored =? "" then []
        else
          match JSON_parse stored with
          | Some (VArr networks) => networks
          | _ => []
          end
    end.

(** [saveCustomNetworks(networks)]: the new item. *)
Definition saveCustomNetworks (env : Env) (networks : list value)
  : result (option string) :=
  if setItem_ok env then Ok (Some (stringify (VArr networks)))
  else Throw "Failed to save network configuration".

(** [{...network, id: `preset_${network.chainId}`, isCustom: false}] *)
Definition as_preset (network : value) : value :=
  match network, get network "chainId" with
  | VObj props, Ok chainId =>
      VObj (set_prop "isCustom" (VBool false)
              (set_prop "id" (VStr ("preset_" ++ to_string chainId)) props))
  | _, _ => network
  end.

(** [getAllNetworks()] *)
Definition getAllNetworks (env : Env) (storage : option string)
  : list value :=
  (map as_preset PRESET_NETWORKS ++ getCustomNetworks env storage)%list.

(** [Array.prototype.find], [findIndex] and [filter] with a callback
    that may throw. *)
Fixpoint find (p : value -> result bool) (l : list value)
  : result (option value) :=
  match l with
  | [] => Ok None
  | n :: t => do b <- p n; if b then Ok (Some n) else find p t
  end.

Fixpoint findIndex (p : value -> result bool) (l : list value)
  : result (option nat) :=
  match l with
  | [] => Ok None
  | n :: t =>
      do b <- p n;
      if b then Ok (Some 0)
      else do i <- findIndex p t; Ok (option_map S i)
  end.

Fixpoint filter (p : value -> result bool) (l : list value)
  : result (list value) :=
  match l with
  | [] => Ok []
  | n :: t =>
      do b <- p n;
      do rest <- filter p t;
      Ok (if b then n :: rest else rest)
  end.

(** The callbacks [n => n.chainId === chainId], [n => n.id === id],
    [n => n.id !== id] and
    [n => n.name.toLowerCase() === name.toLowerCase()]. *)
Definition has_chainId (chainId : Z) (n : value) : result bool :=
  do c <- get n "chainId"; Ok (strict_eq c (VNum chainId)).

Definition has_id (id : string) (n : value) : result bool :=
  do i <- get n "id"; Ok (strict_eq i (VStr id)).

Definition has_other_id (id : string) (n : value) : result bool :=
  do i <- get n "id"; Ok (negb (strict_eq i (VStr id))).

Definition has_name (name : string) (n : value) : result bool :=
  do x <- get n "name";
  match x with
  | VStr s => Ok (toLowerCase s =? toLowerCase name)
  | _ => Throw "TypeError"
  end.

(** The checks of the arguments, the same in [addCustomNetwork] and
    [updateCustomNetwork]. *)
Definition check_inputs (name rpcUrl : string) (chainId : Z) : result unit :=
  if trim name =? "" then Throw "Network name is required"
  else if trim rpcUrl =? "" then Throw "RPC URL is required"
  else if negb (startsWith rpcUrl "https://")
          && negb (startsWith rpcUrl "http://")
  then Throw "RPC URL must be a valid HTTP/HTTPS URL"
  else if (chainId <=? 0)%Z then Throw "Chain ID must be a positive integer"
  else Ok tt.

(** The search for a network with the same chain id or the same name. *)
Definition check_duplicates (allNetworks : list value) (name : string)
    (chainId : Z) : result unit :=
  do existingByChainId <- find (has_chainId chainId) allNetworks;
  match existingByChainId with
  | Some existing =>
      do existingName <- get existing "name";
      Throw ("A network with Chain ID " ++ number_to_string chainId
             ++ " already exists: " ++ to_string existingName)
  | None =>
      do existingByName <- find (has_name name) allNetworks;
      match existingByName with
      | Some _ =>
          Throw ("A network with name " ++ String dquote name
                 ++ String dquote " already exists")
      | None => Ok tt
      end
  end.

Definition custom_network (id name rpcUrl : string) (chainId : Z) : value :=
  VObj [("id", VStr id);
        ("name", VStr name);
        ("rpcUrl", VStr rpcUrl);
        ("chainId", VNum chainId);
        ("isCustom", VBool true)].

(** [addCustomNetwork(name, rpcUrl, chainId)]: the new item and the new
    network; [id] is what [generateNetworkId()] returns.  When the
    function throws, nothing has been written. *)
Definition addCustomNetwork (env : Env) (id : string)
    (storage : option string) (name rpcUrl : string) (chainId : Z)
  : result (option string * value) :=
  let networks := getCustomNetworks env storage in
  do _ <- check_inputs name rpcUrl chainId;
  let allNetworks := getAllNetworks env storage in
  do _ <- check_duplicates allNetworks name chainId;
  let newNetwork := custom_network id (trim name) (trim rpcUrl) chainId in
  do storage' <- saveCustomNetworks env (networks ++ [newNetwork])%list;
  Ok (storage', newNetwork).

(** [networks[networkIndex] = updatedNetwork] *)
Fixpoint replace_at (i : nat) (x : value) (l : list value) : list value :=
  match l, i with
  | [], _ => []
  | _ :: t, O => x :: t
  | n :: t, S i' => n :: replace_at i' x t
  end.

(** [updateCustomNetwork(id, name, rpcUrl, chainId)] *)
Definition updateCustomNetwork (env : Env) (storage : option string)
    (id name rpcUrl : string) (chainId : Z)
  : result (option string * value) :=
  let networks := getCustomNetworks env storage in
  do networkIndex <- findIndex (has_id id) networks;
  match networkIndex with
  | None => Throw "Network not found"
  | Some networkIndex =>
      do _ <- check_inputs name rpcUrl chainId;
      do allNetworks <- filter (has_other_id id) (getAllNetworks env storage);
      do _ <- check_duplicates allNetworks name chainId;
      let updatedNetwork :=
        custom_network id (trim name) (trim rpcUrl) chainId in
      do storage' <-
        saveCustomNetworks env (replace_at networkIndex updatedNetwork networks);
      Ok (storage', updatedNetwork)
  end.

(** [deleteCustomNetwork(id)]: the new item. *)
Definition deleteCustomNetwork (env : Env) (storage : option string)
    (id : string) : result (option string) :=
  let networks := getCustomNetworks env storage in
  do filteredNetworks <- filter (has_other_id id) networks;
  if (List.length filteredNetworks =? List.length networks)%nat
  then Throw "Network not found"
  else saveCustomNetworks env filteredNetworks.

(** [findNetworkById(id)] and [findNetworkByChainId(chainId)] *)
Definition findNetworkById (env : Env) (storage : option string)
    (id : string) : result (option value) :=
  find (has_id id) (getAllNetworks env storage).

Definition findNetworkByChainId (env : Env) (storage : option string)
    (chainId : Z) : result (option value) :=
  find (has_chainId chainId) (getAllNetworks env storage).

(** [clearCustomNetworks()] *)
Definition clearCustomNetworks (env : Env) (storage : option string)
  : option string :=
  if removeItem_ok env then None else storage.

(** A network as [addCustomNetwork] and [updateCustomNetwork] write it. *)
Definition is_custom (n : value) : Prop :=
  exists id name rpcUrl chainId, n = custom_network id name rpcUrl chainId.

(** The item is the one that the module wrote for the networks
    [customs]: there is none when nothing was ever saved, and otherwise it
    is the text of the array. *)
Definition holds (storage : option string) (customs : list value) : Prop :=
  Forall is_custom customs
  /\ match storage with
     | None => customs = []
     | Some stored => stored = stringify (VArr customs)
     end.

(** The chain id of a network (0 when it has none). *)
Definition chainId_of (n : value) : Z :=
  match get n "chainId" with
  | Ok (VNum c) => c
  | _ => 0%Z
  end.

(** The id of a network (empty when it has none). *)
Definition id_of (n : value) : string :=
  match get n "id" with
  | Ok (VStr i) => i
  | _ => ""
  end.

End Networks.

(* ================================================================== *)
(** * class WalletClient (the client of EIPAudioProtocol)                *)
(* ================================================================== *)

(** The client drives the [EIPAudioProtocol] modelled above and builds
    its messages with [createEIPMessage].  The listeners of the client's
    own events return. *)

Module Client.
Import JS Eip.

(** [audioStatus], without the sample level. *)
Record AudioStatus : Type := {
  isListening : bool;
  isTransmitting : bool;
  error : option string
}.

(** [handleListeningChange], [handleTransmittingChange] and
    [handleAudioError] *)
Definition handleListeningChange (status : AudioStatus) (isListening : bool)
  : AudioStatus :=
  {| isListening := isListening;
     isTransmitting := Client.isTransmitting status;
     error := error status |}.

Definition handleTransmittingChange (status : AudioStatus)
    (isTransmitting : bool) : AudioStatus :=
  {| isListening := Client.isListening status;
     isTransmitting := isTransmitting;
     error := error status |}.

Definition handleAudioError (status : AudioStatus) (what : string)
  : AudioStatus :=
  {| isListening := Client.isListening status;
     isTransmitting := Client.isTransmitting status;
     error := Some what |}.

(** The listeners that the constructor registers on the audio protocol,
    run on one thing that the protocol does. *)
Definition observe (status : AudioStatus) (e : EipAudio.effect)
  : AudioStatus :=
  match e with
  | EipAudio.Emit_listening b => handleListeningChange status b
  | EipAudio.Emit_transmitting b => handleTransmittingChange status b
  | EipAudio.Emit_error what => handleAudioError status what
  | _ => status
  end.

Definition observe_all (status : AudioStatus) (effects : list EipAudio.effect)
  : AudioStatus :=
  fold_left observe effects status.

(** What the client asks of its audio protocol, and what the protocol
    hears in between. *)
Inductive call : Type :=
| StartListening
| StopListening
| SendEIPMessage (message : value)
| Heard (decoded : option string).

Definition perform (fresh : nat -> string) (env : EipAudio.Env)
    (st : EipAudio.EIPAudioProtocol) (c : call)
  : EipAudio.EIPAudioProtocol * list EipAudio.effect :=
  match c with
  | StartListening => fst (EipAudio.startListening env st)
  | StopListening => EipAudio.stopListening st
  | SendEIPMessage message => fst (EipAudio.sendEIPMessage fresh env st message)
  | Heard decoded => EipAudio.step (fresh 0) st (EipAudio.Buffer decoded)
  end.

(** Successive calls, each in the browser of its moment. *)
Fixpoint perform_all (fresh : nat -> string)
    (st : EipAudio.EIPAudioProtocol) (calls : list (EipAudio.Env * call))
  : EipAudio.EIPAudioProtocol * list EipAudio.effect :=
  match calls with
  | [] => (st, [])
  | (env, c) :: rest =>
      let (st1, effects1) := perform fresh env st c in
      let (st2, effects2) := perform_all fresh st1 rest in
      (st2, (effects1 ++ effects2)%list)
  end.

(** The status shows the flags of the protocol. *)
Definition mirrors (status : AudioStatus) (st : EipAudio.EIPAudioProtocol)
  : Prop :=
  isListening status = EipAudio.isListening st
  /\ isTransmitting status = EipAudio.isTransmitting st.

(** The status follows the protocol from [st] to [st'] through
    [effects]. *)
Definition tracks (st : EipAudio.EIPAudioProtocol)
    (effects : list EipAudio.effect) (st' : EipAudio.EIPAudioProtocol)
  : Prop :=
  forall status, mirrors status st -> mirrors (observe_all status effects) st'.

(** An effect to which the two status listeners are deaf. *)
Definition silent (e : EipAudio.effect) : bool :=
  match e with
  | EipAudio.Emit_listening _ | EipAudio.Emit_transmitting _ => false
  | _ => true
  end.

(** [TransactionResponse] *)
Record TransactionResponse : Type := {
  hash : value;
  success : bool;
  failure : option string
}.

(** What [sendTransactionRequest] does, in order. *)
Inductive action : Type :=
| Send (message : value)
| Wait (expectedType : string) (timeout : Z)
| Set_walletAddress (address : value)
| Broadcast (signedTx : value)
| Confirm (txHash : value) (timeout : Z)
| Emit_transactionSent (txHash : value)
| Emit_transactionConfirmed (receipt : value).

Definition failed (actions : list action) (what : string)
  : list action * TransactionResponse :=
  (actions, {| hash := VStr ""; success := false; failure := Some what |}).

(** [message.type === expectedType] in the handler of
    [waitForEIPMessage]. *)
Definition has_type (expectedType : string) (message : value) : bool :=
  match get message "type" with
  | Ok type => strict_eq type (VStr expectedType)
  | Throw _ => false
  end.

(** [EIPAudioProtocol.waitForEIPMessage(expectedType, timeout)], given
    the messages that the protocol emits on ['eip-message'] from the call
    until the timeout: the promise resolves to the first one of the
    expected type, or to [null] at the timeout. *)
Definition waitForEIPMessage (emitted : list value) (expectedType : string)
  : value :=
  match List.find (has_type expectedType) emitted with
  | Some message => message
  | None => VNull
  end.

(** [timeout || EIP_AUDIO_CONFIG.timeouts.messageWait] *)
Definition effectiveTimeout (timeout : Z) : Z :=
  if (timeout =? 0)%Z
  then Config.messageWait (Config.timeouts Config.EIP_AUDIO_CONFIG)
  else timeout.

(** The audio protocol and the provider: what the promises of
    [sendEIPMessage], [broadcastTransaction] and [waitForTransaction]
    settle to ([Throw] is a rejection), and the messages that are emitted
    within the given time while the client waits for the one of the
    given type. *)
Section Client.
Context (fresh : string)
        (sendEIPMessage : value -> result bool)
        (emitted : string -> Z -> list value)
        (broadcastTransaction : value -> result value)
        (waitForTransaction : value -> Z -> result value).

Definition wait (expectedType : string) (timeout : Z) : value :=
  waitForEIPMessage (emitted expectedType (effectiveTimeout timeout))
                    expectedType.

(** [response.payload.signedTransaction.raw] when the three tests of
    [sendTransactionRequest] let the response pass. *)
Definition raw_of (response : value) : result (option value) :=
  do payload <- get response "payload";
  if negb (truthy payload) then Ok None
  else
    do signedTransaction <- get payload "signedTransaction";
    if negb (truthy signedTransaction) then Ok None
    else
      do raw <- get signedTransaction "raw";
      Ok (if truthy raw then Some raw else None).

(** The steps after the signed transaction has arrived. *)
Definition broadcast (actions : list action) (signedTx : value)
  : list action * TransactionResponse :=
  let actions := (actions ++ [Broadcast signedTx])%list in
  match broadcastTransaction signedTx with
  | Throw e => failed actions e
  | Ok txHash =>
      let timeout :=
        Config.transactionConfirmation
          (Config.timeouts Config.EIP_AUDIO_CONFIG) in
      let actions :=
        (actions ++ [Emit_transactionSent txHash; Confirm txHash timeout])%list in
      let actions :=
        match waitForTransaction txHash timeout with
        | Ok receipt =>
            if truthy receipt
            then (actions ++ [Emit_transactionConfirmed receipt])%list
            else actions
        | Throw _ => actions
        end in
      (actions, {| hash := txHash; success := true; failure := None |})
  end.

(** The steps after the transaction request has been sent. *)
Definition await_response (actions : list action) (txRequest : value)
  : list action * TransactionResponse :=
  match JSON_stringify txRequest with
  | None => failed actions "TypeError"
  | Some txRequestJson =>
      let dynamicTimeout :=
        Z.max (Config.transactionResponse
                 (Config.timeouts Config.EIP_AUDIO_CONFIG))
              (Z.of_nat (String.length txRequestJson) * 100) in
      let actions := (actions ++ [Wait "tx_response" dynamicTimeout])%list in
      let response := wait "tx_response" dynamicTimeout in
      if negb (truthy response)
      then failed actions "No transaction response received"
      else
        match raw_of response with
        | Throw e => failed actions e
        | Ok None => failed actions "Invalid transaction response"
        | Ok (Some signedTx) => broadcast actions signedTx
        end
  end.

(** [sendTransactionRequest(txRequest)] *)
Definition sendTransactionRequest (txRequest : value)
  : list action * TransactionResponse :=
  let connect := createEIPMessage fresh (VStr "connect") (VObj []) VUndefined in
  let connectTimeout :=
    Config.connectResponse (Config.timeouts Config.EIP_AUDIO_CONFIG) in
  match sendEIPMessage connect with
  | Throw e => failed [Send connect] e
  | Ok false => failed [Send connect] "Failed to send connect"
  | Ok true =>
      let actions := [Send connect; Wait "connect_response" connectTimeout] in
      let connectResponse := wait "connect_response" connectTimeout in
      if negb (truthy connectResponse)
      then failed actions "No connect response received from offline wallet"
      else
        match (do payload <- get connectResponse "payload";
               if truthy payload then get payload "address"
               else Ok payload) with
        | Throw e => failed actions e
        | Ok address =>
            let actions :=
              if truthy address
              then (actions ++ [Set_walletAddress address])%list
              else actions in
            let actions := (actions ++ [Send txRequest])%list in
            match sendEIPMessage txRequest with
            | Throw e => failed actions e
            | Ok false => failed actions "Failed to send transaction request"
            | Ok true => await_response actions txRequest
            end
        end
  end.

End Client.

(** The transactions that were handed to the provider, in order. *)
Fixpoint broadcasts (actions : list action) : list value :=
  match actions with
  | [] => []
  | Broadcast signedTx :: rest => signedTx :: broadcasts rest
  | _ :: rest => broadcasts rest
  end.

(** The messages that were handed to the audio protocol, in order. *)
Fixpoint sends (actions : list action) : list value :=
  match actions with
  | [] => []
  | Send message :: rest => message :: sends rest
  | _ :: rest => sends rest
  end.

End Client.

(* ================================================================== *)
(** * crypto-utils.ts: the conversions of class CryptoUtils             *)
(* ================================================================== *)

Module Crypto.
Import JS.

(** [CryptoUtils.parseHexToNumber(hexString)]; [None] is NaN. *)
Definition parseHexToNumber (hexString : value) : option Z :=
  match hexString with
  | VNum n => Some n
  | VStr s => if startsWith s "0x" then parseInt_16 s else parseInt_10 s
  | _ => Some 0%Z
  end.

(** [CryptoUtils.numberToHex(number)] *)
Definition numberToHex (number : Z) : string :=
  "0x" ++ number_to_string_16 number.

(** [privateKey.slice(2)] *)
Definition slice_2 (s : string) : string := suffix 2 s.

(** [CryptoUtils.validatePrivateKey(privateKey)]: [parseInt] does not
    throw, so the test of the digits rejects nothing. *)
Definition validatePrivateKey (privateKey : string) : bool :=
  let privateKey :=
    if startsWith privateKey "0x" then slice_2 privateKey else privateKey in
  if negb (String.length privateKey =? 64)%nat then false
  else let _ := parseInt_16 privateKey in true.

End Crypto.

(* ================================================================== *)
(** * waitForMessage / waitForEIPMessage                                *)
(* ================================================================== *)

Module Wait.
Import JS.

(** The state that one call of [waitForMessage(expectedType, timeout)]
    creates and that its two closures share: the listener
    [messageHandler] on the message event, the timer, and the promise.
    [resolutions] records the calls of [resolve], in order. *)
Section Wait.
Context {M : Type} (type_of : M -> result value).

Record wait : Type := {
  expectedType : value;
  listener : bool;
  timer : option Z;
  resolutions : list (option M)
}.

(** [timeout || config.timeouts.messageWait] *)
Definition effectiveTimeout (timeout : option Z) (messageWait : Z) : Z :=
  match timeout with
  | Some t => if (t =? 0)%Z then messageWait else t
  | None => messageWait
  end.

(** The body of the promise executor, run at time [now]; the timer
    holds the time at which [setTimeout] fires. *)
Definition waitForMessage (now : Z) (expectedType : value)
    (timeout : option Z) (messageWait : Z) : wait :=
  {| expectedType := expectedType;
     listener := true;
     timer := Some (now + setTimeout_delay
                            (effectiveTimeout timeout messageWait))%Z;
     resolutions := [] |}.

(** [messageHandler(message)] *)
Definition messageHandler (w : wait) (message : M) : result wait :=
  do t <- type_of message;
  if strict_eq t (expectedType w) then
    Ok {| expectedType := expectedType w;
          listener := false;
          timer := None;
          resolutions := (resolutions w ++ [Some message])%list |}
  else Ok w.

(** The callback of the timer. *)
Definition timeoutCallback (w : wait) : wait :=
  {| expectedType := expectedType w;
     listener := false;
     timer := None;
     resolutions := (resolutions w ++ [None])%list |}.

(** The event loop: an emitted message runs the listener if it is still
    registered (an exception thrown by it leaves the wait as it is); the
    clock reaching the firing time runs the callback of the timer if it
    is still armed. *)
Inductive event : Type :=
| Emitted (message : M)
| Clock (now : Z).

Definition step (w : wait) (e : event) : wait :=
  match e with
  | Emitted message =>
      if listener w then
        match messageHandler w message with
        | Ok w' => w'
        | Throw _ => w
        end
      else w
  | Clock now =>
      match timer w with
      | Some t => if (t <=? now)%Z then timeoutCallback w else w
      | None => w
      end
  end.

Definition run (w : wait) (events : list event) : wait :=
  fold_left step events w.

(** The message matches the expectation. *)
Definition matches (expectedType : value) (e : event) : bool :=
  match e with
  | Emitted message =>
      match type_of message with
      | Ok t => strict_eq t expectedType
      | Throw _ => false
      end
  | Clock _ => false
  end.

(** The clock has reached [deadline]. *)
Definition expires (deadline : Z) (e : event) : bool :=
  match e with
  | Clock now => (deadline <=? now)%Z
  | Emitted _ => false
  end.

End Wait.

End Wait.

(* ================================================================== *)
(** * Sample data                                                       *)
(* ================================================================== *)

(** Concrete messages and settings on which the statements are
    instantiated. *)
Module Sample.
Import JS Msg Config.

(** A transaction request as the initiator builds it. *)
Definition demo_request : Message :=
  new_Message "7f1c" (VStr PROTOCOL_VERSION) (VStr MessageType.TX_REQUEST)
    (VObj [("transaction",
            VObj [("chainId", VNum 1);
                  ("nonce", VStr "0x0");
                  ("to", VStr "0x0000000000000000000000000000000000000000");
                  ("value", VStr "0x00");
                  ("data", VStr "0x")])])
    VUndefined.

(** A supply of ids: the decimal spelling of the call number. *)
Definition demo_uuids (n : nat) : string :=
  NilEmpty.string_of_uint (Nat.to_uint n).

(** The thresholds of the EIP text (120 and 80) as an [AudioConfig]. *)
Definition small_config : AudioConfig :=
  {| timeouts := timeouts DEFAULT_AUDIO_CONFIG;
     buffers := buffers DEFAULT_AUDIO_CONFIG;
     ggwave := ggwave DEFAULT_AUDIO_CONFIG;
     chunking := {| maxMessageSize := 120; chunkSize := 80; enabled := true |}
  |}.

(** A [connect] that announces protocol version 2.0. *)
Definition connect_v2 : value :=
  VObj [("version", VStr "2.0"); ("type", VStr "connect");
        ("payload", VObj []); ("id", VStr "c-1")].

(** The same with an id as [short-uuid] makes them. *)
Definition connect_v2_uuid : value :=
  VObj [("version", VStr "2.0"); ("type", VStr "connect");
        ("payload", VObj []); ("id", VStr "mhvXdrZT4jP5T8vBxuvm75")].

(** What [message.type] reads on a [Message] and on an EIP message. *)
Definition type_of_Message (m : Message) : result value := Ok (type m).
Definition type_of_EIPMessage (m : value) : result value := get m "type".

(** A browser in which everything succeeds. *)
Definition fair_env : Audio.Env :=
  {| Audio.initialize_ok := true;
     Audio.microphone_ok := true;
     Audio.play_ok := fun _ => true;
     Audio.error_listener := true |}.

Definition fair_eip_env : EipAudio.Env :=
  {| EipAudio.initialize_ok := true;
     EipAudio.microphone_ok := true;
     EipAudio.encode_ok := fun _ => true;
     EipAudio.start_ok := fun _ => true;
     EipAudio.error_listener := true |}.

(** The same browsers for an instance without a listener for
    ['error']. *)
Definition unheard_env : Audio.Env :=
  {| Audio.initialize_ok := true;
     Audio.microphone_ok := true;
     Audio.play_ok := fun _ => true;
     Audio.error_listener := false |}.

(** A browser in which no sound can be played. *)
Definition mute_env : Audio.Env :=
  {| Audio.initialize_ok := true;
     Audio.microphone_ok := true;
     Audio.play_ok := fun _ => false;
     Audio.error_listener := true |}.

(** A browser that cannot reopen the microphone, for an instance without
    a listener for ['error']. *)
Definition unheard_deaf_eip_env : EipAudio.Env :=
  {| EipAudio.initialize_ok := true;
     EipAudio.microphone_ok := false;
     EipAudio.encode_ok := fun _ => true;
     EipAudio.start_ok := fun _ => true;
     EipAudio.error_listener := false |}.

(** An [AudioProtocol] that is listening. *)
Definition listening : Audio.AudioProtocol :=
  Audio.set_isListening true (Audio.new_AudioProtocol DEFAULT_AUDIO_CONFIG).

Definition eip_listening : EipAudio.EIPAudioProtocol :=
  EipAudio.set_isListening true EipAudio.new_EIPAudioProtocol.

(** A single chunk that carries the text [chunkData]. *)
Definition lone_chunk (chunkData : string) : value :=
  VObj [("version", VStr "1.0");
        ("type", VStr "chunk");
        ("payload", VObj [("originalMessageId", VStr "c-1");
                          ("originalType", VStr "connect");
                          ("chunkIndex", VNum 0);
                          ("totalChunks", VNum 1);
                          ("chunkData", VStr chunkData)]);
        ("id", VStr "k-1")].

(** One chunk of a message in three chunks, as an EIP message. *)
Definition eip_chunk_of_three (index : Z) (chunkData : string) : value :=
  VObj [("version", VStr "1.0");
        ("type", VStr "chunk");
        ("payload", VObj [("originalMessageId", VStr "m-1");
                          ("originalType", VStr "ack");
                          ("chunkIndex", VNum index);
                          ("totalChunks", VNum 3);
                          ("chunkData", VStr chunkData)]);
        ("id", VStr "k-2")].

(** A settings record with chunking switched off. *)
Definition unchunked_config : AudioConfig :=
  {| timeouts := timeouts DEFAULT_AUDIO_CONFIG;
     buffers := buffers DEFAULT_AUDIO_CONFIG;
     ggwave := ggwave DEFAULT_AUDIO_CONFIG;
     chunking := {| maxMessageSize := 120; chunkSize := 80; enabled := false |}
  |}.

(** A message whose payload has a member set to [undefined]. *)
Definition lossy_request : Message :=
  new_Message "7f1d" (VStr PROTOCOL_VERSION) (VStr MessageType.TX_REQUEST)
    (VObj [("transaction",
            VObj [("chainId", VNum 1);
                  ("nonce", VStr "0x0");
                  ("to", VStr "0x0000000000000000000000000000000000000000");
                  ("value", VStr "0x00");
                  ("data", VStr "0x")]);
           ("memo", VUndefined)])
    VUndefined.

(** The same message without that member. *)
Definition demo_request_1d : Message :=
  new_Message "7f1d" (VStr PROTOCOL_VERSION) (VStr MessageType.TX_REQUEST)
    (VObj [("transaction",
            VObj [("chainId", VNum 1);
                  ("nonce", VStr "0x0");
                  ("to", VStr "0x0000000000000000000000000000000000000000");
                  ("value", VStr "0x00");
                  ("data", VStr "0x")])])
    VUndefined.

(** The answer of a wallet to a [connect]. *)
Definition demo_response : Message :=
  createConnectResponse "r-1" (VStr "0xabc") (VStr "c-1").

(** A sender whose configuration asks for chunks of size 0. *)
Definition stuck_sender : Audio.AudioProtocol :=
  Audio.new_AudioProtocol
    {| timeouts := timeouts DEFAULT_AUDIO_CONFIG;
       buffers := buffers DEFAULT_AUDIO_CONFIG;
       ggwave := ggwave DEFAULT_AUDIO_CONFIG;
       chunking := {| maxMessageSize := 120; chunkSize := 0;
                      enabled := true |} |}.

(** A sender with the thresholds of the EIP text. *)
Definition small_sender : Audio.AudioProtocol :=
  Audio.new_AudioProtocol small_config.

(** A supply of ids that are never empty. *)
Definition demo_ids (n : nat) : string :=
  String "k" (NilEmpty.string_of_uint (Nat.to_uint n)).

(** The properties of a transaction request as an EIP message. *)
Definition eip_request : list (string * value) :=
  [("version", VStr "1.0");
   ("type", VStr "tx_request");
   ("payload",
    VObj [("transaction",
           VObj [("chainId", VNum 1);
                 ("nonce", VStr "0x0");
                 ("gasPrice", VStr "0x4a817c800");
                 ("gasLimit", VStr "0x5208");
                 ("to", VStr "0x0000000000000000000000000000000000000000");
                 ("value", VStr "0x00");
                 ("data", VStr "0x")])]);
   ("id", VStr "t-1")].

(** A wallet that signs everything, an audio protocol that sends
    everything. *)
Definition demo_details (txRequest : value) : result value := Ok txRequest.
Definition demo_sign (txRequest : value) : result (value * value) :=
  Ok (VStr "0xf86c", VStr "0x5e1d").
Definition demo_send (message : value) : result bool := Ok true.

(** A browser whose [localStorage] works. *)
Definition fair_storage : Networks.Env :=
  {| Networks.getItem_ok := true;
     Networks.setItem_ok := true;
     Networks.removeItem_ok := true |}.

Definition sepolia : value :=
  Networks.custom_network "custom_1" "Sepolia" "https://rpc.sepolia.org"
                          11155111.

Definition holesky : value :=
  Networks.custom_network "custom_2" "Holesky" "https://rpc.holesky.org"
                          17000.

(** The pieces of 80 characters of the text of [eip_request]. *)
Definition eip_request_pieces : list string :=
  Eval vm_compute in
    match Msg.chunk_loop (String.length (stringify (VObj eip_request)))
                         (stringify (VObj eip_request)) 80 0 with
    | Some pieces => pieces
    | None => []
    end.

(** A client that listens, hears a request, sends a long request while
    the microphone cannot be reopened, sends a short message and stops. *)
Definition idle_status : Client.AudioStatus :=
  {| Client.isListening := false; Client.isTransmitting := false;
     Client.error := None |}.

Definition deaf_eip_env : EipAudio.Env :=
  {| EipAudio.initialize_ok := true;
     EipAudio.microphone_ok := false;
     EipAudio.encode_ok := fun _ => true;
     EipAudio.start_ok := fun _ => true;
     EipAudio.error_listener := true |}.

Definition client_calls : list (EipAudio.Env * Client.call) :=
  [(fair_eip_env, Client.StartListening);
   (fair_eip_env,
    Client.Heard (Some (JS.stringify (JS.VObj eip_request))));
   (deaf_eip_env, Client.SendEIPMessage (JS.VObj eip_request));
   (fair_eip_env, Client.SendEIPMessage connect_v2);
   (fair_eip_env, Client.StopListening)].

End Sample.

(* ================================================================== *)
(** * Properties                                                        *)
(* ================================================================== *)

Module JsonFacts.
Import JS.

Lemma append_assoc (a b c : string) : (a ++ b) ++ c = a ++ (b ++ c).
Proof. induction a as [|x a IH]; simpl; [reflexivity | now rewrite IH]. Qed.

Lemma append_nil_r (a : string) : a ++ "" = a.
Proof. induction a as [|x a IH]; simpl; [reflexivity | now rewrite IH]. Qed.

Lemma length_append (a b : string) :
  String.length (a ++ b) = String.length a + String.length b.
Proof. induction a as [|x a IH]; simpl; [reflexivity | now rewrite IH]. Qed.

(** *** String literals *)

Lemma parse_quote_char (c : ascii) (tail : string) :
  parse_string_body (quote_char c ++ tail) =
  match parse_string_body tail with
  | Some (body, rest) => Some (String c body, rest)
  | None => None
  end.
Proof.
  destruct c as [[] [] [] [] [] [] [] []]; reflexivity.
Qed.

Lemma parse_quote_body (s rest : string) :
  parse_string_body (quote_body s ++ String dquote rest) = Some (s, rest).
Proof.
  induction s as [|c s IH]; [reflexivity|].
  cbn [quote_body]. rewrite append_assoc, parse_quote_char, IH. reflexivity.
Qed.

(** *** Numbers *)

Lemma delimited_inv (rest : string) :
  delimited rest = true ->
  rest = "" \/ exists c r, rest = String c r /\ In c [","; "]"; "}"]%char.
Proof.
  destruct rest as [|c r]; [now left|]. cbn [delimited]. intros H. right.
  exists c, r. split; [reflexivity|].
  apply orb_true_iff in H as [H|H]; [apply orb_true_iff in H as [H|H]|];
    apply Ascii.eqb_eq in H; subst; simpl; auto.
Qed.

Lemma delimited_read_digits (rest : string) :
  delimited rest = true -> read_digits rest = (Nil, rest).
Proof.
  intros H. destruct (delimited_inv _ H) as [->|(c & r & -> & Hc)];
    [reflexivity|].
  simpl in Hc. decompose [or] Hc; subst; try reflexivity. contradiction.
Qed.

Lemma delimited_no_fraction (rest : string) :
  delimited rest = true -> starts_fraction rest = false.
Proof.
  intros H. destruct (delimited_inv _ H) as [->|(c & r & -> & Hc)];
    [reflexivity|].
  simpl in Hc. decompose [or] Hc; subst; try reflexivity. contradiction.
Qed.

Lemma delimited_skip_ws (rest : string) :
  delimited rest = true -> skip_ws rest = rest.
Proof.
  intros H. destruct (delimited_inv _ H) as [->|(c & r & -> & Hc)];
    [reflexivity|].
  simpl in Hc. decompose [or] Hc; subst; try reflexivity. contradiction.
Qed.

Lemma read_digits_of_uint (u : uint) (rest : string) :
  read_digits rest = (Nil, rest) ->
  read_digits (NilEmpty.string_of_uint u ++ rest) = (u, rest).
Proof.
  intros H. induction u; cbn [NilEmpty.string_of_uint append];
    [exact H | cbn [read_digits]; rewrite IHu; reflexivity ..].
Qed.

Lemma int_part_ok_to_uint (p : positive) : int_part_ok (Pos.to_uint p) = true.
Proof.
  pose proof (DecimalPos.Unsigned.to_of (Pos.to_uint p)) as E.
  rewrite DecimalPos.Unsigned.of_to in E. cbn [N.to_uint] in E.
  pose proof (DecimalPos.Unsigned.to_uint_nonzero p) as Hz.
  pose proof (DecimalPos.Unsigned.to_uint_nonnil p) as Hn.
  assert (Hh : nzhead (Pos.to_uint p) <> Nil).
  { intros A. apply Hz. rewrite E. now apply unorm_0. }
  rewrite (unorm_nzhead _ Hh) in E.
  destruct (Pos.to_uint p) as [|u|u|u|u|u|u|u|u|u|u] eqn:Ep;
    try reflexivity; [contradiction|].
  destruct u; try reflexivity.
  all: exfalso; symmetry in E; revert E; apply nzhead_nonzero.
Qed.

Lemma parse_number_to_uint (negative : bool) (p : positive) (rest : string) :
  delimited rest = true ->
  parse_number negative (NilEmpty.string_of_uint (Pos.to_uint p) ++ rest) =
  Some (VNum (if negative then Zneg p else Zpos p), rest).
Proof.
  intros H. unfold parse_number.
  rewrite read_digits_of_uint by now apply delimited_read_digits.
  rewrite int_part_ok_to_uint, delimited_no_fraction by assumption.
  cbn [andb negb]. unfold N.of_uint.
  rewrite DecimalPos.Unsigned.of_to. destruct negative; reflexivity.
Qed.

Lemma digit_of_cases (c : ascii) :
  digit_of c <> None ->
  In c ["0"; "1"; "2"; "3"; "4"; "5"; "6"; "7"; "8"; "9"]%char.
Proof.
  unfold digit_of.
  repeat match goal with
         | |- context [(c =? ?d)%char] =>
             destruct (Ascii.eqb_spec c d) as [->|_]; [simpl; tauto|]
         end.
  congruence.
Qed.

Lemma uint_head_digit (u : uint) :
  u <> Nil ->
  exists c r, NilEmpty.string_of_uint u = String c r /\ digit_of c <> None.
Proof.
  destruct u; [congruence|..]; intros _; cbn [NilEmpty.string_of_uint];
    eexists _, _; (split; [reflexivity | discriminate]).
Qed.

Lemma parse_value_digit (fuel : nat) (c : ascii) (r : string) :
  digit_of c <> None ->
  parse_value (S fuel) (String c r) = parse_number false (String c r).
Proof.
  intros H. apply digit_of_cases in H. simpl in H.
  decompose [or] H; subst; try reflexivity. contradiction.
Qed.

Lemma parse_value_number (fuel : nat) (n : Z) (rest : string) :
  delimited rest = true ->
  parse_value (S fuel) (stringify (VNum n) ++ rest) = Some (VNum n, rest).
Proof.
  intros H. destruct n as [|p|p]; cbn [stringify number_to_string].
  - cbn [append]. rewrite parse_value_digit by discriminate.
    unfold parse_number. cbn [read_digits digit_of Ascii.eqb Bool.eqb].
    rewrite (delimited_read_digits _ H). cbn [int_part_ok andb].
    rewrite (delimited_no_fraction _ H). reflexivity.
  - destruct (uint_head_digit (Pos.to_uint p)) as (c & r & E & Hc);
      [apply DecimalPos.Unsigned.to_uint_nonnil|].
    pose proof (parse_number_to_uint false p rest H) as P.
    rewrite E in *. cbn [append] in *.
    rewrite parse_value_digit by assumption. exact P.
  - cbn [append]. cbn. change (parse_number true
      (NilEmpty.string_of_uint (Pos.to_uint p) ++ rest) = Some (VNum (Zneg p), rest)).
    now apply (parse_number_to_uint true).
Qed.

(** *** Values *)

Lemma stringify_arr (l : list value) :
  stringify (VArr l) = String "[" (join "," (map stringify l) ++ "]").
Proof. reflexivity. Qed.

Lemma stringify_obj (ps : list (string * value)) :
  props_clean ps = true ->
  stringify (VObj ps) = String "{" (join "," (map member ps) ++ "}").
Proof.
  intros H. cbn [stringify]. cbn [append]. do 3 f_equal.
  induction ps as [|[k x] t IH]; [reflexivity|].
  cbn [props_clean forallb] in H. apply andb_true_iff in H as [Hx Ht].
  cbn [flat_map map]. rewrite (IH Ht).
  destruct x; try reflexivity. discriminate.
Qed.

Lemma stringify_head (v : value) :
  exists c r, stringify v = String c r /\ is_ws c = false /\
              (c =? "]")%char = false /\ (c =? "}")%char = false.
Proof.
  destruct v as [| |[]|n|s|l|ps];
    try (eexists _, _; split; [reflexivity|]; repeat split; reflexivity).
  destruct n as [|p|p]; try (eexists _, _; split; [reflexivity|];
                             repeat split; reflexivity).
  cbn [stringify number_to_string].
  destruct (uint_head_digit (Pos.to_uint p)) as (c & r & E & Hc);
    [apply DecimalPos.Unsigned.to_uint_nonnil|].
  exists c, r. split; [exact E|].
  apply digit_of_cases in Hc. simpl in Hc.
  decompose [or] Hc; subst; try (repeat split; reflexivity). contradiction.
Qed.

Lemma skip_ws_stringify (v : value) (rest : string) :
  skip_ws (stringify v ++ rest) = stringify v ++ rest.
Proof.
  destruct (stringify_head v) as (c & r & -> & Hw & _).
  cbn [append skip_ws]. now rewrite Hw.
Qed.

Lemma join_cons (sep x y : string) (t : list string) (rest : string) :
  join sep (x :: y :: t) ++ rest = x ++ sep ++ join sep (y :: t) ++ rest.
Proof. cbn [join]. now rewrite !append_assoc. Qed.

Lemma set_prop_fresh (k : string) (v : value) (acc : list (string * value)) :
  existsb (String.eqb k) (map fst acc) = false ->
  set_prop k v acc = (acc ++ [(k, v)])%list.
Proof.
  induction acc as [|[k' v'] t IH]; [reflexivity|].
  cbn [map fst existsb set_prop]. intros H.
  apply orb_false_iff in H as [H1 H2]. rewrite String.eqb_sym, H1.
  cbn [app]. now rewrite IH.
Qed.

Lemma no_dup_keys_app (a b : list string) :
  no_dup_keys (a ++ b)%list = true ->
  no_dup_keys b = true /\
  forall k, In k b -> existsb (String.eqb k) a = false.
Proof.
  induction a as [|x a IH]; cbn [app no_dup_keys].
  - intros H. split; [exact H | reflexivity].
  - intros H. apply andb_true_iff in H as [H1 H2].
    destruct (IH H2) as [Hb Hk]. split; [exact Hb|].
    intros k Hin. cbn [existsb]. rewrite (Hk k Hin), orb_false_r.
    apply negb_true_iff in H1. rewrite existsb_app in H1.
    apply orb_false_iff in H1 as [_ H1].
    destruct (String.eqb_spec k x) as [->|]; [|reflexivity].
    exfalso. assert (E : existsb (String.eqb x) b = true).
    { apply existsb_exists. exists x. split; [exact Hin|apply String.eqb_refl]. }
    congruence.
Qed.

Lemma parse_elements_stringify (l : list value) :
  l <> [] -> Forall parses l -> forallb json_clean l = true ->
  forall fuel rest,
    list_sum (map (fun x => S (size x)) l) <= fuel ->
    parse_elements fuel (join "," (map stringify l) ++ String "]" rest) =
    Some (l, rest).
Proof.
  induction l as [|x t IH]; [congruence|].
  intros _ HF Hc fuel rest Hfuel.
  inversion HF as [|? ? Hx Ht]; subst.
  cbn [forallb] in Hc. apply andb_true_iff in Hc as [Hcx Hct].
  cbn [map list_sum fold_right] in Hfuel.
  destruct fuel as [|fuel]; [lia|].
  cbn [parse_elements].
  destruct t as [|y t'].
  - cbn [map join]. rewrite (Hx Hcx) by (reflexivity || lia). reflexivity.
  - change (map stringify (x :: y :: t'))
      with (stringify x :: stringify y :: map stringify t').
    rewrite join_cons.
    change (stringify y :: map stringify t') with (map stringify (y :: t')).
    rewrite (Hx Hcx) by (reflexivity || lia).
    cbn [append skip_ws is_ws Ascii.eqb Bool.eqb orb].
    rewrite IH; [reflexivity|discriminate|assumption|assumption|].
    cbn [map list_sum fold_right] in *. lia.
Qed.

Lemma member_app (k : string) (x : value) (tail : string) :
  member (k, x) ++ tail =
  String dquote (quote_body k ++ String dquote (String ":" (stringify x ++ tail))).
Proof.
  unfold member, quote. cbn [fst snd append].
  now rewrite !append_assoc.
Qed.

Lemma parse_members_stringify (ps : list (string * value)) :
  ps <> [] -> Forall (fun kv => parses (snd kv)) ps -> props_clean ps = true ->
  forall fuel rest acc,
    list_sum (map (fun kv : string * value => let (_, x) := kv in S (size x)) ps)
      <= fuel ->
    no_dup_keys (map fst (acc ++ ps)%list) = true ->
    parse_members fuel (join "," (map member ps) ++ String "}" rest) acc =
    Some ((acc ++ ps)%list, rest).
Proof.
  induction ps as [|[k x] t IH]; [congruence|].
  intros _ HF Hc fuel rest acc Hfuel Hnd.
  inversion HF as [|? ? Hx Ht]; subst. cbn [snd] in Hx.
  cbn [props_clean forallb] in Hc. apply andb_true_iff in Hc as [Hcx Hct].
  cbn [map list_sum fold_right] in Hfuel.
  destruct fuel as [|fuel]; [lia|].
  assert (Hk : existsb (String.eqb k) (map fst acc) = false).
  { rewrite map_app in Hnd. apply no_dup_keys_app in Hnd as [_ Hnd].
    apply Hnd. now left. }
  assert (Hnd' : no_dup_keys (map fst ((acc ++ [(k, x)]) ++ t)%list) = true).
  { now rewrite <- app_assoc. }
  cbn [parse_members].
  destruct t as [|kv t'].
  - cbn [map join]. rewrite member_app.
    cbn [skip_ws is_ws dquote Ascii.eqb Bool.eqb orb].
    rewrite parse_quote_body.
    cbn [skip_ws is_ws Ascii.eqb Bool.eqb orb].
    rewrite (Hx Hcx) by (reflexivity || lia).
    cbn [skip_ws is_ws Ascii.eqb Bool.eqb orb].
    now rewrite set_prop_fresh.
  - change (map member ((k, x) :: kv :: t'))
      with (member (k, x) :: member kv :: map member t').
    rewrite join_cons.
    change (member kv :: map member t') with (map member (kv :: t')).
    rewrite member_app.
    cbn [skip_ws is_ws dquote Ascii.eqb Bool.eqb orb].
    rewrite parse_quote_body.
    cbn [skip_ws is_ws Ascii.eqb Bool.eqb orb].
    rewrite (Hx Hcx) by (reflexivity || lia).
    cbn [append skip_ws is_ws Ascii.eqb Bool.eqb orb].
    rewrite set_prop_fresh by assumption.
    rewrite IH; [now rewrite <- app_assoc|discriminate|assumption|assumption| |assumption].
    cbn [map list_sum fold_right] in *. lia.
Qed.

Lemma parse_value_stringify (v : value) : parses v.
Proof.
  induction v as [| |b|n|s|l IH|ps IH] using value_nested_ind;
    intros Hc fuel rest Hfuel Hd.
  - discriminate.
  - destruct fuel; [cbn in Hfuel; lia|]. reflexivity.
  - destruct fuel; [cbn in Hfuel; lia|]. destruct b; reflexivity.
  - destruct fuel; [cbn in Hfuel; lia|]. now apply parse_value_number.
  - destruct fuel; [cbn in Hfuel; lia|].
    cbn [stringify quote append parse_value skip_ws is_ws dquote
         Ascii.eqb Bool.eqb orb].
    rewrite append_assoc. cbn [append]. now rewrite parse_quote_body.
  - destruct fuel; [cbn in Hfuel; lia|].
    rewrite stringify_arr. cbn [json_clean] in Hc.
    cbn [append parse_value skip_ws is_ws Ascii.eqb Bool.eqb orb].
    rewrite append_assoc. cbn [append].
    destruct l as [|x t]; [reflexivity|].
    destruct (stringify_head x) as (c & r0 & E & Hw & Hb & _).
    assert (Hs : exists r1,
               join "," (map stringify (x :: t)) ++ String "]" rest = String c r1).
    { destruct t; cbn [map join]; rewrite ?E; cbn [append]; eauto. }
    destruct Hs as (r1 & Hs). rewrite Hs. cbn [skip_ws]. rewrite Hw, Hb.
    rewrite <- Hs, parse_elements_stringify; try assumption;
      [reflexivity|discriminate|].
    cbn [size] in Hfuel. lia.
  - destruct fuel; [cbn in Hfuel; lia|].
    cbn [json_clean] in Hc. apply andb_true_iff in Hc as [Hc Hnd].
    rewrite stringify_obj by exact Hc.
    cbn [append parse_value skip_ws is_ws Ascii.eqb Bool.eqb orb].
    rewrite append_assoc. cbn [append].
    destruct ps as [|[k x] t]; [reflexivity|].
    assert (Hs : exists r1,
               join "," (map member ((k, x) :: t)) ++ String "}" rest
               = String dquote r1).
    { destruct t; cbn [map join]; unfold member at 1, quote;
        cbn [append]; eauto. }
    destruct Hs as (r1 & Hs). rewrite Hs.
    cbn [skip_ws is_ws dquote Ascii.eqb Bool.eqb orb].
    change (String "034" r1) with (String dquote r1).
    rewrite <- Hs, parse_members_stringify; try assumption;
      [reflexivity|discriminate|].
    cbn [size] in Hfuel. lia.
Qed.

Lemma size_le_length (v : value) :
  json_clean v = true -> size v <= String.length (stringify v).
Proof.
  induction v as [| |b|n|s|l IH|ps IH] using value_nested_ind; intros Hc.
  - discriminate.
  - cbn; lia.
  - destruct b; cbn; lia.
  - destruct (stringify_head (VNum n)) as (c & r & -> & _). cbn; lia.
  - cbn; lia.
  - rewrite stringify_arr. cbn [json_clean] in Hc.
    cbn [String.length size]. rewrite length_append. cbn [String.length].
    enough (list_sum (map (fun x => S (size x)) l)
            <= S (String.length (join "," (map stringify l)))) by lia.
    induction l as [|x t IHl]; [cbn; lia|].
    inversion IH as [|? ? Hx Ht]; subst.
    cbn [forallb] in Hc. apply andb_true_iff in Hc as [Hcx Hct].
    specialize (IHl Ht Hct). specialize (Hx Hcx).
    unfold list_sum in *. cbn [map fold_right] in *.
    destruct t as [|y t']; cbn [map join fold_right] in *;
      rewrite ?length_append in *; cbn [String.length] in *; lia.
  - cbn [json_clean] in Hc. apply andb_true_iff in Hc as [Hc _].
    rewrite stringify_obj by exact Hc.
    cbn [String.length size]. rewrite length_append. cbn [String.length].
    enough (list_sum (map (fun kv : string * value =>
                             let (_, x) := kv in S (size x)) ps)
            <= S (String.length (join "," (map member ps)))) by lia.
    induction ps as [|[k x] t IHl]; [cbn; lia|].
    inversion IH as [|? ? Hx Ht]; subst. cbn [snd] in Hx.
    cbn [props_clean forallb] in Hc. apply andb_true_iff in Hc as [Hcx Hct].
    specialize (IHl Ht Hct). specialize (Hx Hcx).
    unfold list_sum in *. cbn [map fold_right] in *.
    assert (Hm : S (size x) <= String.length (member (k, x))).
    { unfold member, quote. cbn [fst snd].
      rewrite !length_append. cbn [String.length]. lia. }
    destruct t as [|y t']; cbn [map join fold_right] in *;
      rewrite ?length_append in *; cbn [String.length] in *; lia.
Qed.

(** [JSON.parse] reads back what [JSON.stringify] wrote. *)
Theorem JSON_parse_stringify (v : value) :
  json_clean v = true -> JSON_parse (stringify v) = Some v.
Proof.
  intros Hc. unfold JSON_parse.
  rewrite <- (append_nil_r (stringify v)) at 2.
  rewrite parse_value_stringify; [reflexivity|assumption| |reflexivity].
  pose proof (size_le_length v Hc). lia.
Qed.

End JsonFacts.

(* ------------------------------------------------------------------ *)
(** ** Sorting by a key                                                 *)
(* ------------------------------------------------------------------ *)

Module SortFacts.
Import JS.

Section ByKey.
Context {A : Type} (compare : A -> A -> option Z) (key : A -> Z).


Lemma insert_perm (a : A) (l : list A) :
  Permutation (insert compare a l) (a :: l).
Proof.
  induction l as [|b t IH]; cbn [insert]; [reflexivity|].
  destruct (in_order compare a b); [reflexivity|].
  rewrite IH. apply perm_swap.
Qed.

Lemma sort_perm (l : list A) : Permutation (sort compare l) l.
Proof.
  induction l as [|a t IH]; cbn [sort]; [reflexivity|].
  rewrite insert_perm. now constructor.
Qed.

Lemma insert_sorted (a : A) (l : list A) :
  keyed compare key (a :: l) -> StronglySorted (le_key key) l ->
  StronglySorted (le_key key) (insert compare a l).
Proof.
  intros Hk Hs. induction Hs as [|b t Hs IH Hb]; cbn [insert].
  - repeat constructor.
  - unfold in_order. rewrite (Hk a b) by (simpl; auto).
    destruct (Z.leb_spec (key a - key b) 0) as [Hle|Hgt].
    + constructor; [now constructor|].
      constructor; [unfold le_key; lia|].
      eapply Forall_impl; [|exact Hb]. unfold le_key. intros; lia.
    + constructor.
      * apply IH. intros x y Hx Hy. apply Hk; simpl in *; tauto.
      * rewrite (insert_perm a t). constructor; [unfold le_key; lia|exact Hb].
Qed.

Lemma sort_sorted (l : list A) :
  keyed compare key l -> StronglySorted (le_key key) (sort compare l).
Proof.
  induction l as [|a t IH]; intros Hk; cbn [sort]; [constructor|].
  apply insert_sorted.
  - intros x y Hx Hy. apply Hk.
    + destruct Hx as [->|Hx]; [now left|right].
      now apply (Permutation_in _ (sort_perm t)).
    + destruct Hy as [->|Hy]; [now left|right].
      now apply (Permutation_in _ (sort_perm t)).
  - apply IH. intros x y Hx Hy. apply Hk; now right.
Qed.

(** Two sorted arrangements of elements with distinct keys coincide. *)
Lemma sorted_unique (l1 l2 : list A) :
  StronglySorted (le_key key) l1 -> StronglySorted (le_key key) l2 ->
  Permutation l1 l2 -> NoDup (map key l1) -> l1 = l2.
Proof.
  intros H1. revert l2. induction H1 as [|a t1 Hs1 IH Ha]; intros l2 H2 Hp Hnd.
  - now apply Permutation_nil in Hp.
  - destruct H2 as [|b t2 Hs2 Hb].
    + symmetry in Hp. now apply Permutation_nil in Hp.
    + assert (Hab : a = b).
      { assert (Hin : In b (a :: t1))
          by (apply (Permutation_in _ (Permutation_sym Hp)); now left).
        destruct Hin as [E|Hin]; [exact E|exfalso].
        assert (Hle1 : le_key key a b) by (rewrite Forall_forall in Ha; auto).
        assert (Hin' : In a (b :: t2))
          by (apply (Permutation_in _ Hp); now left).
        assert (Hle2 : le_key key b a).
        { destruct Hin' as [->|Hin']; [unfold le_key; lia|].
          rewrite Forall_forall in Hb; auto. }
        inversion Hnd as [|? ? Hnotin _]; subst. apply Hnotin.
        unfold le_key in *. replace (key a) with (key b) by lia.
        now apply in_map. }
      subst b. f_equal. apply IH; [assumption| |now inversion Hnd].
      now apply Permutation_cons_inv in Hp.
Qed.

(** Sorting a rearrangement of a list that is strictly increasing by key
    gives the list. *)
Lemma sort_of_permutation (l delivered : list A) :
  keyed compare key l -> StronglySorted (le_key key) l -> NoDup (map key l) ->
  Permutation delivered l -> sort compare delivered = l.
Proof.
  intros Hk Hs Hnd Hp.
  assert (Hk' : keyed compare key delivered).
  { intros x y Hx Hy. apply Hk; now apply (Permutation_in _ Hp). }
  apply sorted_unique.
  - now apply sort_sorted.
  - exact Hs.
  - now rewrite sort_perm.
  - eapply Permutation_NoDup; [|exact Hnd].
    apply Permutation_map. symmetry. now rewrite sort_perm.
Qed.

End ByKey.

End SortFacts.

(* ------------------------------------------------------------------ *)
(** ** The envelope codec and the chunker                               *)
(* ------------------------------------------------------------------ *)

Module MsgFacts.
Import JS Msg JsonFacts.

Lemma well_formed_inv (m : Message) :
  well_formed m = true ->
  exists v t i, version m = VStr v /\ type m = VStr t /\ id m = VStr i /\
                i <> "" /\ json_clean (payload m) = true.
Proof.
  unfold well_formed. intros H.
  repeat (apply andb_true_iff in H as [H ?]).
  destruct (version m) as [| | | |v| |]; try discriminate.
  destruct (type m) as [| | | |t| |]; try discriminate.
  destruct (id m) as [| | | |i| |]; try discriminate.
  exists v, t, i. repeat split; try assumption.
  intros ->. discriminate.
Qed.

Lemma fromJSON_toJSON_wf (uuid : string) (E : Message) :
  well_formed E = true -> fromJSON uuid (toJSON E) = Ok E.
Proof.
  intros H. destruct (well_formed_inv E H) as (v & t & i & Hv & Ht & Hi & Hne & Hp).
  destruct E as [ve te pe ie]. cbn [version type payload id] in *. subst.
  unfold fromJSON, toJSON.
  rewrite JSON_parse_stringify.
  2:{ cbn [json_clean forallb map fst no_dup_keys version type payload id]. rewrite Hp. reflexivity. }
  cbn. unfold new_Message, or_else. cbn [truthy].
  destruct (String.eqb_spec i "") as [->|_]; [congruence|]. reflexivity.
Qed.

(** *** Splitting a text and joining the pieces *)

Lemma suffix_nil (n : nat) : suffix n "" = "".
Proof. destruct n; reflexivity. Qed.

Lemma substring_suffix (n m : nat) (s : string) :
  String.substring n m s = String.substring 0 m (suffix n s).
Proof.
  revert s. induction n as [|n IH]; intros s; [reflexivity|].
  destruct s as [|c r]; cbn [suffix String.substring]; [|apply IH].
  destruct m; reflexivity.
Qed.

Lemma substring_take_drop (m : nat) (s : string) :
  String.substring 0 m s ++ suffix m s = s.
Proof.
  revert s. induction m as [|m IH]; intros s; [now destruct s|].
  destruct s as [|c r]; [reflexivity|].
  cbn [String.substring suffix append]. now rewrite IH.
Qed.

Lemma suffix_add (a b : nat) (s : string) :
  suffix (a + b) s = suffix b (suffix a s).
Proof.
  revert s. induction a as [|a IH]; intros s; [reflexivity|].
  destruct s as [|c r]; cbn [Nat.add suffix]; [now rewrite suffix_nil|apply IH].
Qed.

Lemma suffix_all (n : nat) (s : string) :
  String.length s <= n -> suffix n s = "".
Proof.
  revert s. induction n as [|n IH]; intros [|c r] H; cbn in *;
    try reflexivity; try lia. apply IH. lia.
Qed.

Lemma join_nosep (x : string) (t : list string) :
  join "" (x :: t) = x ++ join "" t.
Proof. destruct t; cbn [join append]; [now rewrite append_nil_r|reflexivity]. Qed.

Lemma substring_window (s : string) (i n : nat) :
  substring s i (i + n) = String.substring i n s.
Proof.
  unfold substring. rewrite Nat.min_l, Nat.max_r by lia.
  f_equal. lia.
Qed.

(** With a positive chunk size the loop ends, and the pieces joined give
    back the text from the start index on. *)
Lemma chunk_loop_joins (s : string) (chunkSize : nat) :
  0 < chunkSize ->
  forall fuel i, String.length s - i <= fuel ->
  exists chunks, chunk_loop fuel s chunkSize i = Some chunks /\
                 join "" chunks = suffix i s.
Proof.
  intros Hpos. induction fuel as [|fuel IH]; intros i Hfuel.
  - exists []. cbn [chunk_loop].
    destruct (Nat.ltb_spec i (String.length s)); [lia|].
    split; [reflexivity|]. symmetry. apply suffix_all. lia.
  - cbn [chunk_loop]. destruct (Nat.ltb_spec i (String.length s)) as [Hlt|Hge].
    + destruct (IH (i + chunkSize)) as (chunks & -> & Hj); [lia|].
      eexists. split; [reflexivity|].
      rewrite join_nosep, Hj, substring_window, substring_suffix, suffix_add.
      apply substring_take_drop.
    + exists []. split; [reflexivity|]. symmetry. apply suffix_all. lia.
Qed.

(** *** The chunks of a message *)

Section Chunks.
Variable uuidv4 : nat -> string.
Variable E : Message.
Variable total : nat.

Lemma wrap_chunks_are_chunks (strs : list string) (index : nat) :
  Forall (is_chunk_of E total) (wrap_chunks uuidv4 E total index strs).
Proof.
  revert index. induction strs as [|d t IH]; intros index; cbn [wrap_chunks];
    constructor; [|apply IH].
  now exists (uuidv4 index), (Z.of_nat index), d.
Qed.

Lemma wrap_chunks_keys (strs : list string) (index : nat) :
  map chunk_key (wrap_chunks uuidv4 E total index strs) =
  map Z.of_nat (seq index (List.length strs)).
Proof.
  revert index. induction strs as [|d t IH]; intros index; [reflexivity|].
  cbn [wrap_chunks map List.length seq]. now rewrite IH.
Qed.

Lemma wrap_chunks_type (strs : list string) (index : nat) :
  Forall (fun chunk => type chunk = VStr MessageType.CHUNK)
         (wrap_chunks uuidv4 E total index strs).
Proof.
  revert index. induction strs as [|d t IH]; intros index; cbn [wrap_chunks];
    constructor; [reflexivity|apply IH].
Qed.

Lemma wrap_chunks_length (strs : list string) (index : nat) :
  List.length (wrap_chunks uuidv4 E total index strs) = List.length strs.
Proof.
  revert index. induction strs as [|d t IH]; intros index; [reflexivity|].
  cbn [wrap_chunks List.length]. now rewrite IH.
Qed.

Lemma chunks_keyed (l : list Message) :
  Forall (is_chunk_of E total) l -> keyed by_chunkIndex chunk_key l.
Proof.
  intros HF a b Ha Hb. rewrite Forall_forall in HF.
  destruct (HF a Ha) as (ua & ia & da & ->).
  destruct (HF b Hb) as (ub & ib & db & ->). reflexivity.
Qed.

Lemma chunks_field (k : string) (l : list Message) :
  Forall (is_chunk_of E total) l ->
  exists vs, map_result (payload_get k) l = Ok vs.
Proof.
  induction 1 as [|c t (u & i & d & ->) _ (vs & IH)]; [now exists []|].
  cbn [map_result]. rewrite IH.
  unfold payload_get, createChunk, new_Message. cbn [payload get bind].
  eexists. reflexivity.
Qed.

Lemma chunks_ids (l : list Message) :
  Forall (is_chunk_of E total) l ->
  map_result (payload_get "originalMessageId") l = Ok (map (fun _ => id E) l).
Proof.
  induction 1 as [|c t (u & i & d & ->) _ IH]; [reflexivity|].
  cbn [map_result map]. now rewrite IH.
Qed.

Lemma wrap_chunks_data (strs : list string) (index : nat) :
  map_result (payload_get "chunkData") (wrap_chunks uuidv4 E total index strs)
  = Ok (map VStr strs).
Proof.
  revert index. induction strs as [|d t IH]; intros index; [reflexivity|].
  cbn [wrap_chunks map_result map]. now rewrite IH.
Qed.

End Chunks.

Lemma seq_sorted (index n : nat) :
  StronglySorted Z.le (map Z.of_nat (seq index n)).
Proof.
  revert index. induction n as [|n IH]; intros index; cbn [seq map];
    constructor; [apply IH|].
  apply Forall_forall. intros z Hz. apply in_map_iff in Hz as (k & <- & Hk).
  apply in_seq in Hk. lia.
Qed.

Lemma seq_keys_nodup (index n : nat) : NoDup (map Z.of_nat (seq index n)).
Proof.
  apply Finite.Injective_map_NoDup; [|apply seq_NoDup].
  intros x y. apply Nat2Z.inj.
Qed.

Lemma sorted_by_key {A : Type} (key : A -> Z) (l : list A) :
  StronglySorted Z.le (map key l) -> StronglySorted (le_key key) l.
Proof.
  induction l as [|a t IH]; cbn [map]; intros H; [constructor|].
  inversion H as [|? ? Hs Ha]; subst. constructor; [now apply IH|].
  rewrite Forall_map in Ha. exact Ha.
Qed.

Lemma array_join_strings (strs : list string) :
  array_join "" (map VStr strs) = join "" strs.
Proof.
  unfold array_join. rewrite map_map. cbn [to_string].
  f_equal. now rewrite map_id.
Qed.

Lemma toJSON_nonempty (E : Message) : toJSON E <> "".
Proof. unfold toJSON. cbn [stringify append]. discriminate. Qed.

(** Chunks of a well-formed message, delivered in any order, reassemble
    to the message. *)
Lemma reassemble_delivered (uuidv4 : nat -> string) (uuid : string)
    (E : Message) (chunkSize : nat) :
  well_formed E = true -> 0 < chunkSize ->
  exists chunks,
    chunkMessage uuidv4 E chunkSize = Some chunks /\
    chunks <> [] /\
    Forall (is_chunk_of E (List.length chunks)) chunks /\
    forall delivered, Permutation delivered chunks ->
                      reassembleChunks uuid delivered = Ok (Some E).
Proof.
  intros Hwf Hpos.
  destruct (chunk_loop_joins (toJSON E) chunkSize Hpos
              (String.length (toJSON E)) 0) as (strs & Hloop & Hjoin);
    [lia|].
  cbn [suffix] in Hjoin.
  unfold chunkMessage. rewrite Hloop. eexists. split; [reflexivity|].
  split.
  { destruct strs; [exfalso; now apply (toJSON_nonempty E)|discriminate]. }
  split.
  { rewrite wrap_chunks_length. apply wrap_chunks_are_chunks. }
  intros delivered Hp.
  set (total := List.length strs) in *.
  set (chunks := wrap_chunks uuidv4 E total 0 strs) in *.
  assert (Hchunks : Forall (is_chunk_of E total) chunks)
    by apply wrap_chunks_are_chunks.
  assert (Hdel : Forall (is_chunk_of E total) delivered).
  { rewrite Forall_forall in *. intros c Hc. apply Hchunks.
    now apply (Permutation_in _ Hp). }
  assert (Hsort : sort by_chunkIndex delivered = chunks).
  { apply SortFacts.sort_of_permutation with (key := chunk_key).
    - now apply chunks_keyed with (E := E) (total := total).
    - apply sorted_by_key. unfold chunks. rewrite wrap_chunks_keys.
      apply seq_sorted.
    - unfold chunks. rewrite wrap_chunks_keys. apply seq_keys_nodup.
    - exact Hp. }
  assert (Hlen : List.length delivered = total).
  { rewrite (Permutation_length Hp). apply wrap_chunks_length. }
  destruct strs as [|d0 strs'].
  { exfalso. now apply (toJSON_nonempty E). }
  destruct delivered as [|c0 cs].
  { apply Permutation_nil in Hp. discriminate. }
  unfold reassembleChunks.
  destruct (chunks_field E total "chunkIndex" _ Hdel) as (vs & ->).
  cbn [bind]. rewrite Hsort, Hlen.
  destruct (well_formed_inv E Hwf) as (v & t & i & Hv & Ht & Hi & Hne & Hpl).
  unfold chunks. cbn [wrap_chunks].
  change (payload_get "totalChunks"
            (createChunk (uuidv4 0) (id E) (Z.of_nat 0) (Z.of_nat total) d0 (type E)))
    with (Ok (VNum (Z.of_nat total))).
  cbn [bind strict_eq]. rewrite Z.eqb_refl. cbn [negb].
  change (payload_get "originalMessageId"
            (createChunk (uuidv4 0) (id E) (Z.of_nat 0) (Z.of_nat total) d0 (type E)))
    with (Ok (id E)).
  cbn [bind].
  rewrite (chunks_ids E total) by apply wrap_chunks_are_chunks.
  cbn [bind].
  assert (Hall : forallb (fun x => strict_eq x (id E))
                   (map (fun _ : Message => id E)
                        (wrap_chunks uuidv4 E total 1 strs')) = true).
  { apply forallb_forall. intros x Hx. apply in_map_iff in Hx as (? & <- & _).
    rewrite Hi. cbn [strict_eq]. apply String.eqb_refl. }
  rewrite Hall. cbn [negb].
  change (createChunk (uuidv4 0) (id E) (Z.of_nat 0) (Z.of_nat total) d0 (type E)
          :: wrap_chunks uuidv4 E total 1 strs')
    with (wrap_chunks uuidv4 E total 0 (d0 :: strs')).
  rewrite wrap_chunks_data. cbn [bind].
  rewrite array_join_strings, Hjoin, fromJSON_toJSON_wf by assumption.
  reflexivity.
Qed.

(** With a chunk size of 0 the loop makes no progress on a non-empty
    text: it is still running after any number of turns. *)
Lemma chunk_loop_stuck (s : string) :
  s <> "" -> forall fuel, chunk_loop fuel s 0 0 = None.
Proof.
  intros Hs. assert (Hlen : (0 <? String.length s)%nat = true).
  { destruct s; [congruence|reflexivity]. }
  induction fuel as [|fuel IH]; cbn [chunk_loop Nat.add]; rewrite Hlen;
    [reflexivity|]. now rewrite IH.
Qed.

End MsgFacts.

(* ------------------------------------------------------------------ *)
(** ** Expectations                                                     *)
(* ------------------------------------------------------------------ *)

Module WaitFacts.
Import JS Wait.

Section Facts.
Context {M : Type} (type_of : M -> result value).

(** A wait is pending (listener registered, timer armed for [deadline],
    promise untouched) or settled (listener removed, timer gone, one call
    of [resolve]). *)
Inductive phase (expected : value) (deadline : Z) : wait -> Prop :=
| Pending :
    phase expected deadline
          {| expectedType := expected; listener := true;
             timer := Some deadline; resolutions := [] |}
| Settled (r : option M) :
    phase expected deadline
          {| expectedType := expected; listener := false;
             timer := None; resolutions := [r] |}.

Lemma step_phase (expected : value) (deadline : Z) (w : wait) (e : event) :
  phase expected deadline w -> phase expected deadline (step type_of w e).
Proof.
  intros [|r]; destruct e as [m|now]; cbn [step listener timer];
    try apply Settled.
  - unfold messageHandler. cbn [expectedType resolutions].
    destruct (type_of m) as [t|]; cbn [bind]; [|apply Pending].
    destruct (strict_eq t expected); [apply Settled|apply Pending].
  - destruct (deadline <=? now)%Z; [apply Settled|apply Pending].
Qed.

Lemma run_phase (expected : value) (deadline : Z) (events : list event)
    (w : wait) :
  phase expected deadline w -> phase expected deadline (run type_of w events).
Proof.
  revert w. induction events as [|e t IH]; intros w H; [exact H|].
  apply IH. now apply step_phase.
Qed.

Lemma run_settled (w : wait) (events : list event) :
  listener w = false -> timer w = None -> run type_of w events = w.
Proof.
  intros Hl Ht. induction events as [|e t IH]; [reflexivity|].
  cbn [run fold_left]. destruct e; cbn [step]; rewrite ?Hl, ?Ht; exact IH.
Qed.

Lemma run_cons (w : wait) (e : event) (events : list event) :
  run type_of w (e :: events) = run type_of (step type_of w e) events.
Proof. reflexivity. Qed.

Lemma run_app (w : wait) (a b : list event) :
  run type_of w (a ++ b) = run type_of (run type_of w a) b.
Proof. apply fold_left_app. Qed.

(** Events that neither match nor reach the deadline leave a pending wait
    pending. *)
Lemma run_idle (expected : value) (deadline : Z) (events : list event) :
  forallb (fun e => negb (matches type_of expected e)
                    && negb (expires deadline e)) events = true ->
  let w := {| expectedType := expected; listener := true;
              timer := Some deadline; resolutions := [] |} in
  run type_of w events = w.
Proof.
  intros H w. induction events as [|e t IH]; [reflexivity|].
  cbn [forallb] in H. apply andb_true_iff in H as [He Ht].
  apply andb_true_iff in He as [Hm Hx].
  apply negb_true_iff in Hm, Hx.
  cbn [run fold_left].
  assert (E : step type_of w e = w).
  { subst w. destruct e as [m|now]; cbn [step listener timer].
    - unfold messageHandler. cbn [matches] in Hm.
      destruct (type_of m) as [t'|]; cbn [bind expectedType]; [|reflexivity].
      now rewrite Hm.
    - cbn [expires] in Hx. now rewrite Hx. }
  rewrite E. now apply IH.
Qed.

End Facts.

(** A delay that fits in 31 bits is armed as it is. *)
Lemma setTimeout_delay_small (ms : Z) :
  (0 <= ms <= 2147483647)%Z -> setTimeout_delay ms = ms.
Proof.
  intros H. unfold setTimeout_delay, to_int32.
  rewrite Z.mod_small by lia. lia.
Qed.

(** The waiting time of a call: the [timeout] argument, or [messageWait]
    when the argument is left out or 0. *)
Lemma effectiveTimeout_cases (timeout : option Z) (messageWait waiting : Z) :
  (1 <= waiting)%Z ->
  timeout = Some waiting
  \/ ((timeout = None \/ timeout = Some 0%Z) /\ messageWait = waiting) ->
  effectiveTimeout timeout messageWait = waiting.
Proof.
  intros Hpos [->|[[->| ->] <-]]; cbn [effectiveTimeout]; try reflexivity.
  destruct (Z.eqb_spec waiting 0); [lia|reflexivity].
Qed.

End WaitFacts.

(* ------------------------------------------------------------------ *)
(** ** Map                                                              *)
(* ------------------------------------------------------------------ *)

Module MapFacts.
Import JS.

Lemma map_get_set {V : Type} (k : value) (v : V) (m : list (value * V)) :
  strict_eq k k = true -> map_get k (map_set k v m) = Some v.
Proof.
  intros Hk. induction m as [|[k' v'] t IH]; cbn [map_set map_get].
  - now rewrite Hk.
  - destruct (strict_eq k' k) eqn:E; cbn [map_get]; rewrite E;
      [reflexivity|exact IH].
Qed.

Lemma map_set_set {V : Type} (k : value) (v1 v2 : V) (m : list (value * V)) :
  strict_eq k k = true -> map_set k v2 (map_set k v1 m) = map_set k v2 m.
Proof.
  intros Hk. induction m as [|[k' v'] t IH]; cbn [map_set].
  - now rewrite Hk.
  - destruct (strict_eq k' k) eqn:E; cbn [map_set]; rewrite E;
      [reflexivity|now rewrite IH].
Qed.

Lemma map_delete_set {V : Type} (k : value) (v : V) (m : list (value * V)) :
  strict_eq k k = true -> map_get k m = None ->
  map_delete k (map_set k v m) = m.
Proof.
  intros Hk. induction m as [|[k' v'] t IH]; cbn [map_set map_get map_delete].
  - now rewrite Hk.
  - destruct (strict_eq k' k) eqn:E; [discriminate|].
    intros H. cbn [map_delete]. rewrite E. now rewrite IH.
Qed.

Lemma map_delete_absent {V : Type} (k : value) (m : list (value * V)) :
  map_get k m = None -> map_delete k m = m.
Proof.
  induction m as [|[k' v'] t IH]; cbn [map_get map_delete]; [reflexivity|].
  destruct (strict_eq k' k); [discriminate|]. intros H. now rewrite IH.
Qed.

Lemma get_total (o : value) (k k' : string) (v : value) :
  get o k = Ok v -> exists v', get o k' = Ok v'.
Proof. destruct o; try discriminate; intros _; eexists; reflexivity. Qed.

(** Distinct indices below [n] that miss one index below [n] are fewer
    than [n]. *)
Lemma missing_index_count (indices : list Z) (n k : Z) :
  NoDup indices ->
  Forall (fun i => 0 <= i < n)%Z indices ->
  (0 <= k < n)%Z -> ~ In k indices ->
  (Z.of_nat (List.length indices) < n)%Z.
Proof.
  intros Hnd Hrange Hk Hout.
  assert (Hle : List.length (k :: indices)
                <= List.length (List.map Z.of_nat (seq 0 (Z.to_nat n)))).
  { apply NoDup_incl_length; [now constructor|].
    intros i Hi. apply in_map_iff. exists (Z.to_nat i).
    assert (0 <= i < n)%Z as Hb.
    { destruct Hi as [<-|Hi]; [exact Hk|].
      rewrite Forall_forall in Hrange. now apply Hrange. }
    split; [lia|]. apply in_seq. lia. }
  rewrite length_map, length_seq in Hle. cbn [List.length] in Hle. lia.
Qed.

End MapFacts.

(* ------------------------------------------------------------------ *)
(** ** class AudioProtocol                                              *)
(* ------------------------------------------------------------------ *)

Module AudioFacts.
Import JS Msg Config Audio.

(** The handlers never read [isTransmitting]. *)
Lemma handleChunk_isTransmitting (uuid : string) (b : bool)
    (st : AudioProtocol) (chunk : Message) :
  handleChunk uuid (set_isTransmitting b st) chunk =
  match handleChunk uuid st chunk with
  | Ok (st', effects) => Ok (set_isTransmitting b st', effects)
  | Throw e => Throw e
  end.
Proof.
  unfold handleChunk.
  destruct (payload_get "originalMessageId" chunk) as [oid|]; [|reflexivity].
  destruct (payload_get "chunkIndex" chunk) as [idx|]; [|reflexivity].
  destruct (payload_get "totalChunks" chunk) as [total|]; [|reflexivity].
  cbn [bind set_isTransmitting chunkStorage].
  destruct (strict_eq _ total); [|reflexivity].
  destruct (reassembleChunks uuid _) as [[m|]|]; reflexivity.
Qed.

Lemma onaudioprocess_isTransmitting (uuids : string * string) (b : bool)
    (st : AudioProtocol) (decoded : option string) :
  onaudioprocess uuids (set_isTransmitting b st) decoded =
  (set_isTransmitting b (fst (onaudioprocess uuids st decoded)),
   snd (onaudioprocess uuids st decoded)).
Proof.
  unfold onaudioprocess. destruct decoded as [text|]; [|reflexivity].
  destruct (0 <? String.length text)%nat; [|reflexivity].
  destruct (fromJSON (fst uuids) text) as [m|]; [|reflexivity].
  unfold handleReceivedMessage.
  destruct (strict_eq (type m) _); [|reflexivity].
  rewrite handleChunk_isTransmitting.
  destruct (handleChunk (snd uuids) st m) as [[st' effects]|]; reflexivity.
Qed.

(** When every chunk can be played, the loop plays the chunks in order. *)
Lemma send_chunks_played (env : Env) (chunks : list Message) :
  (forall text, play_ok env text = true) ->
  forall st, exists st' effects,
    send_chunks env st chunks = (st', effects, Ok true) /\
    played effects = map toJSON chunks /\
    isListening st' = isListening st.
Proof.
  intros Hplay. induction chunks as [|c t IH]; intros st.
  - exists st, []. repeat split.
  - cbn [send_chunks]. unfold sendSingleMessage. rewrite Hplay.
    destruct (IH (set_isTransmitting true st)) as (st' & effects & -> & Hp & Hl).
    eexists _, _. split; [reflexivity|]. split; [|exact Hl].
    cbn [List.app played map]. now rewrite Hp.
Qed.

(** No send of [AudioProtocol] touches [isListening]. *)
Lemma fail_isListening (env : Env) (st : AudioProtocol)
    (effects : list effect) (what : string) :
  fst (fst (fail env st effects what)) = st.
Proof. unfold fail. now destruct (error_listener env). Qed.

Lemma sendSingleMessage_isListening (env : Env) (st : AudioProtocol)
    (message : Message) :
  isListening (fst (fst (sendSingleMessage env st message))) = isListening st.
Proof.
  unfold sendSingleMessage. destruct (play_ok env _); [reflexivity|].
  now rewrite fail_isListening.
Qed.

Lemma send_chunks_isListening (env : Env) (chunks : list Message) :
  forall st,
    isListening (fst (fst (send_chunks env st chunks))) = isListening st.
Proof.
  induction chunks as [|c t IH]; intros st; [reflexivity|].
  cbn [send_chunks].
  pose proof (sendSingleMessage_isListening env st c) as H1.
  destruct (sendSingleMessage env st c) as [[st1 effects1] [[|]|e]];
    cbn [fst snd] in H1 |- *; try exact H1.
  specialize (IH st1).
  destruct (send_chunks env st1 t) as [[st2 effects2] r].
  cbn [fst snd] in IH |- *. congruence.
Qed.

Lemma sendMessage_isListening (uuidv4 : nat -> string) (env : Env)
    (st : AudioProtocol) (message : Message) :
  isListening (fst (fst (sendMessage uuidv4 env st message))) = isListening st.
Proof.
  unfold sendMessage.
  destruct (negb (initialize_ok env)); [now rewrite fail_isListening|].
  destruct (shouldChunkMessage _ _);
    [|apply sendSingleMessage_isListening].
  unfold sendChunkedMessage.
  destruct (chunkMessage _ _ _) as [chunks|];
    [|now rewrite fail_isListening].
  pose proof (send_chunks_isListening env chunks st) as H.
  destruct (send_chunks env st chunks) as [[st' effects] [[|]|e]];
    cbn [fst snd] in H |- *; rewrite ?fail_isListening; exact H.
Qed.

(** While fewer than [totalChunks] chunks have been delivered for an id,
    every delivered chunk is appended to the buffer of that id and nothing
    is emitted. *)
Lemma handleChunks_append (uuid : string) (oid : value) (n : Z)
    (chunks : list Message) :
  strict_eq oid oid = true ->
  Forall (fun chunk => payload_get "originalMessageId" chunk = Ok oid /\
                       payload_get "totalChunks" chunk = Ok (VNum n)) chunks ->
  forall st,
    (Z.of_nat (List.length (buffer oid st) + List.length chunks) < n)%Z ->
    exists st',
      handleChunks uuid st chunks = Ok (st', []) /\
      buffer oid st' = (buffer oid st ++ chunks)%list.
Proof.
  intros Hoid HF. induction HF as [|c t [Hc1 Hc2] _ IH]; intros st Hlen.
  - exists st. split; [reflexivity|]. now rewrite List.app_nil_r.
  - cbn [handleChunks]. unfold handleChunk. rewrite Hc1, Hc2.
    destruct (MapFacts.get_total _ _ "chunkIndex" _ Hc1) as (idx & Hidx).
    unfold payload_get in *. rewrite Hidx. cbn [bind].
    fold (buffer oid st). cbn [strict_eq].
    cbn [List.length] in Hlen.
    assert (E : (Z.of_nat (List.length (buffer oid st ++ [c])) =? n)%Z = false).
    { apply Z.eqb_neq. rewrite length_app. cbn [List.length]. lia. }
    rewrite E. cbn [bind fst snd].
    set (st1 := set_chunkStorage _ st).
    assert (Hb : buffer oid st1 = (buffer oid st ++ [c])%list).
    { unfold buffer at 1, st1. cbn [chunkStorage set_chunkStorage].
      now rewrite MapFacts.map_get_set. }
    destruct (IH st1) as (st' & -> & Hb').
    { rewrite Hb, length_app. cbn [List.length]. lia. }
    exists st'. split; [reflexivity|].
    now rewrite Hb', Hb, <- List.app_assoc.
Qed.

(** Chunks of one id that arrive with distinct indices below
    [totalChunks], one index missing, never complete: nothing is emitted,
    and the buffer of the id holds them all. *)
Lemma handleChunks_missing_index (uuid : string) (oid : value) (n k : Z)
    (chunks : list Message) (indices : list Z) (st : AudioProtocol) :
  strict_eq oid oid = true ->
  Forall2 (fun chunk i =>
             payload_get "originalMessageId" chunk = Ok oid /\
             payload_get "totalChunks" chunk = Ok (VNum n) /\
             payload_get "chunkIndex" chunk = Ok (VNum i)) chunks indices ->
  NoDup indices ->
  Forall (fun i => 0 <= i < n)%Z indices ->
  (0 <= k < n)%Z -> ~ In k indices ->
  buffer oid st = [] ->
  exists st',
    handleChunks uuid st chunks = Ok (st', []) /\
    buffer oid st' = chunks.
Proof.
  intros Hoid Hall Hnd Hrange Hk Hout Hb.
  pose proof (MapFacts.missing_index_count indices n k Hnd Hrange Hk Hout)
    as Hcount.
  rewrite <- (Forall2_length Hall) in Hcount.
  destruct (handleChunks_append uuid oid n chunks Hoid) with (st := st)
    as (st' & Hrun & Hbuf).
  - clear - Hall. induction Hall as [|c i cs ixs (H1 & H2 & _) _ IH];
      constructor; auto.
  - rewrite Hb. exact Hcount.
  - exists st'. now rewrite Hbuf, Hb.
Qed.

Lemma handleChunks_app (uuid : string) (a b : list Message) :
  forall st st1 effects1,
    handleChunks uuid st a = Ok (st1, effects1) ->
    handleChunks uuid st (a ++ b)%list =
    match handleChunks uuid st1 b with
    | Ok (st2, effects2) => Ok (st2, (effects1 ++ effects2)%list)
    | Throw e => Throw e
    end.
Proof.
  induction a as [|c t IH]; intros st st1 effects1 H.
  - cbn [handleChunks] in H. inversion H; subst. cbn [List.app].
    destruct (handleChunks uuid st1 b) as [[st2 e2]|]; reflexivity.
  - cbn [handleChunks List.app] in *.
    destruct (handleChunk uuid st c) as [[sc ec]|]; [|discriminate].
    cbn [bind fst snd] in *.
    destruct (handleChunks uuid sc t) as [[st' et]|] eqn:Ht; [|discriminate].
    cbn [bind fst snd] in H. inversion H; subst.
    rewrite (IH sc st1 et Ht).
    destruct (handleChunks uuid st1 b) as [[st2 e2]|]; cbn [bind fst snd];
      [now rewrite List.app_assoc|reflexivity].
Qed.

(** The state after chunks that leave the buffer incomplete. *)
Lemma handleChunks_append_state (uuid : string) (oid : value) (n : Z)
    (chunks : list Message) :
  strict_eq oid oid = true ->
  Forall (fun chunk => payload_get "originalMessageId" chunk = Ok oid /\
                       payload_get "totalChunks" chunk = Ok (VNum n)) chunks ->
  chunks <> [] ->
  forall st,
    buffer oid st = [] ->
    (Z.of_nat (List.length chunks) < n)%Z ->
    handleChunks uuid st chunks =
    Ok (set_chunkStorage (map_set oid chunks (chunkStorage st)) st, []).
Proof.
  intros Hoid HF Hne st Hb Hlen.
  enough (G : forall pre st1,
             chunkStorage st1 = map_set oid pre (chunkStorage st) ->
             pre <> [] ->
             forall rest,
               Forall (fun chunk =>
                         payload_get "originalMessageId" chunk = Ok oid /\
                         payload_get "totalChunks" chunk = Ok (VNum n)) rest ->
               (Z.of_nat (List.length pre + List.length rest) < n)%Z ->
               handleChunks uuid st1 rest =
               Ok (set_chunkStorage
                     (map_set oid (pre ++ rest)%list (chunkStorage st)) st1, [])).
  { destruct chunks as [|c t]; [congruence|].
    inversion HF as [|? ? [Hc1 Hc2] Ht]; subst.
    cbn [handleChunks]. unfold handleChunk. rewrite Hc1, Hc2.
    destruct (MapFacts.get_total _ _ "chunkIndex" _ Hc1) as (idx & Hidx).
    unfold payload_get in *. rewrite Hidx. cbn [bind].
    fold (buffer oid st). rewrite Hb. cbn [List.app List.length strict_eq].
    assert (E : (Z.of_nat 1 =? n)%Z = false).
    { apply Z.eqb_neq. cbn [List.length] in Hlen. lia. }
    rewrite E. cbn [bind fst snd].
    rewrite (G [c] (set_chunkStorage (map_set oid [c] (chunkStorage st)) st));
      [| reflexivity | discriminate | exact Ht
       | cbn [List.length] in *; lia ].
    cbn [bind fst snd List.app]. f_equal. }
  intros pre st1 Hst1 Hpre rest. revert pre st1 Hst1 Hpre.
  induction rest as [|c t IH]; intros pre st1 Hst1 Hpre HFr Hl.
  - cbn [handleChunks]. rewrite List.app_nil_r, <- Hst1.
    now destruct st1.
  - inversion HFr as [|? ? [Hc1 Hc2] Ht]; subst.
    cbn [handleChunks]. unfold handleChunk. rewrite Hc1, Hc2.
    destruct (MapFacts.get_total _ _ "chunkIndex" _ Hc1) as (idx & Hidx).
    unfold payload_get in *. rewrite Hidx. cbn [bind].
    rewrite Hst1, MapFacts.map_get_set by exact Hoid.
    cbn [strict_eq].
    assert (E : (Z.of_nat (List.length (pre ++ [c])) =? n)%Z = false).
    { apply Z.eqb_neq. rewrite length_app. cbn [List.length] in *. lia. }
    rewrite E. cbn [bind fst snd].
    rewrite MapFacts.map_set_set by exact Hoid.
    rewrite (IH (pre ++ [c])%list
                (set_chunkStorage
                   (map_set oid (pre ++ [c])%list (chunkStorage st)) st1));
      [| reflexivity | now destruct pre | exact Ht
       | rewrite length_app; cbn [List.length] in *; lia ].
    cbn [bind fst snd List.app]. now rewrite <- List.app_assoc.
Qed.

(** The chunks of a well-formed message, delivered one by one in any
    order to an instance that holds nothing under its id, make the
    instance emit the message once, on the last chunk, and leave its chunk
    storage as it was. *)
Lemma handleChunks_any_order (uuidv4 : nat -> string) (uuid : string)
    (E : Message) (chunkSize : nat) (st : AudioProtocol) :
  well_formed E = true -> 0 < chunkSize ->
  map_get (id E) (chunkStorage st) = None ->
  exists chunks,
    chunkMessage uuidv4 E chunkSize = Some chunks /\
    forall delivered, Permutation delivered chunks ->
      handleChunks uuid st delivered = Ok (st, [Emit_message E]).
Proof.
  intros Hwf Hpos Hnone.
  destruct (MsgFacts.reassemble_delivered uuidv4 uuid E chunkSize Hwf Hpos)
    as (chunks & Hchunks & Hne & HF & Hany).
  exists chunks. split; [exact Hchunks|]. intros delivered Hp.
  specialize (Hany delivered Hp).
  destruct (MsgFacts.well_formed_inv E Hwf) as (v & t & i & _ & _ & Hi & _).
  assert (Hoid : strict_eq (id E) (id E) = true).
  { rewrite Hi. cbn [strict_eq]. apply String.eqb_refl. }
  set (n := Z.of_nat (List.length chunks)).
  assert (HP : Forall (fun chunk =>
                         payload_get "originalMessageId" chunk = Ok (id E) /\
                         payload_get "totalChunks" chunk = Ok (VNum n))
                      delivered).
  { rewrite Forall_forall in *. intros c Hc.
    destruct (HF c (Permutation_in _ Hp Hc)) as (u & k & d & ->).
    split; reflexivity. }
  assert (Hlen : List.length delivered = List.length chunks)
    by apply (Permutation_length Hp).
  assert (Hb : buffer (id E) st = []) by (unfold buffer; now rewrite Hnone).
  destruct (exists_last (l := delivered)) as (init & last & ->).
  { intros ->. apply Permutation_nil in Hp. congruence. }
  apply Forall_app in HP as [HPi HPl].
  inversion HPl as [|? ? [Hl1 Hl2] _]; subst.
  rewrite length_app in Hlen. cbn [List.length] in Hlen.
  assert (Hlast : forall st1,
             buffer (id E) st1 = init ->
             handleChunk uuid st1 last =
             Ok (set_chunkStorage
                   (map_delete (id E) (chunkStorage st1)) st1,
                 [Emit_message E])).
  { intros st1 Hb1. unfold handleChunk. rewrite Hl1, Hl2.
    destruct (MapFacts.get_total _ _ "chunkIndex" _ Hl1) as (idx & Hidx).
    unfold payload_get in *. rewrite Hidx. cbn [bind].
    fold (buffer (id E) st1). rewrite Hb1. cbn [strict_eq].
    assert (En : (Z.of_nat (List.length (init ++ [last])) =? n)%Z = true).
    { apply Z.eqb_eq. unfold n. rewrite length_app. cbn [List.length]. lia. }
    rewrite En, Hany. reflexivity. }
  destruct init as [|c0 init'].
  - cbn [List.app handleChunks]. rewrite (Hlast st Hb). cbn [bind fst snd].
    rewrite MapFacts.map_delete_absent by exact Hnone. now destruct st.
  - rewrite (handleChunks_app uuid (c0 :: init') [last] st _ []
               (handleChunks_append_state uuid (id E) n (c0 :: init')
                  Hoid HPi ltac:(discriminate) st Hb
                  ltac:(unfold n; cbn [List.length] in *; lia))).
    cbn [handleChunks]. rewrite Hlast.
    2:{ unfold buffer. cbn [chunkStorage set_chunkStorage].
        now rewrite MapFacts.map_get_set. }
    cbn [bind fst snd chunkStorage set_chunkStorage List.app].
    rewrite MapFacts.map_delete_set by assumption. now destruct st.
Qed.

End AudioFacts.

(* ------------------------------------------------------------------ *)
(** ** class EIPAudioProtocol                                           *)
(* ------------------------------------------------------------------ *)

Module EipAudioFacts.
Import JS Config Eip EipAudio.

Lemma eip_handleChunk_isTransmitting (b : bool) (st : EIPAudioProtocol)
    (chunk : value) :
  handleChunk (set_isTransmitting b st) chunk =
  match handleChunk st chunk with
  | Ok (st', effects) => Ok (set_isTransmitting b st', effects)
  | Throw e => Throw e
  end.
Proof.
  unfold handleChunk.
  destruct (payload_get "originalMessageId" chunk) as [oid|]; [|reflexivity].
  destruct (payload_get "chunkIndex" chunk) as [idx|]; [|reflexivity].
  destruct (payload_get "totalChunks" chunk) as [total|]; [|reflexivity].
  destruct (payload_get "chunkData" chunk) as [data|]; [|reflexivity].
  destruct (payload_get "originalType" chunk) as [ty|]; [|reflexivity].
  cbn [bind set_isTransmitting chunkStorage].
  destruct (strict_eq _ total); [|reflexivity].
  destruct (Msg.map_result (payload_get "chunkIndex") _); [|reflexivity].
  cbn [bind].
  destruct (Msg.map_result (payload_get "chunkData") _); [|reflexivity].
  cbn [bind].
  destruct (JSON_parse _) as [originalMessage|]; [|reflexivity].
  destruct (get originalMessage "type"); reflexivity.
Qed.

Lemma eip_onaudioprocess_isTransmitting (fresh : string) (b : bool)
    (st : EIPAudioProtocol) (decoded : option string) :
  onaudioprocess fresh (set_isTransmitting b st) decoded =
  (set_isTransmitting b (fst (onaudioprocess fresh st decoded)),
   snd (onaudioprocess fresh st decoded)).
Proof.
  unfold onaudioprocess. destruct decoded as [text|]; [|reflexivity].
  destruct (0 <? String.length text)%nat; [|reflexivity].
  destruct (JSON_parse text) as [m|]; [|reflexivity].
  destruct (validateEIPMessage m) as [[|]|]; try reflexivity.
  unfold handleEIPMessage.
  destruct (get m "version") as [v|]; [|reflexivity]. cbn [bind].
  destruct (negb (isVersionSupported v)).
  { destruct (get m "id"); reflexivity. }
  destruct (get m "type") as [ty|]; [|reflexivity]. cbn [bind].
  destruct (strict_eq ty _); [|reflexivity].
  rewrite eip_handleChunk_isTransmitting.
  destruct (handleChunk st m) as [[st' effects]|]; reflexivity.
Qed.

Lemma eip_handleChunks_append (oid : value) (n : Z) (chunks : list value) :
  strict_eq oid oid = true ->
  Forall (fun chunk => payload_get "originalMessageId" chunk = Ok oid /\
                       payload_get "totalChunks" chunk = Ok (VNum n)) chunks ->
  forall st,
    (Z.of_nat (List.length (buffer oid st) + List.length chunks) < n)%Z ->
    exists st',
      handleChunks st chunks = Ok (st', []) /\
      buffer oid st' = (buffer oid st ++ chunks)%list.
Proof.
  intros Hoid HF. induction HF as [|c t [Hc1 Hc2] _ IH]; intros st Hlen.
  - exists st. split; [reflexivity|]. now rewrite List.app_nil_r.
  - cbn [handleChunks]. unfold handleChunk. rewrite Hc1, Hc2.
    unfold payload_get in *.
    destruct (get c "payload") as [p|]; [|discriminate]. cbn [bind] in *.
    destruct (MapFacts.get_total _ _ "chunkIndex" _ Hc1) as (idx & ->).
    destruct (MapFacts.get_total _ _ "chunkData" _ Hc1) as (data & ->).
    destruct (MapFacts.get_total _ _ "originalType" _ Hc1) as (ty & ->).
    cbn [bind]. fold (buffer oid st). cbn [strict_eq].
    cbn [List.length] in Hlen.
    assert (E : (Z.of_nat (List.length (buffer oid st ++ [c])) =? n)%Z = false).
    { apply Z.eqb_neq. rewrite length_app. cbn [List.length]. lia. }
    rewrite E. cbn [bind fst snd].
    set (st1 := set_chunkStorage _ st).
    assert (Hb : buffer oid st1 = (buffer oid st ++ [c])%list).
    { unfold buffer at 1, st1. cbn [chunkStorage set_chunkStorage].
      now rewrite MapFacts.map_get_set. }
    destruct (IH st1) as (st' & -> & Hb').
    { rewrite Hb, length_app. cbn [List.length]. lia. }
    exists st'. split; [reflexivity|].
    now rewrite Hb', Hb, <- List.app_assoc.
Qed.

Lemma played_app (a b : list effect) :
  played (a ++ b)%list = (played a ++ played b)%list.
Proof.
  induction a as [|e a IH]; [reflexivity|].
  destruct e; cbn [List.app played]; rewrite IH; reflexivity.
Qed.

Lemma emitted_app (a b : list effect) :
  emitted (a ++ b)%list = (emitted a ++ emitted b)%list.
Proof.
  induction a as [|e a IH]; [reflexivity|].
  destruct e; cbn [List.app emitted]; rewrite IH; reflexivity.
Qed.

(** When every chunk can be encoded and played, the loop plays one chunk
    message per piece, in order, emits no message, and leaves
    [isListening] and the chunk storage as they are. *)
Lemma eip_send_chunks_played (fresh : nat -> string) (env : Env)
    (ps : list (string * value)) (total : nat) (strs : list string) :
  (forall text, encode_ok env text = true) ->
  (forall text, start_ok env text = true) ->
  forall i st, exists st' effects,
    send_chunks fresh env st (VObj ps) total i strs = (st', effects, Ok true) /\
    Forall2 chunk_carries (played effects) strs /\
    isListening st' = isListening st /\
    emitted effects = [] /\
    chunkStorage st' = chunkStorage st.
Proof.
  intros Henc Hstart. induction strs as [|d t IH]; intros i st.
  - exists st, []. repeat split. constructor.
  - cbn [send_chunks chunk_object get bind].
    unfold sendSingleEIPMessage, transmit_begin. rewrite Henc, Hstart.
    cbn [negb transmit_end].
    destruct (IH (S i) (set_isTransmitting false (set_isTransmitting true st)))
      as (st' & effects & -> & Hp & Hl & He & Hs).
    eexists _, _. split; [reflexivity|].
    assert (E : played match t with [] => [] | _ :: _ => [Delay 1000] end = []
                /\ emitted match t with [] => [] | _ :: _ => [Delay 1000] end
                   = [])
      by (destruct t; split; reflexivity).
    destruct E as [E1 E2].
    split; [|split; [exact Hl|split; [|exact Hs]]].
    + rewrite !played_app. cbn [played List.app]. rewrite E1.
      cbn [List.app]. constructor; [|exact Hp].
      eexists. split; [reflexivity|]. split; reflexivity.
    + rewrite !emitted_app. cbn [emitted List.app]. now rewrite E2, He.
Qed.

(** How [sendEIPMessage] transmits an object when the audio is set up and
    every text can be encoded and played: a text of at most 120
    characters as it is, a longer one as chunk messages that carry its
    pieces of 80 characters in order.  The sender emits no message and
    keeps its chunk storage.  The promise resolves to [true]; only when
    the sender had to stop its own listening for the chunks, cannot
    reopen the microphone afterwards and has no listener for ['error'] is
    it rejected. *)
Lemma sendEIPMessage_carries (fresh : nat -> string) (env : Env)
    (st : EIPAudioProtocol) (ps : list (string * value)) :
  initialize_ok env = true ->
  (forall text, encode_ok env text = true) ->
  (forall text, start_ok env text = true) ->
  let text := stringify (VObj ps) in
  (String.length text <= chunking_threshold ->
   sendEIPMessage fresh env st (VObj ps)
   = (set_isTransmitting false st,
      [Emit_transmitting true; Play text; Emit_transmitting false], Ok true))
  /\ (chunking_threshold < String.length text ->
      exists pieces st' effects r,
        Msg.chunk_loop (String.length text) text chunk_size 0 = Some pieces
        /\ join "" pieces = text
        /\ sendEIPMessage fresh env st (VObj ps) = (st', effects, r)
        /\ Forall2 chunk_carries (played effects) pieces
        /\ emitted effects = []
        /\ chunkStorage st' = chunkStorage st
        /\ (r = Ok true
            \/ (isListening st = true /\ microphone_ok env = false
                /\ error_listener env = false /\ exists e, r = Throw e))).
Proof.
  intros Hinit Henc Hstart text. split.
  - intros Hsmall. unfold sendEIPMessage. rewrite Hinit.
    cbn [negb JSON_stringify]. fold text.
    apply Nat.ltb_ge in Hsmall. rewrite Hsmall.
    unfold sendSingleEIPMessage, transmit_begin.
    now rewrite Henc, Hstart.
  - intros Hbig.
    destruct (MsgFacts.chunk_loop_joins text chunk_size
                ltac:(unfold chunk_size; lia)
                (String.length text) 0 ltac:(lia))
      as (pieces & Hloop & Hjoin).
    cbn [suffix] in Hjoin.
    unfold sendEIPMessage. rewrite Hinit.
    cbn [negb JSON_stringify]. fold text.
    apply Nat.ltb_lt in Hbig. rewrite Hbig.
    unfold sendChunkedEIPMessage. rewrite Hloop. cbn [get].
    exists pieces.
    destruct (isListening st) eqn:Hl.
    + unfold stopListening. rewrite Hl. cbn [negb].
      destruct (eip_send_chunks_played fresh env ps
                  (List.length pieces) pieces Henc Hstart 0
                  (set_isListening false st))
        as (st2 & effects2 & -> & Hp & Hl2 & He & Hs).
      cbn [isListening set_isListening chunkStorage] in Hl2, Hs.
      unfold startListening. rewrite Hl2, Hinit. cbn [negb].
      destruct (microphone_ok env); cbn [negb].
      * eexists _, _, _. split; [reflexivity|]. split; [exact Hjoin|].
        split; [reflexivity|].
        rewrite !played_app, !emitted_app.
        cbn [played emitted List.app]. rewrite He, !List.app_nil_r.
        repeat split; try assumption. now left.
      * unfold fail. destruct (error_listener env).
        -- eexists _, _, _. split; [reflexivity|]. split; [exact Hjoin|].
           split; [reflexivity|].
           rewrite !played_app, !emitted_app.
           cbn [played emitted List.app]. rewrite He, !List.app_nil_r.
           repeat split; try assumption. now left.
        -- eexists _, _, _. split; [reflexivity|]. split; [exact Hjoin|].
           split; [reflexivity|].
           rewrite !played_app, !emitted_app.
           cbn [played emitted List.app]. rewrite He, !List.app_nil_r.
           repeat split; try assumption. right. repeat split. now eexists.
    + destruct (eip_send_chunks_played fresh env ps
                  (List.length pieces) pieces Henc Hstart 0 st)
        as (st2 & effects2 & -> & Hp & Hl2 & He & Hs).
      eexists _, _, _. split; [reflexivity|]. split; [exact Hjoin|].
      split; [reflexivity|].
      rewrite !played_app, !emitted_app.
      cbn [played emitted List.app]. rewrite He, !List.app_nil_r.
      repeat split; try assumption. now left.
Qed.

(** *** Isolation during a chunked transmission *)

Lemma plays_unheard_app (a b : list effect) :
  forall l,
    plays_unheard l (a ++ b)%list
    = plays_unheard l a && plays_unheard (listening_after l a) b.
Proof.
  induction a as [|e a IH]; intros l; [reflexivity|].
  destruct e; cbn [List.app plays_unheard listening_after]; rewrite IH;
    try reflexivity.
  now rewrite andb_assoc.
Qed.

Lemma listening_after_app (a b : list effect) :
  forall l,
    listening_after l (a ++ b)%list
    = listening_after (listening_after l a) b.
Proof.
  induction a as [|e a IH]; intros l; [reflexivity|].
  destruct e; cbn [List.app listening_after]; now rewrite IH.
Qed.

(** Whatever the surroundings do, the chunk loop leaves [isListening] as
    it is, emits no ['listening'] event, and (on an object) ends with
    [isTransmitting] false once it has started on a chunk. *)
Lemma send_chunks_quiet (fresh : nat -> string) (env : Env)
    (message : value) (total : nat) (strs : list string) :
  forall i st,
    let r := send_chunks fresh env st message total i strs in
    isListening (fst (fst r)) = isListening st
    /\ plays_unheard false (snd (fst r)) = true
    /\ listening_after false (snd (fst r)) = false
    /\ ((exists ps, message = VObj ps) ->
        isTransmitting (fst (fst r))
        = match strs with [] => isTransmitting st | _ :: _ => false end).
Proof.
  induction strs as [|d t IH]; intros i st; [now cbn|].
  cbn [send_chunks].
  destruct (chunk_object (fresh i) message i total d) as [chunkMessage|e]
    eqn:Hobj.
  2:{ cbn. repeat split. intros (ps & ->). discriminate Hobj. }
  unfold sendSingleEIPMessage, transmit_begin.
  destruct (encode_ok env _);
    [|unfold fail; destruct (error_listener env); now cbn].
  destruct (start_ok env _); [|now cbn].
  cbn [negb transmit_end].
  specialize (IH (S i) (set_isTransmitting false (set_isTransmitting true st))).
  destruct (send_chunks fresh env _ message total (S i) t)
    as [[st2 effects2] r2].
  cbn [fst snd] in *. destruct IH as (Hl & Hq & Ha & Ht).
  split; [exact Hl|].
  rewrite !plays_unheard_app, !listening_after_app.
  assert (Hpause : forall l,
             plays_unheard l
               match t with [] => [] | _ :: _ => [Delay 1000] end = true
             /\ listening_after l
                  match t with [] => [] | _ :: _ => [Delay 1000] end = l)
    by (intros l; destruct t; split; reflexivity).
  cbn [plays_unheard listening_after negb andb].
  rewrite (proj1 (Hpause false)), (proj2 (Hpause false)), Hq, Ha.
  repeat split. intros Hps. rewrite (Ht Hps). now destruct t.
Qed.

(** What [fail] adds plays nothing and leaves the listening as it is. *)
Lemma fail_unheard (env : Env) (st : EIPAudioProtocol)
    (effects : list effect) (what : string) (l : bool) :
  plays_unheard l (snd (fst (fail env st effects what)))
  = plays_unheard l effects
  /\ listening_after l (snd (fst (fail env st effects what)))
     = listening_after l effects
  /\ fst (fst (fail env st effects what)) = st.
Proof.
  unfold fail. destruct (error_listener env); cbn [fst snd];
    [|repeat split].
  rewrite plays_unheard_app, listening_after_app.
  cbn [plays_unheard listening_after]. now rewrite andb_true_r.
Qed.

(** [startListening] plays nothing. *)
Lemma startListening_unheard (env : Env) (st : EIPAudioProtocol) (l : bool) :
  plays_unheard l (snd (fst (startListening env st))) = true.
Proof.
  unfold startListening, fail.
  destruct (isListening st); [reflexivity|].
  destruct (initialize_ok env); cbn [negb];
    [|destruct (error_listener env); reflexivity].
  destruct (microphone_ok env); cbn [negb];
    [reflexivity|destruct (error_listener env); reflexivity].
Qed.

(** Every chunk of a chunked send plays while the instance is not
    listening. *)
Lemma sendChunkedEIPMessage_unheard (fresh : nat -> string) (env : Env)
    (st : EIPAudioProtocol) (message : value) (messageText : string) :
  plays_unheard (isListening st)
    (snd (fst (sendChunkedEIPMessage fresh env st message messageText)))
  = true.
Proof.
  unfold sendChunkedEIPMessage.
  destruct (Msg.chunk_loop _ _ _ _) as [chunks|].
  2:{ now rewrite (proj1 (fail_unheard env st [] "RangeError" _)). }
  destruct (get message "id") as [i|e0].
  2:{ now rewrite (proj1 (fail_unheard env st [] e0 _)). }
  destruct (isListening st) eqn:Hwas.
  - unfold stopListening. rewrite Hwas. cbn [negb].
    pose proof (send_chunks_quiet fresh env message (List.length chunks)
                  chunks 0 (set_isListening false st)) as Hq.
    destruct (send_chunks fresh env _ message _ 0 chunks)
      as [[st2 effects2] sent].
    cbn [fst snd] in Hq. destruct Hq as (_ & Hq & Ha & _).
    pose proof (startListening_unheard env st2 false) as Hs.
    destruct (startListening env st2) as [[st3 e] restarted].
    cbn [fst snd] in Hs. cbv zeta.
    assert (Hall : plays_unheard true
                     ([Emit_listening false] ++ effects2 ++ Delay 2000 :: e)
                   = true).
    { cbn [List.app plays_unheard].
      rewrite plays_unheard_app, Hq, Ha. cbn [plays_unheard andb].
      exact Hs. }
    destruct restarted as [b|e']; [destruct sent as [b'|e']|];
      try exact Hall;
      now rewrite (proj1 (fail_unheard env st3 _ _ _)).
  - pose proof (send_chunks_quiet fresh env message (List.length chunks)
                  chunks 0 st) as Hq.
    destruct (send_chunks fresh env st message _ 0 chunks)
      as [[st2 effects2] sent].
    cbn [fst snd] in Hq. destruct Hq as (_ & Hq & _ & _).
    cbv zeta. cbn [List.app]. rewrite List.app_nil_r.
    destruct sent as [b'|e']; try exact Hq;
      now rewrite (proj1 (fail_unheard env st2 _ _ _)).
Qed.

(** A chunked [sendEIPMessage], whatever encoding, playback and the
    microphone do: the plays happen while the instance is not listening,
    the listening is restored when the microphone allows it, and the
    promise is rejected only when nobody listens for ['error']. *)
Lemma sendEIPMessage_isolated (fresh : nat -> string) (env : Env)
    (st : EIPAudioProtocol) (props : list (string * value)) :
  initialize_ok env = true ->
  chunking_threshold < String.length (stringify (VObj props)) ->
  let r := sendEIPMessage fresh env st (VObj props) in
  plays_unheard (isListening st) (snd (fst r)) = true
  /\ listening_after (isListening st) (snd (fst r))
     = isListening (fst (fst r))
  /\ isListening (fst (fst r)) = isListening st && microphone_ok env
  /\ isTransmitting (fst (fst r)) = false
  /\ (error_listener env = true -> exists ok, snd r = Ok ok)
  /\ (error_listener env = false ->
      snd r = Ok true \/ exists e, snd r = Throw e).
Proof.
  intros Hinit Hlong. cbv zeta.
  set (text := stringify (VObj props)) in *.
  unfold sendEIPMessage. rewrite Hinit. cbn [negb].
  change (JSON_stringify (VObj props)) with (Some text). cbv beta iota.
  apply Nat.ltb_lt in Hlong as Hb. rewrite Hb.
  assert (Hpos : 0 < chunk_size) by (unfold chunk_size; lia).
  destruct (MsgFacts.chunk_loop_joins text chunk_size Hpos
              (String.length text) 0) as (strs & Hloop & Hjoin); [lia|].
  assert (Hne : strs <> []).
  { intros ->. cbn [join suffix] in Hjoin. subst text. discriminate. }
  assert (Hobj : exists ps, VObj props = VObj ps) by now exists props.
  unfold sendChunkedEIPMessage. rewrite Hloop. cbn [get].
  destruct (isListening st) eqn:Hwas.
  - unfold stopListening. rewrite Hwas. cbn [negb].
    pose proof (send_chunks_quiet fresh env (VObj props)
                  (List.length strs) strs 0 (set_isListening false st)) as Hq.
    destruct (send_chunks fresh env _ (VObj props) _ 0 strs)
      as [[st2 effects2] r2].
    cbn [fst snd] in Hq. destruct Hq as (Hl2 & Hq & Ha & Ht2).
    specialize (Ht2 Hobj).
    cbn [isListening set_isListening] in Hl2.
    unfold startListening, fail. rewrite Hl2, Hinit. cbn [negb].
    assert (Ht2' : isTransmitting st2 = false) by (rewrite Ht2; now destruct strs).
    destruct (microphone_ok env), (error_listener env), r2 as [ok|e];
      cbn [negb fst snd];
      rewrite ?plays_unheard_app,
        ?listening_after_app;
      cbn [plays_unheard listening_after List.app];
      rewrite ?plays_unheard_app,
        ?listening_after_app, ?Hq, ?Ha;
      cbn [plays_unheard listening_after andb isListening set_isListening
             isTransmitting];
      rewrite ?plays_unheard_app,
        ?listening_after_app, ?Hq, ?Ha;
      cbn [plays_unheard listening_after andb];
      repeat split; try assumption; try (symmetry; assumption);
      try discriminate;
      try (intros _; eexists; reflexivity);
      try (intros _; left; reflexivity);
      try (intros _; right; eexists; reflexivity).
  - pose proof (send_chunks_quiet fresh env (VObj props)
                  (List.length strs) strs 0 st) as Hq.
    destruct (send_chunks fresh env st (VObj props) _ 0 strs)
      as [[st2 effects2] r2].
    cbn [fst snd] in Hq. destruct Hq as (Hl2 & Hq & Ha & Ht2).
    specialize (Ht2 Hobj).
    assert (Ht2' : isTransmitting st2 = false) by (rewrite Ht2; now destruct strs).
    rewrite Hwas in Hl2. unfold fail.
    destruct (error_listener env), r2 as [ok|e];
      cbn [negb fst snd List.app andb];
      rewrite ?plays_unheard_app,
        ?listening_after_app, ?List.app_nil_r, ?Hq, ?Ha;
      cbn [plays_unheard listening_after andb];
      repeat split; try assumption; try (symmetry; assumption);
      try discriminate;
      try (intros _; eexists; reflexivity);
      try (intros _; left; reflexivity);
      try (intros _; right; eexists; reflexivity).
Qed.

(** No send emits on ['eip-message'] or touches the chunk storage,
    whatever the surroundings do. *)
Lemma fail_silent (env : Env) (st : EIPAudioProtocol)
    (effects : list effect) (what : string) :
  emitted (snd (fst (fail env st effects what))) = emitted effects
  /\ chunkStorage (fst (fst (fail env st effects what))) = chunkStorage st.
Proof.
  unfold fail. destruct (error_listener env); cbn [fst snd];
    [|now split].
  rewrite emitted_app. cbn [emitted]. now rewrite List.app_nil_r.
Qed.

Lemma sendSingleEIPMessage_silent (env : Env) (st : EIPAudioProtocol)
    (messageText : string) :
  emitted (snd (fst (sendSingleEIPMessage env st messageText))) = []
  /\ chunkStorage (fst (fst (sendSingleEIPMessage env st messageText)))
     = chunkStorage st.
Proof.
  unfold sendSingleEIPMessage, transmit_begin, fail.
  destruct (encode_ok env messageText); cbn [negb];
    [|destruct (error_listener env); now split].
  destruct (start_ok env messageText); now split.
Qed.

Lemma send_chunks_silent (fresh : nat -> string) (env : Env)
    (message : value) (total : nat) (strs : list string) :
  forall i st,
    emitted (snd (fst (send_chunks fresh env st message total i strs))) = []
    /\ chunkStorage (fst (fst (send_chunks fresh env st message total i strs)))
       = chunkStorage st.
Proof.
  induction strs as [|d t IH]; intros i st; [now split|].
  cbn [send_chunks].
  destruct (chunk_object (fresh i) message i total d) as [chunkMessage|e];
    [|now split].
  pose proof (sendSingleEIPMessage_silent env st (stringify chunkMessage))
    as [He Hs].
  destruct (sendSingleEIPMessage env st (stringify chunkMessage))
    as [[st1 effects1] [[|]|e]]; cbn [fst snd] in He, Hs |- *;
    try (now split).
  specialize (IH (S i) st1).
  destruct (send_chunks fresh env st1 message total (S i) t)
    as [[st2 effects2] r2].
  cbn [fst snd] in IH |- *. destruct IH as [He2 Hs2].
  rewrite !emitted_app, He, He2.
  split; [now destruct t|congruence].
Qed.

Lemma startListening_silent (env : Env) (st : EIPAudioProtocol) :
  emitted (snd (fst (startListening env st))) = []
  /\ chunkStorage (fst (fst (startListening env st))) = chunkStorage st.
Proof.
  unfold startListening, fail.
  destruct (isListening st); [now split|].
  destruct (initialize_ok env); cbn [negb];
    [|destruct (error_listener env); now split].
  destruct (microphone_ok env); cbn [negb];
    [now split|destruct (error_listener env); now split].
Qed.

Lemma sendChunkedEIPMessage_silent (fresh : nat -> string) (env : Env)
    (st : EIPAudioProtocol) (message : value) (messageText : string) :
  emitted
    (snd (fst (sendChunkedEIPMessage fresh env st message messageText))) = []
  /\ chunkStorage
       (fst (fst (sendChunkedEIPMessage fresh env st message messageText)))
     = chunkStorage st.
Proof.
  unfold sendChunkedEIPMessage.
  destruct (Msg.chunk_loop _ _ _ _) as [chunks|]; [|apply fail_silent].
  destruct (get message "id") as [i|e0]; [|apply fail_silent].
  assert (H1 : exists st1 effects1,
             (if isListening st then stopListening st else (st, []))
             = (st1, effects1)
             /\ emitted effects1 = []
             /\ chunkStorage st1 = chunkStorage st).
  { unfold stopListening. destruct (isListening st); cbn [negb];
      eexists _, _; (split; [reflexivity|now split]). }
  destruct H1 as (st1 & effects1 & -> & He1 & Hs1).
  pose proof (send_chunks_silent fresh env message (List.length chunks)
                chunks 0 st1) as [He2 Hs2].
  destruct (send_chunks fresh env st1 message _ 0 chunks)
    as [[st2 effects2] sent].
  cbn [fst snd] in He2, Hs2.
  assert (H3 : exists st3 effects3 restarted,
             (if isListening st
              then let '(st', e, r) := startListening env st2 in
                   (st', Delay 2000 :: e, r)
              else (st2, [], Ok true)) = (st3, effects3, restarted)
             /\ emitted effects3 = []
             /\ chunkStorage st3 = chunkStorage st2).
  { destruct (isListening st).
    - pose proof (startListening_silent env st2) as [He Hs].
      destruct (startListening env st2) as [[st3 e] r].
      cbn [fst snd] in He, Hs.
      exists st3, (Delay 2000 :: e), r. now repeat split.
    - exists st2, [], (Ok true). now repeat split. }
  destruct H3 as (st3 & effects3 & restarted & -> & He3 & Hs3).
  cbv zeta.
  assert (He : emitted (effects1 ++ effects2 ++ effects3) = [])
    by now rewrite !emitted_app, He1, He2, He3.
  assert (Hs : chunkStorage st3 = chunkStorage st) by congruence.
  destruct restarted as [b|e]; [destruct sent as [b'|e]|];
    try (now split);
    (destruct (fail_silent env st3 (effects1 ++ effects2 ++ effects3) e)
       as [Hfe Hfs]; split; congruence).
Qed.

Lemma sendEIPMessage_silent (fresh : nat -> string) (env : Env)
    (st : EIPAudioProtocol) (message : value) :
  emitted (snd (fst (sendEIPMessage fresh env st message))) = []
  /\ chunkStorage (fst (fst (sendEIPMessage fresh env st message)))
     = chunkStorage st.
Proof.
  unfold sendEIPMessage.
  destruct (negb (initialize_ok env)); [apply fail_silent|].
  destruct (JSON_stringify message) as [messageText|]; [|now split].
  destruct (_ <? _)%nat;
    [apply sendChunkedEIPMessage_silent|apply sendSingleEIPMessage_silent].
Qed.

(** The same for [EIPAudioProtocol]: chunks of one id with distinct
    indices below [totalChunks], one index missing, never complete. *)
Lemma eip_handleChunks_missing_index (oid : value) (n k : Z)
    (chunks : list value) (indices : list Z) (st : EIPAudioProtocol) :
  strict_eq oid oid = true ->
  Forall2 (fun chunk i =>
             payload_get "originalMessageId" chunk = Ok oid /\
             payload_get "totalChunks" chunk = Ok (VNum n) /\
             payload_get "chunkIndex" chunk = Ok (VNum i)) chunks indices ->
  NoDup indices ->
  Forall (fun i => 0 <= i < n)%Z indices ->
  (0 <= k < n)%Z -> ~ In k indices ->
  buffer oid st = [] ->
  exists st',
    handleChunks st chunks = Ok (st', []) /\
    buffer oid st' = chunks.
Proof.
  intros Hoid Hall Hnd Hrange Hk Hout Hb.
  pose proof (MapFacts.missing_index_count indices n k Hnd Hrange Hk Hout)
    as Hcount.
  rewrite <- (Forall2_length Hall) in Hcount.
  destruct (eip_handleChunks_append oid n chunks Hoid) with (st := st)
    as (st' & Hrun & Hbuf).
  - clear - Hall. induction Hall as [|c i cs ixs (H1 & H2 & _) _ IH];
      constructor; auto.
  - rewrite Hb. exact Hcount.
  - exists st'. now rewrite Hbuf, Hb.
Qed.

End EipAudioFacts.

(* ================================================================== *)
(** * The claims                                                        *)
(* ================================================================== *)

Module Claims.
Import JS Msg Config Sample.

(** C9, as the code has it.  For every message [E] whose version, type
    and id are strings, the id not empty (as the constructor leaves it),
    and whose payload is JSON data (no [undefined] member or element),
    [Message.fromJSON(E.toJSON())] returns a message with the version,
    type, payload and id of [E]. *)
Theorem C9_fromJSON_toJSON (uuid : string) (E : Message) :
  well_formed E = true ->
  fromJSON uuid (toJSON E) = Ok E.
Proof. apply MsgFacts.fromJSON_toJSON_wf. Qed.

Lemma C9_fromJSON_toJSON_witness :
  well_formed demo_request = true /\
  fromJSON "other" (toJSON demo_request) = Ok demo_request.
Proof.
  split; [reflexivity|].
  apply (C9_fromJSON_toJSON "other" demo_request). reflexivity.
Defined.

(** C1, as the code has it.  For every message [E] with string version,
    type and id, the id not empty, and a payload of JSON data, whose
    serialized length exceeds the chunking threshold, and every chunk
    size [S > 0]: [chunkMessage(E, S)] returns, and [reassembleChunks]
    applied to its chunks in any delivery order returns [E]. *)
Theorem C1_reassemble_any_order (uuidv4 : nat -> string) (uuid : string)
    (config : AudioConfig) (E : Message) (S : nat) :
  well_formed E = true ->
  shouldChunkMessage (String.length (toJSON E)) config = true ->
  0 < S ->
  exists chunks,
    chunkMessage uuidv4 E S = Some chunks /\
    forall delivered,
      Permutation delivered chunks ->
      reassembleChunks uuid delivered = Ok (Some E).
Proof.
  intros Hwf _ Hpos.
  destruct (MsgFacts.reassemble_delivered uuidv4 uuid E S Hwf Hpos)
    as (chunks & Hchunks & _ & _ & Hany).
  now exists chunks.
Qed.

Lemma C1_reassemble_any_order_witness :
  well_formed demo_request = true /\
  shouldChunkMessage (String.length (toJSON demo_request)) small_config = true /\
  0 < 80 /\
  exists chunks,
    chunkMessage demo_uuids demo_request 80 = Some chunks /\
    forall delivered,
      Permutation delivered chunks ->
      reassembleChunks "other" delivered = Ok (Some demo_request).
Proof.
  split; [reflexivity|]. split; [reflexivity|]. split; [lia|].
  apply (C1_reassemble_any_order demo_uuids "other" small_config
           demo_request 80); [reflexivity | reflexivity | lia].
Defined.

(** C6, as the code has it.  [waitForMessage(expectedType, timeout)]
    (and [waitForEIPMessage], the same code on the other event) calls
    [resolve] at most once whatever happens, for every timeout.  The
    waiting time is the [timeout] argument when that is between 1 and
    2147483647 ms, and the configured [messageWait] when the argument is
    left out or 0.  When a message of the expected type is emitted before
    the waiting time has elapsed, the one resolution is the first such
    message, the timer is cleared and the listener removed; when instead
    the waiting time elapses first, the one resolution is [null] and the
    listener is removed.  Later events change nothing, so the two
    outcomes exclude each other.  For a [timeout] above 2147483647 ms the
    timer is armed with a shorter delay than the timeout. *)
Theorem C6_wait_resolves_once {M : Type} (type_of : M -> result value)
    (now : Z) (expectedType : value) (timeout : option Z)
    (messageWait waiting : Z)
    (before after : list (Wait.event (M := M))) (e : Wait.event) :
  (1 <= waiting <= 2147483647)%Z ->
  timeout = Some waiting
  \/ ((timeout = None \/ timeout = Some 0%Z) /\ messageWait = waiting) ->
  let deadline := (now + waiting)%Z in
  let w0 := Wait.waitForMessage now expectedType timeout messageWait in
  forallb (fun e => negb (Wait.matches type_of expectedType e)
                    && negb (Wait.expires deadline e)) before = true ->
  Wait.matches type_of expectedType e || Wait.expires deadline e = true ->
  let w := Wait.run type_of w0 (before ++ e :: after) in
  (forall now' timeout' messageWait' events,
      List.length
        (Wait.resolutions
           (Wait.run type_of
              (Wait.waitForMessage now' expectedType timeout' messageWait')
              events)) <= 1)
  /\ Wait.resolutions (Wait.run type_of w0 before) = []
  /\ Wait.listener (Wait.run type_of w0 before) = true
  /\ Wait.timer (Wait.run type_of w0 before) = Some deadline
  /\ Wait.listener w = false
  /\ Wait.timer w = None
  /\ match e with
     | Wait.Emitted message => Wait.resolutions w = [Some message]
     | Wait.Clock _ => Wait.resolutions w = [None]
     end
  /\ (forall now' long messageWait',
        (2147483647 < long)%Z ->
        exists delay,
          Wait.timer (Wait.waitForMessage (M := M) now' expectedType
                                          (Some long) messageWait')
          = Some (now' + delay)%Z
          /\ (0 <= delay < long)%Z).
Proof.
  intros Hrange Hwait deadline w0 Hidle He w. subst w.
  assert (Hlong : forall now' long messageWait',
             (2147483647 < long)%Z ->
             exists delay,
               Wait.timer (Wait.waitForMessage (M := M) now' expectedType
                                               (Some long) messageWait')
               = Some (now' + delay)%Z
               /\ (0 <= delay < long)%Z).
  { intros now' long messageWait' Hover.
    exists (setTimeout_delay long). split.
    - cbn [Wait.waitForMessage Wait.timer Wait.effectiveTimeout].
      destruct (Z.eqb_spec long 0) as [->|_]; [lia|reflexivity].
    - unfold setTimeout_delay, to_int32.
      pose proof (Z.mod_pos_bound (long + 2147483648) 4294967296
                    ltac:(lia)).
      lia. }
  split.
  { intros now' timeout' messageWait' events. unfold Wait.waitForMessage.
    destruct (WaitFacts.run_phase type_of expectedType _ events _
                (WaitFacts.Pending expectedType
                   (now' + setTimeout_delay
                             (Wait.effectiveTimeout timeout' messageWait'))));
      cbn [Wait.resolutions List.length]; lia. }
  rewrite WaitFacts.run_app.
  unfold w0, Wait.waitForMessage.
  rewrite (WaitFacts.effectiveTimeout_cases timeout messageWait waiting)
    by (try assumption; lia).
  rewrite WaitFacts.setTimeout_delay_small by lia. fold deadline.
  rewrite (WaitFacts.run_idle type_of expectedType deadline before Hidle).
  split; [reflexivity|]. split; [reflexivity|]. split; [reflexivity|].
  rewrite WaitFacts.run_cons.
  destruct e as [m|t]; cbn [Wait.step Wait.listener Wait.timer].
  - cbn [Wait.matches Wait.expires] in He. rewrite orb_false_r in He.
    unfold Wait.messageHandler.
    destruct (type_of m) as [ty|]; [|discriminate].
    cbn [bind Wait.expectedType]. rewrite He.
    rewrite WaitFacts.run_settled by reflexivity.
    repeat split; try reflexivity. exact Hlong.
  - cbn [Wait.matches Wait.expires orb] in He. rewrite He.
    unfold Wait.timeoutCallback.
    rewrite WaitFacts.run_settled by reflexivity.
    repeat split; try reflexivity. exact Hlong.
Qed.

Lemma C6_wait_resolves_once_witness :
  let response := createConnectResponse "r-1" (VStr "0xabc") (VStr "c-1") in
  (let w := Wait.run type_of_Message
              (Wait.waitForMessage 0 (VStr "connect_response") (Some 5000%Z)
                                   60000)
              ([Wait.Emitted (createConnect "c-1"); Wait.Clock 4999]
                 ++ Wait.Clock 5000 :: [Wait.Emitted response]) in
   Wait.listener w = false /\ Wait.timer w = None
   /\ Wait.resolutions w = [None])
  /\ (let w := Wait.run type_of_Message
                 (Wait.waitForMessage 0 (VStr "connect_response") None 60000)
                 ([Wait.Emitted (createConnect "c-1"); Wait.Clock 5000]
                    ++ Wait.Emitted response :: [Wait.Clock 70000]) in
      Wait.listener w = false /\ Wait.timer w = None
      /\ Wait.resolutions w = [Some response]).
Proof.
  intros response.
  assert (Hshort : (1 <= 5000 <= 2147483647)%Z) by lia.
  assert (Hlong : (1 <= 60000 <= 2147483647)%Z) by lia.
  split.
  - destruct (C6_wait_resolves_once type_of_Message 0
                (VStr "connect_response") (Some 5000%Z) 60000 5000
                [Wait.Emitted (createConnect "c-1"); Wait.Clock 4999]
                [Wait.Emitted response] (Wait.Clock 5000)
                Hshort (or_introl eq_refl) eq_refl eq_refl)
      as (_ & _ & _ & _ & Hl & Ht & Hr & _).
    repeat split; assumption.
  - destruct (C6_wait_resolves_once type_of_Message 0
                (VStr "connect_response") None 60000 60000
                [Wait.Emitted (createConnect "c-1"); Wait.Clock 5000]
                [Wait.Clock 70000] (Wait.Emitted response)
                Hlong (or_intror (conj (or_introl eq_refl) eq_refl))
                eq_refl eq_refl)
      as (_ & _ & _ & _ & Hl & Ht & Hr & _).
    repeat split; assumption.
Defined.

(** C6 as stated fails for a timeout that does not fit the 32-bit delay
    of [setTimeout]: with a timeout of 2147483648 ms the timer fires at
    once, and a [connect_response] delivered after one millisecond, long
    before the timeout has elapsed, finds the promise resolved with
    [null].  (A timeout of 0 is replaced by [messageWait]: after 1000 ms
    nothing has been resolved.) *)
Lemma C6_counterexample_timeout_overflow :
  let response := createConnectResponse "r-1" (VStr "0xabc") (VStr "c-1") in
  let w := Wait.run type_of_Message
             (Wait.waitForMessage 0 (VStr "connect_response")
                                  (Some 2147483648%Z) 60000)
             [Wait.Clock 1; Wait.Emitted response] in
  let w' := Wait.run type_of_Message
              (Wait.waitForMessage 0 (VStr "connect_response") (Some 0%Z)
                                   60000)
              [Wait.Clock 1000] in
  Wait.matches type_of_Message (VStr "connect_response")
               (Wait.Emitted response) = true
  /\ (1 < 2147483648)%Z
  /\ Wait.resolutions w = [None]
  /\ Wait.resolutions w' = [].
Proof. repeat split. Qed.

(** C4.  On receipt of a message whose version is not the supported
    "1.0" (a chunk or not), the handler emits no ['eip-message'] and
    leaves the state as it is; it raises ['version-mismatch'] and calls
    [sendEIPMessage] on an [error] message of version "1.0" whose payload
    holds the text [Unsupported protocol version: <received version>]
    and, under [received_id], the id of the received message.  Whatever
    that call then meets, it emits nothing on ['eip-message'] and leaves
    the chunk storage as it is.  With the audio set up and every text
    encoded and played, it transmits the text of the error message: as it
    is when it has at most 120 characters, otherwise as chunk messages
    that carry its pieces in order. *)
Theorem C4_unsupported_version (fresh : nat -> string)
    (st : EipAudio.EIPAudioProtocol) (text : string) (message : value)
    (received : string) :
  JSON_parse text = Some message ->
  Eip.validateEIPMessage message = Ok true ->
  get message "version" = Ok (VStr received) ->
  received <> Eip.EIP_PROTOCOL_VERSION ->
  exists id,
    get message "id" = Ok id /\
    let errorMessage :=
      VObj [("version", VStr "1.0");
            ("type", VStr "error");
            ("payload",
             VObj [("message",
                    VStr ("Unsupported protocol version: " ++ received));
                   ("received_id", id)]);
            ("id", VStr (fresh 0))] in
    let errorText := stringify errorMessage in
    EipAudio.step (fresh 0) st (EipAudio.Buffer (Some text))
    = (st, [EipAudio.Emit_version_mismatch (VStr received) (VStr "1.0");
            EipAudio.Call_sendEIPMessage errorMessage])
    /\ forall env,
       exists st' effects r,
         EipAudio.sendEIPMessage (fun i => fresh (S i)) env st errorMessage
         = (st', effects, r)
         /\ EipAudio.receive fresh env st (Some text)
            = (st', EipAudio.Emit_version_mismatch (VStr received)
                                                   (VStr "1.0")
                    :: EipAudio.Call_sendEIPMessage errorMessage :: effects)
         /\ EipAudio.emitted effects = []
         /\ EipAudio.chunkStorage st' = EipAudio.chunkStorage st
         /\ (EipAudio.initialize_ok env = true ->
             (forall text, EipAudio.encode_ok env text = true) ->
             (forall text, EipAudio.start_ok env text = true) ->
             (String.length errorText <= EipAudio.chunking_threshold ->
              EipAudio.played effects = [errorText] /\ r = Ok true)
             /\ (EipAudio.chunking_threshold < String.length errorText ->
                 exists pieces,
                   Msg.chunk_loop (String.length errorText) errorText
                                  EipAudio.chunk_size 0 = Some pieces
                   /\ join "" pieces = errorText
                   /\ Forall2 EipAudio.chunk_carries
                              (EipAudio.played effects) pieces)).
Proof.
  intros Hparse Hvalid Hversion Hne.
  assert (Hid : exists id, get message "id" = Ok id).
  { destruct message; try discriminate; eexists; reflexivity. }
  destruct Hid as (id & Hid).
  set (eprops := [("version", VStr "1.0");
                  ("type", VStr "error");
                  ("payload",
                   VObj [("message",
                          VStr ("Unsupported protocol version: " ++ received));
                         ("received_id", id)]);
                  ("id", VStr (fresh 0))]).
  assert (Hhandler :
            EipAudio.onaudioprocess (fresh 0) st (Some text)
            = (st, [EipAudio.Emit_version_mismatch (VStr received) (VStr "1.0");
                    EipAudio.Call_sendEIPMessage (VObj eprops)])).
  { unfold EipAudio.onaudioprocess.
    assert (Htext : (0 <? String.length text)%nat = true).
    { destruct text; [discriminate Hparse|reflexivity]. }
    rewrite Htext, Hparse, Hvalid.
    unfold EipAudio.handleEIPMessage. rewrite Hversion. cbn [bind].
    unfold Eip.isVersionSupported. cbn [strict_eq].
    destruct (String.eqb_spec received Eip.EIP_PROTOCOL_VERSION) as [E|_];
      [contradiction|].
    cbn [negb]. rewrite Hid. reflexivity. }
  exists id. split; [exact Hid|]. cbv zeta. fold eprops.
  split; [exact Hhandler|].
  intros env.
  pose proof (EipAudioFacts.sendEIPMessage_silent (fun i => fresh (S i)) env
                st (VObj eprops)) as [He Hs].
  destruct (EipAudio.sendEIPMessage (fun i => fresh (S i)) env st
                                    (VObj eprops))
    as [[st' effects] r] eqn:Hsend.
  cbn [fst snd] in He, Hs.
  exists st', effects, r. split; [reflexivity|].
  split.
  { unfold EipAudio.receive. rewrite Hhandler.
    cbn [EipAudio.perform_calls]. rewrite Hsend.
    now rewrite List.app_nil_r. }
  split; [exact He|]. split; [exact Hs|].
  intros Hinit Henc Hstart.
  destruct (EipAudioFacts.sendEIPMessage_carries (fun i => fresh (S i)) env st
              eprops Hinit Henc Hstart) as [Hshort Hlong].
  split.
  - intros Hle. specialize (Hshort Hle). rewrite Hsend in Hshort.
    split; [|congruence].
    replace effects
      with [EipAudio.Emit_transmitting true;
            EipAudio.Play (stringify (VObj eprops));
            EipAudio.Emit_transmitting false] by congruence.
    reflexivity.
  - intros Hgt.
    destruct (Hlong Hgt)
      as (pieces & st2 & effects2 & r2 & Hloop & Hjoin & Hsend2 & Hp & _).
    rewrite Hsend in Hsend2.
    replace effects with effects2 by congruence.
    now exists pieces.
Qed.

Lemma C4_unsupported_version_witness :
  (exists st' effects,
      EipAudio.receive demo_ids fair_eip_env eip_listening
                       (Some (stringify connect_v2))
      = (st', EipAudio.Emit_version_mismatch (VStr "2.0") (VStr "1.0")
              :: EipAudio.Call_sendEIPMessage
                   (VObj [("version", VStr "1.0");
                          ("type", VStr "error");
                          ("payload",
                           VObj [("message",
                                  VStr "Unsupported protocol version: 2.0");
                                 ("received_id", VStr "c-1")]);
                          ("id", VStr "k0")])
              :: effects)
      /\ EipAudio.emitted effects = []
      /\ EipAudio.chunkStorage st' = EipAudio.chunkStorage eip_listening
      /\ EipAudio.played effects
         = [stringify
              (VObj [("version", VStr "1.0");
                     ("type", VStr "error");
                     ("payload",
                      VObj [("message",
                             VStr "Unsupported protocol version: 2.0");
                            ("received_id", VStr "c-1")]);
                     ("id", VStr "k0")])])
  /\ (exists st' effects pieces,
         snd (EipAudio.receive demo_ids fair_eip_env eip_listening
                               (Some (stringify connect_v2_uuid)))
         = EipAudio.Emit_version_mismatch (VStr "2.0") (VStr "1.0")
           :: EipAudio.Call_sendEIPMessage
                (VObj [("version", VStr "1.0");
                       ("type", VStr "error");
                       ("payload",
                        VObj [("message",
                               VStr "Unsupported protocol version: 2.0");
                              ("received_id",
                               VStr "mhvXdrZT4jP5T8vBxuvm75")]);
                       ("id", VStr "k0")])
           :: effects
         /\ fst (EipAudio.receive demo_ids fair_eip_env eip_listening
                                  (Some (stringify connect_v2_uuid))) = st'
         /\ EipAudio.emitted effects = []
         /\ join "" pieces
            = stringify
                (VObj [("version", VStr "1.0");
                       ("type", VStr "error");
                       ("payload",
                        VObj [("message",
                               VStr "Unsupported protocol version: 2.0");
                              ("received_id",
                               VStr "mhvXdrZT4jP5T8vBxuvm75")]);
                       ("id", VStr "k0")])
         /\ Forall2 EipAudio.chunk_carries (EipAudio.played effects) pieces).
Proof.
  assert (Hne : "2.0" <> Eip.EIP_PROTOCOL_VERSION) by discriminate.
  split.
  - destruct (C4_unsupported_version demo_ids eip_listening
                (stringify connect_v2) connect_v2 "2.0"
                eq_refl eq_refl eq_refl Hne)
      as (id & Hid & _ & Hall).
    injection Hid as <-.
    destruct (Hall fair_eip_env)
      as (st' & effects & r & _ & Hr & He & Hs & Henv).
    destruct (Henv eq_refl (fun _ => eq_refl) (fun _ => eq_refl))
      as [Hshort _].
    exists st', effects. repeat split; try assumption.
    apply Hshort. apply Nat.leb_le. reflexivity.
  - destruct (C4_unsupported_version demo_ids eip_listening
                (stringify connect_v2_uuid) connect_v2_uuid "2.0"
                eq_refl eq_refl eq_refl Hne)
      as (id & Hid & _ & Hall).
    injection Hid as <-.
    destruct (Hall fair_eip_env)
      as (st' & effects & r & _ & Hr & He & Hs & Henv).
    destruct (Henv eq_refl (fun _ => eq_refl) (fun _ => eq_refl))
      as [_ Hlong].
    destruct Hlong as (pieces & _ & Hjoin & Hp);
      [apply Nat.ltb_lt; reflexivity|].
    exists st', effects, pieces. rewrite Hr. repeat split; assumption.
Defined.

(** C5, as the code has it.  Whether an inbound decoded message is
    delivered does not depend on [isTransmitting]: in both classes the
    handler of an audio buffer does the same with the flag set or not,
    and emits a decoded message (not a chunk) while the instance is
    transmitting, which resolves a pending [waitForMessage] (or
    [waitForEIPMessage]) for its type.  No send of [AudioProtocol],
    single or chunked, touches [isListening], and neither does a single
    send of [EIPAudioProtocol].  Only the chunked send of
    [EIPAudioProtocol] isolates its transmissions: it stops listening
    before its first chunk ([stopListening] clears [isListening]) and
    starts listening again only after its last, so every one of its
    chunks plays while [isListening] is false; afterwards the instance
    listens again when it did before and the microphone could be
    reopened. *)
Theorem C5_delivery_ignores_transmitting
    (uuids : string * string) (fresh : string) (b : bool)
    (st : Audio.AudioProtocol) (est : EipAudio.EIPAudioProtocol)
    (decoded : option string) :
  Audio.step uuids (Audio.set_isTransmitting b st) (Audio.Buffer decoded)
  = (Audio.set_isTransmitting b
       (fst (Audio.step uuids st (Audio.Buffer decoded))),
     snd (Audio.step uuids st (Audio.Buffer decoded)))
  /\ EipAudio.step fresh (EipAudio.set_isTransmitting b est)
                   (EipAudio.Buffer decoded)
     = (EipAudio.set_isTransmitting b
          (fst (EipAudio.step fresh est (EipAudio.Buffer decoded))),
        snd (EipAudio.step fresh est (EipAudio.Buffer decoded)))
  /\ (forall m,
        well_formed m = true -> type m <> VStr MessageType.CHUNK ->
        Audio.step uuids (Audio.set_isTransmitting true st)
                   (Audio.Buffer (Some (toJSON m)))
        = (Audio.set_isTransmitting true st, [Audio.Emit_message m]))
  /\ (forall props,
        json_clean (VObj props) = true ->
        Eip.validateEIPMessage (VObj props) = Ok true ->
        get (VObj props) "version" = Ok (VStr Eip.EIP_PROTOCOL_VERSION) ->
        get (VObj props) "type" <> Ok (VStr "chunk") ->
        EipAudio.step fresh (EipAudio.set_isTransmitting true est)
                      (EipAudio.Buffer (Some (stringify (VObj props))))
        = (EipAudio.set_isTransmitting true est,
           [EipAudio.Emit_eip_message (VObj props)]))
  /\ (forall m now timeout messageWait,
        well_formed m = true -> type m <> VStr MessageType.CHUNK ->
        Wait.resolutions
          (Wait.run type_of_Message
             (Wait.waitForMessage now (type m) timeout messageWait)
             (map Wait.Emitted
                (Audio.emitted
                   (snd (Audio.step uuids (Audio.set_isTransmitting true st)
                                    (Audio.Buffer (Some (toJSON m))))))))
        = [Some m])
  /\ (forall props ty now timeout messageWait,
        json_clean (VObj props) = true ->
        Eip.validateEIPMessage (VObj props) = Ok true ->
        get (VObj props) "version" = Ok (VStr Eip.EIP_PROTOCOL_VERSION) ->
        get (VObj props) "type" = Ok (VStr ty) ->
        ty <> "chunk" ->
        Wait.resolutions
          (Wait.run type_of_EIPMessage
             (Wait.waitForMessage now (VStr ty) timeout messageWait)
             (map Wait.Emitted
                (EipAudio.emitted
                   (snd (EipAudio.step fresh
                           (EipAudio.set_isTransmitting true est)
                           (EipAudio.Buffer
                              (Some (stringify (VObj props)))))))))
        = [Some (VObj props)])
  /\ (forall env message,
        Audio.isListening
          (fst (fst (Audio.sendSingleMessage env st message)))
        = Audio.isListening st)
  /\ (forall uuidv4 env message,
        Audio.isListening
          (fst (fst (Audio.sendMessage uuidv4 env st message)))
        = Audio.isListening st)
  /\ (forall env text,
        EipAudio.isListening
          (fst (fst (EipAudio.transmit_begin env est text)))
        = EipAudio.isListening est)
  /\ (forall env text,
        EipAudio.isListening
          (fst (fst (EipAudio.sendSingleEIPMessage env est text)))
        = EipAudio.isListening est)
  /\ EipAudio.isListening (fst (EipAudio.stopListening est)) = false
  /\ (forall ids env message text,
        EipAudio.plays_unheard (EipAudio.isListening est)
          (snd (fst (EipAudio.sendChunkedEIPMessage ids env est message text)))
        = true)
  /\ (forall ids env message text,
        JSON_stringify message = Some text ->
        EipAudio.chunking_threshold < String.length text ->
        EipAudio.initialize_ok env = true ->
        EipAudio.plays_unheard (EipAudio.isListening est)
          (snd (fst (EipAudio.sendEIPMessage ids env est message)))
        = true)
  /\ (forall ids env props,
        EipAudio.initialize_ok env = true ->
        EipAudio.chunking_threshold < String.length (stringify (VObj props)) ->
        let r := EipAudio.sendEIPMessage ids env est (VObj props) in
        EipAudio.listening_after (EipAudio.isListening est) (snd (fst r))
        = EipAudio.isListening (fst (fst r))
        /\ EipAudio.isListening (fst (fst r))
           = EipAudio.isListening est && EipAudio.microphone_ok env)
  /\ (forall ids env props,
        EipAudio.initialize_ok env = true ->
        (forall text, EipAudio.encode_ok env text = true) ->
        (forall text, EipAudio.start_ok env text = true) ->
        EipAudio.chunking_threshold < String.length (stringify (VObj props)) ->
        exists pieces,
          join "" pieces = stringify (VObj props)
          /\ Forall2 EipAudio.chunk_carries
               (EipAudio.played
                  (snd (fst (EipAudio.sendEIPMessage ids env est
                               (VObj props)))))
               pieces).
Proof.
  assert (Hbegin : forall env text,
             EipAudio.isListening
               (fst (fst (EipAudio.transmit_begin env est text)))
             = EipAudio.isListening est).
  { intros env text. unfold EipAudio.transmit_begin, EipAudio.fail.
    destruct (EipAudio.encode_ok env text); cbn [negb];
      [|destruct (EipAudio.error_listener env); reflexivity].
    destruct (EipAudio.start_ok env text); reflexivity. }
  assert (Hheard : forall m,
             well_formed m = true -> type m <> VStr MessageType.CHUNK ->
             Audio.step uuids (Audio.set_isTransmitting true st)
                        (Audio.Buffer (Some (toJSON m)))
             = (Audio.set_isTransmitting true st, [Audio.Emit_message m])).
  { intros m Hwf Hty. cbn [Audio.step]. unfold Audio.onaudioprocess.
    assert (Hlen : (0 <? String.length (toJSON m))%nat = true).
    { pose proof (MsgFacts.toJSON_nonempty m).
      destruct (toJSON m); [congruence|reflexivity]. }
    rewrite Hlen, MsgFacts.fromJSON_toJSON_wf by exact Hwf.
    unfold Audio.handleReceivedMessage.
    destruct (MsgFacts.well_formed_inv m Hwf) as (v & ty & i & _ & Ht & _).
    rewrite Ht in *. cbn [strict_eq].
    destruct (String.eqb_spec ty MessageType.CHUNK) as [->|_];
      [congruence|reflexivity]. }
  assert (Heheard : forall props,
             json_clean (VObj props) = true ->
             Eip.validateEIPMessage (VObj props) = Ok true ->
             get (VObj props) "version" = Ok (VStr Eip.EIP_PROTOCOL_VERSION) ->
             get (VObj props) "type" <> Ok (VStr "chunk") ->
             EipAudio.step fresh (EipAudio.set_isTransmitting true est)
                           (EipAudio.Buffer (Some (stringify (VObj props))))
             = (EipAudio.set_isTransmitting true est,
                [EipAudio.Emit_eip_message (VObj props)])).
  { intros props Hclean Hvalid Hver Hty. cbn [EipAudio.step].
    unfold EipAudio.onaudioprocess.
    rewrite JsonFacts.JSON_parse_stringify by exact Hclean.
    change (0 <? String.length (stringify (VObj props)))%nat with true.
    cbv iota. rewrite Hvalid.
    unfold EipAudio.handleEIPMessage. rewrite Hver. cbn [bind].
    change (Eip.isVersionSupported (VStr Eip.EIP_PROTOCOL_VERSION)) with true.
    cbn [negb].
    destruct (get (VObj props) "type") as [ty|] eqn:Ht; [|discriminate].
    cbn [bind].
    destruct (strict_eq ty (VStr "chunk")) eqn:E; [|reflexivity].
    destruct ty; try discriminate E. cbn [strict_eq] in E.
    apply String.eqb_eq in E. now subst. }
  repeat match goal with |- _ /\ _ => split end.
  - cbn [Audio.step]. apply AudioFacts.onaudioprocess_isTransmitting.
  - cbn [EipAudio.step].
    apply EipAudioFacts.eip_onaudioprocess_isTransmitting.
  - exact Hheard.
  - exact Heheard.
  - intros m now timeout messageWait Hwf Hty.
    rewrite (Hheard m Hwf Hty).
    cbn [snd Audio.emitted map]. unfold Wait.run, Wait.waitForMessage.
    cbn [fold_left Wait.step Wait.listener].
    unfold Wait.messageHandler, type_of_Message.
    cbn [bind Wait.expectedType].
    destruct (MsgFacts.well_formed_inv m Hwf) as (v & ty & i & _ & Ht & _).
    rewrite Ht. cbn [strict_eq]. now rewrite String.eqb_refl.
  - intros props ty now timeout messageWait Hclean Hvalid Hver Hty Hne.
    rewrite (Heheard props Hclean Hvalid Hver)
      by (rewrite Hty; intros E; apply Hne; congruence).
    cbn [snd EipAudio.emitted map]. unfold Wait.run, Wait.waitForMessage.
    cbn [fold_left Wait.step Wait.listener].
    unfold Wait.messageHandler, type_of_EIPMessage. rewrite Hty.
    cbn [bind Wait.expectedType strict_eq]. now rewrite String.eqb_refl.
  - intros env message. apply AudioFacts.sendSingleMessage_isListening.
  - intros uuidv4 env message. apply AudioFacts.sendMessage_isListening.
  - exact Hbegin.
  - intros env text. unfold EipAudio.sendSingleEIPMessage.
    specialize (Hbegin env text).
    destruct (EipAudio.transmit_begin env est text)
      as [[st1 effects1] [[|]|e]]; exact Hbegin.
  - unfold EipAudio.stopListening.
    destruct (EipAudio.isListening est) eqn:E; [reflexivity|exact E].
  - intros ids env message text.
    apply EipAudioFacts.sendChunkedEIPMessage_unheard.
  - intros ids env message text Htext Hlong Hinit.
    unfold EipAudio.sendEIPMessage. rewrite Hinit, Htext. cbn [negb].
    apply Nat.ltb_lt in Hlong. rewrite Hlong.
    apply EipAudioFacts.sendChunkedEIPMessage_unheard.
  - intros ids env props Hinit Hlong.
    destruct (EipAudioFacts.sendEIPMessage_isolated ids env est props
                Hinit Hlong) as (_ & Ha & Hl & _).
    split; [exact Ha|exact Hl].
  - intros ids env props Hinit Henc Hstart Hlong.
    destruct (proj2 (EipAudioFacts.sendEIPMessage_carries ids env est props
                       Hinit Henc Hstart) Hlong)
      as (pieces & st' & effects & r & _ & Hjoin & Hsend & Hp & _).
    exists pieces. rewrite Hsend. split; [exact Hjoin|exact Hp].
Qed.

(** C5 as stated fails: a listening [AudioProtocol] that has just started
    to play a [connect] has [isTransmitting] set, and a buffer that
    decodes to a [connect_response] is delivered all the same: the
    message is emitted and resolves a pending
    [waitForMessage("connect_response")]. *)
Lemma C5_counterexample_delivered_while_transmitting :
  let sending :=
    fst (fst (Audio.sendSingleMessage fair_env listening (createConnect "c-1"))) in
  let heard :=
    Audio.step ("u-1", "u-2") sending
               (Audio.Buffer (Some (toJSON demo_response))) in
  Audio.isTransmitting sending = true
  /\ snd heard = [Audio.Emit_message demo_response]
  /\ Wait.resolutions
       (Wait.run type_of_Message
          (Wait.waitForMessage 0 (VStr "connect_response") None 60000)
          (map Wait.Emitted (Audio.emitted (snd heard))))
     = [Some demo_response].
Proof. repeat split. Qed.

(** C8, as the code has it.  With the audio set up and every text
    encoded and played: [sendMessage] plays a message whose serialized
    length is at or below the configured [maxMessageSize], or any message
    when chunking is disabled, as one unchunked text; with chunking
    enabled and a positive [chunkSize] it plays a longer message as the
    chunk messages of [chunkMessage], in order; with a [chunkSize] of 0
    or less it plays nothing and fails.  [sendEIPMessage] does not read
    the configuration: it plays a text of at most 120 characters as it is
    and a longer one as chunk messages that carry its pieces of 80
    characters in order.  The chunk size is smaller than the threshold
    (2048 and 8192, 1024 and 4096, 80 and 120), not the other way
    round. *)
Theorem C8_send_single_or_chunked
    (uuidv4 fresh : nat -> string)
    (env : Audio.Env) (st : Audio.AudioProtocol) (message : Message)
    (eenv : EipAudio.Env) (est : EipAudio.EIPAudioProtocol)
    (eprops : list (string * value)) :
  Audio.initialize_ok env = true ->
  (forall text, Audio.play_ok env text = true) ->
  EipAudio.initialize_ok eenv = true ->
  (forall text, EipAudio.encode_ok eenv text = true) ->
  (forall text, EipAudio.start_ok eenv text = true) ->
  let text := toJSON message in
  let limits := chunking (Audio.config st) in
  let etext := stringify (VObj eprops) in
  (enabled limits = false \/
   (Z.of_nat (String.length text) <= maxMessageSize limits)%Z ->
   Audio.sendMessage uuidv4 env st message
   = (Audio.set_isTransmitting true st,
      [Audio.Emit_transmitting true; Audio.Play text], Ok true))
  /\ (enabled limits = true ->
      (maxMessageSize limits < Z.of_nat (String.length text))%Z ->
      (0 < chunkSize limits)%Z ->
      exists chunks st' effects,
        chunkMessage uuidv4 message (Z.to_nat (chunkSize limits)) = Some chunks
        /\ Audio.sendMessage uuidv4 env st message = (st', effects, Ok true)
        /\ Audio.played effects = map toJSON chunks
        /\ Forall (fun chunk => type chunk = VStr MessageType.CHUNK) chunks)
  /\ (enabled limits = true ->
      (maxMessageSize limits < Z.of_nat (String.length text))%Z ->
      (chunkSize limits <= 0)%Z ->
      Audio.sendMessage uuidv4 env st message
      = (if Audio.error_listener env
         then (st, [Audio.Emit_error "RangeError"], Ok false)
         else (st, [], Throw "RangeError")))
  /\ (String.length etext <= EipAudio.chunking_threshold ->
      EipAudio.sendEIPMessage fresh eenv est (VObj eprops)
      = (EipAudio.set_isTransmitting false est,
         [EipAudio.Emit_transmitting true; EipAudio.Play etext;
          EipAudio.Emit_transmitting false], Ok true))
  /\ (EipAudio.chunking_threshold < String.length etext ->
      exists pieces st' effects r,
        Msg.chunk_loop (String.length etext) etext EipAudio.chunk_size 0
        = Some pieces
        /\ join "" pieces = etext
        /\ EipAudio.sendEIPMessage fresh eenv est (VObj eprops)
           = (st', effects, r)
        /\ Forall2 EipAudio.chunk_carries (EipAudio.played effects) pieces
        /\ (r = Ok true
            \/ (EipAudio.isListening est = true
                /\ EipAudio.microphone_ok eenv = false
                /\ EipAudio.error_listener eenv = false
                /\ exists e, r = Throw e)))
  /\ (chunkSize (chunking DEFAULT_AUDIO_CONFIG)
      < maxMessageSize (chunking DEFAULT_AUDIO_CONFIG))%Z
  /\ (chunkSize (chunking EIP_AUDIO_CONFIG)
      < maxMessageSize (chunking EIP_AUDIO_CONFIG))%Z
  /\ EipAudio.chunk_size < EipAudio.chunking_threshold
  /\ EipAudio.chunking_threshold = 120 /\ EipAudio.chunk_size = 80.
Proof.
  intros Hinit Hplay Heinit Henc Hstart text limits etext.
  split; [|split; [|split; [|split; [|split]]]].
  - intros Hsmall. unfold Audio.sendMessage. rewrite Hinit. cbn [negb].
    fold text. unfold shouldChunkMessage. fold limits.
    assert (E : enabled limits
                && (maxMessageSize limits <? Z.of_nat (String.length text))%Z
                = false).
    { destruct Hsmall as [->|Hle]; [reflexivity|].
      apply andb_false_iff. right. now apply Z.ltb_ge. }
    rewrite E. unfold Audio.sendSingleMessage. fold text.
    now rewrite Hplay.
  - intros Hen Hbig Hsize.
    destruct (MsgFacts.chunk_loop_joins text (Z.to_nat (chunkSize limits))
                ltac:(lia) (String.length text) 0 ltac:(lia))
      as (pieces & Hloop & _).
    destruct (AudioFacts.send_chunks_played env
                (wrap_chunks uuidv4 message (List.length pieces) 0 pieces)
                Hplay st) as (st' & effects & Hsend & Hp & _).
    exists (wrap_chunks uuidv4 message (List.length pieces) 0 pieces),
      st', effects.
    assert (Hchunk : chunkMessage uuidv4 message (Z.to_nat (chunkSize limits))
                     = Some (wrap_chunks uuidv4 message (List.length pieces)
                                         0 pieces)).
    { unfold chunkMessage. fold text. now rewrite Hloop. }
    split; [exact Hchunk|]. split; [|split; [exact Hp|]].
    + unfold Audio.sendMessage. rewrite Hinit. cbn [negb].
      fold text. unfold shouldChunkMessage. fold limits.
      rewrite Hen. apply Z.ltb_lt in Hbig. rewrite Hbig. cbn [andb].
      unfold Audio.sendChunkedMessage. fold limits.
      now rewrite Hchunk, Hsend.
    + apply MsgFacts.wrap_chunks_type.
  - intros Hen Hbig Hsize.
    unfold Audio.sendMessage. rewrite Hinit. cbn [negb].
    fold text. unfold shouldChunkMessage. fold limits.
    rewrite Hen. apply Z.ltb_lt in Hbig. rewrite Hbig. cbn [andb].
    unfold Audio.sendChunkedMessage, chunkMessage. fold limits text.
    replace (Z.to_nat (chunkSize limits)) with 0 by lia.
    rewrite MsgFacts.chunk_loop_stuck by apply MsgFacts.toJSON_nonempty.
    reflexivity.
  - apply (EipAudioFacts.sendEIPMessage_carries fresh eenv est eprops
             Heinit Henc Hstart).
  - intros Hbig.
    destruct (proj2 (EipAudioFacts.sendEIPMessage_carries fresh eenv est
                       eprops Heinit Henc Hstart) Hbig)
      as (pieces & st' & effects & r & Hloop & Hjoin & Hsend & Hp & _ & _
          & Hr).
    now exists pieces, st', effects, r.
  - repeat split; try reflexivity.
    unfold EipAudio.chunk_size, EipAudio.chunking_threshold. lia.
Qed.

Lemma C8_send_single_or_chunked_witness :
  Audio.sendMessage demo_uuids fair_env listening demo_request
  = (Audio.set_isTransmitting true listening,
     [Audio.Emit_transmitting true; Audio.Play (toJSON demo_request)],
     Ok true)
  /\ (exists chunks st' effects,
         chunkMessage demo_ids demo_request 80 = Some chunks
         /\ Audio.sendMessage demo_ids fair_env small_sender demo_request
            = (st', effects, Ok true)
         /\ Audio.played effects = map toJSON chunks
         /\ 1 < List.length chunks)
  /\ Audio.sendMessage demo_ids fair_env stuck_sender demo_request
     = (stuck_sender, [Audio.Emit_error "RangeError"], Ok false)
  /\ (exists pieces st' effects r,
         join "" pieces = stringify (VObj eip_request)
         /\ EipAudio.sendEIPMessage demo_ids fair_eip_env eip_listening
                                    (VObj eip_request)
            = (st', effects, r)
         /\ Forall2 EipAudio.chunk_carries (EipAudio.played effects) pieces
         /\ 1 < List.length pieces).
Proof.
  pose proof (C8_send_single_or_chunked demo_uuids demo_ids
                fair_env listening demo_request
                fair_eip_env eip_listening eip_request
                eq_refl (fun _ => eq_refl) eq_refl
                (fun _ => eq_refl) (fun _ => eq_refl)) as Hdefault.
  pose proof (C8_send_single_or_chunked demo_ids demo_ids
                fair_env small_sender demo_request
                fair_eip_env eip_listening eip_request
                eq_refl (fun _ => eq_refl) eq_refl
                (fun _ => eq_refl) (fun _ => eq_refl)) as Hsmall.
  pose proof (C8_send_single_or_chunked demo_ids demo_ids
                fair_env stuck_sender demo_request
                fair_eip_env eip_listening eip_request
                eq_refl (fun _ => eq_refl) eq_refl
                (fun _ => eq_refl) (fun _ => eq_refl)) as Hstuck.
  cbv zeta in Hdefault, Hsmall, Hstuck.
  split; [apply (proj1 Hdefault); right; apply Z.leb_le; reflexivity|].
  split.
  { destruct Hsmall as (_ & Hchunked & _).
    destruct Hchunked as (chunks & st' & effects & Hc & Hs & Hp & _);
      [reflexivity | reflexivity | reflexivity |].
    exists chunks, st', effects. repeat split; try assumption.
    change (Z.to_nat (chunkSize (chunking (Audio.config small_sender))))
      with 80 in Hc.
    assert (E : chunkMessage demo_ids demo_request 80
                = Some (wrap_chunks demo_ids demo_request 3 0
                          (match chunk_loop
                                   (String.length (toJSON demo_request))
                                   (toJSON demo_request) 80 0 with
                           | Some pieces => pieces
                           | None => []
                           end)))
      by (vm_compute; reflexivity).
    rewrite E in Hc. injection Hc as <-. vm_compute. lia. }
  split.
  { destruct Hstuck as (_ & _ & Hfail & _).
    apply Hfail; [reflexivity | reflexivity | apply Z.leb_le; reflexivity]. }
  destruct Hsmall as (_ & _ & _ & _ & Heip & _).
  destruct Heip as (pieces & st' & effects & r & Hloop & Hjoin & Hs & Hp & _);
    [apply Nat.ltb_lt; reflexivity|].
  exists pieces, st', effects, r. repeat split; try assumption.
  change (chunk_loop (String.length (stringify (VObj eip_request)))
                     (stringify (VObj eip_request)) EipAudio.chunk_size 0)
    with (Some eip_request_pieces) in Hloop.
  injection Hloop as <-. vm_compute. lia.
Defined.

(** C8 as stated fails: the threshold is larger than the chunk size in
    every configuration of the code; with chunking disabled a message
    above the threshold is played unchunked; [sendEIPMessage] plays a
    request that is far below the [maxMessageSize] of its configuration
    in three chunks, because it compares with 120; with a chunk size of 0
    a message above the threshold is not played at all; and where no
    sound can be played, a message below the threshold is not played
    either. *)
Lemma C8_counterexample_threshold_and_switch :
  ~ (maxMessageSize (chunking DEFAULT_AUDIO_CONFIG)
     < chunkSize (chunking DEFAULT_AUDIO_CONFIG))%Z
  /\ ~ (maxMessageSize (chunking EIP_AUDIO_CONFIG)
        < chunkSize (chunking EIP_AUDIO_CONFIG))%Z
  /\ ~ EipAudio.chunking_threshold < EipAudio.chunk_size
  /\ (maxMessageSize (chunking unchunked_config)
      < Z.of_nat (String.length (toJSON demo_request)))%Z
  /\ Audio.played
       (snd (fst (Audio.sendSingleMessage fair_env
                    (Audio.new_AudioProtocol unchunked_config) demo_request)))
     = [toJSON demo_request]
  /\ Audio.sendMessage demo_uuids fair_env
       (Audio.new_AudioProtocol unchunked_config) demo_request
     = Audio.sendSingleMessage fair_env
         (Audio.new_AudioProtocol unchunked_config) demo_request
  /\ (Z.of_nat (String.length (stringify (VObj eip_request)))
      <= maxMessageSize (chunking EIP_AUDIO_CONFIG))%Z
  /\ List.length
       (EipAudio.played
          (snd (fst (EipAudio.sendEIPMessage demo_ids fair_eip_env
                       EipAudio.new_EIPAudioProtocol (VObj eip_request)))))
     = 3
  /\ enabled (chunking (Audio.config stuck_sender)) = true
  /\ (maxMessageSize (chunking (Audio.config stuck_sender))
      < Z.of_nat (String.length (toJSON demo_request)))%Z
  /\ Audio.played
       (snd (fst (Audio.sendMessage demo_ids fair_env stuck_sender
                    demo_request)))
     = []
  /\ (Z.of_nat (String.length (toJSON demo_request))
      <= maxMessageSize (chunking (Audio.config listening)))%Z
  /\ Audio.played
       (snd (fst (Audio.sendMessage demo_ids mute_env listening
                    demo_request)))
     = [].
Proof.
  assert (Hlen : (Z.of_nat (String.length (stringify (VObj eip_request)))
                  <= maxMessageSize (chunking EIP_AUDIO_CONFIG))%Z)
    by (apply Z.leb_le; reflexivity).
  repeat split; try discriminate; try reflexivity; try exact Hlen.
  unfold EipAudio.chunking_threshold, EipAudio.chunk_size. lia.
Qed.

(** C2, as the code has it.  A delivered chunk is appended to the list
    stored under its [originalMessageId]; a chunk delivered again is
    stored again, and completion compares the number of stored chunks,
    repeats included, with [totalChunks].  So while fewer than
    [totalChunks] chunks have been delivered for an id, the buffer of the
    id is extended by every one of them in arrival order and nothing is
    emitted, in both classes. *)
Theorem C2_delivered_chunks_are_appended (uuid : string)
    (originalMessageId : value) (totalChunks : Z)
    (st : Audio.AudioProtocol) (chunks : list Message)
    (est : EipAudio.EIPAudioProtocol) (echunks : list value) :
  strict_eq originalMessageId originalMessageId = true ->
  Forall (fun chunk =>
            Msg.payload_get "originalMessageId" chunk = Ok originalMessageId
            /\ Msg.payload_get "totalChunks" chunk = Ok (VNum totalChunks))
         chunks ->
  (Z.of_nat (List.length (Audio.buffer originalMessageId st)
             + List.length chunks) < totalChunks)%Z ->
  Forall (fun chunk =>
            EipAudio.payload_get "originalMessageId" chunk
            = Ok originalMessageId
            /\ EipAudio.payload_get "totalChunks" chunk
               = Ok (VNum totalChunks))
         echunks ->
  (Z.of_nat (List.length (EipAudio.buffer originalMessageId est)
             + List.length echunks) < totalChunks)%Z ->
  (exists st',
      Audio.handleChunks uuid st chunks = Ok (st', [])
      /\ Audio.buffer originalMessageId st'
         = (Audio.buffer originalMessageId st ++ chunks)%list)
  /\ (exists est',
        EipAudio.handleChunks est echunks = Ok (est', [])
        /\ EipAudio.buffer originalMessageId est'
           = (EipAudio.buffer originalMessageId est ++ echunks)%list).
Proof.
  intros Hid Hc Hn Hec Hen. split.
  - now apply AudioFacts.handleChunks_append with (n := totalChunks).
  - now apply EipAudioFacts.eip_handleChunks_append with (n := totalChunks).
Qed.

Lemma C2_delivered_chunks_are_appended_witness :
  let chunk := createChunk "k-0" (VStr "m-1") 0 3 "{" (VStr "ack") in
  let echunk := eip_chunk_of_three 0 "{" in
  (exists st',
      Audio.handleChunks "u-1" listening [chunk; chunk] = Ok (st', [])
      /\ Audio.buffer (VStr "m-1") st' = [chunk; chunk])
  /\ (exists est',
        EipAudio.handleChunks eip_listening [echunk; echunk] = Ok (est', [])
        /\ EipAudio.buffer (VStr "m-1") est' = [echunk; echunk]).
Proof.
  intros chunk echunk.
  apply (C2_delivered_chunks_are_appended "u-1" (VStr "m-1") 3
           listening [chunk; chunk] eip_listening [echunk; echunk]).
  - reflexivity.
  - repeat constructor.
  - cbn. lia.
  - repeat constructor.
  - cbn. lia.
Defined.

(** C2 as stated fails: for the two chunks of a message, delivering the
    first one twice makes the buffer complete with the wrong content;
    reassembly fails, the buffer is dropped, and the second chunk is left
    alone in a new buffer.  Delivered once each, the chunks reassemble to
    the message. *)
Lemma C2_counterexample_duplicate_changes_outcome :
  exists c0 c1,
    chunkMessage demo_uuids demo_request 100 = Some [c0; c1]
    /\ (exists st,
          Audio.handleChunks "u-1" listening [c0; c1]
          = Ok (st, [Audio.Emit_message demo_request])
          /\ Audio.buffer (VStr "7f1c") st = [])
    /\ (exists st,
          Audio.handleChunks "u-1" listening [c0; c0; c1] = Ok (st, [])
          /\ Audio.buffer (VStr "7f1c") st = [c1]).
Proof.
  eexists _, _. split; [vm_compute; reflexivity|].
  split; eexists; (split; [vm_compute; reflexivity|reflexivity]).
Qed.

(** C3 on the code: chunks 0 and 2 of a message in three chunks arrive
    and a day passes.  No message is emitted, as the claim says; but the
    buffer is still there with its two chunks, and nothing was reported:
    the class has no reassembly timeout. *)
Lemma C3_incomplete_buffer_is_never_purged :
  exists c0 c1 c2,
    chunkMessage demo_uuids demo_request 80 = Some [c0; c1; c2]
    /\ (let arrived :=
          Audio.run (fun _ => ("u-1", "u-2")) 0 listening
                    [Audio.Buffer (Some (toJSON c0));
                     Audio.Buffer (Some (toJSON c2))] in
        let later :=
          Audio.run (fun _ => ("u-1", "u-2")) 0 listening
                    [Audio.Buffer (Some (toJSON c0));
                     Audio.Buffer (Some (toJSON c2));
                     Audio.Elapse 86400000] in
        snd arrived = []
        /\ Audio.buffer (VStr "7f1c") (fst arrived) = [c0; c2]
        /\ later = arrived)
    /\ (forall uuids st ms, Audio.step uuids st (Audio.Elapse ms) = (st, []))
    /\ (forall fresh st ms,
          EipAudio.step fresh st (EipAudio.Elapse ms) = (st, [])).
Proof.
  eexists _, _, _. split; [vm_compute; reflexivity|].
  split; [|split; reflexivity].
  repeat split; vm_compute; reflexivity.
Qed.

(** C7 on the code: a [connect] of version 2.0 is refused when it
    arrives as it is, and is emitted unchecked when it arrives inside a
    chunk; a reassembled text that is no envelope at all (here an empty
    object) is emitted as well. *)
Lemma C7_reassembled_message_is_emitted_unchecked :
  snd (EipAudio.step "e-1" eip_listening
         (EipAudio.Buffer (Some (stringify connect_v2))))
  = [EipAudio.Emit_version_mismatch (VStr "2.0") (VStr "1.0");
     EipAudio.Call_sendEIPMessage
       (Eip.createEIPMessage "e-1" (VStr "error")
          (VObj [("message", VStr "Unsupported protocol version: 2.0");
                 ("received_id", VStr "c-1")])
          VUndefined)]
  /\ snd (EipAudio.step "e-1" eip_listening
            (EipAudio.Buffer
               (Some (stringify (lone_chunk (stringify connect_v2))))))
     = [EipAudio.Emit_eip_message connect_v2]
  /\ Eip.validateEIPMessage (VObj []) = Ok false
  /\ snd (EipAudio.step "e-1" eip_listening
            (EipAudio.Buffer
               (Some (stringify (lone_chunk (stringify (VObj [])))))))
     = [EipAudio.Emit_eip_message (VObj [])].
Proof. repeat split; vm_compute; reflexivity. Qed.

(** C10, as the code has it.  [createEIPMessage] leaves the id out when
    the id argument is [null], whatever the type, and when the type is
    ['connect'] and the id argument is absent or the empty string; in
    every other case the message carries a string id: the argument when
    it is a non-empty string, a fresh id otherwise.
    [validateEIPMessage] accepts a message without id, and the responder
    that answers a [connect] without id puts [undefined] under
    [received_id], which [JSON.stringify] then leaves out of the text. *)
Theorem C10_createEIPMessage_id (fresh : string) (type : string)
    (payload : value) :
  let create := Eip.createEIPMessage fresh (VStr type) payload in
  create VNull = Eip.without_id type payload
  /\ (type = "connect" ->
      create VUndefined = Eip.without_id type payload
      /\ create (VStr "") = Eip.without_id type payload)
  /\ (type <> "connect" ->
      create VUndefined = Eip.with_id type payload fresh
      /\ create (VStr "") = Eip.with_id type payload fresh)
  /\ (forall id, id <> "" -> create (VStr id) = Eip.with_id type payload id)
  /\ (In type Eip.message_types -> typeof payload = "object" ->
      Eip.validateEIPMessage (Eip.without_id type payload) = Ok true)
  /\ (forall address fresh',
        Handler.connect_response address fresh'
                                 (Eip.without_id type payload)
        = Ok (Eip.with_id "connect_response"
                (VObj [("address", VStr address);
                       ("received_id", VUndefined)])
                fresh')
        /\ stringify (VObj [("address", VStr address);
                            ("received_id", VUndefined)])
           = stringify (VObj [("address", VStr address)])).
Proof.
  intros create. subst create. unfold Eip.createEIPMessage, or_else.
  cbn [strict_eq negb andb truthy orb].
  split; [reflexivity|].
  split; [intros ->; split; reflexivity|].
  split.
  { intros Hne. apply String.eqb_neq in Hne. rewrite Hne.
    split; reflexivity. }
  split.
  { intros id Hid. apply String.eqb_neq in Hid. rewrite Hid. reflexivity. }
  split; [|intros address fresh'; split; reflexivity].
  intros Hin Hobj. unfold Eip.validateEIPMessage, Eip.without_id.
  assert (E : Eip.includes Eip.message_types (VStr type) = true).
  { unfold Eip.includes. apply existsb_exists. exists type.
    split; [exact Hin|]. cbn [strict_eq]. apply String.eqb_refl. }
  change (get (VObj [("version", VStr Eip.EIP_PROTOCOL_VERSION);
                      ("type", VStr type); ("payload", payload)]) "version")
    with (Ok (VStr Eip.EIP_PROTOCOL_VERSION)).
  change (get (VObj [("version", VStr Eip.EIP_PROTOCOL_VERSION);
                      ("type", VStr type); ("payload", payload)]) "type")
    with (Ok (VStr type)).
  change (get (VObj [("version", VStr Eip.EIP_PROTOCOL_VERSION);
                      ("type", VStr type); ("payload", payload)]) "payload")
    with (Ok payload).
  change (get (VObj [("version", VStr Eip.EIP_PROTOCOL_VERSION);
                      ("type", VStr type); ("payload", payload)]) "id")
    with (Ok VUndefined).
  cbn [bind typeof]. rewrite E, Hobj. reflexivity.
Qed.

(** C10 as stated fails: an [error] message created with the id argument
    [null] carries no id, and neither does a [connect] created with the
    empty string as its id. *)
Lemma C10_counterexample_null_id :
  Eip.createEIPMessage "f-1" (VStr "error") (VObj []) VNull
  = Eip.without_id "error" (VObj [])
  /\ get (Eip.createEIPMessage "f-1" (VStr "error") (VObj []) VNull) "id"
     = Ok VUndefined
  /\ Eip.createEIPMessage "f-1" (VStr "connect") (VObj []) (VStr "")
     = Eip.without_id "connect" (VObj []).
Proof. repeat split. Qed.

(** C9 as stated fails on a message whose payload is not JSON data: a
    member set to [undefined] is left out of the text, so the message
    read back has a different payload. *)
Lemma C9_counterexample_undefined_member :
  fromJSON "other" (toJSON lossy_request) <> Ok lossy_request
  /\ fromJSON "other" (toJSON lossy_request) = Ok demo_request_1d.
Proof. split; [vm_compute; discriminate | vm_compute; reflexivity]. Qed.

(** C1 as stated fails on the same message: its text is above the
    threshold, and its chunks, even in the order of sending, reassemble
    to a message with a different payload. *)
Lemma C1_counterexample_undefined_member :
  shouldChunkMessage (String.length (toJSON lossy_request)) small_config = true
  /\ exists chunks,
       chunkMessage demo_uuids lossy_request 80 = Some chunks
       /\ reassembleChunks "other" chunks = Ok (Some demo_request_1d)
       /\ demo_request_1d <> lossy_request.
Proof.
  split; [reflexivity|]. eexists. split; [vm_compute; reflexivity|].
  split; [vm_compute; reflexivity|discriminate].
Qed.

Lemma handleChunks_any_order_witness :
  well_formed demo_request = true /\
  0 < 80 /\
  map_get (id demo_request) (Audio.chunkStorage listening) = None /\
  exists chunks,
    chunkMessage demo_uuids demo_request 80 = Some chunks /\
    forall delivered, Permutation delivered chunks ->
      Audio.handleChunks "u-1" listening delivered
      = Ok (listening, [Audio.Emit_message demo_request]).
Proof.
  split; [reflexivity|]. split; [lia|]. split; [reflexivity|].
  apply (AudioFacts.handleChunks_any_order demo_uuids "u-1" demo_request 80
           listening); [reflexivity | lia | reflexivity].
Defined.

Lemma handleChunks_missing_index_witness :
  let chunks := [createChunk "k-0" (VStr "7f1c") 0 3 "ab" (VStr "tx_request");
                 createChunk "k-2" (VStr "7f1c") 2 3 "ef" (VStr "tx_request")] in
  NoDup [0; 2]%Z /\
  Forall (fun i => 0 <= i < 3)%Z [0; 2]%Z /\
  (0 <= 1 < 3)%Z /\ ~ In 1%Z [0; 2]%Z /\
  Audio.buffer (VStr "7f1c") listening = [] /\
  exists st',
    Audio.handleChunks "u-1" listening chunks = Ok (st', []) /\
    Audio.buffer (VStr "7f1c") st' = chunks.
Proof.
  assert (Hnd : NoDup [0; 2]%Z).
  { repeat constructor; cbn [In]; intros H; intuition discriminate. }
  assert (Hrange : Forall (fun i => 0 <= i < 3)%Z [0; 2]%Z)
    by (repeat constructor; lia).
  assert (Hk : (0 <= 1 < 3)%Z) by lia.
  assert (Hout : ~ In 1%Z [0; 2]%Z)
    by (cbn [In]; intros H; intuition discriminate).
  repeat (split; [assumption || reflexivity|]).
  apply (AudioFacts.handleChunks_missing_index "u-1" (VStr "7f1c") 3 1 _
           [0; 2]%Z listening); try assumption; try reflexivity.
  repeat constructor.
Defined.

Lemma eip_handleChunks_missing_index_witness :
  let chunks := [eip_chunk_of_three 0 "ab"; eip_chunk_of_three 2 "ef"] in
  NoDup [0; 2]%Z /\
  Forall (fun i => 0 <= i < 3)%Z [0; 2]%Z /\
  (0 <= 1 < 3)%Z /\ ~ In 1%Z [0; 2]%Z /\
  EipAudio.buffer (VStr "m-1") eip_listening = [] /\
  exists st',
    EipAudio.handleChunks eip_listening chunks = Ok (st', []) /\
    EipAudio.buffer (VStr "m-1") st' = chunks.
Proof.
  assert (Hnd : NoDup [0; 2]%Z).
  { repeat constructor; cbn [In]; intros H; intuition discriminate. }
  assert (Hrange : Forall (fun i => 0 <= i < 3)%Z [0; 2]%Z)
    by (repeat constructor; lia).
  assert (Hk : (0 <= 1 < 3)%Z) by lia.
  assert (Hout : ~ In 1%Z [0; 2]%Z)
    by (cbn [In]; intros H; intuition discriminate).
  repeat (split; [assumption || reflexivity|]).
  apply (EipAudioFacts.eip_handleChunks_missing_index (VStr "m-1") 3 1 _
           [0; 2]%Z eip_listening); try assumption; try reflexivity.
  repeat constructor.
Defined.

End Claims.

(* ------------------------------------------------------------------ *)
(** ** The chunker in detail                                            *)
(* ------------------------------------------------------------------ *)

Module ChunkerFacts.
Import JS Msg Sample.

Lemma substring_length (n m : nat) (s : string) :
  String.length (String.substring n m s) = Nat.min m (String.length s - n).
Proof.
  revert n m. induction s as [|c r IH]; intros n m.
  - destruct n, m; reflexivity.
  - destruct n as [|n]; destruct m as [|m]; cbn [String.substring String.length];
      try reflexivity.
    + rewrite IH. cbn [Nat.sub Nat.min]. now rewrite Nat.sub_0_r.
    + rewrite IH. reflexivity.
    + rewrite IH. reflexivity.
Qed.

Lemma piece_length (s : string) (chunkSize i : nat) :
  String.length (piece s chunkSize i)
  = Nat.min chunkSize (String.length s - i * chunkSize).
Proof.
  unfold piece. rewrite MsgFacts.substring_window. apply substring_length.
Qed.

(** The loop is at index [i] exactly while [i] is below the number of
    chunks. *)
Lemma below_number_of_chunks (s : string) (chunkSize i : nat) :
  0 < chunkSize ->
  (i * chunkSize <? String.length s)%nat
  = (i <? number_of_chunks s chunkSize)%nat.
Proof.
  intros Hpos. unfold number_of_chunks.
  destruct (Nat.ltb_spec (i * chunkSize) (String.length s)) as [Hlt|Hge];
    symmetry.
  - apply Nat.ltb_lt.
    apply (Nat.lt_le_trans _ (S i)); [lia|].
    apply Nat.div_le_lower_bound; lia.
  - apply Nat.ltb_ge.
    apply Nat.lt_succ_r, Nat.Div0.div_lt_upper_bound. lia.
Qed.

Lemma chunk_loop_pieces (s : string) (chunkSize : nat) :
  0 < chunkSize ->
  forall fuel i,
    String.length s - i * chunkSize <= fuel ->
    chunk_loop fuel s chunkSize (i * chunkSize)
    = Some (map (piece s chunkSize)
                (seq i (number_of_chunks s chunkSize - i))).
Proof.
  intros Hpos. induction fuel as [|fuel IH]; intros i Hfuel.
  - cbn [chunk_loop]. rewrite below_number_of_chunks by assumption.
    destruct (Nat.ltb_spec i (number_of_chunks s chunkSize)) as [Hlt|Hge].
    + exfalso. apply Nat.ltb_lt in Hlt.
      rewrite <- below_number_of_chunks in Hlt by assumption.
      apply Nat.ltb_lt in Hlt. lia.
    + replace (number_of_chunks s chunkSize - i) with 0 by lia. reflexivity.
  - cbn [chunk_loop]. rewrite below_number_of_chunks by assumption.
    destruct (Nat.ltb_spec i (number_of_chunks s chunkSize)) as [Hlt|Hge].
    + assert (Hin : i * chunkSize < String.length s).
      { apply Nat.ltb_lt. rewrite below_number_of_chunks by assumption.
        now apply Nat.ltb_lt. }
      replace (i * chunkSize + chunkSize) with (S i * chunkSize) by lia.
      rewrite IH by lia.
      replace (number_of_chunks s chunkSize - i)
        with (S (number_of_chunks s chunkSize - S i)) by lia.
      cbn [seq map]. unfold piece at 2.
      replace (S i * chunkSize) with (i * chunkSize + chunkSize) by lia.
      reflexivity.
    + replace (number_of_chunks s chunkSize - i) with 0 by lia. reflexivity.
Qed.

Lemma wrap_chunks_nth (uuidv4 : nat -> string) (E : Message) (total : nat)
    (strs : list string) :
  forall index j,
    nth_error (wrap_chunks uuidv4 E total index strs) j
    = option_map
        (fun chunkData =>
           createChunk (uuidv4 (index + j)) (id E) (Z.of_nat (index + j))
                       (Z.of_nat total) chunkData (type E))
        (nth_error strs j).
Proof.
  induction strs as [|d t IH]; intros index j.
  - destruct j; reflexivity.
  - destruct j as [|j]; cbn [wrap_chunks nth_error option_map].
    + now rewrite Nat.add_0_r.
    + rewrite IH. now rewrite Nat.add_succ_comm.
Qed.

(** [chunkMessage(E, S)] for [S > 0]: it returns [ceil(length / S)]
    chunks; the chunk at position [i] carries index [i], the number of
    chunks, the id and the type of [E], and the text of [E] from [i * S]
    up to [i * S + S].  Every chunk text is non-empty and at most [S]
    long, and all but the last are exactly [S] long. *)
Theorem chunkMessage_pieces (uuidv4 : nat -> string) (E : Message)
    (chunkSize : nat) :
  0 < chunkSize ->
  let messageJson := toJSON E in
  let total := number_of_chunks messageJson chunkSize in
  exists chunks,
    chunkMessage uuidv4 E chunkSize = Some chunks
    /\ List.length chunks = total
    /\ forall i, i < total ->
         nth_error chunks i
         = Some (createChunk (uuidv4 i) (id E) (Z.of_nat i) (Z.of_nat total)
                             (piece messageJson chunkSize i) (type E))
         /\ 0 < String.length (piece messageJson chunkSize i) <= chunkSize
         /\ (i + 1 < total ->
             String.length (piece messageJson chunkSize i) = chunkSize).
Proof.
  intros Hpos messageJson total.
  pose proof (chunk_loop_pieces messageJson chunkSize Hpos
                (String.length messageJson) 0) as Hloop.
  cbn [Nat.mul] in Hloop. rewrite Nat.sub_0_r in Hloop.
  specialize (Hloop (Nat.le_refl _)). fold total in Hloop.
  rewrite Nat.sub_0_r in Hloop.
  unfold chunkMessage. fold messageJson. rewrite Hloop.
  eexists. split; [reflexivity|].
  rewrite MsgFacts.wrap_chunks_length, length_map, length_seq.
  split; [reflexivity|].
  intros i Hi. split; [|split].
  - rewrite wrap_chunks_nth, nth_error_map, nth_error_seq.
    apply Nat.ltb_lt in Hi. rewrite Hi. reflexivity.
  - rewrite piece_length.
    assert (i * chunkSize < String.length messageJson).
    { apply Nat.ltb_lt. rewrite below_number_of_chunks by assumption.
      now apply Nat.ltb_lt. }
    lia.
  - intros Hnext. rewrite piece_length.
    assert ((i + 1) * chunkSize < String.length messageJson).
    { apply Nat.ltb_lt. rewrite below_number_of_chunks by assumption.
      now apply Nat.ltb_lt. }
    lia.
Qed.

Lemma chunkMessage_pieces_witness :
  0 < 80 /\
  exists chunks,
    chunkMessage demo_uuids demo_request 80 = Some chunks
    /\ List.length chunks = number_of_chunks (toJSON demo_request) 80
    /\ forall i, i < number_of_chunks (toJSON demo_request) 80 ->
         nth_error chunks i
         = Some (createChunk (demo_uuids i) (id demo_request) (Z.of_nat i)
                   (Z.of_nat (number_of_chunks (toJSON demo_request) 80))
                   (piece (toJSON demo_request) 80 i) (type demo_request))
         /\ 0 < String.length (piece (toJSON demo_request) 80 i) <= 80
         /\ (i + 1 < number_of_chunks (toJSON demo_request) 80 ->
             String.length (piece (toJSON demo_request) 80 i) = 80).
Proof.
  split; [lia|].
  apply (chunkMessage_pieces demo_uuids demo_request 80). lia.
Defined.

(** [sendMessage] with chunking enabled, a message above
    [maxMessageSize] and a configured [chunkSize] of 0 or less: the loop
    of [chunkMessage] never ends by itself (no bound on its turns is
    enough), so its array grows until [push] throws.  The send plays
    nothing and leaves the instance as it is; it emits ['error'] and
    returns [false], or, on an instance without a listener for ['error'],
    its promise is rejected. *)
Theorem sendMessage_chunkSize_not_positive (uuidv4 : nat -> string)
    (env : Audio.Env) (st : Audio.AudioProtocol) (E : Message) :
  Audio.initialize_ok env = true ->
  Config.shouldChunkMessage (String.length (toJSON E)) (Audio.config st)
  = true ->
  (Config.chunkSize (Config.chunking (Audio.config st)) <= 0)%Z ->
  (forall fuel,
      chunk_loop fuel (toJSON E)
        (Z.to_nat (Config.chunkSize (Config.chunking (Audio.config st)))) 0
      = None)
  /\ Audio.sendMessage uuidv4 env st E
     = (if Audio.error_listener env
        then (st, [Audio.Emit_error "RangeError"], Ok false)
        else (st, [], Throw "RangeError"))
  /\ Audio.played (snd (fst (Audio.sendMessage uuidv4 env st E))) = [].
Proof.
  intros Hinit Hchunk Hsize.
  replace (Z.to_nat (Config.chunkSize (Config.chunking (Audio.config st))))
    with 0 by lia.
  assert (Hsend : Audio.sendMessage uuidv4 env st E
                  = (if Audio.error_listener env
                     then (st, [Audio.Emit_error "RangeError"], Ok false)
                     else (st, [], Throw "RangeError"))).
  { unfold Audio.sendMessage. rewrite Hinit, Hchunk. cbn [negb].
    unfold Audio.sendChunkedMessage, chunkMessage.
    replace (Z.to_nat (Config.chunkSize (Config.chunking (Audio.config st))))
      with 0 by lia.
    now rewrite MsgFacts.chunk_loop_stuck by apply MsgFacts.toJSON_nonempty. }
  split; [apply MsgFacts.chunk_loop_stuck, MsgFacts.toJSON_nonempty|].
  split; [exact Hsend|].
  rewrite Hsend. now destruct (Audio.error_listener env).
Qed.

Lemma sendMessage_chunkSize_not_positive_witness :
  Audio.initialize_ok fair_env = true /\
  Config.shouldChunkMessage (String.length (toJSON demo_request))
    (Audio.config stuck_sender) = true /\
  (Config.chunkSize (Config.chunking (Audio.config stuck_sender)) <= 0)%Z /\
  Audio.sendMessage demo_uuids fair_env stuck_sender demo_request
  = (stuck_sender, [Audio.Emit_error "RangeError"], Ok false)
  /\ Audio.sendMessage demo_uuids unheard_env stuck_sender demo_request
     = (stuck_sender, [], Throw "RangeError").
Proof.
  assert (Hsize : (Config.chunkSize
                     (Config.chunking (Audio.config stuck_sender)) <= 0)%Z)
    by (cbn; lia).
  split; [reflexivity|]. split; [reflexivity|]. split; [exact Hsize|].
  split.
  - apply (sendMessage_chunkSize_not_positive demo_uuids fair_env stuck_sender
             demo_request eq_refl eq_refl Hsize).
  - apply (sendMessage_chunkSize_not_positive demo_uuids unheard_env
             stuck_sender demo_request eq_refl eq_refl Hsize).
Defined.


(** *** Reassembly of arbitrary chunks *)

Lemma map_result_defined {A B : Type} (f : A -> result B) (l : list A) :
  (forall a, In a l -> exists b, f a = Ok b) ->
  exists bs, map_result f l = Ok bs.
Proof.
  induction l as [|a t IH]; intros H; [now exists []|].
  destruct (H a (or_introl eq_refl)) as (b & Hb).
  destruct IH as (bs & Hbs); [intros x Hx; apply H; now right|].
  exists (b :: bs). cbn [map_result]. now rewrite Hb, Hbs.
Qed.

Lemma indexed_keyed (l : list Message) :
  (forall c, In c l -> exists i, has_index c i) ->
  keyed by_chunkIndex chunk_key l.
Proof.
  intros H a b Ha Hb.
  destruct (H a Ha) as (ia & Hia). destruct (H b Hb) as (ib & Hib).
  unfold by_chunkIndex, chunk_key, has_index in *. now rewrite Hia, Hib.
Qed.

(** [reassembleChunks] does not depend on the order of the array it is
    given, whatever the chunks are, as long as each carries a number under
    [chunkIndex] and no two carry the same one. *)
Theorem reassembleChunks_order_irrelevant (uuid : string)
    (chunks delivered : list Message) :
  Permutation delivered chunks ->
  (forall c, In c chunks -> exists i, has_index c i) ->
  NoDup (map chunk_key chunks) ->
  reassembleChunks uuid delivered = reassembleChunks uuid chunks.
Proof.
  intros Hp Hidx Hnd.
  assert (Hidx' : forall c, In c delivered -> exists i, has_index c i).
  { intros c Hc. apply Hidx. now apply (Permutation_in _ Hp). }
  assert (Hsort : sort by_chunkIndex delivered = sort by_chunkIndex chunks).
  { apply SortFacts.sorted_unique with (key := chunk_key).
    - apply SortFacts.sort_sorted. now apply indexed_keyed.
    - apply SortFacts.sort_sorted. now apply indexed_keyed.
    - now rewrite !SortFacts.sort_perm.
    - eapply Permutation_NoDup; [|exact Hnd].
      apply Permutation_map. symmetry.
      now rewrite SortFacts.sort_perm. }
  assert (Hlen : List.length delivered = List.length chunks)
    by apply (Permutation_length Hp).
  destruct (map_result_defined (payload_get "chunkIndex") delivered)
    as (vs & Hvs).
  { intros c Hc. destruct (Hidx' c Hc) as (i & Hi). now exists (VNum i). }
  destruct (map_result_defined (payload_get "chunkIndex") chunks)
    as (ws & Hws).
  { intros c Hc. destruct (Hidx c Hc) as (i & Hi). now exists (VNum i). }
  destruct delivered as [|d ds], chunks as [|c cs]; try discriminate;
    [reflexivity|].
  unfold reassembleChunks. now rewrite Hvs, Hws, Hsort, Hlen.
Qed.

Lemma reassembleChunks_order_irrelevant_witness :
  let c0 := createChunk "k-0" (VStr "7f1c") 0 2 "{}" (VStr "ack") in
  let c1 := createChunk "k-1" (VStr "7f1c") 1 2 "  " (VStr "ack") in
  Permutation [c1; c0] [c0; c1] /\
  (forall c, In c [c0; c1] -> exists i, has_index c i) /\
  NoDup (map chunk_key [c0; c1]) /\
  reassembleChunks "u-1" [c1; c0] = reassembleChunks "u-1" [c0; c1].
Proof.
  intros c0 c1.
  assert (Hp : Permutation [c1; c0] [c0; c1]) by apply perm_swap.
  assert (Hidx : forall c, In c [c0; c1] -> exists i, has_index c i).
  { intros c [<-|[<-|[]]]; eexists; reflexivity. }
  assert (Hnd : NoDup (map chunk_key [c0; c1])).
  { repeat constructor; cbn; intuition discriminate. }
  split; [exact Hp|]. split; [exact Hidx|]. split; [exact Hnd|].
  exact (reassembleChunks_order_irrelevant "u-1" [c0; c1] [c1; c0]
           Hp Hidx Hnd).
Defined.

(** Every message that the factories of [MessageProtocol] build from
    strings, with a non-empty id drawn from [uuidv4()], has the protocol
    version and that id, and is read back unchanged by
    [Message.fromJSON] from its [toJSON] text. *)
Theorem factories_round_trip (uuid other : string)
    (address connectId receivedId message originalMessageId originalType
     chunkData signedTx txHash to data : string)
    (chunkIndex totalChunks chainId nonce : Z)
    (value gasPrice gasLimit : quantity) :
  uuid <> "" ->
  Forall (fun m => id m = VStr uuid
                   /\ validateVersion m = true
                   /\ fromJSON other (toJSON m) = Ok m)
    [createConnect uuid;
     createConnectResponse uuid (VStr address) (VStr connectId);
     createTxRequest uuid chainId to value data nonce gasPrice gasLimit;
     createTxResponse uuid (VStr signedTx) (VStr txHash);
     createAck uuid (VStr receivedId);
     createError uuid (VStr message) (VStr receivedId);
     createError uuid (VStr message) VUndefined;
     createChunk uuid (VStr originalMessageId) chunkIndex totalChunks
                 chunkData (VStr originalType);
     createChunkAck uuid (VStr originalMessageId) chunkIndex].
Proof.
  intros Hu.
  assert (Hne : (uuid =? "") = false) by now apply String.eqb_neq.
  assert (Hwf : forall v t p,
             json_clean p = true ->
             let m := new_Message uuid (VStr v) (VStr t) p VUndefined in
             id m = VStr uuid /\ well_formed m = true).
  { intros v t p Hp. split; [reflexivity|].
    unfold well_formed, new_Message, or_else.
    cbn [truthy version type payload id is_string andb].
    now rewrite Hne, Hp. }
  assert (Hall : forall v t p,
             v = PROTOCOL_VERSION -> json_clean p = true ->
             let m := new_Message uuid (VStr v) (VStr t) p VUndefined in
             id m = VStr uuid /\ validateVersion m = true
             /\ fromJSON other (toJSON m) = Ok m).
  { intros v t p -> Hp m. destruct (Hwf PROTOCOL_VERSION t p Hp) as [Hid Hw].
    split; [exact Hid|]. split; [reflexivity|].
    now apply MsgFacts.fromJSON_toJSON_wf. }
  repeat constructor; try (apply Hall; reflexivity).
  all: unfold createError; cbn [truthy];
    destruct (receivedId =? ""); apply Hall; reflexivity.
Qed.

Lemma factories_round_trip_witness :
  "u-7" <> "" /\
  Forall (fun m => id m = VStr "u-7"
                   /\ validateVersion m = true
                   /\ fromJSON "other" (toJSON m) = Ok m)
    [createConnect "u-7";
     createConnectResponse "u-7" (VStr "0xabc") (VStr "c-1");
     createTxRequest "u-7" 1 "0xdef" (Integer 1000) "0x" 7
                     (Text "4a817c800") (Integer 21000);
     createTxResponse "u-7" (VStr "0xf86c") (VStr "0x5e1d");
     createAck "u-7" (VStr "c-1");
     createError "u-7" (VStr "no") (VStr "c-1");
     createError "u-7" (VStr "no") VUndefined;
     createChunk "u-7" (VStr "c-1") 0 2 "{}" (VStr "ack");
     createChunkAck "u-7" (VStr "c-1") 0].
Proof.
  split; [discriminate|].
  apply (factories_round_trip "u-7" "other" "0xabc" "c-1" "c-1" "no" "c-1"
           "ack" "{}" "0xf86c" "0x5e1d" "0xdef" "0x" 0 2 1 7
           (Integer 1000) (Text "4a817c800") (Integer 21000)).
  discriminate.
Defined.

End ChunkerFacts.

(* ------------------------------------------------------------------ *)
(** ** Hexadecimal spellings and timeouts                               *)
(* ------------------------------------------------------------------ *)

Module ConversionFacts.
Import JS Msg Config Crypto.

Lemma read_hex_digits_of_uint (u : Hexadecimal.uint) (rest : string) :
  read_hex_digits rest = (Hexadecimal.Nil, rest) ->
  read_hex_digits (HexadecimalString.NilEmpty.string_of_uint u ++ rest)
  = (u, rest).
Proof.
  intros H.
  induction u; cbn [HexadecimalString.NilEmpty.string_of_uint append];
    [exact H | cbn [read_hex_digits]; rewrite IHu; reflexivity ..].
Qed.

Lemma parseInt_16_of_hex (p : positive) :
  parseInt_16
    ("0x" ++ HexadecimalString.NilEmpty.string_of_uint (Pos.to_hex_uint p))
  = Some (Zpos p).
Proof.
  unfold parseInt_16.
  change ("0x" ++ ?s) with (String "0" (String "x" s)).
  change (trim_start (String "0" ?s)) with (String "0" s).
  change (strip_sign (String "0" ?s)) with (false, String "0" s).
  cbv iota beta.
  change (strip_0x (String "0" (String "x" ?s))) with s.
  pose proof (read_hex_digits_of_uint (Pos.to_hex_uint p) "" eq_refl) as H.
  rewrite JsonFacts.append_nil_r in H. rewrite H.
  pose proof (HexadecimalPos.Unsigned.to_uint_nonnil p) as Hn.
  pose proof (HexadecimalPos.Unsigned.of_to p) as Hv.
  unfold N.of_hex_uint. rewrite Hv.
  destruct (Pos.to_hex_uint p); [contradiction|reflexivity ..].
Qed.

(** [CryptoUtils.parseHexToNumber(CryptoUtils.numberToHex(n))] is [n] for
    every integer [n >= 0], and NaN for every negative one (the text is
    then [0x-...], in which [parseInt] finds no digit). *)
Theorem parseHexToNumber_numberToHex (n : Z) :
  parseHexToNumber (VStr (numberToHex n))
  = if (0 <=? n)%Z then Some n else None.
Proof.
  unfold parseHexToNumber, numberToHex.
  assert (H0x : forall s, startsWith ("0x" ++ s) "0x" = true)
    by (intros s; unfold startsWith; cbn; now destruct s).
  rewrite H0x.
  destruct n as [|p|p]; cbn [number_to_string_16 Z.leb Z.compare].
  - reflexivity.
  - apply parseInt_16_of_hex.
  - reflexivity.
Qed.

(** The nonce that [MessageProtocol.createTxRequest] writes is read back
    by [parseInt(nonce, 16)], the conversion that
    [TestWallet.signTransaction] applies to it, for every nonce [>= 0]. *)
Theorem createTxRequest_nonce (uuid : string) (chainId : Z) (to : string)
    (value : quantity) (data : string) (nonce : Z)
    (gasPrice gasLimit : quantity) :
  (0 <= nonce)%Z ->
  exists transaction text,
    get (payload (createTxRequest uuid chainId to value data nonce
                                  gasPrice gasLimit)) "transaction"
    = Ok transaction
    /\ get transaction "nonce" = Ok (VStr text)
    /\ parseInt_16 text = Some nonce
    /\ get transaction "chainId" = Ok (VNum chainId).
Proof.
  intros Hn. eexists _, _. split; [reflexivity|]. split; [reflexivity|].
  split; [|reflexivity].
  destruct nonce as [|p|p]; [reflexivity | apply parseInt_16_of_hex | lia].
Qed.

Lemma createTxRequest_nonce_witness :
  (0 <= 26)%Z /\
  exists transaction text,
    get (payload (createTxRequest "u-1" 1 "0xdef" (Integer 1000) "0x" 26
                                  (Text "4a817c800") (Integer 21000)))
        "transaction"
    = Ok transaction
    /\ get transaction "nonce" = Ok (VStr text)
    /\ parseInt_16 text = Some 26%Z
    /\ get transaction "chainId" = Ok (VNum 1).
Proof.
  split; [lia|].
  apply (createTxRequest_nonce "u-1" 1 "0xdef" (Integer 1000) "0x" 26
           (Text "4a817c800") (Integer 21000)). lia.
Defined.

(** *** Timeouts *)

Lemma ceiling_div (x d : Z) :
  (0 < d)%Z -> (- ((- x) / d) = (x + d - 1) / d)%Z.
Proof.
  intros Hd.
  pose proof (Z.div_mod (- x) d ltac:(lia)) as E.
  pose proof (Z.mod_pos_bound (- x) d Hd) as B.
  apply (Z.div_unique_pos _ _ _ (d - 1 - (- x) mod d)%Z); lia.
Qed.

Lemma estimateTransmissionTime_value (messageLength : Z) :
  estimateTransmissionTime messageLength
  = if (messageLength <=? 500000)%Z then 7500%Z
    else ((3 * messageLength + 199) / 200)%Z.
Proof.
  unfold estimateTransmissionTime, QArith_base.Qle_bool.
  cbn [QArith_base.Qnum QArith_base.Qden QArith_base.inject_Z].
  replace (messageLength * 1)%Z with messageLength by lia.
  change (5000 * 100)%Z with 500000%Z.
  destruct (messageLength <=? 500000)%Z; [reflexivity|].
  unfold Qround.Qceiling, Qround.Qfloor, QArith_base.Qopp, QArith_base.Qmult.
  cbn [QArith_base.Qnum QArith_base.Qden Pos.mul].
  change (Z.pos (100 * 2)) with 200%Z.
  rewrite ceiling_div by lia. f_equal. lia.
Qed.

(** [getDynamicTimeout(messageLength, baseTimeout)] is never below the
    base timeout nor below 7500 ms, equals the base timeout when that is
    at least the estimate, and grows with both arguments.  The estimate is
    7500 ms up to 500000 characters and [ceil(3 * length / 200)] above. *)
Theorem getDynamicTimeout_bounds (messageLength baseTimeout : Z) :
  (baseTimeout <= getDynamicTimeout messageLength baseTimeout)%Z
  /\ (7500 <= getDynamicTimeout messageLength baseTimeout)%Z
  /\ estimateTransmissionTime messageLength
     = (if (messageLength <=? 500000)%Z then 7500%Z
        else ((3 * messageLength + 199) / 200)%Z)
  /\ (forall longer later,
        (messageLength <= longer)%Z -> (baseTimeout <= later)%Z ->
        (getDynamicTimeout messageLength baseTimeout
         <= getDynamicTimeout longer later)%Z).
Proof.
  assert (Hlow : forall l, (7500 <= estimateTransmissionTime l)%Z).
  { intros l. rewrite estimateTransmissionTime_value.
    destruct (Z.leb_spec l 500000); [lia|].
    apply Z.div_le_lower_bound; lia. }
  assert (Hmono : forall a b, (a <= b)%Z ->
            (estimateTransmissionTime a <= estimateTransmissionTime b)%Z).
  { intros a b Hab. rewrite (estimateTransmissionTime_value a).
    destruct (Z.leb_spec a 500000); [apply Hlow|].
    rewrite (estimateTransmissionTime_value b).
    destruct (Z.leb_spec b 500000); [lia|].
    apply Z.div_le_mono; lia. }
  unfold getDynamicTimeout. cbv zeta.
  split; [lia|]. split; [specialize (Hlow messageLength); lia|].
  split; [apply estimateTransmissionTime_value|].
  intros longer later Hl Hb. specialize (Hmono _ _ Hl). lia.
Qed.

End ConversionFacts.

(* ------------------------------------------------------------------ *)
(** ** From a sender to a listener                                      *)
(* ------------------------------------------------------------------ *)

Module LoopFacts.
Import JS Msg Config Audio Sample.

Lemma audio_run_app (uuidv4 : nat -> string * string) (a b : list input) :
  forall k st,
    run uuidv4 k st (a ++ b)%list
    = (fst (run uuidv4 (k + List.length a) (fst (run uuidv4 k st a)) b),
       (snd (run uuidv4 k st a)
        ++ snd (run uuidv4 (k + List.length a) (fst (run uuidv4 k st a)) b))%list).
Proof.
  induction a as [|i t IH]; intros k st.
  - cbn [List.app run fst snd List.length]. rewrite Nat.add_0_r.
    now destruct (run uuidv4 k st b).
  - cbn [List.app run List.length].
    destruct (step (uuidv4 k) st i) as [st1 e1].
    rewrite IH. rewrite Nat.add_succ_comm.
    destruct (run uuidv4 (S k) st1 t) as [st2 e2]. cbn [fst snd].
    destruct (run uuidv4 (S k + List.length t) st2 b) as [st3 e3].
    cbn [fst snd]. now rewrite List.app_assoc.
Qed.

(** A listener decodes the text of a well-formed message to that
    message. *)
Lemma step_heard (uuids : string * string) (st : AudioProtocol)
    (m : Message) :
  isListening st = true -> well_formed m = true ->
  step uuids st (Buffer (Some (toJSON m)))
  = match handleReceivedMessage (snd uuids) st m with
    | Ok r => r
    | Throw _ => (st, [])
    end.
Proof.
  intros Hl Hwf. unfold step, onaudioprocess.
  assert (Hlen : (0 <? String.length (toJSON m))%nat = true).
  { pose proof (MsgFacts.toJSON_nonempty m).
    destruct (toJSON m); [congruence|reflexivity]. }
  rewrite Hlen. now rewrite MsgFacts.fromJSON_toJSON_wf.
Qed.

(** What the chunks of a message [E] have in common. *)
Lemma chunk_of_well_formed (E : Message) (total : nat) (uuid : string)
    (index : Z) (chunkData : string) :
  well_formed E = true -> uuid <> "" ->
  let chunk :=
    createChunk uuid (id E) index (Z.of_nat total) chunkData (type E) in
  well_formed chunk = true
  /\ type chunk = VStr MessageType.CHUNK
  /\ payload_get "originalMessageId" chunk = Ok (id E)
  /\ payload_get "totalChunks" chunk = Ok (VNum (Z.of_nat total)).
Proof.
  intros Hwf Hu chunk.
  destruct (MsgFacts.well_formed_inv E Hwf) as (v & t & i & _ & Ht & Hi & _).
  repeat split; try reflexivity.
  unfold chunk, createChunk, new_Message, well_formed, or_else.
  cbn [truthy version type payload id is_string andb].
  apply String.eqb_neq in Hu. rewrite Hu, Hi, Ht. reflexivity.
Qed.

Lemma set_chunkStorage_twice m1 m2 (st : AudioProtocol) :
  set_chunkStorage m2 (set_chunkStorage m1 st) = set_chunkStorage m2 st.
Proof. reflexivity. Qed.

(** While the buffer stays below [total], each heard chunk is appended
    to it. *)
Lemma run_heard_incomplete (uuidv4 : nat -> string * string) (E : Message)
    (total : nat) (chunks : list Message) :
  strict_eq (id E) (id E) = true ->
  Forall (arrives E total) chunks ->
  forall k st,
    isListening st = true ->
    List.length (buffer (id E) st) + List.length chunks < total ->
    run uuidv4 k st (heard (map toJSON chunks))
    = (match chunks with
       | [] => st
       | _ :: _ =>
           set_chunkStorage
             (map_set (id E) (buffer (id E) st ++ chunks)%list
                      (chunkStorage st)) st
       end, []).
Proof.
  intros Hoid HF. induction HF as [|c t (Hwf & Hty & Hc1 & Hc2) _ IH];
    intros k st Hl Hlen; [reflexivity|].
  cbn [heard map run]. rewrite step_heard by assumption.
  unfold handleReceivedMessage. rewrite Hty.
  change (strict_eq (VStr MessageType.CHUNK) (VStr MessageType.CHUNK))
    with true. cbv iota.
  unfold handleChunk. rewrite Hc1, Hc2.
  destruct (MapFacts.get_total _ _ "chunkIndex" _ Hc1) as (idx & Hidx).
  unfold payload_get in *. rewrite Hidx. cbn [bind].
  fold (buffer (id E) st). cbn [strict_eq].
  cbn [List.length] in Hlen.
  assert (En : (Z.of_nat (List.length (buffer (id E) st ++ [c]))
                =? Z.of_nat total)%Z = false).
  { apply Z.eqb_neq. rewrite length_app. cbn [List.length]. lia. }
  rewrite En.
  set (st1 := set_chunkStorage _ st).
  assert (Hb1 : buffer (id E) st1 = (buffer (id E) st ++ [c])%list).
  { unfold buffer at 1, st1. cbn [chunkStorage set_chunkStorage].
    now rewrite MapFacts.map_get_set. }
  fold (heard (map toJSON t)).
  rewrite (IH (S k) st1); [|exact Hl|].
  2:{ rewrite Hb1, length_app. cbn [List.length]. lia. }
  cbn [List.app]. f_equal.
  destruct t as [|c' t']; [reflexivity|].
  rewrite Hb1. unfold st1. cbn [chunkStorage set_chunkStorage].
  rewrite MapFacts.map_set_set by exact Hoid.
  now rewrite <- List.app_assoc.
Qed.

Lemma wrap_chunks_arrive (uuidv4 : nat -> string) (E : Message)
    (total : nat) (strs : list string) :
  well_formed E = true -> (forall i, uuidv4 i <> "") ->
  forall index, Forall (arrives E total) (wrap_chunks uuidv4 E total index strs).
Proof.
  intros Hwf Hu. induction strs as [|d t IH]; intros index;
    cbn [wrap_chunks]; constructor; [|apply IH].
  now apply chunk_of_well_formed.
Qed.

(** What a sender plays, a listener that holds nothing under the id of
    the message turns into exactly one ['message'] event, carrying the
    message, and no chunk is left behind: for a message sent as it is and
    for one sent in chunks. *)
Theorem sendMessage_heard (uuidv4 : nat -> string)
    (ruuids : nat -> string * string) (env : Env)
    (st rst : AudioProtocol) (E : Message) (k : nat) :
  initialize_ok env = true ->
  (forall text, play_ok env text = true) ->
  (shouldChunkMessage (String.length (toJSON E)) (config st) = true ->
   (0 < chunkSize (chunking (config st)))%Z) ->
  (forall i, uuidv4 i <> "") ->
  well_formed E = true ->
  type E <> VStr MessageType.CHUNK ->
  isListening rst = true ->
  map_get (id E) (chunkStorage rst) = None ->
  exists st' effects,
    sendMessage uuidv4 env st E = (st', effects, Ok true)
    /\ run ruuids k rst (heard (played effects)) = (rst, [Emit_message E]).
Proof.
  intros Hinit Hplay Hsize Hu Hwf Hty Hl Hnone.
  destruct (MsgFacts.well_formed_inv E Hwf) as (v & t & i & _ & Ht & Hi & _).
  assert (Hoid : strict_eq (id E) (id E) = true).
  { rewrite Hi. cbn [strict_eq]. apply String.eqb_refl. }
  unfold sendMessage. rewrite Hinit. cbn [negb].
  destruct (shouldChunkMessage _ (config st)) eqn:Hchunk.
  - specialize (Hsize eq_refl).
    set (S := Z.to_nat (chunkSize (chunking (config st)))).
    assert (HS : 0 < S) by (unfold S; lia).
    destruct (MsgFacts.reassemble_delivered uuidv4 (snd (ruuids 0)) E S Hwf HS)
      as (chunks & Hchunks & Hne & _ & _).
    unfold sendChunkedMessage. fold S. rewrite Hchunks.
    destruct (AudioFacts.send_chunks_played env chunks Hplay st)
      as (st' & effects & -> & Hp & _).
    exists st', effects. split; [reflexivity|]. rewrite Hp.
    assert (Harr : Forall (arrives E (List.length chunks)) chunks).
    { unfold chunkMessage in Hchunks.
      destruct (chunk_loop _ _ _ _) as [strs|]; [|discriminate].
      inversion Hchunks; subst chunks.
      rewrite MsgFacts.wrap_chunks_length. now apply wrap_chunks_arrive. }
    destruct (exists_last Hne) as (init & last & ->).
    rewrite map_app. unfold heard. rewrite map_app. fold (heard (map toJSON init)).
    rewrite audio_run_app.
    apply Forall_app in Harr as [Hinit' Hlast].
    inversion Hlast as [|? ? (Hlwf & Hlty & Hl1 & Hl2) _]; subst.
    rewrite length_app in *. cbn [List.length] in *.
    assert (Hb : buffer (id E) rst = []) by (unfold buffer; now rewrite Hnone).
    rewrite (run_heard_incomplete ruuids E _ init Hoid Hinit' k rst Hl)
      by (rewrite Hb; cbn [List.length]; lia).
    cbn [fst snd List.app map run].
    set (st1 := match init with [] => rst | _ :: _ => _ end).
    assert (Hl1' : isListening st1 = true) by (unfold st1; now destruct init).
    assert (Hb1 : buffer (id E) st1 = init).
    { unfold st1. destruct init as [|c0 t0]; [exact Hb|].
      unfold buffer at 1. cbn [chunkStorage set_chunkStorage].
      rewrite MapFacts.map_get_set by exact Hoid. now rewrite Hb. }
    rewrite step_heard by assumption.
    unfold handleReceivedMessage. rewrite Hlty.
    change (strict_eq (VStr MessageType.CHUNK) (VStr MessageType.CHUNK))
      with true. cbv iota.
    unfold handleChunk. rewrite Hl1, Hl2.
    destruct (MapFacts.get_total _ _ "chunkIndex" _ Hl1) as (idx & Hidx).
    unfold payload_get in *. rewrite Hidx. cbn [bind].
    fold (buffer (id E) st1). rewrite Hb1. cbn [strict_eq].
    assert (En : (Z.of_nat (List.length (init ++ [last]))
                  =? Z.of_nat (List.length init + 1))%Z = true).
    { apply Z.eqb_eq. rewrite length_app. reflexivity. }
    rewrite En.
    destruct (MsgFacts.reassemble_delivered uuidv4
                (snd (ruuids (k + List.length (heard (map toJSON init)))))
                E S Hwf HS)
      as (chunks' & Hchunks' & _ & _ & Hany).
    rewrite Hchunks in Hchunks'. inversion Hchunks'; subst chunks'.
    rewrite (Hany _ (Permutation_refl _)). cbn [bind List.app].
    f_equal. unfold st1. destruct init as [|c0 t0].
    + rewrite MapFacts.map_delete_absent by exact Hnone. now destruct rst.
    + cbn [chunkStorage set_chunkStorage].
      rewrite MapFacts.map_delete_set by assumption. now destruct rst.
  - unfold sendSingleMessage. rewrite Hplay.
    eexists _, _. split; [reflexivity|].
    cbn [played heard map run]. rewrite step_heard by assumption.
    unfold handleReceivedMessage. rewrite Ht in *.
    cbn [strict_eq].
    destruct (String.eqb_spec t MessageType.CHUNK) as [->|_];
      [congruence|reflexivity].
Qed.

Lemma sendMessage_heard_witness :
  Audio.initialize_ok fair_env = true /\
  (forall text, Audio.play_ok fair_env text = true) /\
  (shouldChunkMessage (String.length (toJSON demo_request))
     (config small_sender) = true ->
   (0 < chunkSize (chunking (config small_sender)))%Z) /\
  (forall i, demo_ids i <> "") /\
  well_formed demo_request = true /\
  type demo_request <> VStr MessageType.CHUNK /\
  isListening listening = true /\
  map_get (id demo_request) (chunkStorage listening) = None /\
  exists st' effects,
    sendMessage demo_ids fair_env small_sender demo_request
    = (st', effects, Ok true)
    /\ run (fun _ => ("u-1", "u-2")) 0 listening (heard (played effects))
       = (listening, [Emit_message demo_request]).
Proof.
  assert (Hu : forall i, demo_ids i <> "") by (intros i; discriminate).
  assert (Hty : type demo_request <> VStr MessageType.CHUNK) by discriminate.
  assert (Hsize : shouldChunkMessage (String.length (toJSON demo_request))
                    (config small_sender) = true ->
                  (0 < chunkSize (chunking (config small_sender)))%Z)
    by (intros _; reflexivity).
  split; [reflexivity|]. split; [reflexivity|]. split; [exact Hsize|].
  split; [exact Hu|]. split; [reflexivity|]. split; [exact Hty|].
  split; [reflexivity|]. split; [reflexivity|].
  apply (sendMessage_heard demo_ids (fun _ => ("u-1", "u-2")) fair_env
           small_sender listening demo_request 0);
    try reflexivity; assumption.
Defined.

End LoopFacts.

(* ------------------------------------------------------------------ *)
(** ** From an EIP sender to an EIP listener                            *)
(* ------------------------------------------------------------------ *)

Module EipLoopFacts.
Import JS Config Eip EipAudio Sample.

Lemma eip_run_app (fresh : nat -> string) (a b : list input) :
  forall k st,
    run fresh k st (a ++ b)%list
    = (fst (run fresh (k + List.length a) (fst (run fresh k st a)) b),
       (snd (run fresh k st a)
        ++ snd (run fresh (k + List.length a) (fst (run fresh k st a)) b))%list).
Proof.
  induction a as [|i t IH]; intros k st.
  - cbn [List.app run fst snd List.length]. rewrite Nat.add_0_r.
    now destruct (run fresh k st b).
  - cbn [List.app run List.length].
    destruct (step (fresh k) st i) as [st1 e1].
    rewrite IH. rewrite Nat.add_succ_comm.
    destruct (run fresh (S k) st1 t) as [st2 e2]. cbn [fst snd].
    destruct (run fresh (S k + List.length t) st2 b) as [st3 e3].
    cbn [fst snd]. now rewrite List.app_assoc.
Qed.

(** What [validateEIPMessage] accepts. *)
Lemma validate_inv (m : value) :
  validateEIPMessage m = Ok true ->
  exists version type payload id,
    get m "version" = Ok (VStr version)
    /\ get m "type" = Ok (VStr type)
    /\ includes message_types (VStr type) = true
    /\ get m "payload" = Ok payload
    /\ typeof payload = "object"
    /\ get m "id" = Ok id
    /\ (id = VUndefined \/ exists s, id = VStr s).
Proof.
  unfold validateEIPMessage.
  destruct (typeof m =? "object") eqn:Hm; [|discriminate]. cbn [negb].
  destruct (get m "version") as [v|]; [|discriminate]. cbn [bind].
  destruct v as [| | | |v| |]; try discriminate. cbn [typeof negb String.eqb].
  change ("string" =? "string") with true. cbn [negb].
  destruct (get m "type") as [t|]; [|discriminate]. cbn [bind].
  destruct t as [| | | |t| |]; try discriminate.
  change (typeof (VStr t) =? "string") with true. cbn [negb].
  destruct (includes message_types (VStr t)) eqn:Hin; [|discriminate].
  cbn [negb].
  destruct (get m "payload") as [p|]; [|discriminate]. cbn [bind].
  destruct (typeof p =? "object") eqn:Hp; [|discriminate]. cbn [negb].
  destruct (get m "id") as [i|]; [|discriminate]. cbn [bind].
  intros H. exists v, t, p, i. repeat split; try reflexivity; try assumption.
  - now apply String.eqb_eq.
  - destruct i as [| | | |s| |]; try discriminate; [now left|right; now exists s].
Qed.

(** A listener decodes the text of a valid message to that message. *)
Lemma eip_step_heard (fresh : string) (st : EIPAudioProtocol) (m : value)
    (text : string) :
  isListening st = true ->
  json_clean m = true -> stringify m = String "{" text ->
  validateEIPMessage m = Ok true ->
  step fresh st (Buffer (Some (stringify m)))
  = match handleEIPMessage fresh st m with
    | Ok r => r
    | Throw _ => (st, [])
    end.
Proof.
  intros Hl Hc Hs Hv. unfold step, onaudioprocess.
  assert (Hlen : (0 <? String.length (stringify m))%nat = true)
    by (rewrite Hs; reflexivity).
  rewrite Hlen, JsonFacts.JSON_parse_stringify by assumption.
  now rewrite Hv.
Qed.

Section Objects.
Variable fresh : nat -> string.
Variables oid ty : string.
Variable total : nat.

Let objects := chunk_objects fresh (VStr EIP_PROTOCOL_VERSION)
                             (VStr oid) (VStr ty) total.

Lemma chunk_objects_arrive (strs : list string) (i : nat) :
  Forall (arrives (VStr oid) total) (objects i strs).
Proof.
  revert i. induction strs as [|d t IH]; intros i; cbn; constructor;
    [|apply IH].
  unfold arrives. repeat split; try reflexivity. eexists. reflexivity.
Qed.

Lemma chunk_objects_length (strs : list string) (i : nat) :
  List.length (objects i strs) = List.length strs.
Proof.
  revert i. induction strs as [|d t IH]; intros i; [reflexivity|].
  cbn. now rewrite IH.
Qed.

Lemma chunk_objects_keys (strs : list string) (i : nat) :
  map chunk_key (objects i strs) = map Z.of_nat (seq i (List.length strs)).
Proof.
  revert i. induction strs as [|d t IH]; intros i; [reflexivity|].
  cbn [objects chunk_objects map List.length seq]. fold objects.
  now rewrite IH.
Qed.

Lemma chunk_objects_index (strs : list string) (i : nat) (c : value) :
  In c (objects i strs) ->
  payload_get "chunkIndex" c = Ok (VNum (chunk_key c)).
Proof.
  revert i. induction strs as [|d t IH]; intros i; cbn; [tauto|].
  intros [<-|H]; [reflexivity|now apply (IH (S i))].
Qed.

Lemma chunk_objects_keyed (strs : list string) (i : nat) :
  keyed by_chunkIndex chunk_key (objects i strs).
Proof.
  intros a b Ha Hb. unfold by_chunkIndex.
  now rewrite (chunk_objects_index _ _ _ Ha), (chunk_objects_index _ _ _ Hb).
Qed.

Lemma chunk_objects_sorted (strs : list string) (i : nat) :
  sort by_chunkIndex (objects i strs) = objects i strs.
Proof.
  apply SortFacts.sort_of_permutation with (key := chunk_key).
  - apply chunk_objects_keyed.
  - apply MsgFacts.sorted_by_key. rewrite chunk_objects_keys.
    apply MsgFacts.seq_sorted.
  - rewrite chunk_objects_keys. apply MsgFacts.seq_keys_nodup.
  - reflexivity.
Qed.

Lemma chunk_objects_indices (strs : list string) (i : nat) :
  exists vs, Msg.map_result (payload_get "chunkIndex") (objects i strs) = Ok vs.
Proof.
  revert i. induction strs as [|d t IH]; intros i; [now exists []|].
  destruct (IH (S i)) as (vs & Hvs). eexists.
  cbn [objects chunk_objects Msg.map_result]. fold objects.
  rewrite Hvs. reflexivity.
Qed.

Lemma chunk_objects_data (strs : list string) (i : nat) :
  Msg.map_result (payload_get "chunkData") (objects i strs)
  = Ok (map VStr strs).
Proof.
  revert i. induction strs as [|d t IH]; intros i; [reflexivity|].
  cbn [objects chunk_objects Msg.map_result]. fold objects.
  rewrite IH. reflexivity.
Qed.

End Objects.

(** When every chunk can be encoded and played, the loop plays the texts
    of the chunk objects, in order. *)
Lemma eip_send_chunks_objects (fresh : nat -> string) (env : Env)
    (ps : list (string * value)) (version id type : value)
    (total : nat) (strs : list string) :
  (forall text, encode_ok env text = true) ->
  (forall text, start_ok env text = true) ->
  get (VObj ps) "version" = Ok version ->
  get (VObj ps) "id" = Ok id ->
  get (VObj ps) "type" = Ok type ->
  forall i st, exists st' effects,
    send_chunks fresh env st (VObj ps) total i strs = (st', effects, Ok true)
    /\ played effects
       = map stringify (chunk_objects fresh version id type total i strs)
    /\ isListening st' = isListening st.
Proof.
  intros Henc Hstart Hv Hi Ht. induction strs as [|d t IH]; intros i st.
  - exists st, []. repeat split.
  - cbn [send_chunks]. unfold chunk_object. rewrite Hv, Hi, Ht. cbn [bind].
    unfold sendSingleEIPMessage, transmit_begin. rewrite Henc, Hstart.
    cbn [negb transmit_end].
    destruct (IH (S i) (set_isTransmitting false (set_isTransmitting true st)))
      as (st' & effects & -> & Hp & Hl).
    eexists _, _. split; [reflexivity|]. split; [|exact Hl].
    rewrite !EipAudioFacts.played_app. cbn [played List.app].
    assert (E : played match t with [] => [] | _ :: _ => [Delay 1000] end = [])
      by (destruct t; reflexivity).
    rewrite E. cbn [List.app chunk_objects map]. now rewrite Hp.
Qed.

Lemma eip_set_chunkStorage_twice m1 m2 (st : EIPAudioProtocol) :
  set_chunkStorage m2 (set_chunkStorage m1 st) = set_chunkStorage m2 st.
Proof. reflexivity. Qed.

(** A heard chunk reaches [handleChunk]. *)
Lemma eip_step_chunk (fresh : string) (st : EIPAudioProtocol)
    (oid : value) (total : nat) (c : value) :
  isListening st = true -> arrives oid total c ->
  step fresh st (Buffer (Some (stringify c)))
  = match handleChunk st c with
    | Ok r => r
    | Throw _ => (st, [])
    end.
Proof.
  intros Hl (Hc & Hv & Hver & Hty & _ & _ & (text & Hs)).
  rewrite (eip_step_heard fresh st c text) by assumption.
  unfold handleEIPMessage. rewrite Hver. cbn [bind].
  change (isVersionSupported (VStr EIP_PROTOCOL_VERSION)) with true.
  cbn [negb]. rewrite Hty. cbn [bind]. reflexivity.
Qed.

(** While the buffer stays below [total], each heard chunk is appended
    to it. *)
Lemma eip_run_heard_incomplete (fresh : nat -> string) (oid : value)
    (total : nat) (chunks : list value) :
  strict_eq oid oid = true ->
  Forall (arrives oid total) chunks ->
  forall k st,
    isListening st = true ->
    List.length (buffer oid st) + List.length chunks < total ->
    run fresh k st (heard (map stringify chunks))
    = (match chunks with
       | [] => st
       | _ :: _ =>
           set_chunkStorage
             (map_set oid (buffer oid st ++ chunks)%list (chunkStorage st)) st
       end, []).
Proof.
  intros Hoid HF. induction HF as [|c t Hc _ IH];
    intros k st Hl Hlen; [reflexivity|].
  cbn [heard map run]. rewrite (eip_step_chunk _ _ oid total) by assumption.
  destruct Hc as (_ & _ & _ & _ & Hc1 & Hc2 & _).
  unfold handleChunk. rewrite Hc1, Hc2.
  unfold payload_get in *.
  destruct (get c "payload") as [p|]; [|discriminate]. cbn [bind] in *.
  destruct (MapFacts.get_total _ _ "chunkIndex" _ Hc1) as (idx & ->).
  destruct (MapFacts.get_total _ _ "chunkData" _ Hc1) as (data & ->).
  destruct (MapFacts.get_total _ _ "originalType" _ Hc1) as (oty & ->).
  cbn [bind]. fold (buffer oid st). cbn [strict_eq].
  cbn [List.length] in Hlen.
  assert (En : (Z.of_nat (List.length (buffer oid st ++ [c]))
                =? Z.of_nat total)%Z = false).
  { apply Z.eqb_neq. rewrite length_app. cbn [List.length]. lia. }
  rewrite En.
  set (st1 := set_chunkStorage _ st).
  assert (Hb1 : buffer oid st1 = (buffer oid st ++ [c])%list).
  { unfold buffer at 1, st1. cbn [chunkStorage set_chunkStorage].
    now rewrite MapFacts.map_get_set. }
  fold (heard (map stringify t)).
  rewrite (IH (S k) st1); [|exact Hl|].
  2:{ rewrite Hb1, length_app. cbn [List.length]. lia. }
  cbn [List.app]. f_equal.
  destruct t as [|c' t']; [reflexivity|].
  rewrite Hb1. unfold st1. cbn [chunkStorage set_chunkStorage].
  rewrite MapFacts.map_set_set by exact Hoid.
  now rewrite <- List.app_assoc.
Qed.

(** All the chunk objects of a text, heard in any order by a listener
    that holds nothing under the id: the text is parsed and emitted, and
    the storage is as before. *)
Lemma heard_objects (fresh rfresh : nat -> string) (oid ty : string)
    (strs : list string) (delivered : list value) (m : value) (k : nat)
    (rst : EIPAudioProtocol) :
  Permutation delivered
    (chunk_objects fresh (VStr EIP_PROTOCOL_VERSION) (VStr oid) (VStr ty)
                   (List.length strs) 0 strs) ->
  strs <> [] ->
  JSON_parse (join "" strs) = Some m ->
  (exists t, get m "type" = Ok t) ->
  isListening rst = true ->
  map_get (VStr oid) (chunkStorage rst) = None ->
  run rfresh k rst (heard (map stringify delivered))
  = (rst, [Emit_eip_message m]).
Proof.
  intros Hperm Hne Hparse (mty & Hmty) Hl Hnone.
  set (total := List.length strs) in *.
  set (objs := chunk_objects fresh (VStr EIP_PROTOCOL_VERSION) (VStr oid)
                             (VStr ty) total 0 strs) in *.
  assert (Hoid : strict_eq (VStr oid) (VStr oid) = true)
    by (cbn [strict_eq]; apply String.eqb_refl).
  assert (Harr : Forall (arrives (VStr oid) total) delivered).
  { pose proof (chunk_objects_arrive fresh oid ty total strs 0) as H.
    fold objs in H. rewrite Forall_forall in *. intros c Hc.
    apply H. now apply (Permutation_in _ Hperm). }
  assert (Hlen : List.length delivered = total).
  { rewrite (Permutation_length Hperm). apply chunk_objects_length. }
  assert (Hsorted : sort by_chunkIndex delivered = objs).
  { apply SortFacts.sort_of_permutation with (key := chunk_key).
    - apply chunk_objects_keyed.
    - apply MsgFacts.sorted_by_key. unfold objs. rewrite chunk_objects_keys.
      apply MsgFacts.seq_sorted.
    - unfold objs. rewrite chunk_objects_keys. apply MsgFacts.seq_keys_nodup.
    - exact Hperm. }
  assert (Hvs : exists vs,
             Msg.map_result (payload_get "chunkIndex") delivered = Ok vs).
  { apply ChunkerFacts.map_result_defined. intros c Hc. eexists.
    apply (chunk_objects_index fresh oid ty total strs 0).
    now apply (Permutation_in _ Hperm). }
  destruct Hvs as (vs & Hvs).
  assert (Hdata : Msg.map_result (payload_get "chunkData") objs
                  = Ok (map VStr strs)) by apply chunk_objects_data.
  assert (Hdel : delivered <> []).
  { intros E. rewrite E in Hlen. unfold total in Hlen.
    destruct strs; [congruence|discriminate]. }
  destruct (exists_last Hdel) as (init & last & ->).
  rewrite map_app. unfold heard. rewrite map_app.
  fold (heard (map stringify init)). rewrite eip_run_app.
  apply Forall_app in Harr as [Hinit Hlast].
  apply Forall_inv in Hlast as Hla.
  rewrite length_app in Hlen. cbn [List.length] in Hlen.
  assert (Hb : buffer (VStr oid) rst = []) by (unfold buffer; now rewrite Hnone).
  rewrite (eip_run_heard_incomplete rfresh (VStr oid) total init Hoid Hinit
             k rst Hl) by (rewrite Hb; cbn [List.length]; lia).
  cbn [fst snd List.app map run].
  set (st1 := match init with [] => rst | _ :: _ => _ end).
  assert (Hl1 : isListening st1 = true) by (unfold st1; now destruct init).
  assert (Hb1 : buffer (VStr oid) st1 = init).
  { unfold st1. destruct init as [|c0 t0]; [exact Hb|].
    unfold buffer at 1. cbn [chunkStorage set_chunkStorage].
    rewrite MapFacts.map_get_set by exact Hoid. now rewrite Hb. }
  rewrite (eip_step_chunk _ _ (VStr oid) total) by assumption.
  destruct Hla as (_ & _ & _ & _ & Hc1 & Hc2 & _).
  unfold handleChunk. rewrite Hc1, Hc2.
  assert (Hfields : exists idx data oty,
             payload_get "chunkIndex" last = Ok idx
             /\ payload_get "chunkData" last = Ok data
             /\ payload_get "originalType" last = Ok oty).
  { unfold payload_get in *.
    destruct (get last "payload") as [p|]; [|discriminate]. cbn [bind] in *.
    destruct (MapFacts.get_total _ _ "chunkIndex" _ Hc1) as (idx & ->).
    destruct (MapFacts.get_total _ _ "chunkData" _ Hc1) as (data & ->).
    destruct (MapFacts.get_total _ _ "originalType" _ Hc1) as (oty & ->).
    now eexists _, _, _. }
  destruct Hfields as (idx & data & oty & -> & -> & ->). cbn [bind].
  fold (buffer (VStr oid) st1). rewrite Hb1. cbn [strict_eq].
  assert (En : (Z.of_nat (List.length (init ++ [last])) =? Z.of_nat total)%Z
               = true).
  { apply Z.eqb_eq. rewrite length_app. cbn [List.length]. lia. }
  rewrite En, Hvs. cbn [bind]. rewrite Hsorted, Hdata. cbn [bind].
  rewrite MsgFacts.array_join_strings, Hparse, Hmty. cbn [List.app].
  f_equal. unfold st1. destruct init as [|c0 t0].
  - rewrite MapFacts.map_delete_absent by exact Hnone. now destruct rst.
  - cbn [chunkStorage set_chunkStorage].
    rewrite MapFacts.map_delete_set by assumption. now destruct rst.
Qed.

(** A failure reported through [fail] plays nothing. *)
Lemma fail_played (env : Env) (st : EIPAudioProtocol) (effects : list effect)
    (what : string) :
  played (snd (fst (fail env st effects what))) = played effects.
Proof.
  unfold fail. destruct (error_listener env); cbn [fst snd]; [|reflexivity].
  rewrite EipAudioFacts.played_app. cbn [played]. apply List.app_nil_r.
Qed.

(** When every chunk can be encoded and played, the chunked send plays
    the chunk objects in order, and nothing else; its promise resolves
    to [true], unless the listening that it had stopped cannot be
    restarted and no listener takes the error. *)
Lemma chunked_played (fresh : nat -> string) (env : Env)
    (st : EIPAudioProtocol) (ps : list (string * value))
    (version id type : value) (text : string) (strs : list string) :
  initialize_ok env = true ->
  (forall text, encode_ok env text = true) ->
  (forall text, start_ok env text = true) ->
  get (VObj ps) "version" = Ok version ->
  get (VObj ps) "id" = Ok id ->
  get (VObj ps) "type" = Ok type ->
  Msg.chunk_loop (String.length text) text chunk_size 0 = Some strs ->
  exists st' effects r,
    sendChunkedEIPMessage fresh env st (VObj ps) text = (st', effects, r)
    /\ played effects
       = map stringify
             (chunk_objects fresh version id type (List.length strs) 0 strs)
    /\ (r = Ok true
        \/ (isListening st = true /\ microphone_ok env = false
            /\ error_listener env = false /\ exists e, r = Throw e)).
Proof.
  intros Hinit Henc Hstart Hv Hi Ht Hloop.
  unfold sendChunkedEIPMessage. rewrite Hloop. cbn [get].
  destruct (isListening st) eqn:Hl.
  - unfold stopListening. rewrite Hl. cbn [negb].
    destruct (eip_send_chunks_objects fresh env ps version id type
                (List.length strs) strs Henc Hstart Hv Hi Ht 0
                (set_isListening false st))
      as (st2 & effects2 & -> & Hp & Hl2).
    cbn [isListening set_isListening] in Hl2.
    unfold startListening. rewrite Hl2, Hinit. cbn [negb].
    destruct (microphone_ok env) eqn:Hmic; cbn [negb].
    + eexists _, _, _. split; [reflexivity|]. split; [|now left].
      rewrite !EipAudioFacts.played_app. cbn [played List.app].
      now rewrite Hp, List.app_nil_r.
    + unfold fail. destruct (error_listener env) eqn:Hlis.
      * eexists _, _, _. split; [reflexivity|]. split; [|now left].
        rewrite !EipAudioFacts.played_app. cbn [played List.app].
        now rewrite Hp, List.app_nil_r.
      * eexists _, _, _. split; [reflexivity|]. split.
        -- rewrite !EipAudioFacts.played_app. cbn [played List.app].
           now rewrite Hp, List.app_nil_r.
        -- right. repeat split. now eexists.
  - destruct (eip_send_chunks_objects fresh env ps version id type
                (List.length strs) strs Henc Hstart Hv Hi Ht 0 st)
      as (st2 & effects2 & -> & Hp & _).
    eexists _, _, _. split; [reflexivity|]. split; [|now left].
    rewrite !EipAudioFacts.played_app. cbn [played List.app].
    now rewrite Hp, List.app_nil_r.
Qed.

(** A long message, sent in chunks, and its chunks heard in whatever
    order. *)
Lemma chunked_heard (fresh rfresh : nat -> string) (env : Env)
    (st rst : EIPAudioProtocol) (props : list (string * value))
    (oid : string) (k : nat) :
  initialize_ok env = true ->
  (forall text, encode_ok env text = true) ->
  (forall text, start_ok env text = true) ->
  json_clean (VObj props) = true ->
  validateEIPMessage (VObj props) = Ok true ->
  get (VObj props) "version" = Ok (VStr EIP_PROTOCOL_VERSION) ->
  get (VObj props) "id" = Ok (VStr oid) ->
  chunking_threshold < String.length (stringify (VObj props)) ->
  isListening rst = true ->
  map_get (VStr oid) (chunkStorage rst) = None ->
  exists st' effects r,
    sendEIPMessage fresh env st (VObj props) = (st', effects, r)
    /\ (r = Ok true
        \/ (isListening st = true /\ microphone_ok env = false
            /\ error_listener env = false /\ exists e, r = Throw e))
    /\ forall texts,
         Permutation texts (played effects) ->
         run rfresh k rst (heard texts)
         = (rst, [Emit_eip_message (VObj props)]).
Proof.
  intros Hinit Henc Hstart Hclean Hvalid Hver Hoid Hlong Hl Hnone.
  set (message := VObj props) in *.
  set (text := stringify message) in *.
  destruct (validate_inv message Hvalid)
    as (v & ty & p & i & Hv & Ht & _ & _ & _ & _ & _).
  unfold sendEIPMessage. rewrite Hinit. cbn [negb].
  change (JSON_stringify message) with (Some text).
  assert (Hpos : 0 < chunk_size) by (unfold chunk_size; lia).
  destruct (MsgFacts.chunk_loop_joins text chunk_size Hpos
              (String.length text) 0) as (strs & Hloop & Hjoin); [lia|].
  cbn [suffix] in Hjoin.
  destruct (chunked_played fresh env st props _ _ _ text strs
              Hinit Henc Hstart Hver Hoid Ht Hloop)
    as (st' & effects & r & Hsend & Hp & Hr).
  fold message in Hsend. apply Nat.ltb_lt in Hlong as Hb.
  cbv beta iota. rewrite Hb, Hsend.
  exists st', effects, r. split; [reflexivity|]. split; [exact Hr|].
  intros texts Hperm. rewrite Hp in Hperm.
  apply Permutation_map_inv in Hperm as (delivered & -> & Hperm).
  apply (heard_objects fresh rfresh oid ty strs); try assumption.
  - now apply Permutation_sym.
  - intros ->. cbn [join] in Hjoin. subst text. discriminate.
  - rewrite Hjoin. now apply JsonFacts.JSON_parse_stringify.
  - now exists (VStr ty).
Qed.

(** What an EIP sender plays, an EIP listener turns into exactly one
    ['eip-message'] event carrying the message, and no chunk is left
    behind: for a message sent as it is (at most 120 characters) and for
    one sent in chunks.  The promise of the send resolves to [true]; only
    when the sender had to stop its own listening for the chunks, cannot
    reopen the microphone afterwards and has no listener for ['error'] is
    it rejected. *)
Theorem sendEIPMessage_heard (fresh rfresh : nat -> string) (env : Env)
    (st rst : EIPAudioProtocol) (props : list (string * value)) (k : nat) :
  initialize_ok env = true ->
  (forall text, encode_ok env text = true) ->
  (forall text, start_ok env text = true) ->
  json_clean (VObj props) = true ->
  validateEIPMessage (VObj props) = Ok true ->
  get (VObj props) "version" = Ok (VStr EIP_PROTOCOL_VERSION) ->
  get (VObj props) "type" <> Ok (VStr "chunk") ->
  (chunking_threshold < String.length (stringify (VObj props)) ->
   exists oid, get (VObj props) "id" = Ok (VStr oid)
               /\ map_get (VStr oid) (chunkStorage rst) = None) ->
  isListening rst = true ->
  exists st' effects r,
    sendEIPMessage fresh env st (VObj props) = (st', effects, r)
    /\ (r = Ok true
        \/ (isListening st = true /\ microphone_ok env = false
            /\ error_listener env = false /\ exists e, r = Throw e))
    /\ run rfresh k rst (heard (played effects))
       = (rst, [Emit_eip_message (VObj props)]).
Proof.
  intros Hinit Henc Hstart Hclean Hvalid Hver Hty Hid Hl.
  destruct (Nat.ltb_spec chunking_threshold
              (String.length (stringify (VObj props)))) as [Hlong|Hshort].
  - destruct (Hid Hlong) as (oid & Hoid & Hnone).
    destruct (chunked_heard fresh rfresh env st rst props oid k Hinit Henc
                Hstart Hclean Hvalid Hver Hoid Hlong Hl Hnone)
      as (st' & effects & r & Hsend & Hr & Hany).
    exists st', effects, r. split; [exact Hsend|]. split; [exact Hr|].
    now apply Hany.
  - set (message := VObj props) in *.
    set (text := stringify message) in *.
    destruct (validate_inv message Hvalid)
      as (v & ty & p & i & Hv & Ht & _ & _ & _ & _ & _).
    unfold sendEIPMessage. rewrite Hinit. cbn [negb].
    change (JSON_stringify message) with (Some text). cbv beta iota.
    apply Nat.ltb_ge in Hshort as Hb. rewrite Hb.
    unfold sendSingleEIPMessage, transmit_begin. rewrite Henc, Hstart.
    cbn [negb transmit_end].
    eexists _, _, _. split; [reflexivity|]. split; [now left|].
    cbn [List.app played heard map run].
    rewrite (eip_step_heard _ _ message (suffix 1 text)); try assumption;
      [|reflexivity].
    unfold handleEIPMessage. rewrite Hver. cbn [bind].
    change (isVersionSupported (VStr EIP_PROTOCOL_VERSION)) with true.
    cbn [negb]. rewrite Ht in *. cbn [bind strict_eq].
    destruct (String.eqb_spec ty "chunk") as [->|_]; [congruence|reflexivity].
Qed.

Lemma sendEIPMessage_heard_witness :
  initialize_ok fair_eip_env = true /\
  (forall text, encode_ok fair_eip_env text = true) /\
  (forall text, start_ok fair_eip_env text = true) /\
  json_clean (VObj eip_request) = true /\
  validateEIPMessage (VObj eip_request) = Ok true /\
  get (VObj eip_request) "version" = Ok (VStr EIP_PROTOCOL_VERSION) /\
  get (VObj eip_request) "type" <> Ok (VStr "chunk") /\
  (chunking_threshold < String.length (stringify (VObj eip_request)) ->
   exists oid, get (VObj eip_request) "id" = Ok (VStr oid)
               /\ map_get (VStr oid) (chunkStorage eip_listening) = None) /\
  isListening eip_listening = true /\
  exists st' effects r,
    sendEIPMessage demo_ids fair_eip_env new_EIPAudioProtocol
                   (VObj eip_request)
    = (st', effects, r)
    /\ (r = Ok true
        \/ (isListening new_EIPAudioProtocol = true
            /\ microphone_ok fair_eip_env = false
            /\ error_listener fair_eip_env = false
            /\ exists e, r = Throw e))
    /\ run demo_ids 0 eip_listening (heard (played effects))
       = (eip_listening, [Emit_eip_message (VObj eip_request)]).
Proof.
  assert (Hty : get (VObj eip_request) "type" <> Ok (VStr "chunk"))
    by discriminate.
  assert (Hid : chunking_threshold
                < String.length (stringify (VObj eip_request)) ->
                exists oid, get (VObj eip_request) "id" = Ok (VStr oid)
                            /\ map_get (VStr oid) (chunkStorage eip_listening)
                               = None)
    by (intros _; now exists "t-1").
  split; [reflexivity|]. split; [reflexivity|]. split; [reflexivity|].
  split; [reflexivity|]. split; [reflexivity|]. split; [reflexivity|].
  split; [exact Hty|]. split; [exact Hid|]. split; [reflexivity|].
  apply (sendEIPMessage_heard demo_ids demo_ids fair_eip_env
           new_EIPAudioProtocol eip_listening eip_request 0);
    try reflexivity; assumption.
Defined.

(** A message of protocol version 1.0 with a string id, longer than 120
    characters and sent by [sendEIPMessage] when every text can be
    encoded and played: the chunk messages that the sender plays, heard
    in any order by a listener that holds nothing under the id, make it
    emit exactly one ['eip-message'] event, carrying the message, and
    leave its chunk storage as it was. *)
Theorem eip_chunks_heard_in_any_order (fresh rfresh : nat -> string)
    (env : Env) (st rst : EIPAudioProtocol) (props : list (string * value))
    (oid : string) (k : nat) :
  initialize_ok env = true ->
  (forall text, encode_ok env text = true) ->
  (forall text, start_ok env text = true) ->
  json_clean (VObj props) = true ->
  validateEIPMessage (VObj props) = Ok true ->
  get (VObj props) "version" = Ok (VStr EIP_PROTOCOL_VERSION) ->
  get (VObj props) "id" = Ok (VStr oid) ->
  chunking_threshold < String.length (stringify (VObj props)) ->
  isListening rst = true ->
  map_get (VStr oid) (chunkStorage rst) = None ->
  forall texts,
    Permutation texts
      (played (snd (fst (sendEIPMessage fresh env st (VObj props))))) ->
    1 < List.length texts
    /\ run rfresh k rst (heard texts)
       = (rst, [Emit_eip_message (VObj props)]).
Proof.
  intros Hinit Henc Hstart Hclean Hvalid Hver Hoid Hlong Hl Hnone texts Hperm.
  destruct (chunked_heard fresh rfresh env st rst props oid k Hinit Henc
              Hstart Hclean Hvalid Hver Hoid Hlong Hl Hnone)
    as (st' & effects & r & Hsend & _ & Hany).
  rewrite Hsend in Hperm. cbn [fst snd] in Hperm.
  split; [|now apply Hany].
  rewrite (Permutation_length Hperm).
  destruct (EipAudioFacts.sendEIPMessage_carries fresh env st props
              Hinit Henc Hstart) as [_ Hcarry].
  destruct (Hcarry Hlong)
    as (pieces & st2 & effects2 & r2 & Hloop & Hjoin & Hsend2 & Hp & _).
  rewrite Hsend in Hsend2. injection Hsend2 as <- <- <-.
  rewrite (Forall2_length Hp).
  set (text := stringify (VObj props)) in *.
  assert (Hpos : 0 < chunk_size) by (unfold chunk_size; lia).
  assert (Hpieces : Msg.chunk_loop (String.length text) text chunk_size 0
                    = Some (map (Msg.piece text chunk_size)
                              (seq 0 (Msg.number_of_chunks text chunk_size
                                      - 0)))).
  { apply (ChunkerFacts.chunk_loop_pieces text chunk_size Hpos
             (String.length text) 0). lia. }
  assert (E : pieces
              = map (Msg.piece text chunk_size)
                    (seq 0 (Msg.number_of_chunks text chunk_size - 0)))
    by congruence.
  rewrite E, length_map, length_seq, Nat.sub_0_r.
  unfold Msg.number_of_chunks.
  assert (H2 : 2 <= (String.length text + chunk_size - 1) / chunk_size);
    [|lia].
  apply Nat.div_le_lower_bound;
    unfold chunk_size, chunking_threshold in *; lia.
Qed.

Lemma eip_chunks_heard_in_any_order_witness :
  let texts :=
    List.rev
      (played (snd (fst (sendEIPMessage demo_ids fair_eip_env
                           new_EIPAudioProtocol (VObj eip_request))))) in
  1 < List.length texts
  /\ run demo_ids 0 eip_listening (heard texts)
     = (eip_listening, [Emit_eip_message (VObj eip_request)]).
Proof.
  intros texts.
  assert (Hlong : chunking_threshold
                  < String.length (stringify (VObj eip_request)))
    by (apply Nat.ltb_lt; reflexivity).
  apply (eip_chunks_heard_in_any_order demo_ids demo_ids fair_eip_env
           new_EIPAudioProtocol eip_listening eip_request "t-1" 0
           eq_refl (fun _ => eq_refl) (fun _ => eq_refl)
           eq_refl eq_refl eq_refl eq_refl Hlong eq_refl eq_refl).
  apply Permutation_sym, Permutation_rev.
Defined.

(** *** Isolation during a chunked transmission *)

(** A chunked [sendEIPMessage], whatever the surroundings do once the
    audio is initialized: every chunk is played while the instance is not
    listening; afterwards [isTransmitting] is false, and the instance
    listens again exactly when it listened before and the microphone
    could be reopened.  With a listener for ['error'] on the instance the
    promise is never rejected; without one it resolves to [true] or is
    rejected, never to [false]. *)
Theorem sendEIPMessage_chunked_isolation (fresh : nat -> string) (env : Env)
    (st : EIPAudioProtocol) (props : list (string * value)) :
  initialize_ok env = true ->
  chunking_threshold < String.length (stringify (VObj props)) ->
  let r := sendEIPMessage fresh env st (VObj props) in
  plays_unheard (isListening st) (snd (fst r)) = true
  /\ listening_after (isListening st) (snd (fst r))
     = isListening (fst (fst r))
  /\ isListening (fst (fst r)) = isListening st && microphone_ok env
  /\ isTransmitting (fst (fst r)) = false
  /\ (error_listener env = true -> exists ok, snd r = Ok ok)
  /\ (error_listener env = false ->
      snd r = Ok true \/ exists e, snd r = Throw e).
Proof.
  intros Hinit Hlong.
  exact (EipAudioFacts.sendEIPMessage_isolated fresh env st props Hinit Hlong).
Qed.

Lemma sendEIPMessage_chunked_isolation_witness :
  initialize_ok unheard_deaf_eip_env = true /\
  chunking_threshold < String.length (stringify (VObj eip_request)) /\
  let r := sendEIPMessage demo_ids unheard_deaf_eip_env eip_listening
                          (VObj eip_request) in
  plays_unheard (isListening eip_listening) (snd (fst r)) = true
  /\ listening_after (isListening eip_listening) (snd (fst r))
     = isListening (fst (fst r))
  /\ isListening (fst (fst r))
     = isListening eip_listening && microphone_ok unheard_deaf_eip_env
  /\ isTransmitting (fst (fst r)) = false
  /\ (error_listener unheard_deaf_eip_env = true -> exists ok, snd r = Ok ok)
  /\ (error_listener unheard_deaf_eip_env = false ->
      snd r = Ok true \/ exists e, snd r = Throw e).
Proof.
  assert (Hlong : chunking_threshold
                  < String.length (stringify (VObj eip_request)))
    by (apply Nat.ltb_lt; reflexivity).
  split; [reflexivity|]. split; [exact Hlong|].
  apply (sendEIPMessage_chunked_isolation demo_ids unheard_deaf_eip_env
           eip_listening eip_request); [reflexivity|exact Hlong].
Defined.


End EipLoopFacts.

(* ------------------------------------------------------------------ *)
(** ** The transaction side of the message handler                      *)
(* ------------------------------------------------------------------ *)

Module HandlerFacts.
Import JS Eip MessageHandler Sample.

Lemma strict_eq_eq (a b : value) : strict_eq a b = true -> a = b.
Proof.
  destruct a, b; cbn [strict_eq]; try discriminate; intros H;
    try reflexivity.
  - f_equal. now apply Bool.eqb_prop.
  - f_equal. now apply Z.eqb_eq.
  - f_equal. now apply String.eqb_eq.
Qed.

Lemma map_get_absent {V : Type} (k : value) (m : list (value * V)) :
  existsb (fun kv : value * V => strict_eq (fst kv) k) m = false ->
  map_get k m = None.
Proof.
  induction m as [|[k' v] t IH]; [reflexivity|].
  cbn [existsb map_get fst]. intros H.
  apply orb_false_iff in H as [-> H]. now apply IH.
Qed.

Lemma map_get_delete {V : Type} (k : value) (m : list (value * V)) :
  map_unique m = true -> map_get k (map_delete k m) = None.
Proof.
  induction m as [|[k' v] t IH]; [reflexivity|].
  cbn [map_unique map_delete]. intros H.
  apply andb_true_iff in H as [Hk Ht]. apply negb_true_iff in Hk.
  destruct (strict_eq k' k) eqn:E.
  - apply strict_eq_eq in E. subst k'. now apply map_get_absent.
  - cbn [map_get]. rewrite E. now apply IH.
Qed.

Lemma map_get_delete_other {V : Type} (j k : value) (m : list (value * V)) :
  j <> k -> map_get j (map_delete k m) = map_get j m.
Proof.
  intros Hjk. induction m as [|[k' v] t IH]; [reflexivity|].
  cbn [map_delete map_get].
  destruct (strict_eq k' k) eqn:E.
  - apply strict_eq_eq in E. subst k'.
    destruct (strict_eq k j) eqn:E'; [|reflexivity].
    apply strict_eq_eq in E'. congruence.
  - cbn [map_get]. now rewrite IH.
Qed.

Lemma check_required_spec (transaction : value) (fields : list string) :
  check_required transaction fields = Ok tt <->
  forall field, In field fields ->
    exists v, get transaction field = Ok v
              /\ strict_eq v VUndefined = false
              /\ strict_eq v VNull = false.
Proof.
  induction fields as [|f t IH]; cbn [check_required].
  - split; [intros _ ? []|reflexivity].
  - destruct (get transaction f) as [v|e] eqn:Hg; cbn [bind].
    + destruct (strict_eq v VUndefined) eqn:Hu;
        [|destruct (strict_eq v VNull) eqn:Hn]; cbn [orb].
      * split; [discriminate|]. intros H.
        destruct (H f (or_introl eq_refl)) as (v' & Hv' & Hu' & _).
        congruence.
      * split; [discriminate|]. intros H.
        destruct (H f (or_introl eq_refl)) as (v' & Hv' & _ & Hn').
        congruence.
      * rewrite IH. split.
        -- intros H field [<-|Hin]; [now exists v|now apply H].
        -- intros H field Hin. apply H. now right.
    + split; [discriminate|]. intros H.
      destruct (H f (or_introl eq_refl)) as (v' & Hv' & _). congruence.
Qed.

(** [validateTransactionRequest] returns exactly on a request whose
    [transaction] is there, carries a value (neither [undefined] nor
    [null]) under each of the seven required fields, and has a
    [chainId] that is one of the numbers 1, 5 and 11155111.  On every
    other request it throws. *)
Theorem validateTransactionRequest_accepts (txRequest : value) :
  validateTransactionRequest txRequest = Ok tt <->
  exists transaction chainId,
    get txRequest "transaction" = Ok transaction
    /\ truthy transaction = true
    /\ has_required transaction
    /\ get transaction "chainId" = Ok (VNum chainId)
    /\ In chainId Wallet.getSupportedChainIds.
Proof.
  unfold validateTransactionRequest. split.
  - destruct (get txRequest "transaction") as [t|] eqn:Ht; [|discriminate].
    cbn [bind]. destruct (truthy t) eqn:Htr; [|discriminate]. cbn [negb].
    destruct (check_required t required) as [[]|] eqn:Hc; [|discriminate].
    cbn [bind]. destruct (get t "chainId") as [c|] eqn:Hid; [|discriminate].
    cbn [bind].
    destruct (includes_chain Wallet.getSupportedChainIds c) eqn:Hin;
      [|discriminate].
    intros _. apply existsb_exists in Hin as (n & Hn & E).
    apply strict_eq_eq in E. subst c.
    exists t, n. split; [reflexivity|]. split; [exact Htr|].
    split; [|split; assumption].
    unfold has_required. now apply check_required_spec.
  - intros (t & n & -> & Htr & Hreq & Hid & Hin). cbn [bind].
    rewrite Htr. cbn [negb].
    unfold has_required in Hreq.
    apply check_required_spec in Hreq. rewrite Hreq. cbn [bind].
    rewrite Hid. cbn [bind].
    assert (E : includes_chain Wallet.getSupportedChainIds (VNum n) = true).
    { apply existsb_exists. exists n. split; [exact Hin|].
      cbn [strict_eq]. apply Z.eqb_refl. }
    now rewrite E.
Qed.

(** A request built by [MessageProtocol.createTxRequest] carries every
    required field, so [validateTransactionRequest] accepts it exactly
    when its chain id is supported, and otherwise throws the error that
    names the chain id. *)
Theorem createTxRequest_validated (uuid : string) (chainId : Z)
    (to : string) (value : Msg.quantity) (data : string) (nonce : Z)
    (gasPrice gasLimit : Msg.quantity) :
  validateTransactionRequest
    (Msg.payload (Msg.createTxRequest uuid chainId to value data nonce
                                      gasPrice gasLimit))
  = if includes_chain Wallet.getSupportedChainIds (VNum chainId)
    then Ok tt
    else Throw ("Unsupported chain ID: " ++ number_to_string chainId).
Proof. reflexivity. Qed.

Lemma requests_app (a b : list event) :
  requests (a ++ b)%list = (requests a ++ requests b)%list.
Proof.
  induction a as [|e a IH]; [reflexivity|].
  destruct e; cbn [List.app requests]; now rewrite IH.
Qed.

Section Facts.
Context (address : string)
        (getTransactionDetails : value -> result value)
        (signTransaction : value -> result (value * value))
        (sendEIPMessage : value -> result bool)
        (fresh : nat -> string)
        (now : Z).

Let handle := handleEIPMessage address getTransactionDetails sendEIPMessage
                               fresh now.
Let approve := approveTransaction signTransaction sendEIPMessage fresh.
Let reject := rejectTransaction sendEIPMessage fresh.

Lemma connect_requests (n : nat) (message : value) :
  requests (fst (handleConnectRequest address sendEIPMessage fresh n message))
  = [].
Proof.
  unfold handleConnectRequest, Handler.handleConnectRequest.
  destruct (Handler.connect_response address (fresh n) message);
    [|reflexivity].
  destruct (sendEIPMessage _) as [[|]|]; reflexivity.
Qed.

Lemma handle_shape (st : EIPMessageHandler) (message : value)
    (st' : EIPMessageHandler) (events : list event) (r : result unit) :
  handle st message = (st', events, r) ->
  (st' = st /\ events = [])
  \/ exists type ev0 r0,
       get message "type" = Ok type
       /\ dispatch address getTransactionDetails sendEIPMessage fresh now
                   st message type = (st', ev0, r0)
       /\ requests events = requests ev0.
Proof.
  unfold handle, handleEIPMessage.
  destruct (get message "type") as [type|] eqn:Hty;
    [|intros H; left; now inversion H].
  destruct (dispatch address getTransactionDetails sendEIPMessage fresh now
                     st message type) as [[st0 ev0] [u|e]] eqn:Hd.
  - intros H. inversion H; subst. right. now exists type, events, (Ok u).
  - destruct (get message "id") as [id|].
    + cbn. intros H. inversion H; subst. right.
      exists type, ev0, (Throw e). repeat split; [exact Hd|].
      rewrite requests_app. cbn. apply List.app_nil_r.
    + intros H. inversion H; subst. right. now exists type, events, (Throw e).
Qed.

Lemma dispatch_quiet (st : EIPMessageHandler) (message type : value)
    (st' : EIPMessageHandler) (events : list event) (r : result unit) :
  dispatch address getTransactionDetails sendEIPMessage fresh now
           st message type = (st', events, r) ->
  pendingTransactions st' <> pendingTransactions st
  \/ requests events <> [] ->
  type = VStr "tx_request"
  /\ exists txRequest,
       get message "payload" = Ok txRequest
       /\ validateTransactionRequest txRequest = Ok tt.
Proof.
  assert (Hno : forall ev : list event, st' = st -> requests ev = [] ->
                 events = ev ->
                 pendingTransactions st' <> pendingTransactions st
                 \/ requests events <> [] -> False).
  { intros ev -> Hev -> [Hc|Hc]; now elim Hc. }
  unfold dispatch.
  destruct (strict_eq type (VStr "connect")).
  { pose proof (connect_requests 0 message) as Hq.
    destruct (handleConnectRequest _ _ _ 0 message) as [ev0 r0].
    cbn [fst] in Hq. intros H Hc. inversion H; subst.
    exfalso. now apply (Hno events). }
  destruct (strict_eq type (VStr "tx_request")) eqn:Etx.
  { apply strict_eq_eq in Etx. subst type.
    unfold handleTransactionRequest.
    destruct (get message "payload") as [p|] eqn:Hp; cbn [bind].
    2:{ intros H Hc. inversion H; subst. exfalso. now apply (Hno []). }
    destruct (validateTransactionRequest p) as [[]|] eqn:Hv; cbn [bind].
    2:{ intros H Hc. inversion H; subst. exfalso. now apply (Hno []). }
    intros _ _. split; [reflexivity|]. now exists p. }
  destruct (strict_eq type (VStr "ack")).
  { intros H Hc. inversion H; subst. exfalso. now apply (Hno []). }
  destruct (strict_eq type (VStr "error")).
  { destruct (do payload <- get message "payload"; get payload "message");
      intros H Hc; inversion H; subst; exfalso;
      [now apply (Hno [Error (error_text a)])|now apply (Hno [])]. }
  destruct (get message "id") as [id|].
  - cbn. intros H Hc. inversion H; subst. exfalso.
    now apply (Hno [Sent (error_response (fresh 0) id
                            ("Unknown message type: " ++ to_string type))]).
  - intros H Hc. inversion H; subst. exfalso. now apply (Hno []).
Qed.

(** What [handleEIPMessage] does on a message whose request does not
    pass the validation, and that nothing else makes a transaction
    pending: the pending transactions change, or a
    ['transaction-request'] event is emitted, only for a message of type
    [tx_request] whose payload [validateTransactionRequest] accepts; a
    request that it refuses with an error is answered by one error
    response carrying the text of that error and the id of the
    request. *)
Theorem pending_only_if_valid (st : EIPMessageHandler) (message : value) :
  (forall st' events r,
      handle st message = (st', events, r) ->
      pendingTransactions st' <> pendingTransactions st
      \/ requests events <> [] ->
      get message "type" = Ok (VStr "tx_request")
      /\ exists txRequest,
           get message "payload" = Ok txRequest
           /\ validateTransactionRequest txRequest = Ok tt)
  /\ (forall txRequest id e,
        get message "type" = Ok (VStr "tx_request") ->
        get message "payload" = Ok txRequest ->
        get message "id" = Ok id ->
        validateTransactionRequest txRequest = Throw e ->
        fst (handle st message)
        = (st, [Sent (error_response (fresh 1) id e)])).
Proof.
  split.
  - intros st' events r H Hc.
    destruct (handle_shape st message st' events r H)
      as [[-> ->]|(type & ev0 & r0 & Hty & Hd & Hr)].
    + destruct Hc as [Hc|Hc]; now elim Hc.
    + rewrite Hr in Hc.
      destruct (dispatch_quiet st message type st' ev0 r0 Hd Hc) as [-> Hv].
      now split.
  - intros p id e Hty Hp Hid Hv. unfold handle, handleEIPMessage.
    rewrite Hty. unfold dispatch.
    change (strict_eq (VStr "tx_request") (VStr "connect")) with false.
    change (strict_eq (VStr "tx_request") (VStr "tx_request")) with true.
    cbv iota.
    unfold handleTransactionRequest. rewrite Hp. cbn [bind].
    rewrite Hv. cbn [bind]. rewrite Hid. reflexivity.
Qed.

(** Approval and rejection settle a pending transaction once: when
    [approveTransaction] returns (with [true] or with [false]), or
    [rejectTransaction] returns [true], the transaction is no longer
    pending and the other pending transactions are as before, so that
    every later approval or rejection of the same id throws ['Transaction
    not found or already processed'] and does nothing. *)
Theorem settled_once (st : EIPMessageHandler) (messageId : value) :
  map_unique (pendingTransactions st) = true ->
  forall st' events,
    (exists b, approve st messageId = (st', events, Ok b))
    \/ (exists reason, reject st messageId reason = (st', events, Ok true)) ->
    map_get messageId (pendingTransactions st') = None
    /\ (forall other, other <> messageId ->
          map_get other (pendingTransactions st')
          = map_get other (pendingTransactions st))
    /\ approve st' messageId = (st', [], Throw not_found)
    /\ (forall reason,
          reject st' messageId reason = (st', [], Throw not_found)).
Proof.
  intros Hu st' events H.
  assert (Hst : st' = delete_pending messageId st).
  { destruct H as [(b & H)|(reason & H)].
    - unfold approve, approveTransaction in H.
      destruct (map_get messageId (pendingTransactions st)) as [p|];
        [|discriminate].
      destruct (sign_and_send _ _ _ p) as [ev [h|e]]; [now inversion H|].
      destruct (get (message p) "id"); [|discriminate].
      destruct (sendErrorResponse _ _ 1 _ e) as [ev' [u|e']];
        [now inversion H|discriminate].
    - unfold reject, rejectTransaction in H.
      destruct (map_get messageId (pendingTransactions st)) as [p|];
        [|discriminate].
      destruct (get (message p) "id"); [|discriminate].
      destruct (sendErrorResponse _ _ 0 _ _) as [ev' [u|e']];
        [now inversion H|discriminate]. }
  subst st'.
  assert (Hnone : map_get messageId
                    (pendingTransactions (delete_pending messageId st))
                  = None)
    by (cbn [delete_pending pendingTransactions]; now apply map_get_delete).
  split; [exact Hnone|]. split.
  - intros other Ho. cbn [delete_pending pendingTransactions].
    now apply map_get_delete_other.
  - split; [|intros reason];
      [unfold approve, approveTransaction|unfold reject, rejectTransaction];
      now rewrite Hnone.
Qed.

(** A valid transaction request, then its approval: the request becomes
    pending under its id and is announced; when the wallet signs it and
    the answer can be sent, the answer is a [tx_response] that carries
    the raw transaction, its hash and the id of the request, the approval
    is announced, and the pending transactions are as before the
    request. *)
Theorem request_then_approve (st : EIPMessageHandler) (message : value)
    (id : string) (txRequest details raw hash : value) :
  get message "type" = Ok (VStr "tx_request") ->
  get message "id" = Ok (VStr id) -> id <> "" ->
  get message "payload" = Ok txRequest ->
  validateTransactionRequest txRequest = Ok tt ->
  getTransactionDetails txRequest = Ok details ->
  signTransaction txRequest = Ok (raw, hash) ->
  let response :=
    with_id "tx_response"
      (VObj [("signedTransaction", VObj [("raw", raw); ("hash", hash)])])
      id in
  sendEIPMessage response = Ok true ->
  map_get (VStr id) (pendingTransactions st) = None ->
  exists st1,
    handle st message = (st1, [Transaction_request message details], Ok tt)
    /\ getPendingTransactions st1
       = (getPendingTransactions st
          ++ [{| message := message; details := details;
                 timestamp := now |}])%list
    /\ approve st1 (VStr id)
       = (st, [Sent response; Transaction_approved hash], Ok true).
Proof.
  intros Hty Hid Hne Hp Hv Hd Hs response Hsend Hnone.
  assert (Hkey : strict_eq (VStr id) (VStr id) = true)
    by (cbn [strict_eq]; apply String.eqb_refl).
  eexists. split; [|split].
  - unfold handle, handleEIPMessage. rewrite Hty. unfold dispatch.
    change (strict_eq (VStr "tx_request") (VStr "connect")) with false.
    change (strict_eq (VStr "tx_request") (VStr "tx_request")) with true.
    cbv iota. unfold handleTransactionRequest.
    rewrite Hp. cbn [bind]. rewrite Hv. cbn [bind]. rewrite Hd. cbn [bind].
    rewrite Hid. cbn [bind]. reflexivity.
  - unfold getPendingTransactions. cbn [pendingTransactions].
    clear - Hnone. induction (pendingTransactions st) as [|[k v] t IH];
      [reflexivity|].
    cbn [map_get map_set] in *.
    destruct (strict_eq k (VStr id)); [discriminate|].
    cbn [map snd List.app]. now rewrite IH.
  - unfold approve, approveTransaction. cbn [pendingTransactions].
    rewrite MapFacts.map_get_set by exact Hkey.
    unfold sign_and_send. cbn [MessageHandler.message].
    rewrite Hp. cbn [bind]. rewrite Hs. cbn [bind]. rewrite Hid. cbn [bind].
    assert (Hresp : createEIPMessage (fresh 0) (VStr "tx_response")
                      (VObj [("signedTransaction",
                              VObj [("raw", raw); ("hash", hash)])])
                      (VStr id) = response).
    { unfold createEIPMessage, or_else. cbn [strict_eq truthy negb andb orb].
      apply String.eqb_neq in Hne. now rewrite Hne. }
    rewrite Hresp, Hsend. cbn [List.app]. f_equal. f_equal.
    unfold delete_pending. cbn [pendingTransactions].
    rewrite MapFacts.map_delete_set by assumption. now destruct st.
Qed.

End Facts.

Lemma settled_once_witness :
  let st := {| pendingTransactions :=
                 [(VStr "t-1", {| message := VObj eip_request;
                                  details := VNull;
                                  timestamp := 0 |})] |} in
  map_unique (pendingTransactions st) = true /\
  forall st' events,
    (exists b, approveTransaction demo_sign demo_send demo_ids st (VStr "t-1")
               = (st', events, Ok b))
    \/ (exists reason,
          rejectTransaction demo_send demo_ids st (VStr "t-1") reason
          = (st', events, Ok true)) ->
    map_get (VStr "t-1") (pendingTransactions st') = None
    /\ (forall other, other <> VStr "t-1" ->
          map_get other (pendingTransactions st')
          = map_get other (pendingTransactions st))
    /\ approveTransaction demo_sign demo_send demo_ids st' (VStr "t-1")
       = (st', [], Throw not_found)
    /\ (forall reason,
          rejectTransaction demo_send demo_ids st' (VStr "t-1") reason
          = (st', [], Throw not_found)).
Proof.
  intros st. split; [reflexivity|].
  apply (settled_once demo_sign demo_send demo_ids st (VStr "t-1")).
  reflexivity.
Defined.

Lemma request_then_approve_witness :
  let response :=
    with_id "tx_response"
      (VObj [("signedTransaction",
              VObj [("raw", VStr "0xf86c"); ("hash", VStr "0x5e1d")])])
      "t-1" in
  get (VObj eip_request) "type" = Ok (VStr "tx_request") /\
  get (VObj eip_request) "id" = Ok (VStr "t-1") /\ "t-1" <> "" /\
  (exists txRequest,
      get (VObj eip_request) "payload" = Ok txRequest
      /\ validateTransactionRequest txRequest = Ok tt
      /\ demo_details txRequest = Ok txRequest
      /\ demo_sign txRequest = Ok (VStr "0xf86c", VStr "0x5e1d")) /\
  demo_send response = Ok true /\
  map_get (VStr "t-1") (pendingTransactions new_EIPMessageHandler) = None /\
  exists st1,
    handleEIPMessage "0xabc" demo_details demo_send demo_ids 0
                     new_EIPMessageHandler (VObj eip_request)
    = (st1, [Transaction_request (VObj eip_request)
               (VObj [("transaction",
                       VObj [("chainId", VNum 1);
                             ("nonce", VStr "0x0");
                             ("gasPrice", VStr "0x4a817c800");
                             ("gasLimit", VStr "0x5208");
                             ("to", VStr "0x0000000000000000000000000000000000000000");
                             ("value", VStr "0x00");
                             ("data", VStr "0x")])])], Ok tt)
    /\ approveTransaction demo_sign demo_send demo_ids st1 (VStr "t-1")
       = (new_EIPMessageHandler,
          [Sent response; Transaction_approved (VStr "0x5e1d")], Ok true).
Proof.
  intros response.
  assert (Hne : "t-1" <> "") by discriminate.
  split; [reflexivity|]. split; [reflexivity|]. split; [exact Hne|].
  split; [eexists; repeat split; reflexivity|].
  split; [reflexivity|]. split; [reflexivity|].
  destruct (request_then_approve "0xabc" demo_details demo_sign demo_send
              demo_ids 0 new_EIPMessageHandler (VObj eip_request) "t-1"
              _ _ (VStr "0xf86c") (VStr "0x5e1d")
              eq_refl eq_refl Hne eq_refl eq_refl eq_refl eq_refl
              eq_refl eq_refl)
    as (st1 & H1 & _ & H2).
  exists st1. split; [exact H1|exact H2].
Defined.

End HandlerFacts.

(* ------------------------------------------------------------------ *)
(** ** The stored networks                                              *)
(* ------------------------------------------------------------------ *)

Module NetworkFacts.
Import JS Networks Sample.

Lemma custom_clean (n : value) : is_custom n -> json_clean n = true.
Proof. intros (i & nm & u & c & ->). reflexivity. Qed.

Lemma customs_clean (l : list value) :
  Forall is_custom l -> json_clean (VArr l) = true.
Proof.
  cbn [json_clean]. induction 1 as [|n t Hn _ IH]; [reflexivity|].
  cbn [forallb]. now rewrite (custom_clean n Hn), IH.
Qed.

(** The module reads back what it wrote. *)
Lemma holds_read (env : Env) (storage : option string) (customs : list value) :
  getItem_ok env = true -> holds storage customs ->
  getCustomNetworks env storage = customs.
Proof.
  intros Hget [Hc Hs]. unfold getCustomNetworks. rewrite Hget. cbn [negb].
  destruct storage as [stored|]; [|now subst].
  subst stored.
  assert (E : (stringify (VArr customs) =? "") = false) by reflexivity.
  rewrite E, JsonFacts.JSON_parse_stringify; [reflexivity|].
  now apply customs_clean.
Qed.

Lemma holds_saved (env : Env) (customs : list value) (storage' : option string) :
  Forall is_custom customs ->
  saveCustomNetworks env customs = Ok storage' ->
  holds storage' customs.
Proof.
  unfold saveCustomNetworks. intros Hc H.
  destruct (setItem_ok env); [|discriminate]. inversion H; subst.
  now split.
Qed.

Lemma find_none (p : value -> result bool) (l : list value) :
  find p l = Ok None -> forall n, In n l -> p n = Ok false.
Proof.
  induction l as [|a t IH]; cbn [find]; [intros _ ? []|].
  destruct (p a) as [[|]|] eqn:Hp; cbn [bind]; try discriminate.
  intros H n [<-|Hn]; [exact Hp|now apply IH].
Qed.

Lemma find_app_none (p : value -> result bool) (l m : list value) :
  find p l = Ok None -> find p (l ++ m)%list = find p m.
Proof.
  induction l as [|a t IH]; cbn [find List.app]; [reflexivity|].
  destruct (p a) as [[|]|]; cbn [bind]; try discriminate. exact IH.
Qed.

Lemma custom_chainId (n : value) :
  is_custom n -> get n "chainId" = Ok (VNum (chainId_of n)).
Proof. intros (i & nm & u & c & ->). reflexivity. Qed.

Lemma custom_id (n : value) :
  is_custom n -> get n "id" = Ok (VStr (id_of n)).
Proof. intros (i & nm & u & c & ->). reflexivity. Qed.

Lemma all_chainId (env : Env) (storage : option string)
    (customs : list value) (n : value) :
  getItem_ok env = true -> holds storage customs ->
  In n (getAllNetworks env storage) ->
  get n "chainId" = Ok (VNum (chainId_of n)).
Proof.
  intros Hget Hh. unfold getAllNetworks.
  rewrite (holds_read env storage customs Hget Hh).
  intros Hin. apply in_app_or in Hin as [Hin|Hin].
  - cbn in Hin. destruct Hin as [<-|[<-|[<-|[]]]]; reflexivity.
  - destruct Hh as [Hc _]. rewrite Forall_forall in Hc.
    now apply custom_chainId, Hc.
Qed.

(** What a successful [addCustomNetwork] leaves behind. *)
Lemma add_inv (env : Env) (id : string) (storage : option string)
    (name rpcUrl : string) (chainId : Z) (storage' : option string)
    (network : value) :
  addCustomNetwork env id storage name rpcUrl chainId
  = Ok (storage', network) ->
  check_inputs name rpcUrl chainId = Ok tt
  /\ find (has_chainId chainId) (getAllNetworks env storage) = Ok None
  /\ find (has_name name) (getAllNetworks env storage) = Ok None
  /\ network = custom_network id (trim name) (trim rpcUrl) chainId
  /\ saveCustomNetworks env (getCustomNetworks env storage ++ [network])%list
     = Ok storage'.
Proof.
  unfold addCustomNetwork.
  destruct (check_inputs name rpcUrl chainId) as [[]|]; [|discriminate].
  cbn [bind]. unfold check_duplicates.
  destruct (find (has_chainId chainId) _) as [[x|]|]; cbn [bind];
    [destruct (get x "name"); discriminate| |discriminate].
  destruct (find (has_name name) _) as [[y|]|]; cbn [bind]; try discriminate.
  destruct (saveCustomNetworks env _) as [s|] eqn:Hs; [|discriminate].
  cbn [bind]. intros H. inversion H; subst. now repeat split.
Qed.

Lemma add_effect (env : Env) (id : string)
    (storage : option string) (customs : list value)
    (name rpcUrl : string) (chainId : Z)
    (storage' : option string) (network : value) :
  getItem_ok env = true -> holds storage customs ->
  addCustomNetwork env id storage name rpcUrl chainId
  = Ok (storage', network) ->
  holds storage' (customs ++ [network])%list
  /\ getCustomNetworks env storage' = (customs ++ [network])%list.
Proof.
  intros Hget Hh Hadd.
  destruct (add_inv _ _ _ _ _ _ _ _ Hadd) as (_ & _ & _ & Hn & Hs).
  rewrite (holds_read env storage customs Hget Hh) in Hs.
  assert (Hc : Forall is_custom (customs ++ [network])%list).
  { apply Forall_app. split; [apply Hh|]. constructor; [|constructor].
    subst network. now eexists _, _, _, _. }
  assert (Hh' : holds storage' (customs ++ [network])%list)
    by now apply (holds_saved env).
  split; [exact Hh'|]. now apply holds_read.
Qed.

(** After a successful [addCustomNetwork], on a store that the module
    wrote: the new network has the given id, the trimmed name and URL and
    the chain id; it is the last of the custom networks, which are
    otherwise as before; [findNetworkByChainId] finds it; and the
    arguments were acceptable (a name and a URL that are not blank, a
    positive chain id). *)
Theorem addCustomNetwork_stored (env : Env) (id : string)
    (storage : option string) (customs : list value)
    (name rpcUrl : string) (chainId : Z)
    (storage' : option string) (network : value) :
  getItem_ok env = true -> holds storage customs ->
  addCustomNetwork env id storage name rpcUrl chainId
  = Ok (storage', network) ->
  network = custom_network id (trim name) (trim rpcUrl) chainId
  /\ holds storage' (customs ++ [network])%list
  /\ getCustomNetworks env storage' = (customs ++ [network])%list
  /\ findNetworkByChainId env storage' chainId = Ok (Some network)
  /\ trim name <> "" /\ trim rpcUrl <> "" /\ (0 < chainId)%Z.
Proof.
  intros Hget Hh Hadd.
  destruct (add_inv _ _ _ _ _ _ _ _ Hadd) as (Hin & Hchain & _ & Hn & Hs).
  destruct (add_effect env id storage customs name rpcUrl chainId storage'
              network Hget Hh Hadd) as (Hh' & Hread).
  split; [exact Hn|]. split; [exact Hh'|]. split; [exact Hread|]. split.
  - unfold findNetworkByChainId, getAllNetworks. rewrite Hread.
    rewrite List.app_assoc. rewrite find_app_none.
    + subst network. cbn [find has_chainId custom_network get lookup
                           String.eqb Ascii.eqb Bool.eqb bind strict_eq].
      cbn. now rewrite Z.eqb_refl.
    + unfold getAllNetworks in Hchain.
      now rewrite (holds_read env storage customs Hget Hh) in Hchain.
  - unfold check_inputs in Hin.
    destruct (String.eqb_spec (trim name) ""); [discriminate|].
    destruct (String.eqb_spec (trim rpcUrl) ""); [discriminate|].
    destruct (negb _ && negb _); [discriminate|].
    destruct (Z.leb_spec chainId 0); [discriminate|].
    repeat split; assumption.
Qed.

Lemma addCustomNetwork_stored_witness :
  getItem_ok fair_storage = true /\
  holds None [] /\
  addCustomNetwork fair_storage "custom_1" None " Sepolia "
                   "https://rpc.sepolia.org" 11155111
  = Ok (Some (stringify (VArr [sepolia])), sepolia) /\
  sepolia = custom_network "custom_1" (trim " Sepolia ")
                           (trim "https://rpc.sepolia.org") 11155111
  /\ holds (Some (stringify (VArr [sepolia]))) ([] ++ [sepolia])%list
  /\ getCustomNetworks fair_storage (Some (stringify (VArr [sepolia])))
     = ([] ++ [sepolia])%list
  /\ findNetworkByChainId fair_storage (Some (stringify (VArr [sepolia])))
                          11155111 = Ok (Some sepolia)
  /\ trim " Sepolia " <> "" /\ trim "https://rpc.sepolia.org" <> ""
  /\ (0 < 11155111)%Z.
Proof.
  assert (Hh : holds None []) by (split; [constructor|reflexivity]).
  split; [reflexivity|]. split; [exact Hh|]. split; [reflexivity|].
  apply (addCustomNetwork_stored fair_storage "custom_1" None []
           " Sepolia " "https://rpc.sepolia.org" 11155111);
    [reflexivity | exact Hh | reflexivity].
Defined.

(** [addCustomNetwork] keeps the chain ids of the preset and the custom
    networks pairwise different: it succeeds only with a chain id that no
    network has, the preset ones (1, 8453, 56) included. *)
Theorem addCustomNetwork_unique_chainId (env : Env) (id : string)
    (storage : option string) (customs : list value)
    (name rpcUrl : string) (chainId : Z)
    (storage' : option string) (network : value) :
  getItem_ok env = true -> holds storage customs ->
  addCustomNetwork env id storage name rpcUrl chainId
  = Ok (storage', network) ->
  ~ In chainId (map chainId_of (getAllNetworks env storage))
  /\ ~ In chainId [1; 8453; 56]%Z
  /\ (NoDup (map chainId_of (getAllNetworks env storage)) ->
      NoDup (map chainId_of (getAllNetworks env storage'))).
Proof.
  intros Hget Hh Hadd.
  destruct (add_inv _ _ _ _ _ _ _ _ Hadd) as (_ & Hchain & _ & Hn & Hs).
  assert (Hout : ~ In chainId (map chainId_of (getAllNetworks env storage))).
  { intros Hin. apply in_map_iff in Hin as (n & Hc & Hin).
    pose proof (find_none _ _ Hchain n Hin) as Hp.
    unfold has_chainId in Hp.
    rewrite (all_chainId env storage customs n Hget Hh Hin) in Hp.
    cbn [bind strict_eq] in Hp. rewrite Hc, Z.eqb_refl in Hp. discriminate. }
  split; [exact Hout|]. split.
  - intros Hin. apply Hout. unfold getAllNetworks. rewrite map_app.
    apply in_or_app. left. exact Hin.
  - intros Hnd.
    destruct (add_effect env id storage customs name rpcUrl
                chainId storage' network Hget Hh Hadd) as (_ & Hread).
    unfold getAllNetworks in *. rewrite Hread.
    rewrite (holds_read env storage customs Hget Hh) in Hnd, Hout.
    rewrite List.app_assoc, map_app. cbn [map].
    eapply Permutation_NoDup; [apply Permutation_cons_append|].
    constructor; [|exact Hnd]. subst network. exact Hout.
Qed.

Lemma addCustomNetwork_unique_chainId_witness :
  getItem_ok fair_storage = true /\
  holds (Some (stringify (VArr [sepolia]))) [sepolia] /\
  addCustomNetwork fair_storage "custom_2"
    (Some (stringify (VArr [sepolia]))) "Holesky" "https://rpc.holesky.org"
    17000
  = Ok (Some (stringify (VArr [sepolia; holesky])), holesky) /\
  ~ In 17000%Z
       (map chainId_of
            (getAllNetworks fair_storage (Some (stringify (VArr [sepolia])))))
  /\ ~ In 17000%Z [1; 8453; 56]%Z
  /\ (NoDup (map chainId_of
               (getAllNetworks fair_storage
                               (Some (stringify (VArr [sepolia]))))) ->
      NoDup (map chainId_of
               (getAllNetworks fair_storage
                               (Some (stringify (VArr [sepolia; holesky])))))).
Proof.
  assert (Hh : holds (Some (stringify (VArr [sepolia]))) [sepolia]).
  { split; [|reflexivity]. repeat constructor. now eexists _, _, _, _. }
  split; [reflexivity|]. split; [exact Hh|]. split; [reflexivity|].
  apply (addCustomNetwork_unique_chainId fair_storage "custom_2"
           (Some (stringify (VArr [sepolia]))) [sepolia]
           "Holesky" "https://rpc.holesky.org" 17000
           (Some (stringify (VArr [sepolia; holesky]))) holesky);
    [reflexivity | exact Hh | reflexivity].
Defined.

(** *** Deleting *)

Lemma filter_other_id (id : string) (customs : list value) :
  Forall is_custom customs ->
  filter (has_other_id id) customs
  = Ok (List.filter (fun n => negb (id_of n =? id)) customs).
Proof.
  induction 1 as [|n t Hn _ IH]; [reflexivity|].
  cbn [filter List.filter]. unfold has_other_id at 1.
  rewrite (custom_id n Hn). cbn [bind strict_eq]. rewrite IH. cbn [bind].
  now destruct (id_of n =? id).
Qed.

Lemma filter_length_same {A : Type} (f : A -> bool) (l : list A) :
  List.length (List.filter f l) = List.length l ->
  forall a, In a l -> f a = true.
Proof.
  induction l as [|x t IH]; [intros _ ? []|].
  cbn [List.filter]. destruct (f x) eqn:Hx; cbn [List.length].
  - intros H a [<-|Ha]; [exact Hx|]. apply IH; [lia|exact Ha].
  - intros H. pose proof (filter_length_le f t). lia.
Qed.

(** [deleteCustomNetwork(id)] on a store that the module wrote: when it
    returns, the custom networks are the former ones without those of
    that id, in the same order, and at least one is gone; when no custom
    network has that id (an id of a preset network, for one), it throws
    ['Network not found']. *)
Theorem deleteCustomNetwork_removes (env : Env) (storage : option string)
    (customs : list value) (id : string) :
  getItem_ok env = true -> holds storage customs ->
  let kept := List.filter (fun n => negb (id_of n =? id)) customs in
  (forall storage',
      deleteCustomNetwork env storage id = Ok storage' ->
      holds storage' kept
      /\ getCustomNetworks env storage' = kept
      /\ List.length kept < List.length customs
      /\ forall n, In n (getCustomNetworks env storage') -> id_of n <> id)
  /\ ((forall n, In n customs -> id_of n <> id) ->
      deleteCustomNetwork env storage id = Throw "Network not found").
Proof.
  intros Hget Hh kept.
  assert (Hc : Forall is_custom customs) by apply Hh.
  assert (Hk : Forall is_custom kept).
  { unfold kept. rewrite Forall_forall in *. intros n Hn.
    apply filter_In in Hn as [Hn _]. now apply Hc. }
  unfold deleteCustomNetwork.
  rewrite (holds_read env storage customs Hget Hh).
  rewrite (filter_other_id id customs Hc). cbn [bind]. fold kept.
  split.
  - intros storage'.
    destruct (Nat.eqb_spec (List.length kept) (List.length customs)) as [E|E];
      [discriminate|].
    intros Hs.
    assert (Hh' : holds storage' kept) by now apply (holds_saved env).
    assert (Hread : getCustomNetworks env storage' = kept)
      by now apply holds_read.
    split; [exact Hh'|]. split; [exact Hread|]. split.
    + pose proof (filter_length_le (fun n => negb (id_of n =? id)) customs).
      fold kept in H. lia.
    + rewrite Hread. intros n Hn. unfold kept in Hn.
      apply filter_In in Hn as [_ Hn]. apply negb_true_iff in Hn.
      now apply String.eqb_neq.
  - intros Hnone.
    assert (E : kept = customs).
    { unfold kept. apply forallb_filter_id. apply forallb_forall.
      intros n Hn. apply negb_true_iff, String.eqb_neq. now apply Hnone. }
    rewrite E, Nat.eqb_refl. reflexivity.
Qed.

Lemma deleteCustomNetwork_removes_witness :
  getItem_ok fair_storage = true /\
  holds (Some (stringify (VArr [sepolia; holesky]))) [sepolia; holesky] /\
  let kept :=
    List.filter (fun n => negb (id_of n =? "custom_1")) [sepolia; holesky] in
  (forall storage',
      deleteCustomNetwork fair_storage
        (Some (stringify (VArr [sepolia; holesky]))) "custom_1" = Ok storage' ->
      holds storage' kept
      /\ getCustomNetworks fair_storage storage' = kept
      /\ List.length kept < List.length [sepolia; holesky]
      /\ forall n, In n (getCustomNetworks fair_storage storage') ->
                   id_of n <> "custom_1")
  /\ ((forall n, In n [sepolia; holesky] -> id_of n <> "custom_1") ->
      deleteCustomNetwork fair_storage
        (Some (stringify (VArr [sepolia; holesky]))) "custom_1"
      = Throw "Network not found").
Proof.
  assert (Hh : holds (Some (stringify (VArr [sepolia; holesky])))
                     [sepolia; holesky]).
  { split; [|reflexivity]. repeat constructor; now eexists _, _, _, _. }
  split; [reflexivity|]. split; [exact Hh|].
  apply (deleteCustomNetwork_removes fair_storage
           (Some (stringify (VArr [sepolia; holesky]))) [sepolia; holesky]
           "custom_1"); [reflexivity | exact Hh].
Defined.

(** *** Updating *)

Lemma findIndex_id (id : string) (customs : list value) :
  Forall is_custom customs ->
  forall i, findIndex (has_id id) customs = Ok (Some i) ->
    exists old, nth_error customs i = Some old /\ id_of old = id.
Proof.
  induction 1 as [|n t Hn _ IH]; cbn [findIndex]; [discriminate|].
  unfold has_id at 1. rewrite (custom_id n Hn). cbn [bind strict_eq].
  destruct (String.eqb_spec (id_of n) id) as [E|E].
  - intros i H. inversion H; subst. now exists n.
  - destruct (findIndex (has_id id) t) as [[j|]|]; cbn [bind option_map];
      intros i H; inversion H; subst.
    destruct (IH j eq_refl) as (old & Hold & Hid). now exists old.
Qed.

Lemma replace_at_ids (i : nat) (x old : value) (l : list value) :
  nth_error l i = Some old -> id_of old = id_of x ->
  map id_of (replace_at i x l) = map id_of l.
Proof.
  revert i. induction l as [|n t IH]; intros [|i]; cbn; try discriminate.
  - intros H E. inversion H; subst. now rewrite E.
  - intros H E. now rewrite (IH i H E).
Qed.

Lemma replace_at_customs (i : nat) (x : value) (l : list value) :
  is_custom x -> Forall is_custom l -> Forall is_custom (replace_at i x l).
Proof.
  intros Hx Hl. revert i.
  induction Hl as [|n t Hn Ht IH]; intros [|i]; cbn [replace_at];
    try constructor; auto.
Qed.

Lemma replace_at_nth (i : nat) (x old : value) (l : list value) :
  nth_error l i = Some old -> nth_error (replace_at i x l) i = Some x.
Proof.
  revert i. induction l as [|n t IH]; intros [|i]; cbn; try discriminate;
    [reflexivity|apply IH].
Qed.

(** [updateCustomNetwork(id, ...)] on a store that the module wrote: when
    it returns, the first custom network of that id has been replaced, in
    its place, by the network with the same id, the trimmed name and URL
    and the chain id; the custom networks have the same ids in the same
    order as before. *)
Theorem updateCustomNetwork_replaces (env : Env) (storage : option string)
    (customs : list value) (id name rpcUrl : string) (chainId : Z)
    (storage' : option string) (network : value) :
  getItem_ok env = true -> holds storage customs ->
  updateCustomNetwork env storage id name rpcUrl chainId
  = Ok (storage', network) ->
  network = custom_network id (trim name) (trim rpcUrl) chainId
  /\ holds storage' (getCustomNetworks env storage')
  /\ map id_of (getCustomNetworks env storage') = map id_of customs
  /\ exists i old,
       nth_error customs i = Some old /\ id_of old = id
       /\ getCustomNetworks env storage' = replace_at i network customs
       /\ nth_error (getCustomNetworks env storage') i = Some network.
Proof.
  intros Hget Hh. unfold updateCustomNetwork.
  rewrite (holds_read env storage customs Hget Hh).
  assert (Hc : Forall is_custom customs) by apply Hh.
  destruct (findIndex (has_id id) customs) as [[i|]|] eqn:Hi; cbn [bind];
    try discriminate.
  destruct (check_inputs name rpcUrl chainId) as [[]|]; [|discriminate].
  cbn [bind].
  destruct (filter (has_other_id id) _) as [others|]; [|discriminate].
  cbn [bind].
  destruct (check_duplicates others name chainId) as [[]|]; [|discriminate].
  cbn [bind].
  destruct (saveCustomNetworks env _) as [s|] eqn:Hs; [|discriminate].
  cbn [bind]. intros H. inversion H; subst. clear H.
  set (network := custom_network id (trim name) (trim rpcUrl) chainId) in *.
  assert (Hn : is_custom network) by now eexists _, _, _, _.
  destruct (findIndex_id id customs Hc i Hi) as (old & Hold & Hid).
  assert (Hh' : holds storage' (replace_at i network customs)).
  { apply (holds_saved env); [|exact Hs]. now apply replace_at_customs. }
  assert (Hread : getCustomNetworks env storage' = replace_at i network customs)
    by now apply holds_read.
  split; [reflexivity|]. rewrite Hread. split; [exact Hh'|]. split.
  - now apply (replace_at_ids i network old).
  - exists i, old. repeat split; try assumption.
    now apply (replace_at_nth i network old).
Qed.

Lemma updateCustomNetwork_replaces_witness :
  getItem_ok fair_storage = true /\
  holds (Some (stringify (VArr [sepolia; holesky]))) [sepolia; holesky] /\
  let renamed :=
    custom_network "custom_1" "Sepolia test" "https://rpc.sepolia.org"
                   11155111 in
  updateCustomNetwork fair_storage
    (Some (stringify (VArr [sepolia; holesky]))) "custom_1" "Sepolia test"
    "https://rpc.sepolia.org" 11155111
  = Ok (Some (stringify (VArr [renamed; holesky])), renamed) /\
  renamed = custom_network "custom_1" (trim "Sepolia test")
                           (trim "https://rpc.sepolia.org") 11155111
  /\ holds (Some (stringify (VArr [renamed; holesky])))
           (getCustomNetworks fair_storage
              (Some (stringify (VArr [renamed; holesky]))))
  /\ map id_of (getCustomNetworks fair_storage
                  (Some (stringify (VArr [renamed; holesky]))))
     = map id_of [sepolia; holesky]
  /\ exists i old,
       nth_error [sepolia; holesky] i = Some old /\ id_of old = "custom_1"
       /\ getCustomNetworks fair_storage
            (Some (stringify (VArr [renamed; holesky])))
          = replace_at i renamed [sepolia; holesky]
       /\ nth_error (getCustomNetworks fair_storage
                       (Some (stringify (VArr [renamed; holesky])))) i
          = Some renamed.
Proof.
  assert (Hh : holds (Some (stringify (VArr [sepolia; holesky])))
                     [sepolia; holesky]).
  { split; [|reflexivity]. repeat constructor; now eexists _, _, _, _. }
  split; [reflexivity|]. split; [exact Hh|]. intros renamed.
  split; [reflexivity|].
  apply (updateCustomNetwork_replaces fair_storage
           (Some (stringify (VArr [sepolia; holesky]))) [sepolia; holesky]
           "custom_1" "Sepolia test" "https://rpc.sepolia.org" 11155111
           (Some (stringify (VArr [renamed; holesky]))) renamed);
    [reflexivity | exact Hh | reflexivity].
Defined.

End NetworkFacts.

(* ------------------------------------------------------------------ *)
(** ** Messages of eip-config.ts                                        *)
(* ------------------------------------------------------------------ *)

Module EipFacts.
Import JS Eip.

(** Every message that [createEIPMessage] builds for one of the seven
    types, with a payload whose [typeof] is [object] and an id that is
    left out, [null] or a string, passes [validateEIPMessage], has the
    supported version, and carries the given type and payload. *)
Theorem createEIPMessage_valid (fresh type : string) (payload id : value) :
  In type message_types ->
  typeof payload = "object" ->
  id = VUndefined \/ id = VNull \/ (exists s, id = VStr s) ->
  let message := createEIPMessage fresh (VStr type) payload id in
  validateEIPMessage message = Ok true
  /\ (exists version,
        get message "version" = Ok version
        /\ isVersionSupported version = true)
  /\ get message "type" = Ok (VStr type)
  /\ get message "payload" = Ok payload.
Proof.
  intros Hin Hp Hid message.
  assert (Hinc : includes message_types (VStr type) = true).
  { apply existsb_exists. exists type. split; [exact Hin|].
    cbn [strict_eq]. apply String.eqb_refl. }
  assert (Hshape : (exists i, message = with_id type payload i)
                   \/ message = without_id type payload).
  { unfold message, createEIPMessage, or_else.
    destruct Hid as [-> | [-> | (s & ->)]];
      cbn [strict_eq truthy negb andb orb].
    - destruct (type =? "connect"); cbn [negb]; [now right|left].
      now exists fresh.
    - now right.
    - destruct (s =? ""); cbn [negb orb].
      + destruct (type =? "connect"); cbn [negb]; [now right|left].
        now exists fresh.
      + left. now exists s. }
  assert (Hobj : (typeof payload =? "object") = true)
    by now apply String.eqb_eq.
  destruct Hshape as [(i & ->) | ->]; unfold with_id, without_id.
  - repeat split; try reflexivity; [|eexists; split; reflexivity].
    unfold validateEIPMessage.
    change (get (VObj ?ps) "version")
      with (Ok (VStr EIP_PROTOCOL_VERSION)).
    cbn [typeof String.eqb Ascii.eqb Bool.eqb negb bind].
    change (get (VObj [("version", VStr EIP_PROTOCOL_VERSION);
                       ("type", VStr type); ("payload", payload);
                       ("id", VStr i)]) "type") with (Ok (VStr type)).
    cbn [bind typeof String.eqb Ascii.eqb Bool.eqb negb]. rewrite Hinc.
    change (get (VObj [("version", VStr EIP_PROTOCOL_VERSION);
                       ("type", VStr type); ("payload", payload);
                       ("id", VStr i)]) "payload") with (Ok payload).
    cbn [bind negb]. rewrite Hobj. reflexivity.
  - repeat split; try reflexivity; [|eexists; split; reflexivity].
    unfold validateEIPMessage.
    cbn [typeof String.eqb Ascii.eqb Bool.eqb negb bind].
    change (get (VObj [("version", VStr EIP_PROTOCOL_VERSION);
                       ("type", VStr type); ("payload", payload)]) "version")
      with (Ok (VStr EIP_PROTOCOL_VERSION)).
    cbn [typeof String.eqb Ascii.eqb Bool.eqb negb bind].
    change (get (VObj [("version", VStr EIP_PROTOCOL_VERSION);
                       ("type", VStr type); ("payload", payload)]) "type")
      with (Ok (VStr type)).
    cbn [bind typeof String.eqb Ascii.eqb Bool.eqb negb]. rewrite Hinc.
    change (get (VObj [("version", VStr EIP_PROTOCOL_VERSION);
                       ("type", VStr type); ("payload", payload)]) "payload")
      with (Ok payload).
    cbn [bind negb]. rewrite Hobj. reflexivity.
Qed.

Lemma createEIPMessage_valid_witness :
  In "tx_response" message_types /\
  typeof (VObj [("signedTransaction", VNull)]) = "object" /\
  (VStr "t-1" = VUndefined \/ VStr "t-1" = VNull
   \/ (exists s, VStr "t-1" = VStr s)) /\
  let message :=
    createEIPMessage "f-1" (VStr "tx_response")
                     (VObj [("signedTransaction", VNull)]) (VStr "t-1") in
  validateEIPMessage message = Ok true
  /\ (exists version,
        get message "version" = Ok version
        /\ isVersionSupported version = true)
  /\ get message "type" = Ok (VStr "tx_response")
  /\ get message "payload" = Ok (VObj [("signedTransaction", VNull)]).
Proof.
  assert (Hin : In "tx_response" message_types) by (cbn; tauto).
  assert (Hid : VStr "t-1" = VUndefined \/ VStr "t-1" = VNull
                \/ (exists s, VStr "t-1" = VStr s))
    by (right; right; now exists "t-1").
  split; [exact Hin|]. split; [reflexivity|]. split; [exact Hid|].
  exact (createEIPMessage_valid "f-1" "tx_response"
           (VObj [("signedTransaction", VNull)]) (VStr "t-1")
           Hin eq_refl Hid).
Defined.

End EipFacts.

(* ================================================================== *)
(** * class WalletClient                                                *)
(* ================================================================== *)

Module ClientFacts.
Import JS Eip Client.

(** ** The status that the client shows *)

Lemma tracks_nil (st : EipAudio.EIPAudioProtocol) : tracks st [] st.
Proof. now intros status H. Qed.

Lemma tracks_app (st st1 st2 : EipAudio.EIPAudioProtocol)
    (effects1 effects2 : list EipAudio.effect) :
  tracks st effects1 st1 -> tracks st1 effects2 st2 ->
  tracks st (effects1 ++ effects2)%list st2.
Proof.
  intros H1 H2 status H. unfold observe_all. rewrite fold_left_app.
  apply H2, H1, H.
Qed.

Lemma tracks_listening (b : bool) (st : EipAudio.EIPAudioProtocol) :
  tracks st [EipAudio.Emit_listening b] (EipAudio.set_isListening b st).
Proof. intros status [Hl Ht]. split; [reflexivity|exact Ht]. Qed.

Lemma tracks_transmitting (b : bool) (st : EipAudio.EIPAudioProtocol) :
  tracks st [EipAudio.Emit_transmitting b] (EipAudio.set_isTransmitting b st).
Proof. intros status [Hl Ht]. split; [exact Hl|reflexivity]. Qed.

Lemma tracks_silent (st : EipAudio.EIPAudioProtocol)
    (effects : list EipAudio.effect) :
  forallb silent effects = true -> tracks st effects st.
Proof.
  induction effects as [|e rest IH]; intros Hs; [apply tracks_nil|].
  cbn in Hs. apply andb_true_iff in Hs as [He Hr].
  apply (tracks_app st st st [e] rest); [|now apply IH].
  intros status [Hl Ht]. destruct e; try discriminate He; now split.
Qed.

Lemma tracks_same_flags (st st' st'' : EipAudio.EIPAudioProtocol)
    (effects : list EipAudio.effect) :
  EipAudio.isListening st'' = EipAudio.isListening st' ->
  EipAudio.isTransmitting st'' = EipAudio.isTransmitting st' ->
  tracks st effects st' -> tracks st effects st''.
Proof.
  intros Hl Ht H status Hm. destruct (H status Hm) as [H1 H2].
  split; congruence.
Qed.

Lemma tracks_stopListening (st : EipAudio.EIPAudioProtocol) :
  tracks st (snd (EipAudio.stopListening st)) (fst (EipAudio.stopListening st)).
Proof.
  unfold EipAudio.stopListening.
  destruct (negb (EipAudio.isListening st)); cbn [fst snd];
    [apply tracks_nil|apply tracks_listening].
Qed.

Lemma tracks_fail (env : EipAudio.Env) (st st' : EipAudio.EIPAudioProtocol)
    (effects : list EipAudio.effect) (what : string) :
  tracks st effects st' ->
  tracks st (snd (fst (EipAudio.fail env st' effects what)))
         (fst (fst (EipAudio.fail env st' effects what))).
Proof.
  intros H. unfold EipAudio.fail.
  destruct (EipAudio.error_listener env); cbn [fst snd]; [|exact H].
  apply (tracks_app _ _ _ _ _ H). now apply tracks_silent.
Qed.

Lemma tracks_startListening (env : EipAudio.Env)
    (st : EipAudio.EIPAudioProtocol) :
  tracks st (snd (fst (EipAudio.startListening env st)))
         (fst (fst (EipAudio.startListening env st))).
Proof.
  unfold EipAudio.startListening.
  destruct (EipAudio.isListening st); cbn [fst snd]; [apply tracks_nil|].
  destruct (negb (EipAudio.initialize_ok env));
    [apply tracks_fail, tracks_nil|].
  destruct (negb (EipAudio.microphone_ok env));
    [apply tracks_fail, tracks_nil|apply tracks_listening].
Qed.

Lemma tracks_twice (b c : bool) (st : EipAudio.EIPAudioProtocol) :
  tracks st [EipAudio.Emit_transmitting b; EipAudio.Emit_transmitting c]
         (EipAudio.set_isTransmitting c st).
Proof. intros status [Hl Ht]. split; [exact Hl|reflexivity]. Qed.

Lemma tracks_sendSingleEIPMessage (env : EipAudio.Env)
    (st : EipAudio.EIPAudioProtocol) (messageText : string) :
  tracks st (snd (fst (EipAudio.sendSingleEIPMessage env st messageText)))
         (fst (fst (EipAudio.sendSingleEIPMessage env st messageText))).
Proof.
  unfold EipAudio.sendSingleEIPMessage, EipAudio.transmit_begin,
    EipAudio.transmit_end.
  destruct (negb (EipAudio.encode_ok env messageText)).
  { unfold EipAudio.fail.
    destruct (EipAudio.error_listener env); cbn [fst snd List.app].
    - apply (tracks_app _ _ _ [_; _] [_] (tracks_twice true false st)).
      now apply tracks_silent.
    - apply tracks_twice. }
  destruct (negb (EipAudio.start_ok env messageText)); cbn [fst snd].
  { apply tracks_twice. }
  intros status [Hl Ht]. split; [exact Hl|reflexivity].
Qed.

Lemma tracks_send_chunks (fresh : nat -> string) (env : EipAudio.Env)
    (message : value) (total : nat) (chunks : list string) :
  forall (i : nat) (st : EipAudio.EIPAudioProtocol),
    tracks st
      (snd (fst (EipAudio.send_chunks fresh env st message total i chunks)))
      (fst (fst (EipAudio.send_chunks fresh env st message total i chunks))).
Proof.
  induction chunks as [|chunkData rest IH]; intros i st; cbn [EipAudio.send_chunks].
  { apply tracks_nil. }
  destruct (EipAudio.chunk_object _ _ _ _ _) as [chunkMessage|e];
    [|apply tracks_nil].
  pose proof (tracks_sendSingleEIPMessage env st (stringify chunkMessage))
    as Hone.
  destruct (EipAudio.sendSingleEIPMessage env st (stringify chunkMessage))
    as [[st1 effects1] [[|]|e]]; cbn [fst snd] in Hone |- *; try exact Hone.
  specialize (IH (S i) st1).
  destruct (EipAudio.send_chunks fresh env st1 message total (S i) rest)
    as [[st2 effects2] r]; cbn [fst snd] in IH |- *.
  apply (tracks_app _ _ _ _ _ Hone).
  apply (tracks_app st1 st1 st2); [|exact IH].
  apply tracks_silent. now destruct rest.
Qed.

Lemma tracks_sendChunkedEIPMessage (fresh : nat -> string)
    (env : EipAudio.Env) (st : EipAudio.EIPAudioProtocol) (message : value)
    (messageText : string) :
  tracks st
    (snd (fst (EipAudio.sendChunkedEIPMessage fresh env st message messageText)))
    (fst (fst (EipAudio.sendChunkedEIPMessage fresh env st message messageText))).
Proof.
  unfold EipAudio.sendChunkedEIPMessage.
  destruct (Msg.chunk_loop _ _ _ _) as [chunks|];
    [|apply tracks_fail, tracks_nil].
  destruct (get message "id") as [i|e0]; [|apply tracks_fail, tracks_nil].
  assert (H1 : exists st1 effects1,
             (if EipAudio.isListening st then EipAudio.stopListening st
              else (st, [])) = (st1, effects1)
             /\ tracks st effects1 st1).
  { destruct (EipAudio.isListening st).
    - pose proof (tracks_stopListening st) as H.
      destruct (EipAudio.stopListening st) as [st1 effects1].
      now exists st1, effects1.
    - exists st, []. split; [reflexivity|apply tracks_nil]. }
  destruct H1 as (st1 & effects1 & -> & H1).
  pose proof (tracks_send_chunks fresh env message (List.length chunks)
                chunks 0 st1) as H2.
  destruct (EipAudio.send_chunks _ _ st1 _ _ _ _) as [[st2 effects2] sent].
  cbn [fst snd] in H2.
  assert (H3 : exists st3 effects3 restarted,
             (if EipAudio.isListening st
              then let '(st', e, r) := EipAudio.startListening env st2 in
                   (st', EipAudio.Delay 2000 :: e, r)
              else (st2, [], Ok true)) = (st3, effects3, restarted)
             /\ tracks st2 effects3 st3).
  { destruct (EipAudio.isListening st).
    - pose proof (tracks_startListening env st2) as H.
      destruct (EipAudio.startListening env st2) as [[st3 e] r].
      cbn [fst snd] in H. exists st3, (EipAudio.Delay 2000 :: e), r.
      split; [reflexivity|].
      apply (tracks_app st2 st2 st3 [_] e); [now apply tracks_silent|exact H].
    - exists st2, [], (Ok true). split; [reflexivity|apply tracks_nil]. }
  destruct H3 as (st3 & effects3 & restarted & -> & H3).
  assert (H : tracks st (effects1 ++ effects2 ++ effects3)%list st3)
    by apply (tracks_app _ _ _ _ _ H1), (tracks_app _ _ _ _ _ H2), H3.
  cbv zeta.
  destruct restarted as [b|e]; [destruct sent as [b'|e]|];
    try exact H; now apply tracks_fail.
Qed.

Lemma tracks_sendEIPMessage (fresh : nat -> string) (env : EipAudio.Env)
    (st : EipAudio.EIPAudioProtocol) (message : value) :
  tracks st (snd (fst (EipAudio.sendEIPMessage fresh env st message)))
         (fst (fst (EipAudio.sendEIPMessage fresh env st message))).
Proof.
  unfold EipAudio.sendEIPMessage.
  destruct (negb (EipAudio.initialize_ok env));
    [apply tracks_fail, tracks_nil|].
  destruct (JSON_stringify message) as [messageText|]; [|apply tracks_nil].
  destruct (_ <? _)%nat;
    [apply tracks_sendChunkedEIPMessage|apply tracks_sendSingleEIPMessage].
Qed.

Lemma tracks_handleChunk (st : EipAudio.EIPAudioProtocol) (chunk : value)
    (st' : EipAudio.EIPAudioProtocol) (effects : list EipAudio.effect) :
  EipAudio.handleChunk st chunk = Ok (st', effects) -> tracks st effects st'.
Proof.
  unfold EipAudio.handleChunk.
  destruct (EipAudio.payload_get "originalMessageId" chunk); [|discriminate].
  destruct (EipAudio.payload_get "chunkIndex" chunk); [|discriminate].
  destruct (EipAudio.payload_get "totalChunks" chunk); [|discriminate].
  destruct (EipAudio.payload_get "chunkData" chunk); [|discriminate].
  destruct (EipAudio.payload_get "originalType" chunk); [|discriminate].
  cbn [bind].
  destruct (strict_eq _ _).
  - destruct (Msg.map_result (EipAudio.payload_get "chunkIndex") _);
      [|discriminate].
    cbn [bind].
    destruct (Msg.map_result (EipAudio.payload_get "chunkData") _);
      [|discriminate].
    cbn [bind].
    destruct (JSON_parse _) as [originalMessage|];
      [destruct (get originalMessage "type")|]; intros [= <- <-];
      (eapply tracks_same_flags; [| |now apply tracks_silent]; reflexivity).
  - intros [= <- <-].
    eapply tracks_same_flags; [| |apply tracks_nil]; reflexivity.
Qed.

Lemma tracks_onaudioprocess (fresh : string) (st : EipAudio.EIPAudioProtocol)
    (decoded : option string) :
  tracks st (snd (EipAudio.onaudioprocess fresh st decoded))
         (fst (EipAudio.onaudioprocess fresh st decoded)).
Proof.
  unfold EipAudio.onaudioprocess.
  destruct decoded as [text|]; [|apply tracks_nil].
  destruct (0 <? String.length text)%nat; [|apply tracks_nil].
  destruct (JSON_parse text) as [m|]; [|apply tracks_nil].
  destruct (validateEIPMessage m) as [[|]|]; try apply tracks_nil.
  destruct (EipAudio.handleEIPMessage fresh st m) as [[st' effects]|] eqn:Hh;
    [|apply tracks_nil].
  cbn [fst snd]. revert Hh. unfold EipAudio.handleEIPMessage.
  destruct (get m "version") as [v|]; [|discriminate]. cbn [bind].
  destruct (negb (isVersionSupported v)).
  { destruct (get m "id"); [|discriminate]. cbn [bind].
    intros [= <- <-]. now apply tracks_silent. }
  destruct (get m "type") as [ty|]; [|discriminate]. cbn [bind].
  destruct (strict_eq ty _); [apply tracks_handleChunk|].
  intros [= <- <-]. now apply tracks_silent.
Qed.

Lemma tracks_perform (fresh : nat -> string) (env : EipAudio.Env)
    (st : EipAudio.EIPAudioProtocol) (c : call) :
  tracks st (snd (perform fresh env st c)) (fst (perform fresh env st c)).
Proof.
  destruct c as [| |message|decoded]; cbn [perform].
  - apply tracks_startListening.
  - apply tracks_stopListening.
  - apply tracks_sendEIPMessage.
  - unfold EipAudio.step. apply tracks_onaudioprocess.
Qed.

(** Whatever the client asks of its audio protocol, in whatever order and
    whatever the browser does, and whatever is heard in between: the
    status that the client keeps through the ['listening'] and
    ['transmitting'] events shows the flags of the protocol after every
    call, if it did before the first. *)
Theorem audioStatus_mirrors (fresh : nat -> string)
    (calls : list (EipAudio.Env * call)) :
  forall (st : EipAudio.EIPAudioProtocol) (status : AudioStatus),
    mirrors status st ->
    mirrors (observe_all status (snd (perform_all fresh st calls)))
            (fst (perform_all fresh st calls)).
Proof.
  induction calls as [|[env c] rest IH]; intros st status Hm; [exact Hm|].
  cbn [perform_all].
  pose proof (tracks_perform fresh env st c) as H1.
  destruct (perform fresh env st c) as [st1 effects1]. cbn [fst snd] in H1.
  specialize (IH st1).
  destruct (perform_all fresh st1 rest) as [st2 effects2].
  cbn [fst snd] in IH |- *.
  unfold observe_all. rewrite fold_left_app. apply IH, H1, Hm.
Qed.

Lemma audioStatus_mirrors_witness :
  mirrors Sample.idle_status EipAudio.new_EIPAudioProtocol
  /\ mirrors
       (observe_all Sample.idle_status
          (snd (perform_all Sample.demo_ids EipAudio.new_EIPAudioProtocol
                            Sample.client_calls)))
       (fst (perform_all Sample.demo_ids EipAudio.new_EIPAudioProtocol
                         Sample.client_calls)).
Proof.
  assert (H : mirrors Sample.idle_status EipAudio.new_EIPAudioProtocol)
    by (split; reflexivity).
  split; [exact H|].
  exact (audioStatus_mirrors Sample.demo_ids Sample.client_calls
           EipAudio.new_EIPAudioProtocol Sample.idle_status H).
Defined.

(** ** Sending a transaction *)

Lemma broadcasts_app (a b : list action) :
  broadcasts (a ++ b)%list = (broadcasts a ++ broadcasts b)%list.
Proof.
  induction a as [|[] a IH]; cbn [broadcasts List.app]; try exact IH.
  - reflexivity.
  - now rewrite IH.
Qed.

Lemma sends_app (a b : list action) :
  sends (a ++ b)%list = (sends a ++ sends b)%list.
Proof.
  induction a as [|[] a IH]; cbn [sends List.app]; try exact IH.
  - reflexivity.
  - now rewrite IH.
Qed.

Lemma waitForEIPMessage_heard (emitted : list value) (expectedType : string) :
  truthy (waitForEIPMessage emitted expectedType) = true ->
  In (waitForEIPMessage emitted expectedType) emitted
  /\ get (waitForEIPMessage emitted expectedType) "type"
     = Ok (VStr expectedType).
Proof.
  unfold waitForEIPMessage.
  destruct (List.find _ emitted) as [message|] eqn:Hf; [|discriminate].
  intros _. apply List.find_some in Hf as [Hin Ht]. split; [exact Hin|].
  unfold has_type in Ht. destruct (get message "type") as [ty|];
    [|discriminate].
  destruct ty; try discriminate Ht. cbn in Ht.
  apply String.eqb_eq in Ht. now subst.
Qed.

Lemma raw_of_inv (response raw : value) :
  raw_of response = Ok (Some raw) ->
  truthy raw = true
  /\ exists payload signedTransaction,
       get response "payload" = Ok payload
       /\ get payload "signedTransaction" = Ok signedTransaction
       /\ get signedTransaction "raw" = Ok raw.
Proof.
  unfold raw_of.
  destruct (get response "payload") as [payload|] eqn:Hp; [|discriminate].
  cbn [bind]. destruct (negb (truthy payload)); [discriminate|].
  destruct (get payload "signedTransaction") as [signed|] eqn:Hs;
    [|discriminate].
  cbn [bind]. destruct (negb (truthy signed)); [discriminate|].
  destruct (get signed "raw") as [raw'|] eqn:Hr; [|discriminate]. cbn [bind].
  destruct (truthy raw') eqn:Ht; [|discriminate].
  intros [= <-]. split; [exact Ht|]. now exists payload, signed.
Qed.

Section Facts.
Context (fresh : string)
        (sendEIPMessage : value -> result bool)
        (emitted : string -> Z -> list value)
        (broadcastTransaction : value -> result value)
        (waitForTransaction : value -> Z -> result value).

Let send := sendTransactionRequest fresh sendEIPMessage emitted
              broadcastTransaction waitForTransaction.

(** The call failed without a broadcast. *)
Let refused (before : list action) (r : list action * TransactionResponse)
  : Prop :=
  broadcasts (fst r) = [] /\ (exists rest, fst r = (before ++ rest)%list
                                           /\ sends rest = [])
  /\ success (snd r) = false /\ hash (snd r) = VStr ""
  /\ failure (snd r) <> None.

(** [raw] was broadcast, and the call reports what came of it. *)
Let sent (before : list action) (raw : value)
    (r : list action * TransactionResponse) : Prop :=
  broadcasts (fst r) = [raw] /\ sends (fst r) = sends before
  /\ match broadcastTransaction raw with
     | Ok txHash =>
         success (snd r) = true /\ hash (snd r) = txHash
         /\ failure (snd r) = None
     | Throw e =>
         success (snd r) = false /\ hash (snd r) = VStr ""
         /\ failure (snd r) = Some e
     end.

Lemma failed_refused (before : list action) (what : string) :
  broadcasts before = [] -> refused before (failed before what).
Proof.
  intros Hb. unfold refused, failed. cbn [fst snd success hash failure].
  repeat split; try assumption; try discriminate.
  exists []. now rewrite List.app_nil_r.
Qed.

Lemma broadcast_sent (before : list action) (raw : value) :
  broadcasts before = [] ->
  sent before raw
       (broadcast broadcastTransaction waitForTransaction before raw).
Proof.
  intros Hb. unfold sent, broadcast.
  destruct (broadcastTransaction raw) as [txHash|e].
  - cbn [fst snd success hash failure].
    assert (Hcore : forall tail,
               broadcasts tail = [] -> sends tail = [] ->
               broadcasts (((before ++ [Broadcast raw])
                            ++ [Emit_transactionSent txHash;
                                Confirm txHash
                                  (Config.transactionConfirmation
                                     (Config.timeouts Config.EIP_AUDIO_CONFIG))])
                           ++ tail)%list = [raw]
               /\ sends (((before ++ [Broadcast raw])
                          ++ [Emit_transactionSent txHash;
                              Confirm txHash
                                (Config.transactionConfirmation
                                   (Config.timeouts Config.EIP_AUDIO_CONFIG))])
                         ++ tail)%list = sends before).
    { intros tail Hbt Hst.
      rewrite !broadcasts_app, !sends_app, Hb, Hbt, Hst.
      cbn [broadcasts sends List.app]. now rewrite !List.app_nil_r. }
    destruct (waitForTransaction txHash _) as [receipt|e].
    + destruct (truthy receipt).
      * destruct (Hcore [Emit_transactionConfirmed receipt] eq_refl eq_refl)
          as [H1 H2].
        repeat split; assumption.
      * destruct (Hcore [] eq_refl eq_refl) as [H1 H2].
        rewrite List.app_nil_r in H1, H2. repeat split; assumption.
    + destruct (Hcore [] eq_refl eq_refl) as [H1 H2].
      rewrite List.app_nil_r in H1, H2. repeat split; assumption.
  - unfold failed. cbn [fst snd success hash failure].
    rewrite broadcasts_app, sends_app, Hb. cbn [broadcasts sends List.app].
    now rewrite List.app_nil_r.
Qed.

Lemma await_response_outcome (before : list action) (txRequest : value) :
  broadcasts before = [] ->
  let r := await_response emitted broadcastTransaction waitForTransaction
             before txRequest in
  refused before r
  \/ exists response raw timeout,
       In response (emitted "tx_response" timeout)
       /\ get response "type" = Ok (VStr "tx_response")
       /\ raw_of response = Ok (Some raw)
       /\ sent before raw r.
Proof.
  intros Hb. cbv zeta. unfold await_response.
  destruct (JSON_stringify txRequest) as [txRequestJson|];
    [|left; now apply failed_refused].
  set (dynamicTimeout := Z.max _ _).
  assert (Hadd : forall what,
             refused before
               (failed (before ++ [Wait "tx_response" dynamicTimeout]) what)).
  { intros what. unfold refused, failed. cbn [fst snd success hash failure].
    rewrite broadcasts_app, Hb.
    repeat split; try reflexivity; try discriminate.
    now exists [Wait "tx_response" dynamicTimeout]. }
  destruct (truthy (wait emitted "tx_response" dynamicTimeout)) eqn:Ht;
    cbn [negb]; [|left; apply Hadd].
  apply waitForEIPMessage_heard in Ht as [Hin Hty].
  fold (wait emitted "tx_response" dynamicTimeout) in Hin, Hty.
  destruct (raw_of (wait emitted "tx_response" dynamicTimeout))
    as [[raw|]|e] eqn:Hraw; try (left; apply Hadd).
  right. exists (wait emitted "tx_response" dynamicTimeout), raw,
    (effectiveTimeout dynamicTimeout).
  repeat split; try assumption.
  - apply broadcast_sent. now rewrite broadcasts_app, Hb.
  - pose proof (broadcast_sent (before ++ [Wait "tx_response" dynamicTimeout])
                  raw) as H.
    destruct H as (_ & H & _); [now rewrite broadcasts_app, Hb|].
    rewrite H, sends_app. cbn [sends]. now rewrite List.app_nil_r.
  - apply broadcast_sent. now rewrite broadcasts_app, Hb.
Qed.

(** [sendTransactionRequest] hands to the provider at most one
    transaction, and only the text found under
    [payload.signedTransaction.raw] of a message of type [tx_response]
    that was heard after the connect message and the request had both
    been sent; it reports success exactly when the provider accepted
    that transaction, with the hash that the provider returned, whether a
    confirmation arrives or not; in every other case it returns the
    empty hash with an error text. *)
Theorem sendTransactionRequest_broadcasts (txRequest : value) :
  let actions := fst (send txRequest) in
  let r := snd (send txRequest) in
  let connect :=
    createEIPMessage fresh (VStr "connect") (VObj []) VUndefined in
  (broadcasts actions = []
   \/ exists response payload signedTransaction raw timeout,
        broadcasts actions = [raw]
        /\ In response (emitted "tx_response" timeout)
        /\ get response "type" = Ok (VStr "tx_response")
        /\ get response "payload" = Ok payload
        /\ get payload "signedTransaction" = Ok signedTransaction
        /\ get signedTransaction "raw" = Ok raw
        /\ sends actions = [connect; txRequest]
        /\ sendEIPMessage connect = Ok true
        /\ sendEIPMessage txRequest = Ok true)
  /\ (success r = true <->
      exists raw,
        broadcasts actions = [raw]
        /\ broadcastTransaction raw = Ok (hash r))
  /\ (success r = true -> failure r = None)
  /\ (success r = false -> hash r = VStr "" /\ failure r <> None).
Proof.
  cbv zeta.
  set (connect := createEIPMessage fresh (VStr "connect") (VObj []) VUndefined).
  assert (Hrefused : forall before r,
             refused before r ->
             (broadcasts (fst r) = [] \/
              exists response payload signedTransaction raw timeout,
                broadcasts (fst r) = [raw]
                /\ In response (emitted "tx_response" timeout)
                /\ get response "type" = Ok (VStr "tx_response")
                /\ get response "payload" = Ok payload
                /\ get payload "signedTransaction" = Ok signedTransaction
                /\ get signedTransaction "raw" = Ok raw
                /\ sends (fst r) = [connect; txRequest]
                /\ sendEIPMessage connect = Ok true
                /\ sendEIPMessage txRequest = Ok true)
             /\ (success (snd r) = true <->
                 exists raw,
                   broadcasts (fst r) = [raw]
                   /\ broadcastTransaction raw = Ok (hash (snd r)))
             /\ (success (snd r) = true -> failure (snd r) = None)
             /\ (success (snd r) = false ->
                 hash (snd r) = VStr "" /\ failure (snd r) <> None)).
  { intros before r (Hb & _ & Hs & Hh & Hf). split; [now left|]. split.
    - split; [congruence|]. intros (raw & Hr & _). congruence.
    - split; [congruence|]. now intros _. }
  unfold send, sendTransactionRequest. fold connect.
  destruct (sendEIPMessage connect) as [[|]|e] eqn:Hc;
    try (apply (Hrefused [Send connect]); now apply failed_refused).
  set (before := [Send connect; Wait "connect_response" _]).
  destruct (negb (truthy (wait emitted "connect_response" _)));
    [apply (Hrefused before); now apply failed_refused|].
  destruct (bind _ _) as [address|e];
    [|apply (Hrefused before); now apply failed_refused].
  set (before' := if truthy address then _ else before).
  assert (Hb' : broadcasts before' = [] /\ sends before' = [connect]).
  { unfold before'. now destruct (truthy address). }
  destruct Hb' as [Hb' Hs'].
  assert (Hb2 : broadcasts (before' ++ [Send txRequest])%list = [])
    by now rewrite broadcasts_app, Hb'.
  destruct (sendEIPMessage txRequest) as [[|]|e] eqn:Ht;
    try (apply (Hrefused (before' ++ [Send txRequest])%list);
         now apply failed_refused).
  destruct (await_response_outcome (before' ++ [Send txRequest])%list
              txRequest Hb2)
    as [H|(response & raw & timeout & Hin & Hty & Hraw & Hbr & Hse & Hres)];
    [now apply (Hrefused (before' ++ [Send txRequest])%list)|].
  apply raw_of_inv in Hraw as (_ & payload & signed & Hp & Hsg & Hr).
  rewrite sends_app, Hs' in Hse. cbn [sends List.app] in Hse.
  split.
  { right. exists response, payload, signed, raw, timeout.
    repeat split; assumption. }
  destruct (broadcastTransaction raw) as [txHash|e] eqn:Hbt.
  - destruct Hres as (Hsu & Hh & Hf). split; [|split].
    + split; [|now intros _]. intros _. exists raw.
      split; [exact Hbr|]. now rewrite Hh.
    + now intros _.
    + congruence.
  - destruct Hres as (Hsu & Hh & Hf). split; [|split].
    + split; [congruence|]. intros (raw' & Hr' & Hok).
      rewrite Hbr in Hr'. injection Hr' as <-. congruence.
    + congruence.
    + intros _. split; [exact Hh|]. now rewrite Hf.
Qed.

End Facts.
End ClientFacts.
